(** * semstr: dependency converter ([semstr/conversion/dep.py])

    A shallow embedding of the dependency graph model of
    [DependencyConverter] (classes [Node], [Edge], [Token]) and of the
    algorithms working on it, together with the properties claimed for them.

    Python objects live in a heap: a [Store] holds every [Node] and every
    [Edge]; an object reference is the index of the object in the store.
    A Python exception is the [Raise] outcome of the [result] monad; loops
    and recursions that Python runs unboundedly take a fuel argument and
    answer [OutOfFuel] when it is used up. *)

From Stdlib Require Import ZArith Lia Ascii Sorted.
From stdpp Require Import base tactics option strings numbers relations list.

Local Open Scope Z_scope.

(** ** Outcomes of running Python code *)

Inductive exn : Set :=
| AttributeError | IndexError | ValueError | KeyError | TypeError
| RuntimeError
| DanglingRef (* a reference outside the store: no Python counterpart *).

Inductive result (A : Type) : Type :=
| Ok (a : A)
| Raise (e : exn)
| OutOfFuel.
Arguments Ok {A} a.
Arguments Raise {A} e.
Arguments OutOfFuel {A}.

Definition bind {A B} (m : result A) (f : A -> result B) : result B :=
  match m with
  | Ok a => f a
  | Raise e => Raise e
  | OutOfFuel => OutOfFuel
  end.

Notation "'let*' x ':=' m 'in' k" := (bind m (fun x => k))
  (at level 10, x pattern, m at level 100, k at level 200).

Definition of_option {A} (o : option A) (e : exn) : result A :=
  match o with Some a => Ok a | None => Raise e end.

(** ** Data model *)

(** References: the index of the object in its store. *)
Abbreviation node_id := nat.
Abbreviation edge_id := nat.
Abbreviation unit_id := nat.

(** [Edge.head_index] holds an integer, or a string before linking
    (a copy-node reference such as "3.1"). *)
Inductive head_ref : Set :=
| HInt (i : Z)
| HStr (s : string).

Record Token : Set := mkToken {
  text : string;
  tag : string;
  lemma : string;
  pos : string;
  features : string;
  paragraph : option Z
}.

Record Node : Set := mkNode {
  position : Z;
  incoming : list edge_id;
  outgoing : list edge_id;
  token : option Token;
  terminal : option Z;      (* the terminal of the passage, by its position *)
  is_head : bool;
  is_top : bool;
  is_multi_word : bool;
  parent_multi_word : option node_id;
  node : option unit_id;
  level : option Z;
  preterminal : option unit_id;
  heads_visited : list node_id;
  frame : string;
  enhanced : string;
  misc : string;
  span : option (list Z)
}.

Record Edge : Set := mkEdge {
  head_index : head_ref;
  rel : string;
  remote : bool;
  _head : option node_id;
  _dependent : option node_id
}.

Record Store : Set := mkStore {
  nodes : list Node;
  edges : list Edge
}.

(** Attribute assignment on one object. *)
Definition with_incoming (l : list edge_id) (N : Node) : Node :=
  mkNode (position N) l (outgoing N) (token N) (terminal N) (is_head N)
    (is_top N) (is_multi_word N) (parent_multi_word N) (node N) (level N)
    (preterminal N) (heads_visited N) (frame N) (enhanced N) (misc N) (span N).
Definition with_outgoing (l : list edge_id) (N : Node) : Node :=
  mkNode (position N) (incoming N) l (token N) (terminal N) (is_head N)
    (is_top N) (is_multi_word N) (parent_multi_word N) (node N) (level N)
    (preterminal N) (heads_visited N) (frame N) (enhanced N) (misc N) (span N).
Definition with_level (l : option Z) (N : Node) : Node :=
  mkNode (position N) (incoming N) (outgoing N) (token N) (terminal N)
    (is_head N) (is_top N) (is_multi_word N) (parent_multi_word N) (node N) l
    (preterminal N) (heads_visited N) (frame N) (enhanced N) (misc N) (span N).
Definition with_heads_visited (l : list node_id) (N : Node) : Node :=
  mkNode (position N) (incoming N) (outgoing N) (token N) (terminal N)
    (is_head N) (is_top N) (is_multi_word N) (parent_multi_word N) (node N)
    (level N) (preterminal N) l (frame N) (enhanced N) (misc N) (span N).
Definition with_parent_multi_word (m : option node_id) (N : Node) : Node :=
  mkNode (position N) (incoming N) (outgoing N) (token N) (terminal N)
    (is_head N) (is_top N) (is_multi_word N) m (node N)
    (level N) (preterminal N) (heads_visited N) (frame N) (enhanced N)
    (misc N) (span N).

Definition with_head_index (h : head_ref) (E : Edge) : Edge :=
  mkEdge h (rel E) (remote E) (_head E) (_dependent E).
Definition with_remote (b : bool) (E : Edge) : Edge :=
  mkEdge (head_index E) (rel E) b (_head E) (_dependent E).
Definition with__head (h : option node_id) (E : Edge) : Edge :=
  mkEdge (head_index E) (rel E) (remote E) h (_dependent E).
Definition with__dependent (d : option node_id) (E : Edge) : Edge :=
  mkEdge (head_index E) (rel E) (remote E) (_head E) d.

(** Reading and writing objects of the store. *)
Definition get_node (s : Store) (n : node_id) : result Node :=
  of_option (nodes s !! n) DanglingRef.
Definition get_edge (s : Store) (e : edge_id) : result Edge :=
  of_option (edges s !! e) DanglingRef.
Definition put_node (s : Store) (n : node_id) (N : Node) : Store :=
  mkStore (<[n := N]> (nodes s)) (edges s).
Definition put_edge (s : Store) (e : edge_id) (E : Edge) : Store :=
  mkStore (nodes s) (<[e := E]> (edges s)).
Definition alloc_node (s : Store) (N : Node) : Store * node_id :=
  (mkStore (nodes s ++ [N]) (edges s), length (nodes s)).
Definition alloc_edge (s : Store) (E : Edge) : Store * edge_id :=
  (mkStore (nodes s) (edges s ++ [E]), length (edges s)).

(** ** Equality of nodes and edges ([__eq__]) *)

(** [Node.__eq__]: position and span. *)
Definition Node_eq (a b : Node) : bool :=
  bool_decide (position a = position b) && bool_decide (span a = span b).

(** [x == y] for two values that are a [Node] or [None]: [Node.__eq__]
    reads [other.position], which [None] does not have. *)
Definition node_ref_eq (s : Store) (a b : option node_id) : result bool :=
  match a, b with
  | None, None => Ok true
  | Some x, Some y =>
      let* X := get_node s x in let* Y := get_node s y in Ok (Node_eq X Y)
  | _, _ => Raise AttributeError
  end.

Definition head_ref_eq (a b : head_ref) : bool :=
  match a, b with
  | HInt i, HInt j => bool_decide (i = j)
  | HStr x, HStr y => bool_decide (x = y)
  | _, _ => false
  end.

(** [Edge.__eq__]: head_index, dependent, rel and remote, with the
    short-circuit of [and]. *)
Definition Edge_eq (s : Store) (a b : Edge) : result bool :=
  if head_ref_eq (head_index a) (head_index b) then
    let* d := node_ref_eq s (_dependent a) (_dependent b) in
    if d then Ok (bool_decide (rel a = rel b) && bool_decide (remote a = remote b))
    else Ok false
  else Ok false.

(** Comparison of a list item with a value, as [in] and [list.remove] do
    it: identity first, then [==]. *)
Definition edge_same (s : Store) (x y : edge_id) : result bool :=
  if bool_decide (x = y) then Ok true
  else let* X := get_edge s x in let* Y := get_edge s y in Edge_eq s X Y.

(** [x in l] on a list of edges. *)
Fixpoint list_contains (s : Store) (x : edge_id) (l : list edge_id) : result bool :=
  match l with
  | [] => Ok false
  | y :: l' =>
      let* b := edge_same s y x in
      if b then Ok true else list_contains s x l'
  end.

(** [l.remove(x)]: the first item equal to [x] goes; [ValueError] when
    there is none. *)
Fixpoint list_remove (s : Store) (x : edge_id) (l : list edge_id) : result (list edge_id) :=
  match l with
  | [] => Raise ValueError
  | y :: l' =>
      let* b := edge_same s y x in
      if b then Ok l' else let* l'' := list_remove s x l' in Ok (y :: l'')
  end.

(** ** The setters of [Edge] *)

(** The first statement of the head setter:
    [if self._head is not None and self in self._head.outgoing:
       self._head.outgoing.remove(self)]. *)
Definition detach_head (e : edge_id) (E : Edge) (s : Store) : result Store :=
  match _head E with
  | Some h0 =>
      let* H0 := get_node s h0 in
      let* b := list_contains s e (outgoing H0) in
      if b then
        let* l := list_remove s e (outgoing H0) in
        Ok (put_node s h0 (with_outgoing l H0))
      else Ok s
  | None => Ok s
  end.

(** [Edge.head = head] (the property setter). *)
Definition set_head (e : edge_id) (head : option node_id) (s : Store) : result Store :=
  let* E := get_edge s e in
  let* s1 := detach_head e E s in
  let s2 := put_edge s1 e (with__head head E) in
  match head with
  | Some h =>
      let* H := get_node s2 h in
      let s3 := put_node s2 h (with_outgoing (outgoing H ++ [e]) H) in
      Ok (put_edge s3 e (with_head_index (HInt (position H - 1)) (with__head head E)))
  | None => Ok s2
  end.

(** The first statement of the dependent setter:
    [if self._dependent is not None: self._dependent.incoming.remove(self)]. *)
Definition detach_dependent (e : edge_id) (E : Edge) (s : Store) : result Store :=
  match _dependent E with
  | Some d0 =>
      let* D0 := get_node s d0 in
      let* l := list_remove s e (incoming D0) in
      Ok (put_node s d0 (with_incoming l D0))
  | None => Ok s
  end.

(** [Edge.dependent = dependent] (the property setter). *)
Definition set_dependent (e : edge_id) (dependent : option node_id) (s : Store) : result Store :=
  let* E := get_edge s e in
  let* s1 := detach_dependent e E s in
  let s2 := put_edge s1 e (with__dependent dependent E) in
  match dependent with
  | Some d =>
      let* D := get_node s2 d in
      Ok (put_node s2 d (with_incoming (incoming D ++ [e]) D))
  | None => Ok s2
  end.

(** [Edge(head_index, rel, remote)]: the object is allocated with both
    ends [None], then both setters run with [None]. *)
Definition Edge_init (hi : head_ref) (r : string) (rem : bool) (s : Store) : result (Store * edge_id) :=
  let '(s1, e) := alloc_edge s (mkEdge hi r rem None None) in
  let* s2 := set_head e None s1 in
  let* s3 := set_dependent e None s2 in
  Ok (s3, e).

(** [Edge.remove]. *)
Definition Edge_remove (e : edge_id) (s : Store) : result Store :=
  let* s1 := set_head e None s in
  set_dependent e None s1.

(** ** Building nodes and linking heads *)

(** [Node.add_edges]: primary edges first, then remote ones. *)
Fixpoint add_edges_pass (n : node_id) (rem : bool) (es : list edge_id) (s : Store) : result Store :=
  match es with
  | [] => Ok s
  | e :: es' =>
      let* E := get_edge s e in
      let* s1 := (if bool_decide (remote E = rem) then set_dependent e (Some n) s else Ok s) in
      add_edges_pass n rem es' s1
  end.

Definition add_edges (n : node_id) (es : list edge_id) (s : Store) : result Store :=
  let* s1 := add_edges_pass n false es s in
  add_edges_pass n true es s1.

(** [Node(position, incoming, token, terminal, is_head, is_top, is_multi_word,
    parent_multi_word, frame, enhanced, misc, span)]. *)
Definition Node_init (position0 : Z) (incoming0 : option (list edge_id))
    (token0 : option Token) (terminal0 : option Z) (is_head0 is_top0 is_multi_word0 : bool)
    (parent_multi_word0 : option node_id) (frame0 enhanced0 misc0 : option string)
    (span0 : option (list Z)) (s : Store) : result (Store * node_id) :=
  let '(s1, n) :=
    alloc_node s
      (mkNode position0 [] [] token0 terminal0 is_head0 is_top0 is_multi_word0
         parent_multi_word0 None None None []
         (default "_"%string frame0) (default "_"%string enhanced0)
         (default "_"%string misc0) span0) in
  let* s2 := match incoming0 with
             | Some es => add_edges n es s1
             | None => Ok s1
             end in
  Ok (s2, n).

(** [l[i]] on a Python list: a negative index counts from the end. *)
Definition py_index {A} (l : list A) (i : Z) : result A :=
  let n := Z.of_nat (length l) in
  let j := if bool_decide (i < 0) then i + n else i in
  if bool_decide (0 <= j < n) then of_option (l !! Z.to_nat j) IndexError
  else Raise IndexError.

(** [re.sub(r"\..*", "", s)]: from each dot to the end of its line. *)
Fixpoint strip_dot_suffix (skipping : bool) (s : string) : string :=
  match s with
  | EmptyString => EmptyString
  | String c r =>
      if skipping then
        if bool_decide (c = "010"%char) then String c (strip_dot_suffix false r)
        else strip_dot_suffix true r
      else if bool_decide (c = "."%char) then strip_dot_suffix true r
      else String c (strip_dot_suffix false r)
  end.

(** [d.get(k, default)] on a dictionary kept as an association list. *)
Fixpoint dict_get (d : list (string * string)) (k : string) (dflt : string) : string :=
  match d with
  | [] => dflt
  | (k', v) :: d' => if bool_decide (k' = k) then v else dict_get d' k dflt
  end.

Section Linking.

(** Python's [int] on a string. *)
Variable py_int : string -> result Z.

(** [Edge.link_head]. *)
Definition link_head (e : edge_id) (heads : list node_id)
    (copy_of : list (string * string)) (s : Store) : result Store :=
  let* E := get_edge s e in
  let* s1 :=
    match head_index E with
    | HStr str =>
        let* i := py_int (dict_get copy_of str (strip_dot_suffix false str)) in
        Ok (put_edge s e (with_head_index (HInt i) E))
    | HInt _ => Ok s
    end in
  let* E1 := get_edge s1 e in
  match head_index E1 with
  | HInt i =>
      let* h := py_index heads i in
      set_head e (Some h) s1
  | HStr _ => Raise TypeError
  end.

Fixpoint link_head_all (es : list edge_id) (heads : list node_id)
    (copy_of : list (string * string)) (s : Store) : result Store :=
  match es with
  | [] => Ok s
  | e :: es' =>
      let* s1 := link_head e heads copy_of s in
      link_head_all es' heads copy_of s1
  end.

Fixpoint link_heads_nodes (ns : list node_id) (heads : list node_id)
    (copy_of : list (string * string)) (s : Store) : result Store :=
  match ns with
  | [] => Ok s
  | n :: ns' =>
      let* N := get_node s n in
      let* s1 := link_head_all (incoming N) heads copy_of s in
      link_heads_nodes ns' heads copy_of s1
  end.

(** [dep_nodes[position].parent_multi_word = dep_node] for the positions
    [start], ..., [start + count - 1]. *)
Fixpoint set_parent_multi_word (dep_nodes : list node_id) (m : node_id)
    (start : Z) (count : nat) (s : Store) : result Store :=
  match count with
  | O => Ok s
  | S count' =>
      let* n := py_index dep_nodes start in
      let* N := get_node s n in
      set_parent_multi_word dep_nodes m (start + 1) count'
        (put_node s n (with_parent_multi_word (Some m) N))
  end.

Fixpoint link_multi_words (dep_nodes ms : list node_id) (s : Store) : result Store :=
  match ms with
  | [] => Ok s
  | m :: ms' =>
      let* M := get_node s m in
      match span M with
      | Some [start; end_] =>
          let* s1 := set_parent_multi_word dep_nodes m start (Z.to_nat (end_ + 1 - start)) s in
          link_multi_words dep_nodes ms' s1
      | Some _ => Raise ValueError
      | None => Raise TypeError
      end
  end.

(** [_link_heads]. *)
Definition _link_heads (dep_nodes multi_word_nodes : list node_id)
    (copy_of : list (string * string)) (s : Store) : result Store :=
  let* heads :=
    (fix keep (ns : list node_id) : result (list node_id) :=
       match ns with
       | [] => Ok []
       | n :: ns' =>
           let* N := get_node s n in
           let* r := keep ns' in
           Ok (if is_head N then n :: r else r)
       end) dep_nodes in
  let* s1 := link_heads_nodes dep_nodes heads copy_of s in
  link_multi_words dep_nodes multi_word_nodes s1.

End Linking.

(** Relation labels of the converter. *)
Definition ROOT : string := "ROOT".
Definition TOP : string := "TOP".
Definition HEAD : string := "head".
Definition ORPHAN : string := "orphan".
Definition ROOT_lower : string := "root".

(** [top_edge]: [nodes0] is [graph.nodes]. *)
Definition top_edge (dep_node : node_id) (nodes0 : list node_id) (s : Store) : result (Store * edge_id) :=
  let* (s1, e) := Edge_init (HInt 0) TOP false s in
  let* root := py_index nodes0 0 in
  let* s2 := set_head e (Some root) s1 in
  let* s3 := set_dependent e (Some dep_node) s2 in
  Ok (s3, e).

(** ** Sets of nodes

    A Python [set] of nodes is kept as the list of its members in insertion
    order; membership follows [Node.__hash__] and [Node.__eq__], that is the
    identity of the object, or else the equality of position and span.
    [find_cycle] only tests, adds and removes members.  The order in which
    a set is iterated is not the order of this list: see [set_iter]. *)

Definition node_same (s : Store) (x y : node_id) : result bool :=
  if bool_decide (x = y) then Ok true
  else let* X := get_node s x in let* Y := get_node s y in Ok (Node_eq X Y).

Fixpoint set_contains (s : Store) (x : node_id) (l : list node_id) : result bool :=
  match l with
  | [] => Ok false
  | y :: l' =>
      let* b := node_same s y x in
      if b then Ok true else set_contains s x l'
  end.

Definition set_add (s : Store) (x : node_id) (l : list node_id) : result (list node_id) :=
  let* b := set_contains s x l in
  Ok (if b then l else l ++ [x]).

(** [set.remove]: [KeyError] when the member is absent. *)
Fixpoint set_remove (s : Store) (x : node_id) (l : list node_id) : result (list node_id) :=
  match l with
  | [] => Raise KeyError
  | y :: l' =>
      let* b := node_same s y x in
      if b then Ok l' else let* l'' := set_remove s x l' in Ok (y :: l'')
  end.

(** ** Cycle breaker *)

(** The loop [for e in n.incoming] of [find_cycle], with the recursive call
    as a parameter. *)
Fixpoint find_cycle_edges
    (rec : node_id -> list node_id -> list node_id -> result (bool * list node_id * list node_id))
    (s : Store) (n : node_id) (es : list edge_id) (v p : list node_id)
    : result (bool * list node_id * list node_id) :=
  match es with
  | [] =>
      let* p' := set_remove s n p in
      Ok (false, v, p')
  | e :: es' =>
      let* E := get_edge s e in
      match _head E with
      | None => Raise AttributeError
      | Some h =>
          let* b := set_contains s h p in
          if b then Ok (true, v, p)
          else
            let* (r, p') := rec h v p in
            let (found, v') := r in
            if found then Ok (true, v', p')
            else find_cycle_edges rec s n es' v' p'
      end
  end.

(** [find_cycle(n, v, p)]: the answer and the two sets after the call.
    [fuel] bounds the depth of the recursion. *)
Fixpoint find_cycle (fuel : nat) (s : Store) (n : node_id) (v p : list node_id)
    : result (bool * list node_id * list node_id) :=
  match fuel with
  | O => OutOfFuel
  | S fuel' =>
      let* b := set_contains s n v in
      if b then Ok (false, v, p)
      else
        let* v1 := set_add s n v in
        let* p1 := set_add s n p in
        let* N := get_node s n in
        find_cycle_edges (find_cycle fuel' s) s n (incoming N) v1 p1
  end.

(** [any(self.find_cycle(dep_node, visited, path) for dep_node in dep_nodes)]. *)
Fixpoint find_cycle_any (fuel : nat) (s : Store) (dep_nodes : list node_id)
    (v p : list node_id) : result (bool * list node_id * list node_id) :=
  match dep_nodes with
  | [] => Ok (false, v, p)
  | n :: ns =>
      let* (r, p') := find_cycle fuel s n v p in
      let (found, v') := r in
      if found then Ok (true, v', p')
      else find_cycle_any fuel s ns v' p'
  end.

(** [(e for dep_node in ns for e in dep_node.incoming)], for the nodes
    [ns] in the order in which the iteration yields them. *)
Fixpoint path_edges (s : Store) (path : list node_id) : result (list edge_id) :=
  match path with
  | [] => Ok []
  | n :: ns =>
      let* N := get_node s n in
      let* r := path_edges s ns in
      Ok (incoming N ++ r)
  end.

(** Order of Python tuples of two booleans. *)
Definition key_lt (a b : bool * bool) : bool :=
  match a, b with
  | (false, _), (true, _) => true
  | (true, _), (false, _) => false
  | (_, x), (_, y) => negb x && y
  end.

(** [min(items, key=key)]: the first of the least items; [ValueError] on
    an empty sequence. *)
Fixpoint py_min_from {A} (key : A -> bool * bool) (best : A) (l : list A) : A :=
  match l with
  | [] => best
  | x :: l' => py_min_from key (if key_lt (key x) (key best) then x else best) l'
  end.

Definition py_min {A} (key : A -> bool * bool) (l : list A) : result A :=
  match l with
  | [] => Raise ValueError
  | x :: l' => Ok (py_min_from key x l')
  end.

Section CycleBreaker.

(** [EdgeTags.Linker], a constant of the [ucca] package. *)
Variable Linker : string.

(** [for dep_node in path], where [path] is a [set]: the order in which a
    Python set yields its members is not the order of their insertion.
    The language leaves it open; CPython takes it from the hashes of the
    members, here [hash((position, tuple(span or ())))], and from the
    history of the set.  [set_iter s l] is that order for the set whose
    members were inserted in the order [l], in the store [s]; each turn of
    the loop of [break_cycles] iterates one set, in a store of its own, so
    that a function of the two covers every order. *)
Variable set_iter : Store -> list node_id -> list node_id.

(** [lambda e: (not e.remote, e.rel != EdgeTags.Linker)]. *)
Definition cycle_key (E : Edge) : bool * bool :=
  (negb (remote E), negb (bool_decide (rel E = Linker))).

Fixpoint get_edges (s : Store) (es : list edge_id) : result (list (edge_id * Edge)) :=
  match es with
  | [] => Ok []
  | e :: es' =>
      let* E := get_edge s e in
      let* r := get_edges s es' in
      Ok ((e, E) :: r)
  end.

(** One turn of the loop of [break_cycles]: [None] when no cycle is found
    (the [break]), else the store after the removal of one edge, and that
    edge.  The generator of [min] walks the set [path] in the order
    [set_iter] and the [incoming] list of each node from its start.  The
    recursion of [find_cycle] never goes deeper than the number of
    nodes. *)
Definition break_cycles_step (dep_nodes : list node_id) (s : Store)
    : result (option (edge_id * Store)) :=
  let* (r, path) := find_cycle_any (S (length (nodes s))) s dep_nodes [] [] in
  let (found, visited) := r in
  if negb found then Ok None
  else
    let* es := path_edges s (set_iter s path) in
    let* Es := get_edges s es in
    let* m := py_min (fun x => cycle_key (snd x)) Es in
    let* s' := Edge_remove (fst m) s in
    Ok (Some (fst m, s')).

(** [break_cycles]: [fuel] bounds the number of turns of [while True]. *)
Fixpoint break_cycles (fuel : nat) (dep_nodes : list node_id) (s : Store) : result Store :=
  match fuel with
  | O => OutOfFuel
  | S fuel' =>
      let* r := break_cycles_step dep_nodes s in
      match r with
      | None => Ok s
      | Some (_, s') => break_cycles fuel' dep_nodes s'
      end
  end.

End CycleBreaker.

(** ** Preprocessor *)

Section Preprocessor.

(** [EdgeTags.Terminal], a constant of the [ucca] package. *)
Variable Terminal : string.

(** The fields [self.tree] and [self.is_ucca] of the converter. *)
Variable tree : bool.
Variable is_ucca : bool.

(** [is_flat]. *)
Definition is_flat (E : Edge) : bool := bool_decide (rel E = Terminal).

(** [any(e.rel == self.ROOT.lower() for e in n.incoming)]. *)
Fixpoint any_root_rel (s : Store) (es : list edge_id) : result bool :=
  match es with
  | [] => Ok false
  | e :: es' =>
      let* E := get_edge s e in
      if bool_decide (rel E = ROOT_lower) then Ok true else any_root_rel s es'
  end.

(** [roots]. *)
Fixpoint roots (s : Store) (dep_nodes : list node_id) : result (list node_id) :=
  match dep_nodes with
  | [] => Ok []
  | n :: ns =>
      let* N := get_node s n in
      let* b := any_root_rel s (incoming N) in
      let* r := roots s ns in
      Ok (if b then n :: r else r)
  end.

(** [e.head_index >= 0]: a string does not compare with an integer. *)
Definition head_index_nonneg (E : Edge) : result bool :=
  match head_index E with
  | HInt i => Ok (bool_decide (0 <= i))
  | HStr _ => Raise TypeError
  end.

(** [[e for e in root.incoming if e.rel != "root" and e.head_index >= 0]]. *)
Fixpoint demoted_incoming (s : Store) (es : list edge_id) : result (list edge_id) :=
  match es with
  | [] => Ok []
  | e :: es' =>
      let* E := get_edge s e in
      let* keep := (if bool_decide (rel E = ROOT_lower) then Ok false
                    else head_index_nonneg E) in
      let* r := demoted_incoming s es' in
      Ok (if keep then e :: r else r)
  end.

(** [for root in roots[1:]: root.incoming = ...]. *)
Fixpoint demote_roots (rs : list node_id) (s : Store) : result Store :=
  match rs with
  | [] => Ok s
  | r :: rs' =>
      let* R := get_node s r in
      let* l := demoted_incoming s (incoming R) in
      demote_roots rs' (put_node s r (with_incoming l R))
  end.

(** [for edge in dep_node.incoming: ...]: the iterator of a list holds an
    index [i] into the list, which [edge.remove()] shortens on the way.
    [fuel] bounds the number of turns. *)
Fixpoint scan_incoming (fuel : nat) (n : node_id) (i : nat) (is_parentless : bool)
    (s : Store) : result (bool * Store) :=
  match fuel with
  | O => OutOfFuel
  | S fuel' =>
      let* N := get_node s n in
      match incoming N !! i with
      | None => Ok (is_parentless, s)
      | Some e =>
          let* E := get_edge s e in
          if remote E then
            if is_flat E then
              let* s' := Edge_remove e s in
              scan_incoming fuel' n (S i) is_parentless s'
            else if negb is_ucca then
              scan_incoming fuel' n (S i) is_parentless (put_edge s e (with_remote false E))
            else scan_incoming fuel' n (S i) is_parentless s
          else scan_incoming fuel' n (S i) false s
      end
  end.

(** The loop [for dep_node in dep_nodes] of [preprocess], with the local
    variable [roots]. *)
Fixpoint preprocess_nodes (dep_nodes : list node_id) (roots0 : list node_id)
    (s : Store) : result Store :=
  match dep_nodes with
  | [] => Ok s
  | n :: ns =>
      let* N := get_node s n in
      let* (is_parentless, s1) := scan_incoming (S (length (incoming N))) n 0 true s in
      if is_parentless && tree then
        match roots0 with
        | r0 :: _ =>
            let* R0 := get_node s1 r0 in
            let* (s2, e) := Edge_init (HInt (position R0 - 1)) ORPHAN false s1 in
            let* N2 := get_node s2 n in
            preprocess_nodes ns roots0 (put_node s2 n (with_incoming [e] N2))
        | [] =>
            let* (s2, e) := Edge_init (HInt (-1)) ROOT_lower false s1 in
            let* N2 := get_node s2 n in
            preprocess_nodes ns [n] (put_node s2 n (with_incoming [e] N2))
        end
      else preprocess_nodes ns roots0 s1
  end.

(** [preprocess]. *)
Definition preprocess (dep_nodes : list node_id) (to_dep : bool) (s : Store) : result Store :=
  let* roots0 := roots s dep_nodes in
  let* (s1, roots1) :=
    (if to_dep && tree && bool_decide (1 < length roots0)%nat then
       let* s1 := demote_roots (tail roots0) s in
       Ok (s1, take 1 roots0)
     else Ok (s, roots0)) in
  preprocess_nodes dep_nodes roots1 s1.

End Preprocessor.

(** ** Topological sorter *)

(** [sorted(l, key=key)] for integer keys: a stable insertion sort. *)
Fixpoint insert_by {A} (key : A -> Z) (x : A) (l : list A) : list A :=
  match l with
  | [] => [x]
  | y :: l' =>
      if bool_decide (key x < key y) then x :: y :: l'
      else y :: insert_by key x l'
  end.

Definition sorted_by {A} (key : A -> Z) (l : list A) : list A :=
  fold_left (fun acc x => insert_by key x acc) l [].

(** The dictionary [levels]: one set of nodes per level. *)
Fixpoint levels_add (s : Store) (lv : Z) (n : node_id) (levels : list (Z * list node_id))
    : result (list (Z * list node_id)) :=
  match levels with
  | [] => Ok [(lv, [n])]
  | (k, ns) :: r =>
      if bool_decide (k = lv) then
        let* ns' := set_add s n ns in Ok ((k, ns') :: r)
      else
        let* r' := levels_add s lv n r in Ok ((k, ns) :: r')
  end.

(** [[e.head for e in node.incoming
      if e.head.level is None and e.head not in node.heads_visited]]. *)
Fixpoint unvisited_heads (s : Store) (visited : list node_id) (es : list edge_id)
    : result (list node_id) :=
  match es with
  | [] => Ok []
  | e :: es' =>
      let* E := get_edge s e in
      let* h := of_option (_head E) AttributeError in
      let* H := get_node s h in
      let* keep := match level H with
                   | Some _ => Ok false
                   | None => let* b := set_contains s h visited in Ok (negb b)
                   end in
      let* r := unvisited_heads s visited es' in
      Ok (if keep then h :: r else r)
  end.

(** [set.update]. *)
Fixpoint set_update (s : Store) (xs : list node_id) (l : list node_id) : result (list node_id) :=
  match xs with
  | [] => Ok l
  | x :: xs' => let* l' := set_add s x l in set_update s xs' l'
  end.

(** [(e.head.level or 0 for e in node.incoming)]. *)
Fixpoint head_levels (s : Store) (es : list edge_id) : result (list Z) :=
  match es with
  | [] => Ok []
  | e :: es' =>
      let* E := get_edge s e in
      let* h := of_option (_head E) AttributeError in
      let* H := get_node s h in
      let* r := head_levels s es' in
      Ok (default 0 (level H) :: r)
  end.

(** [max] of a sequence of integers. *)
Definition py_max (l : list Z) : result Z :=
  match l with
  | [] => Raise ValueError
  | x :: l' => Ok (fold_left Z.max l' x)
  end.

(** The loop [while remaining].  The list [remaining] is kept with its last
    item first, so that [remaining.pop()] takes the first item here. *)
Fixpoint topo_loop (fuel : nat) (remaining : list node_id)
    (levels : list (Z * list node_id)) (s : Store)
    : result (list (Z * list node_id) * Store) :=
  match fuel with
  | O => OutOfFuel
  | S fuel' =>
      match remaining with
      | [] => Ok (levels, s)
      | n :: rest =>
          let* N := get_node s n in
          match level N with
          | Some _ => topo_loop fuel' rest levels s
          | None =>
              match incoming N with
              | [] =>
                  let s' := put_node s n (with_level (Some 0) N) in
                  let* levels' := levels_add s' 0 n levels in
                  topo_loop fuel' rest levels' s'
              | _ :: _ =>
                  let* heads := unvisited_heads s (heads_visited N) (incoming N) in
                  match heads with
                  | _ :: _ =>
                      let* hv := set_update s heads (heads_visited N) in
                      topo_loop fuel' (rev heads ++ n :: rest) levels
                        (put_node s n (with_heads_visited hv N))
                  | [] =>
                      let* ls := head_levels s (incoming N) in
                      let* m := py_max ls in
                      let s' := put_node s n (with_level (Some (1 + m)) N) in
                      let* levels' := levels_add s' (1 + m) n levels in
                      topo_loop fuel' rest levels' s'
                  end
              end
          end
      end
  end.

(** [[n for n in nodes if not n.outgoing]]. *)
Fixpoint leaves (s : Store) (ns : list node_id) : result (list node_id) :=
  match ns with
  | [] => Ok []
  | n :: ns' =>
      let* N := get_node s n in
      let* r := leaves s ns' in
      Ok (match outgoing N with [] => n :: r | _ :: _ => r end)
  end.

(** The keys [x.terminal.position] of the nodes of one level. *)
Fixpoint terminal_keys (s : Store) (ns : list node_id) : result (list (Z * node_id)) :=
  match ns with
  | [] => Ok []
  | n :: ns' =>
      let* N := get_node s n in
      let* k := of_option (terminal N) AttributeError in
      let* r := terminal_keys s ns' in
      Ok ((k, n) :: r)
  end.

(** The list comprehension that makes the result, over the sorted items of
    [levels]. *)
Fixpoint level_output (s : Store) (levels : list (Z * list node_id)) : result (list node_id) :=
  match levels with
  | [] => Ok []
  | (lv, ns) :: r =>
      let* here := (if bool_decide (0 < lv) then
                      let* ks := terminal_keys s ns in
                      Ok (map snd (sorted_by fst ks))
                    else Ok []) in
      let* rest := level_output s r in
      Ok (here ++ rest)
  end.

(** [_topological_sort]: the sorted nodes and the store with the levels. *)
Definition _topological_sort (fuel : nat) (nodes0 : list node_id) (s : Store)
    : result (list node_id * Store) :=
  let* ls := leaves s nodes0 in
  let* (levels, s') := topo_loop fuel (rev ls) [] s in
  let* out := level_output s' (sorted_by fst levels) in
  Ok (out, s').

(** ** Backward converter: from a passage to dependency edges *)

(** The part of a [ucca] passage that the converter reads: the units
    ([core.Node]) with their edge lists, and the edges ([core.Edge]).
    [u_layer0] says [unit.layer.ID == layer0.LAYER_ID]; [u_position] is
    the attribute [position], which terminals have; [u_implicit] is
    [unit.attrib.get("implicit")]; [ue_remote] is
    [edge.attrib.get("remote", False)]. *)
Record UNode : Set := mkUNode {
  u_incoming : list nat;
  u_outgoing : list nat;
  u_layer0 : bool;
  u_position : option Z;
  u_implicit : bool
}.

Record UEdge : Set := mkUEdge {
  ue_tag : string;
  ue_remote : bool;
  ue_parent : unit_id;
  ue_child : unit_id
}.

Record Passage : Set := mkPassage {
  units : list UNode;
  uedges : list UEdge
}.

Definition get_unit (p : Passage) (u : unit_id) : result UNode :=
  of_option (units p !! u) DanglingRef.
Definition get_uedge (p : Passage) (e : nat) : result UEdge :=
  of_option (uedges p !! e) DanglingRef.

(** A Python [set] of edges, kept in insertion order: an edge equal to a
    member is not added again. *)
Definition edge_set_add (s : Store) (x : edge_id) (l : list edge_id) : result (list edge_id) :=
  let* b := list_contains s x l in
  Ok (if b then l else l ++ [x]).

Section Backward.

(** The fields [self.tag_priority] and [self.is_ucca]; [EdgeTags.Terminal]
    of the [ucca] package; the method [omit_edge], which the subclasses
    define; [==] on units. *)
Variable tag_priority : list (option string).
Variable is_ucca : bool.
Variable Terminal : string.
Variable omit_edge : UEdge -> bool -> bool.
Variable unit_eq : unit_id -> unit_id -> bool.

(** [primary_edges(unit, tag)], as the list of the edges it yields. *)
Fixpoint primary_edges (p : Passage) (es : list nat) (tag : option string)
    : result (list UEdge) :=
  match es with
  | [] => Ok []
  | e :: es' =>
      let* E := get_uedge p e in
      let* keep :=
        (if ue_remote E then Ok false
         else
           let* C := get_unit p (ue_child E) in
           if u_implicit C then Ok false
           else Ok (match tag with
                    | None => true
                    | Some t => bool_decide (ue_tag E = t)
                    end)) in
      let* r := primary_edges p es' tag in
      Ok (if keep then E :: r else r)
  end.

(** [find_head_child]: the first edge that the nested generator yields. *)
Fixpoint find_head_child_from (p : Passage) (U : UNode) (tags : list (option string))
    : result unit_id :=
  match tags with
  | [] => Raise RuntimeError
  | tag :: tags' =>
      let* es := primary_edges p (u_outgoing U) tag in
      match es with
      | E :: _ => Ok (ue_child E)
      | [] => find_head_child_from p U tags'
      end
  end.

Definition find_head_child (p : Passage) (u : unit_id) : result unit_id :=
  let* U := get_unit p u in
  find_head_child_from p U tag_priority.

(** [find_head_terminal]. *)
Fixpoint find_head_terminal (fuel : nat) (p : Passage) (u : unit_id) : result unit_id :=
  match fuel with
  | O => OutOfFuel
  | S fuel' =>
      let* U := get_unit p u in
      match u_outgoing U with
      | _ :: _ =>
          let* c := find_head_child p u in
          find_head_terminal fuel' p c
      | [] => if u_layer0 U then Ok u else Raise ValueError
      end
  end.

(** The condition of the loop of [find_headed_unit], for a unit with an
    incoming edge [e0 = unit.incoming[0]]. *)
Definition headed_by_parent (p : Passage) (u : unit_id) (U : UNode) (e0 : nat)
    : result bool :=
  let* E0 := get_uedge p e0 in
  let* ucca_case :=
    (if is_ucca then
       let* h := find_head_child p (ue_parent E0) in Ok (unit_eq u h)
     else Ok false) in
  if ucca_case then Ok true
  else if negb is_ucca then
    if match u_outgoing U with [] => true | _ :: _ => bool_decide (ue_tag E0 = HEAD) end
    then
      if bool_decide (ue_tag E0 = Terminal) then
        let* P := get_unit p (ue_parent E0) in
        let* c0 := of_option (head (u_outgoing P)) IndexError in
        let* C0 := get_uedge p c0 in
        Ok (negb (negb (unit_eq u (ue_child C0))))   (* not (unit != ...) *)
      else Ok true
    else Ok false
  else Ok false.

(** [find_headed_unit]. *)
Fixpoint find_headed_unit (fuel : nat) (p : Passage) (u : unit_id) : result unit_id :=
  match fuel with
  | O => OutOfFuel
  | S fuel' =>
      let* U := get_unit p u in
      match u_incoming U with
      | [] => Ok u
      | e0 :: _ =>
          let* b := headed_by_parent p u U e0 in
          if b then
            let* E0 := get_uedge p e0 in
            find_headed_unit fuel' p (ue_parent E0)
          else Ok u
      end
  end.

(** [find_top_headed_edges]. *)
Fixpoint top_edges_filter (p : Passage) (es : list nat) : result (list nat) :=
  match es with
  | [] => Ok []
  | e :: es' =>
      let* E := get_uedge p e in
      let* r := top_edges_filter p es' in
      Ok (if bool_decide (ue_tag E = ROOT) || bool_decide (ue_tag E = TOP) then r
          else e :: r)
  end.

Definition find_top_headed_edges (fuel : nat) (p : Passage) (u : unit_id)
    : result (list nat) :=
  let* h := find_headed_unit fuel p u in
  let* H := get_unit p h in
  top_edges_filter p (u_incoming H).

(** [[self.find_head_terminal(e.parent).position - 1 for e in edges]]. *)
Fixpoint head_indices (fuel : nat) (p : Passage) (es : list nat) : result (list Z) :=
  match es with
  | [] => Ok []
  | e :: es' =>
      let* E := get_uedge p e in
      let* t := find_head_terminal fuel p (ue_parent E) in
      let* T := get_unit p t in
      let* pos := of_option (u_position T) AttributeError in
      let* r := head_indices fuel p es' in
      Ok ((pos - 1) :: r)
  end.

(** The set comprehension of [incoming_edges], over the pairs of
    [zip(edges, head_indices)]: the new [Edge] objects live in the store
    [s]; [acc] is the set built so far. *)
Fixpoint incoming_edge_set (p : Passage) (terminal : unit_id) (tree : bool)
    (zs : list (nat * Z)) (acc : list edge_id) (s : Store)
    : result (Store * list edge_id) :=
  match zs with
  | [] => Ok (s, acc)
  | (e, hi) :: zs' =>
      let* T := get_unit p terminal in
      let* pos := of_option (u_position T) AttributeError in
      let* E := get_uedge p e in
      if bool_decide (hi <> pos - 1) && negb (omit_edge E tree) then
        let* (s1, d) := Edge_init (HInt hi) (ue_tag E) (ue_remote E) s in
        let* acc' := edge_set_add s1 d acc in
        incoming_edge_set p terminal tree zs' acc' s1
      else incoming_edge_set p terminal tree zs' acc s
  end.

(** [incoming_edges]. *)
Definition incoming_edges (fuel : nat) (p : Passage) (terminal : unit_id)
    (test tree : bool) (s : Store) : result (Store * list edge_id) :=
  if test then Ok (s, [])
  else
    let* es := find_top_headed_edges fuel p terminal in
    let* his := head_indices fuel p es in
    incoming_edge_set p terminal tree (zip es his) [] s.

End Backward.

(** An edge of the dependency store that does not point at the terminal
    it was made for. *)
Definition not_self_loop (p : Passage) (terminal : unit_id) (s : Store) (e : edge_id) : Prop :=
  exists E T pos, edges s !! e = Some E /\ units p !! terminal = Some T /\
                  u_position T = Some pos /\ head_index E <> HInt (pos - 1).

(** A passage of two terminals (units 0 and 1, positions 1 and 2), each
    under its own unit (2 and 3, by the edges 0 and 1 tagged [Terminal]),
    and these under one unit (4): edge 2 with the tag [head] to unit 2,
    edge 3 with the tag [A] to unit 3. *)
Definition ex_passage : Passage :=
  mkPassage
    [mkUNode [0%nat] [] true (Some 1) false;
     mkUNode [1%nat] [] true (Some 2) false;
     mkUNode [2%nat] [0%nat] false None false;
     mkUNode [3%nat] [1%nat] false None false;
     mkUNode [] [2%nat; 3%nat] false None false]
    [mkUEdge "Terminal" false 2%nat 0%nat; mkUEdge "Terminal" false 3%nat 1%nat;
     mkUEdge "head" false 4%nat 2%nat; mkUEdge "A" false 4%nat 3%nat].

(** The priority list of a converter made without [tag_priority], with
    the list [TAG_PRIORITY] of the class cut down to two tags. *)
Definition ex_tag_priority : list (option string) :=
  [Some HEAD; Some "H"%string; Some "P"%string; None].

(** ** Forward converter: attaching the remote edges *)

Section Forward.

(** The hierarchical graph under construction is an object of the [ucca]
    package; the converter reads and writes it through [node.children],
    [node.iter()], [l1.add_remote] and [l1.heads].  A unit of the graph is
    known by its number; [in] on units is taken as identity. *)
Variable HGraph : Type.
Variable children : HGraph -> unit_id -> list unit_id.
Variable iter : HGraph -> unit_id -> list unit_id.
Variable add_remote : HGraph -> unit_id -> string -> unit_id -> HGraph.
Variable heads : HGraph -> list unit_id.

(** [dep_node.node or l1.heads[0]]. *)
Definition node_or_head (g : HGraph) (N : Node) : result unit_id :=
  match node N with
  | Some u => Ok u
  | None => py_index (heads g) 0
  end.

(** The ends of a queued edge in the hierarchical graph. *)
Definition remote_ends (s : Store) (g : HGraph) (e : edge_id)
    : result (unit_id * string * unit_id) :=
  let* E := get_edge s e in
  let* h := of_option (_head E) AttributeError in
  let* H := get_node s h in
  let* parent := node_or_head g H in
  let* d := of_option (_dependent E) AttributeError in
  let* D := get_node s d in
  let* child := node_or_head g D in
  Ok (parent, rel E, child).

(** The condition [child not in parent.children and parent not in child.iter()]. *)
Definition may_attach (g : HGraph) (parent child : unit_id) : bool :=
  negb (bool_decide (child ∈ children g parent)) &&
  negb (bool_decide (parent ∈ iter g child)).

(** The loop [for edge in remote_edges] of [create_non_terminals]. *)
Fixpoint attach_remotes (s : Store) (remote_edges : list edge_id) (g : HGraph)
    : result HGraph :=
  match remote_edges with
  | [] => Ok g
  | e :: es =>
      let* (parent, r, child) := remote_ends s g e in
      if may_attach g parent child
      then attach_remotes s es (add_remote g parent r child)
      else attach_remotes s es g
  end.

(** [c] is a child of [p]. *)
Definition child_rel (g : HGraph) (p c : unit_id) : Prop := c ∈ children g p.

End Forward.

(** *** A graph of units kept as the list of its edges *)

Record HEdge : Set := mkHEdge {
  h_parent : unit_id;
  h_tag : string;
  h_child : unit_id;
  h_remote : bool
}.

Record Hierarchy : Set := mkHierarchy {
  h_heads : list unit_id;
  h_edges : list HEdge
}.

Definition edges_from (es : list HEdge) (p : unit_id) : list HEdge :=
  filter (fun E => h_parent E = p) es.

(** [node.children]: the children over all the edges, remote ones too. *)
Definition hg_children (g : Hierarchy) (p : unit_id) : list unit_id :=
  h_child <$> edges_from (h_edges g) p.

(** The units under [c], [c] first: each turn follows the edges that leave
    the unit and drops them from the edges left to follow. *)
Fixpoint descend (fuel : nat) (es : list HEdge) (c : unit_id) : list unit_id :=
  match fuel with
  | O => [c]
  | S fuel' =>
      c :: ((h_child <$> edges_from es c) ≫=
              descend fuel' (filter (fun E => h_parent E <> c) es))
  end.

(** [node.iter()]. *)
Definition hg_iter (g : Hierarchy) (c : unit_id) : list unit_id :=
  descend (length (h_edges g)) (h_edges g) c.

(** [l1.add_remote(parent, tag, child)]. *)
Definition hg_add_remote (g : Hierarchy) (p : unit_id) (t : string) (c : unit_id) : Hierarchy :=
  mkHierarchy (h_heads g) (h_edges g ++ [mkHEdge p t c true]).

(** The primary children of [p]. *)
Definition primary_children (g : Hierarchy) (p : unit_id) : list unit_id :=
  h_child <$> filter (fun E => h_remote E = false) (edges_from (h_edges g) p).

(** No unit is under itself. *)
Definition acyclic {HGraph} (children : HGraph -> unit_id -> list unit_id) (g : HGraph) : Prop :=
  forall x, ~ tc (child_rel HGraph children g) x x.

(** [c] is the child of an edge of [es] that leaves [p]. *)
Definition edge_rel (es : list HEdge) (p c : unit_id) : Prop :=
  exists E, E ∈ es /\ h_parent E = p /\ h_child E = c.

(** No edge of the graph leads to a unit from which its parent can be
    reached. *)
Definition acyclicb (g : Hierarchy) : bool :=
  forallb (fun E => negb (bool_decide (h_parent E ∈ hg_iter g (h_child E)))) (h_edges g).

(** A root unit 0 with the children 1 and 2 (primary edges), and a
    dependency graph whose nodes 1 and 2 stand for these units, with two
    remote edges from node 1 to node 2, labelled [A] and [B]. *)
Definition ex_hierarchy : Hierarchy :=
  mkHierarchy [0%nat] [mkHEdge 0 "H" 1 false; mkHEdge 0 "H" 2 false].

Definition ex_unit_node (p : Z) (u : unit_id) (inc out : list edge_id) : Node :=
  mkNode p inc out None (Some p) true false false None (Some u) None None []
    "_" "_" "_" None.

Definition ex_remotes : Store :=
  mkStore
    [ex_unit_node 0 0 [] []; ex_unit_node 1 1 [] [0%nat; 1%nat];
     ex_unit_node 2 2 [0%nat; 1%nat] []]
    [mkEdge (HInt 0) "A" true (Some 1%nat) (Some 2%nat);
     mkEdge (HInt 0) "B" true (Some 1%nat) (Some 2%nat)].

(** ** Reader: from lines to graphs *)

(** What [generate_graphs] hands out, in order: a graph
    ([Graph(dep_nodes, sentence_id, original_format)]), or the message
    ["Skipped passage '%s': %s"] on the error stream. *)
Inductive output : Set :=
  | Yielded (graph_nodes : list node_id) (id : option string) (format : option string)
  | Skipped (id : option string) (e : exn).

(** The local variables of [generate_graphs], and [self.lines_read]. *)
Record reader_state : Set := mkReader {
  sentence_id : option string;
  dep_nodes : option (list node_id);
  multi_word_nodes : option (list node_id);
  previous_node : option node_id;
  original_format : option string;
  copy_of : list (string * string);
  cur_paragraph : Z;
  lines_read : list string
}.

Definition initial_reader : reader_state :=
  mkReader None None None None None [] 1 [].

Definition with_token (t : option Token) (N : Node) : Node :=
  mkNode (position N) (incoming N) (outgoing N) t (terminal N) (is_head N)
    (is_top N) (is_multi_word N) (parent_multi_word N) (node N) (level N)
    (preterminal N) (heads_visited N) (frame N) (enhanced N) (misc N) (span N).

Section Reader.

(** Python's [int] and [str.strip]; the three patterns matched on a
    comment line, the first two as one ([sentence ID]), the third for the
    original format; and [read_line], which every subclass defines: it may
    make nodes and edges and write to [copy_of]. *)
Variable py_int : string -> result Z.
Variable strip : string -> string.
Variable match_sentence_id : string -> option string.
Variable match_format : string -> option string.
Variable read_line :
  string -> option node_id -> list (string * string) -> Store ->
  result (Store * option node_id * list (string * string)).

(** The inner function [_graph]. *)
Definition _graph (st : reader_state) (s : Store) : result (Store * output) :=
  let* ns := of_option (dep_nodes st) TypeError in
  let* ms := of_option (multi_word_nodes st) TypeError in
  let* s1 := _link_heads py_int ns ms (copy_of st) s in
  Ok (s1, Yielded ns (sentence_id st) (original_format st)).

(** A comment line. *)
Definition read_comment (line : string) (st : reader_state) : reader_state :=
  let st1 := mkReader (sentence_id st) (dep_nodes st) (multi_word_nodes st)
               (previous_node st) (original_format st) (copy_of st)
               (cur_paragraph st) (lines_read st ++ [line]) in
  match match_sentence_id line with
  | Some m =>
      mkReader (Some m) (dep_nodes st1) (multi_word_nodes st1) (previous_node st1)
        (original_format st1) (copy_of st1) (cur_paragraph st1) (lines_read st1)
  | None =>
      match match_format line with
      | Some m =>
          mkReader (sentence_id st1) (dep_nodes st1) (multi_word_nodes st1)
            (previous_node st1) (Some m) (copy_of st1) (cur_paragraph st1) (lines_read st1)
      | None => st1
      end
  end.

(** A token line. *)
Definition read_token (line : string) (st : reader_state) (s : Store)
    : result (reader_state * Store) :=
  let* (s0, ns, ms) :=
    match dep_nodes st with
    | None =>
        let* (s0, root) :=
          Node_init 0 None None None true false false None None None None None s in
        Ok (s0, [root], Some [])
    | Some ns => Ok (s, ns, multi_word_nodes st)
    end in
  let* (s1, dep_node, copy_of1) := read_line line (previous_node st) (copy_of st) s0 in
  match dep_node with
  | None =>
      Ok (mkReader (sentence_id st) (Some ns) ms (previous_node st) (original_format st)
            copy_of1 (cur_paragraph st) (lines_read st), s1)
  | Some n =>
      let* N := get_node s1 n in
      let* T := of_option (token N) AttributeError in
      let T' := mkToken (text T) (tag T) (lemma T) (pos T) (features T)
                  (Some (cur_paragraph st)) in
      let s2 := put_node s1 n (with_token (Some T') N) in
      if is_multi_word N then
        let* ms0 := of_option ms AttributeError in
        Ok (mkReader (sentence_id st) (Some ns) (Some (ms0 ++ [n])) (Some n)
              (original_format st) copy_of1 (cur_paragraph st) (lines_read st), s2)
      else
        Ok (mkReader (sentence_id st) (Some (ns ++ [n])) ms (Some n)
              (original_format st) copy_of1 (cur_paragraph st) (lines_read st), s2)
  end.

(** The state after a sentence in split mode. *)
Definition next_sentence (st : reader_state) : reader_state :=
  mkReader None None (multi_word_nodes st) None (original_format st) (copy_of st) 1
    (lines_read st).

Definition truthy (l : option (list node_id)) : bool :=
  match l with Some (_ :: _) => true | _ => false end.

(** The loop over the lines and the statement after it.  [out] is what was
    handed out so far; an exception that leaves the generator ends it, and
    what was handed out before stays with the consumer.  A graph whose
    linking fails leaves its objects half linked; they are dropped with the
    sentence, so the store of before the attempt goes on. *)
Fixpoint read_lines (lines : list string) (split : bool) (st : reader_state)
    (s : Store) (out : list output) : list output * result Store :=
  match lines with
  | [] =>
      if negb split || truthy (dep_nodes st) then
        match _graph st s with
        | Ok (s1, g) => (out ++ [g], Ok s1)
        | Raise e => (out, Raise e)
        | OutOfFuel => (out, OutOfFuel)
        end
      else (out, Ok s)
  | line0 :: rest =>
      let line := strip line0 in
      match line with
      | String "#" _ => read_lines rest split (read_comment line st) s out
      | String _ _ =>
          match read_token line st s with
          | Ok (st1, s1) => read_lines rest split st1 s1 out
          | Raise e => (out, Raise e)
          | OutOfFuel => (out, OutOfFuel)
          end
      | EmptyString =>
          if split && truthy (dep_nodes st) then
            match _graph st s with
            | Ok (s1, g) => read_lines rest split (next_sentence st) s1 (out ++ [g])
            | Raise e =>
                read_lines rest split (next_sentence st) s
                  (out ++ [Skipped (sentence_id st) e])
            | OutOfFuel => (out, OutOfFuel)
            end
          else
            read_lines rest split
              (mkReader (sentence_id st) (dep_nodes st) (multi_word_nodes st)
                 (previous_node st) (original_format st) (copy_of st)
                 (cur_paragraph st + 1) (lines_read st)) s out
      end
  end.

(** [generate_graphs]. *)
Definition generate_graphs (lines : list string) (split : bool) (s : Store)
    : list output * result Store :=
  read_lines lines split initial_reader s [].

End Reader.

(** A reader for lines that hold nothing but a head position: the token
    gets the next position and one incoming edge labelled [dep]. *)
Definition ex_read_line (head_of : string -> Z) (line : string)
    (previous : option node_id) (copy : list (string * string)) (s : Store)
    : result (Store * option node_id * list (string * string)) :=
  let* (s1, e) := Edge_init (HInt (head_of line)) "dep" false s in
  let* p := match previous with
            | None => Ok 0
            | Some n => let* N := get_node s1 n in Ok (position N)
            end in
  let* (s2, n) :=
    Node_init (p + 1) (Some [e]) (Some (mkToken line "_" "_" "_" "_" None)) None
      true false false None None None None None s1 in
  Ok (s2, Some n, copy).

(** The head position written on an example line. *)
Definition ex_head_of (line : string) : Z :=
  if bool_decide (line = "0"%string) then 0
  else if bool_decide (line = "1"%string) then 1
  else 7.

(** ** Reading and writing the label of an edge *)

(** [s.rstrip("*")] and [s.endswith("*")]. *)
Fixpoint rstrip_star (s : string) : string :=
  match s with
  | EmptyString => EmptyString
  | String c r =>
      match rstrip_star r with
      | EmptyString => if bool_decide (c = "*"%char) then EmptyString else String c EmptyString
      | String c' r' => String c (String c' r')
      end
  end.

Fixpoint endswith_star (s : string) : bool :=
  match s with
  | EmptyString => false
  | String c EmptyString => bool_decide (c = "*"%char)
  | String _ r => endswith_star r
  end.

Section Create.

Variable py_int : string -> result Z.

(** [Edge.create(head_position, rel)]. *)
Definition Edge_create (head_position rel0 : string) (s : Store) : result (Store * edge_id) :=
  let* i := py_int head_position in
  Edge_init (HInt i) (rstrip_star rel0) (endswith_star rel0) s.

End Create.

(** The label as [Edge.__repr__] writes it between the brackets:
    [(self.rel or "") + ("*" if self.remote else "")]. *)
Definition Edge_label_repr (E : Edge) : string :=
  (rel E ++ (if remote E then "*" else ""))%string.

(** The remote flag of an edge of the store. *)
Definition edge_is_remote (s : Store) (e : edge_id) : bool :=
  match edges s !! e with
  | Some E => remote E
  | None => false
  end.

(** ** Multi-word tokens on the way back to the dependency format *)

(** [Token(text, tag, lemma, pos, features, paragraph)]. *)
Definition Token_init (text0 tag0 : string) (lemma0 pos0 features0 : option string)
    (paragraph0 : option Z) : Token :=
  mkToken text0 tag0 (default "_"%string lemma0) (default tag0 pos0)
    (default "_"%string features0) paragraph0.

Definition with_span (sp : option (list Z)) (N : Node) : Node :=
  mkNode (position N) (incoming N) (outgoing N) (token N) (terminal N)
    (is_head N) (is_top N) (is_multi_word N) (parent_multi_word N) (node N)
    (level N) (preterminal N) (heads_visited N) (frame N) (enhanced N)
    (misc N) sp.

(** [l[-1] = x]. *)
Definition set_last {A} (l : list A) (x : A) : result (list A) :=
  match l with
  | [] => Raise IndexError
  | _ :: _ => Ok (<[Nat.pred (length l) := x]> l)
  end.

(** The method [parent_multi_word]: [position0] is [terminal.position],
    [multi_word_text] is [terminal.extra.get(MULTI_WORD_TEXT_ATTRIB)] and
    [mw] is the cell [multi_words[0]].  The second part of the result is the
    new content of the cell, which is also what the method returns. *)
Definition parent_multi_word_of (position0 : Z) (multi_word_text : option string)
    (mw : option node_id) (s : Store) : result (Store * option node_id) :=
  match multi_word_text with
  | None => Ok (s, None)
  | Some txt =>
      let* differs :=
        match mw with
        | None => Ok true
        | Some m =>
            let* M := get_node s m in
            let* T := of_option (token M) AttributeError in
            Ok (negb (bool_decide (txt = text T)))
        end in
      if differs then
        let* (s1, n) :=
          Node_init position0 None (Some (Token_init txt "_" None None None None)) None
            true false false None None None None (Some [position0; position0]) s in
        Ok (s1, Some n)
      else
        let* m := of_option mw AttributeError in
        let* M := get_node s m in
        let* sp := of_option (span M) TypeError in
        let* sp' := set_last sp position0 in
        Ok (put_node s m (with_span (Some sp') M), Some m)
  end.

(** ** Predicates used in the statements *)

(** No other item of [l] compares equal to the edge [e]: then [e in l] and
    [l.remove(e)] find [e] itself. *)
Definition eq_free (s : Store) (e : edge_id) (l : list edge_id) : Prop :=
  forall e', e' ∈ l -> e' <> e -> edge_same s e' e = Ok false.

(** The adjacency lists agree with the ends of the edges: an edge is in
    [n.outgoing] exactly when its head is [n], in [n.incoming] exactly when
    its dependent is [n]; no list holds an edge twice, and the ends of an
    edge are nodes of the store. *)
Record adjacency_consistent (s : Store) : Prop := {
  ac_outgoing : forall n N e, nodes s !! n = Some N ->
      (e ∈ outgoing N <-> exists E, edges s !! e = Some E /\ _head E = Some n);
  ac_incoming : forall n N e, nodes s !! n = Some N ->
      (e ∈ incoming N <-> exists E, edges s !! e = Some E /\ _dependent E = Some n);
  ac_nodup_out : forall n N, nodes s !! n = Some N -> NoDup (outgoing N);
  ac_nodup_in : forall n N, nodes s !! n = Some N -> NoDup (incoming N);
  ac_head_valid : forall e E h, edges s !! e = Some E -> _head E = Some h ->
      is_Some (nodes s !! h);
  ac_dependent_valid : forall e E d, edges s !! e = Some E -> _dependent E = Some d ->
      is_Some (nodes s !! d)
}.

(** What [__eq__] of edges and nodes reads from the store. *)
Definition eq_view (s : Store) : list (head_ref * string * bool * option node_id) * list (Z * option (list Z)) :=
  ((fun E => (head_index E, rel E, remote E, _dependent E)) <$> edges s,
   (fun N => (position N, span N)) <$> nodes s).

(** An edge that has a head carries the index of that head:
    [head_index = head.position - 1]. *)
Definition head_index_synced (s : Store) : Prop :=
  forall e E h H,
    edges s !! e = Some E -> _head E = Some h -> nodes s !! h = Some H ->
    head_index E = HInt (position H - 1).

(** The same for every edge but [e]. *)
Definition head_index_synced_except (s : Store) (e : edge_id) : Prop :=
  forall e0 E h H,
    e0 <> e ->
    edges s !! e0 = Some E -> _head E = Some h -> nodes s !! h = Some H ->
    head_index E = HInt (position H - 1).

(** [h] is the head of an edge in [n.incoming]: one step of the traversal
    of [find_cycle]. *)
Definition head_rel (s : Store) (n h : node_id) : Prop :=
  exists N e E, nodes s !! n = Some N /\ e ∈ incoming N /\
                edges s !! e = Some E /\ _head E = Some h.

(** A dependency graph as the converter builds it: consistent adjacency
    lists; an edge has a head exactly when it has a dependent; no two
    attached edges are equal under [Edge.__eq__]; no two nodes are equal
    under [Node.__eq__]. *)
Record wf_graph (s : Store) : Prop := {
  wf_adj : adjacency_consistent s;
  wf_linked : forall e E, edges s !! e = Some E ->
      (is_Some (_head E) <-> is_Some (_dependent E));
  wf_edges_distinct : forall e1 e2 E1 E2, e1 <> e2 ->
      edges s !! e1 = Some E1 -> edges s !! e2 = Some E2 ->
      is_Some (_dependent E1) -> is_Some (_dependent E2) ->
      Edge_eq s E1 E2 = Ok false;
  wf_nodes_distinct : forall n1 n2 N1 N2, n1 <> n2 ->
      nodes s !! n1 = Some N1 -> nodes s !! n2 = Some N2 ->
      Node_eq N1 N2 = false
}.

(** The number of attached edges, counted in the [incoming] lists. *)
Definition edge_count (s : Store) : nat :=
  sum_list ((fun N => length (incoming N)) <$> nodes s).

(** The state of the traversal of [find_cycle]: [v] is the set [visited],
    [p] the set [path].  The nodes of [v] outside [p] are finished: their
    heads are finished too, and no cycle goes through them. *)
Record dfs_inv (s : Store) (v p : list node_id) : Prop := {
  inv_valid : forall x, x ∈ v -> is_Some (nodes s !! x);
  inv_nodup : NoDup v;
  inv_path : forall x, x ∈ p -> x ∈ v;
  inv_closed : forall x h, x ∈ v -> x ∉ p -> head_rel s x h -> h ∈ v /\ h ∉ p;
  inv_acyclic : forall x, x ∈ v -> x ∉ p -> ~ tc (head_rel s) x x
}.

(** All that is known of the order in which a set is iterated: it yields
    every member, once. *)
Definition yields_members (set_iter : Store -> list node_id -> list node_id) : Prop :=
  forall s l, set_iter s l ≡ₚ l.

(** No cycle of the head relation is reachable from the nodes [ns]. *)
Definition cycle_free_from (s : Store) (ns : list node_id) : Prop :=
  forall r n, r ∈ ns -> rtc (head_rel s) r n -> ~ tc (head_rel s) n n.

(** What a call of [find_cycle] started in the state [(v, p)] leaves: the
    set [visited] only grows; after the answer [False] the set [path] is as
    before and the invariant holds again; after the answer [True] the set
    [path] holds a node with an incoming edge. *)
Definition dfs_post (s : Store) (v p : list node_id)
    (r : bool * list node_id * list node_id) : Prop :=
  let '(b, v', p') := r in
  (forall x, x ∈ v -> x ∈ v') /\ (length v <= length v')%nat /\
  NoDup v' /\ (forall x, x ∈ v' -> is_Some (nodes s !! x)) /\
  (b = false -> p' = p /\ dfs_inv s v' p) /\
  (b = true -> (forall x, x ∈ p' -> is_Some (nodes s !! x)) /\
               exists m N, m ∈ p' /\ nodes s !! m = Some N /\ incoming N <> []).

(** ** Checking the predicates on a given store *)

Definition edge_has_head (s : Store) (n : node_id) (e : edge_id) : bool :=
  match edges s !! e with
  | Some E => bool_decide (_head E = Some n)
  | None => false
  end.

Definition edge_has_dependent (s : Store) (n : node_id) (e : edge_id) : bool :=
  match edges s !! e with
  | Some E => bool_decide (_dependent E = Some n)
  | None => false
  end.

Definition node_lists_ok (s : Store) (n : node_id) (N : Node) : bool :=
  bool_decide (NoDup (outgoing N)) && bool_decide (NoDup (incoming N))
  && forallb (edge_has_head s n) (outgoing N)
  && forallb (edge_has_dependent s n) (incoming N).

Definition edge_ends_ok (s : Store) (e : edge_id) (E : Edge) : bool :=
  match _head E with
  | Some h => match nodes s !! h with
              | Some H => bool_decide (e ∈ outgoing H)
              | None => false
              end
  | None => true
  end &&
  match _dependent E with
  | Some d => match nodes s !! d with
              | Some D => bool_decide (e ∈ incoming D)
              | None => false
              end
  | None => true
  end.

Fixpoint forallb_from {A} (f : nat -> A -> bool) (i : nat) (l : list A) : bool :=
  match l with
  | [] => true
  | x :: l' => f i x && forallb_from f (S i) l'
  end.

Definition adjacency_consistentb (s : Store) : bool :=
  forallb_from (node_lists_ok s) 0 (nodes s) &&
  forallb_from (edge_ends_ok s) 0 (edges s).

Definition eq_freeb (s : Store) (e : edge_id) (l : list edge_id) : bool :=
  forallb (fun e' => bool_decide (e' = e) ||
                     match edge_same s e' e with Ok false => true | _ => false end) l.

Definition edge_linkedb (E : Edge) : bool :=
  match _head E, _dependent E with
  | Some _, Some _ | None, None => true
  | _, _ => false
  end.

Definition edges_distinctb (s : Store) : bool :=
  forallb_from (fun i E1 =>
    forallb_from (fun j E2 =>
      bool_decide (i = j) ||
      match _dependent E1, _dependent E2 with
      | Some _, Some _ =>
          match Edge_eq s E1 E2 with Ok false => true | _ => false end
      | _, _ => true
      end) 0 (edges s)) 0 (edges s).

Definition nodes_distinctb (s : Store) : bool :=
  forallb_from (fun i N1 =>
    forallb_from (fun j N2 => bool_decide (i = j) || negb (Node_eq N1 N2))
      0 (nodes s)) 0 (nodes s).

Definition wf_graphb (s : Store) : bool :=
  adjacency_consistentb s && forallb edge_linkedb (edges s)
  && edges_distinctb s && nodes_distinctb s.

(** ** Predicates on the result of [preprocess] *)









(** ** Predicates on the topological sorter *)

(** The head of an edge and the level of a node, read from the store. *)
Definition edge_head (s : Store) (e : edge_id) : option node_id :=
  edges s !! e ≫= _head.
Definition node_level (s : Store) (n : node_id) : option Z :=
  nodes s !! n ≫= level.

(** What [_topological_sort] never writes: a node with its two fields
    [level] and [heads_visited] blanked keeps all its other fields, and the
    view of a store is its edges and its nodes so blanked.  Two stores with
    the same view differ in [level] and [heads_visited] only. *)
Definition static (N : Node) : Node :=
  with_heads_visited [] (with_level None N).
Definition static_view (s : Store) : list Edge * list Node :=
  (edges s, static <$> nodes s).

(** A node without outgoing edges, and the nodes that the search reaches:
    the heads, and the heads of the heads, of the leaves of the list. *)
Definition is_leaf (s : Store) (n : node_id) : Prop :=
  exists N, nodes s !! n = Some N /\ outgoing N = [].
Definition reached (s : Store) (nodes0 : list node_id) (n : node_id) : Prop :=
  exists l, l ∈ nodes0 /\ is_leaf s l /\ rtc (head_rel s) l n.

(** The level [l] of the node [n]: 0 without incoming edges, else one more
    than the greatest level of a head. *)
Definition level_ok (s : Store) (n : node_id) (N : Node) (l : Z) : Prop :=
  match incoming N with
  | [] => l = 0
  | _ :: _ =>
      (forall h, head_rel s n h -> exists lh, node_level s h = Some lh /\ 1 + lh <= l) /\
      (exists h lh, head_rel s n h /\ node_level s h = Some lh /\ l = 1 + lh)
  end.

(** The order of the result: by level, then by the position of the
    terminal. *)
Definition out_le (s : Store) (a b : node_id) : Prop :=
  exists A B la lb ta tb,
    nodes s !! a = Some A /\ nodes s !! b = Some B /\
    level A = Some la /\ level B = Some lb /\
    terminal A = Some ta /\ terminal B = Some tb /\
    (la < lb \/ (la = lb /\ ta <= tb)).

(** The edges of [n.incoming] whose head is not yet in [n.heads_visited],
    and those that the next turn on [n] would follow. *)
Definition consumed (s : Store) (N : Node) (e : edge_id) : bool :=
  match edge_head s e with
  | Some h => bool_decide (h ∈ heads_visited N)
  | None => false
  end.
Definition fresh_head (s : Store) (N : Node) (e : edge_id) : bool :=
  match edge_head s e with
  | Some h =>
      match node_level s h with
      | None => negb (bool_decide (h ∈ heads_visited N))
      | Some _ => false
      end
  | None => false
  end.
Definition unconsumed (s : Store) (N : Node) : nat :=
  length (filter (fun e => consumed s N e = false) (incoming N)).

(** The measure that falls with every turn of the loop. *)
Definition topo_measure (stack : list node_id) (s : Store) : nat :=
  length stack + 2 * sum_list (unconsumed s <$> nodes s).

(** The state of the loop on a graph that began as [s0], searched from
    the nodes [nodes0]: [stack] is [remaining], last item first. *)
Record topo_inv (s0 : Store) (nodes0 stack : list node_id)
    (levels : list (Z * list node_id)) (s : Store) : Prop := {
  ti_static : static_view s = static_view s0;
  ti_stack : forall x, x ∈ stack -> reached s0 nodes0 x;
  ti_visited : forall m M g, nodes s !! m = Some M -> g ∈ heads_visited M ->
      head_rel s0 m g;
  ti_pending : forall m M g, nodes s !! m = Some M -> g ∈ heads_visited M ->
      node_level s g = None ->
      exists pre post, stack = pre ++ m :: post /\ g ∈ pre /\
                       forall x, x ∈ pre -> tc (head_rel s0) m x;
  ti_level : forall n N l, nodes s !! n = Some N -> level N = Some l ->
      0 <= l /\ level_ok s n N l /\ reached s0 nodes0 n;
  ti_keys : NoDup levels.*1;
  ti_sets : forall l ns, (l, ns) ∈ levels ->
      NoDup ns /\ forall n, n ∈ ns -> node_level s n = Some l;
  ti_levels : forall n l, node_level s n = Some l ->
      exists ns, (l, ns) ∈ levels /\ n ∈ ns;
  ti_leaves : forall x, x ∈ nodes0 -> is_leaf s0 x ->
      x ∈ stack \/ is_Some (node_level s x)
}.

(** The heads that a turn on the node [N] pushes, and the levels of the
    heads that it reads when there is none to push. *)
Definition next_heads (s : Store) (N : Node) (es : list edge_id) : list node_id :=
  omap (edge_head s) (filter (fun e => fresh_head s N e = true) es).
Definition levels_of_heads (s : Store) (es : list edge_id) : list Z :=
  (fun e => default 0 (edge_head s e ≫= node_level s)) <$> es.

(** [x] is in the set that the dictionary [levels] holds for the level
    [l]. *)
Definition in_level (levels : list (Z * list node_id)) (l : Z) (x : node_id) : Prop :=
  exists ns, (l, ns) ∈ levels /\ x ∈ ns.

(** The nodes as [Node.__init__] leaves them: no level, and an empty set
    [heads_visited]. *)
Definition fresh_nodes (s : Store) : Prop :=
  forall n N, nodes s !! n = Some N -> level N = None /\ heads_visited N = [].

(** What the loop of the sorter keeps on any well-formed graph, with or
    without cycles. *)
Record topo_weak (s0 : Store) (stack : list node_id)
    (levels : list (Z * list node_id)) (s : Store) : Prop := {
  tw_static : static_view s = static_view s0;
  tw_stack : forall x, x ∈ stack -> is_Some (nodes s0 !! x);
  tw_visited : forall m M g, nodes s !! m = Some M -> g ∈ heads_visited M ->
      is_Some (nodes s0 !! g);
  tw_keys : NoDup levels.*1;
  tw_sets : forall l ns, (l, ns) ∈ levels ->
      NoDup ns /\ forall n, n ∈ ns ->
        node_level s n = Some l /\
        (0 < l -> exists N, nodes s !! n = Some N /\ incoming N <> []);
  tw_levels : forall n l, node_level s n = Some l -> in_level levels l n
}.

(** ** Predicates on the linking of multi-word tokens and on [preprocess] *)

(** The nodes [dep_nodes[a]], ..., [dep_nodes[b]], for [0 <= a]. *)
Definition span_nodes (dep_nodes : list node_id) (a b : Z) : list node_id :=
  take (Z.to_nat (b + 1 - a)) (drop (Z.to_nat a) dep_nodes).

(** The edges in the [incoming] lists of the nodes [ns]. *)
Definition incoming_of (s : Store) (ns : list node_id) : list edge_id :=
  ns ≫= (fun n => default [] (incoming <$> nodes s !! n)).

(** None of the edges [es] is both remote and flat. *)
Definition plain (Terminal : string) (s : Store) (es : list edge_id) : Prop :=
  forall e, e ∈ es -> exists E, edges s !! e = Some E /\
                                ~ (remote E = true /\ rel E = Terminal).

(** The edge [e] after [edge.remote = False] on the edges [es], which
    happens with [is_ucca] off only. *)
Definition cleared (is_ucca : bool) (es : list edge_id) (e : edge_id) (E : Edge) : Edge :=
  if negb is_ucca && bool_decide (e ∈ es) then with_remote false E else E.

(** What [Edge.__eq__] compares on two edges without a dependent. *)
Definition edge_key (E : Edge) : head_ref * string * bool :=
  (head_index E, rel E, remote E).

(** A set of edges made after the store [s0]: they are new, attached to
    nothing, and no two of them are equal. *)
Definition fresh_set (s0 s : Store) (es : list edge_id) : Prop :=
  NoDup es /\
  (forall e, e ∈ es -> exists E, edges s !! e = Some E /\ _head E = None /\
                                 _dependent E = None /\ (length (edges s0) <= e)%nat) /\
  (forall e1 e2 E1 E2, e1 ∈ es -> e2 ∈ es -> e1 <> e2 ->
     edges s !! e1 = Some E1 -> edges s !! e2 = Some E2 -> edge_key E1 <> edge_key E2).

(** [[n for n in dep_nodes if n.is_head]]. *)
Definition heads_of (s : Store) (ns : list node_id) : list node_id :=
  filter (fun n => is_head <$> nodes s !! n = Some true) ns.

(** An edge that waits for [link_head]: it has no head yet, and its head
    index is an integer inside the bounds of [heads]. *)
Definition pending (heads : list node_id) (s : Store) (e : edge_id) : Prop :=
  exists E i, edges s !! e = Some E /\ head_index E = HInt i /\ _head E = None /\
              - Z.of_nat (length heads) <= i < Z.of_nat (length heads).

(** The edge [e] got the head that its index names in [heads]. *)
Definition linked (heads : list node_id) (s s' : Store) (e : edge_id) : Prop :=
  exists E i h H',
    edges s !! e = Some E /\ head_index E = HInt i /\ py_index heads i = Ok h /\
    nodes s' !! h = Some H' /\ e ∈ outgoing H' /\
    edges s' !! e =
      Some (mkEdge (HInt (position H' - 1)) (rel E) (remote E) (Some h) (_dependent E)).

(** What linking leaves of the nodes: everything but [outgoing], which
    only grows. *)
Definition node_kept (s s' : Store) : Prop :=
  forall n N, nodes s !! n = Some N ->
    exists N', nodes s' !! n = Some N' /\ with_outgoing [] N' = with_outgoing [] N /\
               forall x, x ∈ outgoing N -> x ∈ outgoing N'.

(** ** Small graphs used as instances *)

(** A node with a terminal at its own position and nothing else set. *)
Definition ex_node (p : Z) (inc out : list edge_id) : Node :=
  mkNode p inc out None (Some p) true false false None None None None []
    "_" "_" "_" None.

(** One token without any edge. *)
Definition ex_single : Store := mkStore [ex_node 1 [] []] [].

(** Root (node 0), "sleeps" (node 1) under the root, "cat" (node 2) under
    "sleeps". *)
Definition ex_chain : Store :=
  mkStore
    [ex_node 0 [] [0%nat]; ex_node 1 [0%nat] [1%nat]; ex_node 2 [1%nat] []]
    [mkEdge (HInt (-1)) "root" false (Some 0%nat) (Some 1%nat);
     mkEdge (HInt 0) "nsubj" false (Some 1%nat) (Some 2%nat)].

(** Root (node 0) and two tokens that are each other's head: a primary
    edge labelled "L" from node 1 to node 2 (edge 0), a primary edge
    labelled "A" from node 2 to node 1 (edge 1). *)
Definition ex_cycle : Store :=
  mkStore
    [ex_node 0 [] []; ex_node 1 [1%nat] [0%nat]; ex_node 2 [0%nat] [1%nat]]
    [mkEdge (HInt 0) "L" false (Some 1%nat) (Some 2%nat);
     mkEdge (HInt 1) "A" false (Some 2%nat) (Some 1%nat)].

(** The cycle of [ex_cycle] with both edges labelled "A". *)
Definition ex_cycle_tie : Store :=
  mkStore
    [ex_node 0 [] []; ex_node 1 [1%nat] [0%nat]; ex_node 2 [0%nat] [1%nat]]
    [mkEdge (HInt 0) "A" false (Some 1%nat) (Some 2%nat);
     mkEdge (HInt 1) "A" false (Some 2%nat) (Some 1%nat)].



(** Graphs used as instances: a token under the root and a token without
    any edge; a leaf under a cycle of two tokens. *)
Definition ex_parentless : Store :=
  mkStore
    [ex_node 0 [] [0%nat]; ex_node 1 [0%nat] []; ex_node 2 [] []]
    [mkEdge (HInt (-1)) "root" false (Some 0%nat) (Some 1%nat)].

Definition ex_cycle_leaf : Store :=
  mkStore
    [ex_node 1 [0%nat] [1%nat; 2%nat]; ex_node 2 [1%nat] [0%nat]; ex_node 3 [2%nat] []]
    [mkEdge (HInt 1) "A" false (Some 1%nat) (Some 0%nat);
     mkEdge (HInt 0) "B" false (Some 0%nat) (Some 1%nat);
     mkEdge (HInt 0) "C" false (Some 0%nat) (Some 2%nat)].

(** One token and three edges not yet attached: a remote edge, a primary
    edge, another remote edge. *)
Definition ex_fresh_edges : Store :=
  mkStore [ex_node 1 [] []]
    [mkEdge (HInt 0) "A" true None None; mkEdge (HInt 0) "root" false None None;
     mkEdge (HInt 3) "B" true None None].

(** The root, two tokens, and the multi-word token that spans both. *)
Definition ex_multi_word : Store :=
  mkStore
    [ex_node 0 [] []; ex_node 1 [] []; ex_node 2 [] [];
     mkNode 1 [] [] None None false false true None None None None []
       "_" "_" "_" (Some [1; 2])]
    [].

(** The chain of [ex_chain] with one more edge, remote, from the root to
    "cat". *)
Definition ex_remote : Store :=
  mkStore
    [ex_node 0 [] [0%nat; 2%nat]; ex_node 1 [0%nat] [1%nat];
     ex_node 2 [1%nat; 2%nat] []]
    [mkEdge (HInt (-1)) "root" false (Some 0%nat) (Some 1%nat);
     mkEdge (HInt 0) "nsubj" false (Some 1%nat) (Some 2%nat);
     mkEdge (HInt (-1)) "xcomp" true (Some 0%nat) (Some 2%nat)].

(** The sentence of [ex_chain] as the reader leaves it: the edges know
    their dependents and the indices of their heads, not yet the heads. *)
Definition ex_unlinked : Store :=
  mkStore
    [ex_node 0 [] []; ex_node 1 [0%nat] []; ex_node 2 [1%nat] []]
    [mkEdge (HInt 0) "root" false None (Some 1%nat);
     mkEdge (HInt 1) "nsubj" false None (Some 2%nat)].

(** The sentence of [ex_unlinked] with a multi-word token over its two
    words. *)
Definition ex_unlinked_multi_word : Store :=
  mkStore
    [ex_node 0 [] []; ex_node 1 [0%nat] []; ex_node 2 [1%nat] [];
     mkNode 1 [] [] None None false false true None None None None []
       "_" "_" "_" (Some [1; 2])]
    [mkEdge (HInt 0) "root" false None (Some 1%nat);
     mkEdge (HInt 1) "nsubj" false None (Some 2%nat)].


(** * Properties *)

(** ** The [result] monad *)

Lemma bind_Ok {A B} (m : result A) (f : A -> result B) (r : B) :
  bind m f = Ok r -> exists a, m = Ok a /\ f a = Ok r.
Proof. destruct m; simpl; intros H; try discriminate. eauto. Qed.

Lemma of_option_Ok {A} (o : option A) (e : exn) (a : A) :
  of_option o e = Ok a -> o = Some a.
Proof. destruct o; simpl; congruence. Qed.

Lemma get_node_Ok s n N : get_node s n = Ok N -> nodes s !! n = Some N.
Proof. apply of_option_Ok. Qed.

Lemma get_edge_Ok s e E : get_edge s e = Ok E -> edges s !! e = Some E.
Proof. apply of_option_Ok. Qed.

Lemma get_node_Some s n N : nodes s !! n = Some N -> get_node s n = Ok N.
Proof. unfold get_node. intros ->. reflexivity. Qed.

Lemma get_edge_Some s e E : edges s !! e = Some E -> get_edge s e = Ok E.
Proof. unfold get_edge. intros ->. reflexivity. Qed.

(** Inversion of a successful run, one bind at a time. *)
Ltac inv_ok :=
  repeat match goal with
  | H : bind _ _ = Ok _ |- _ =>
      let a := fresh "a" in
      let Ha := fresh "Ha" in
      apply bind_Ok in H; destruct H as (a & Ha & H)
  | H : Ok _ = Ok _ |- _ => injection H as H; subst
  | H : Raise _ = Ok _ |- _ => discriminate H
  | H : OutOfFuel = Ok _ |- _ => discriminate H
  | H : get_node _ _ = Ok _ |- _ => apply get_node_Ok in H
  | H : get_edge _ _ = Ok _ |- _ => apply get_edge_Ok in H
  | H : of_option _ _ = Ok _ |- _ => apply of_option_Ok in H
  end.

(** ** Reading the store after a write *)

Lemma nodes_put_node s n N : nodes (put_node s n N) = <[n := N]> (nodes s).
Proof. reflexivity. Qed.
Lemma edges_put_node s n N : edges (put_node s n N) = edges s.
Proof. reflexivity. Qed.
Lemma nodes_put_edge s e E : nodes (put_edge s e E) = nodes s.
Proof. reflexivity. Qed.
Lemma edges_put_edge s e E : edges (put_edge s e E) = <[e := E]> (edges s).
Proof. reflexivity. Qed.

Lemma lookup_put_same {A} (l : list A) i x y :
  l !! i = Some y -> <[i := x]> l !! i = Some x.
Proof.
  intros H. apply list_lookup_insert_eq. eapply lookup_lt_Some; eauto.
Qed.

Lemma detach_head_edges e E s s1 :
  detach_head e E s = Ok s1 -> edges s1 = edges s.
Proof.
  unfold detach_head. destruct (_head E) as [h0|]; [|congruence].
  intros H. apply bind_Ok in H as (H0 & _ & H).
  apply bind_Ok in H as ([] & _ & H).
  - apply bind_Ok in H as (l & _ & H). injection H as <-. reflexivity.
  - congruence.
Qed.

Lemma detach_dependent_edges e E s s1 :
  detach_dependent e E s = Ok s1 -> edges s1 = edges s.
Proof.
  unfold detach_dependent. destruct (_dependent E) as [d0|]; [|congruence].
  intros H. apply bind_Ok in H as (D0 & _ & H).
  apply bind_Ok in H as (l & _ & H). injection H as <-. reflexivity.
Qed.

Lemma set_head_Some_post e h s s' :
  set_head e (Some h) s = Ok s' ->
  exists E' H',
    edges s' !! e = Some E' /\ nodes s' !! h = Some H' /\
    _head E' = Some h /\ head_index E' = HInt (position H' - 1).
Proof.
  unfold set_head. intros H.
  apply bind_Ok in H as (E & HE & H).
  apply bind_Ok in H as (s1 & Hs1 & H).
  apply bind_Ok in H as (Hn & HHn & H).
  injection H as <-.
  apply get_edge_Ok in HE. apply get_node_Ok in HHn. simpl in HHn.
  apply detach_head_edges in Hs1.
  eexists _, _. split; [|split; [|split]].
  - simpl. apply list_lookup_insert_eq. rewrite length_insert, Hs1.
    eapply lookup_lt_Some; eauto.
  - simpl. apply list_lookup_insert_eq. eapply lookup_lt_Some; eauto.
  - reflexivity.
  - reflexivity.
Qed.

(** ** Equality by [__eq__] only reads [eq_view] *)

Lemma eq_view_node s s' n :
  eq_view s = eq_view s' ->
  ((fun N => (position N, span N)) <$> (nodes s !! n)) =
  ((fun N => (position N, span N)) <$> (nodes s' !! n)).
Proof.
  unfold eq_view. intros H. injection H as _ H.
  rewrite <- !list_lookup_fmap. now rewrite H.
Qed.

Lemma eq_view_edge s s' e :
  eq_view s = eq_view s' ->
  ((fun E => (head_index E, rel E, remote E, _dependent E)) <$> (edges s !! e)) =
  ((fun E => (head_index E, rel E, remote E, _dependent E)) <$> (edges s' !! e)).
Proof.
  unfold eq_view. intros H. injection H as H _.
  rewrite <- !list_lookup_fmap. now rewrite H.
Qed.

Lemma node_ref_eq_view s s' a b :
  eq_view s = eq_view s' -> node_ref_eq s a b = node_ref_eq s' a b.
Proof.
  intros H. destruct a as [x|], b as [y|]; simpl; try reflexivity.
  pose proof (eq_view_node s s' x H) as Hx.
  pose proof (eq_view_node s s' y H) as Hy.
  unfold get_node. revert Hx Hy.
  destruct (nodes s !! x) as [X|], (nodes s' !! x) as [X'|]; cbn; try congruence;
  destruct (nodes s !! y) as [Y|], (nodes s' !! y) as [Y'|]; cbn; try congruence.
  unfold Node_eq. intros [= Hx1 Hx2] [= Hy1 Hy2].
  now rewrite Hx1, Hx2, Hy1, Hy2.
Qed.

Lemma edge_same_view s s' x y :
  eq_view s = eq_view s' -> edge_same s x y = edge_same s' x y.
Proof.
  intros H. unfold edge_same. case_bool_decide; [reflexivity|].
  pose proof (eq_view_edge s s' x H) as Hx.
  pose proof (eq_view_edge s s' y H) as Hy.
  unfold get_edge. revert Hx Hy.
  destruct (edges s !! x) as [X|], (edges s' !! x) as [X'|]; cbn; try congruence;
  destruct (edges s !! y) as [Y|], (edges s' !! y) as [Y'|]; cbn; try congruence.
  unfold Edge_eq. intros [= Hx1 Hx2 Hx3 Hx4] [= Hy1 Hy2 Hy3 Hy4].
  rewrite Hx1, Hx2, Hx3, Hx4, Hy1, Hy2, Hy3, Hy4.
  now rewrite (node_ref_eq_view s s' _ _ H).
Qed.

Lemma eq_free_view s s' e l :
  eq_view s = eq_view s' -> eq_free s e l -> eq_free s' e l.
Proof.
  intros H Hf e' Hin Hne. rewrite <- (edge_same_view s s' _ _ H). now apply Hf.
Qed.

(** ** [in] and [remove] on a list where only the edge itself matches *)

Lemma edge_same_refl s e : edge_same s e e = Ok true.
Proof. unfold edge_same. now rewrite bool_decide_eq_true_2. Qed.

Lemma list_contains_spec s e l :
  eq_free s e l -> list_contains s e l = Ok (bool_decide (e ∈ l)).
Proof.
  induction l as [|y l IH]; intros Hf; cbn [list_contains].
  - reflexivity.
  - destruct (decide (y = e)) as [->|Hne].
    + rewrite edge_same_refl. cbn [bind].
      rewrite bool_decide_eq_true_2; [reflexivity|]. left.
    + rewrite (Hf y); [|left|assumption]. cbn [bind].
      rewrite IH.
      * f_equal. apply bool_decide_ext. rewrite elem_of_cons. intuition congruence.
      * intros e' Hin. apply Hf. now right.
Qed.

Lemma list_remove_spec s e l :
  eq_free s e l -> e ∈ l ->
  exists l1 l2, l = (l1 ++ e :: l2) /\ (e ∉ l1) /\ list_remove s e l = Ok (l1 ++ l2).
Proof.
  induction l as [|y l IH]; intros Hf Hin.
  - now apply elem_of_nil in Hin.
  - simpl. destruct (decide (y = e)) as [->|Hne].
    + rewrite edge_same_refl. simpl. exists [], l. repeat split.
      apply not_elem_of_nil.
    + rewrite (Hf y); [|left|assumption]. simpl.
      apply elem_of_cons in Hin as [->|Hin]; [congruence|].
      destruct IH as (l1 & l2 & -> & Hnot & ->); [|assumption|].
      { intros e' He'. apply Hf. now right. }
      exists (y :: l1), l2. simpl. repeat split.
      rewrite not_elem_of_cons. split; congruence.
Qed.

(** ** C1: the setters keep the adjacency lists consistent *)

Lemma insert_is_Some {A} (l : list A) i x j :
  is_Some (<[i := x]> l !! j) <-> is_Some (l !! j).
Proof. rewrite !lookup_lt_is_Some, length_insert. reflexivity. Qed.

Lemma elem_of_app_without {A} (l1 l2 : list A) e x :
  NoDup (l1 ++ e :: l2) ->
  (x ∈ l1 ++ l2 <-> x ∈ l1 ++ e :: l2 /\ x <> e).
Proof.
  intros Hnd. apply NoDup_app in Hnd as (_ & H1 & H2).
  apply NoDup_cons in H2 as (H2 & _).
  rewrite !elem_of_app, elem_of_cons. split.
  - intros [Hx|Hx].
    + split; [now left|]. intros ->. eapply H1; [eassumption|left].
    + split; [right; now right|]. intros ->. contradiction.
  - intros [[Hx|[->|Hx]] Hne]; [now left|contradiction|now right].
Qed.

Lemma NoDup_app_without {A} (l1 l2 : list A) e :
  NoDup (l1 ++ e :: l2) -> NoDup (l1 ++ l2).
Proof.
  rewrite !NoDup_app, NoDup_cons. intros (H1 & H2 & _ & H3). repeat split; auto.
  intros x Hx Hx2. eapply H2; [eassumption|now right].
Qed.

Lemma NoDup_snoc {A} (l : list A) e : NoDup l -> e ∉ l -> NoDup (l ++ [e]).
Proof.
  intros Hnd Hnot. apply NoDup_app. repeat split; auto.
  - intros x Hx Hx'. apply list_elem_of_singleton in Hx'. congruence.
  - apply NoDup_singleton.
Qed.

(** Taking the edge [e] out of the [outgoing] list of its head. *)
Lemma unlink_head_consistent s e E h0 H0 l1 l2 :
  adjacency_consistent s ->
  edges s !! e = Some E -> _head E = Some h0 -> nodes s !! h0 = Some H0 ->
  outgoing H0 = l1 ++ e :: l2 ->
  adjacency_consistent
    (put_edge (put_node s h0 (with_outgoing (l1 ++ l2) H0)) e (with__head None E)).
Proof.
  intros Hc HE Hh HH0 Hout.
  assert (Hnd : NoDup (l1 ++ e :: l2)).
  { rewrite <- Hout. eapply ac_nodup_out; eauto. }
  split; simpl.
  - intros n N e0 HN.
    apply list_lookup_insert_Some in HN as [(<- & <- & _)|(Hne & HN)]; simpl.
    + rewrite (elem_of_app_without _ _ _ _ Hnd), <- Hout.
      rewrite (ac_outgoing s Hc h0 H0 e0 HH0).
      split.
      * intros ((E0 & HE0 & Hh0) & Hne). exists E0. split; [|assumption].
        rewrite list_lookup_insert_ne; congruence.
      * intros (E0 & HE0 & Hh0).
        apply list_lookup_insert_Some in HE0 as [(<- & <- & _)|(Hne & HE0)];
          [discriminate|]. split; eauto.
    + rewrite (ac_outgoing s Hc n N e0 HN). split.
      * intros (E0 & HE0 & Hh0). exists E0. split; [|assumption].
        rewrite list_lookup_insert_ne; congruence.
      * intros (E0 & HE0 & Hh0).
        apply list_lookup_insert_Some in HE0 as [(<- & <- & _)|(Hne' & HE0)];
          [discriminate|]. eauto.
  - intros n N e0 HN.
    assert (HN' : exists N0, nodes s !! n = Some N0 /\ incoming N0 = incoming N).
    { apply list_lookup_insert_Some in HN as [(<- & <- & _)|(Hne & HN)]; eauto. }
    destruct HN' as (N0 & HN0 & <-).
    rewrite (ac_incoming s Hc n N0 e0 HN0). split.
    + intros (E0 & HE0 & Hd0). destruct (decide (e0 = e)) as [->|Hne].
      * exists (with__head None E). split.
        -- eapply lookup_put_same; eauto.
        -- simpl. congruence.
      * exists E0. split; [|assumption]. rewrite list_lookup_insert_ne; congruence.
    + intros (E0 & HE0 & Hd0).
      apply list_lookup_insert_Some in HE0 as [(<- & <- & _)|(Hne' & HE0)]; eauto.
  - intros n N HN.
    apply list_lookup_insert_Some in HN as [(<- & <- & _)|(Hne & HN)]; simpl.
    + eapply NoDup_app_without; eauto.
    + eapply ac_nodup_out; eauto.
  - intros n N HN.
    apply list_lookup_insert_Some in HN as [(<- & <- & _)|(Hne & HN)]; simpl;
      eapply ac_nodup_in; eauto.
  - intros e0 E0 h HE0 Hh0. apply insert_is_Some.
    apply list_lookup_insert_Some in HE0 as [(<- & <- & _)|(Hne' & HE0)];
      [discriminate|]. eapply ac_head_valid; eauto.
  - intros e0 E0 d HE0 Hd0. apply insert_is_Some.
    apply list_lookup_insert_Some in HE0 as [(<- & <- & _)|(Hne' & HE0)];
      eapply ac_dependent_valid; eauto.
Qed.

(** Putting the edge [e], which has no head, at the end of the [outgoing]
    list of [h]. *)
Lemma link_head_consistent s e E h H hi :
  adjacency_consistent s ->
  edges s !! e = Some E -> _head E = None -> nodes s !! h = Some H ->
  adjacency_consistent
    (put_edge (put_node s h (with_outgoing (outgoing H ++ [e]) H)) e
       (with_head_index hi (with__head (Some h) E))).
Proof.
  intros Hc HE Hh HH.
  assert (Hfresh : forall n N, nodes s !! n = Some N -> e ∉ outgoing N).
  { intros n N HN Hin. apply (ac_outgoing s Hc n N e HN) in Hin as (E0 & HE0 & Hh0).
    congruence. }
  split; simpl.
  - intros n N e0 HN.
    apply list_lookup_insert_Some in HN as [(<- & <- & _)|(Hne & HN)]; simpl.
    + rewrite elem_of_app, list_elem_of_singleton.
      rewrite (ac_outgoing s Hc h H e0 HH). split.
      * intros [(E0 & HE0 & Hh0)| ->].
        -- exists E0. split; [|assumption].
           rewrite list_lookup_insert_ne; congruence.
        -- eexists. split; [eapply lookup_put_same; eauto|reflexivity].
      * intros (E0 & HE0 & Hh0).
        apply list_lookup_insert_Some in HE0 as [(<- & <- & _)|(Hne & HE0)]; eauto.
    + rewrite (ac_outgoing s Hc n N e0 HN). split.
      * intros (E0 & HE0 & Hh0). exists E0. split; [|assumption].
        rewrite list_lookup_insert_ne; congruence.
      * intros (E0 & HE0 & Hh0).
        apply list_lookup_insert_Some in HE0 as [(<- & <- & _)|(Hne' & HE0)];
          [simpl in Hh0; congruence|]. eauto.
  - intros n N e0 HN.
    assert (HN' : exists N0, nodes s !! n = Some N0 /\ incoming N0 = incoming N).
    { apply list_lookup_insert_Some in HN as [(<- & <- & _)|(Hne & HN)]; eauto. }
    destruct HN' as (N0 & HN0 & <-).
    rewrite (ac_incoming s Hc n N0 e0 HN0). split.
    + intros (E0 & HE0 & Hd0). destruct (decide (e0 = e)) as [->|Hne].
      * eexists. split; [eapply lookup_put_same; eauto|]. simpl. congruence.
      * exists E0. split; [|assumption]. rewrite list_lookup_insert_ne; congruence.
    + intros (E0 & HE0 & Hd0).
      apply list_lookup_insert_Some in HE0 as [(<- & <- & _)|(Hne' & HE0)]; eauto.
  - intros n N HN.
    apply list_lookup_insert_Some in HN as [(<- & <- & _)|(Hne & HN)]; simpl.
    + apply NoDup_snoc; [eapply ac_nodup_out; eauto|eauto].
    + eapply ac_nodup_out; eauto.
  - intros n N HN.
    apply list_lookup_insert_Some in HN as [(<- & <- & _)|(Hne & HN)]; simpl;
      eapply ac_nodup_in; eauto.
  - intros e0 E0 h1 HE0 Hh0. apply insert_is_Some.
    apply list_lookup_insert_Some in HE0 as [(<- & <- & _)|(Hne' & HE0)].
    + simpl in Hh0. injection Hh0 as <-. eauto.
    + eapply ac_head_valid; eauto.
  - intros e0 E0 d HE0 Hd0. apply insert_is_Some.
    apply list_lookup_insert_Some in HE0 as [(<- & <- & _)|(Hne' & HE0)];
      eapply ac_dependent_valid; eauto.
Qed.

(** Taking the edge [e] out of the [incoming] list of its dependent. *)
Lemma unlink_dependent_consistent s e E h0 H0 l1 l2 :
  adjacency_consistent s ->
  edges s !! e = Some E -> _dependent E = Some h0 -> nodes s !! h0 = Some H0 ->
  incoming H0 = l1 ++ e :: l2 ->
  adjacency_consistent
    (put_edge (put_node s h0 (with_incoming (l1 ++ l2) H0)) e (with__dependent None E)).
Proof.
  intros Hc HE Hh HH0 Hout.
  assert (Hnd : NoDup (l1 ++ e :: l2)).
  { rewrite <- Hout. eapply ac_nodup_in; eauto. }
  split; simpl.
  - intros n N e0 HN.
    assert (HN' : exists N0, nodes s !! n = Some N0 /\ outgoing N0 = outgoing N).
    { apply list_lookup_insert_Some in HN as [(<- & <- & _)|(Hne & HN)]; eauto. }
    destruct HN' as (N0 & HN0 & <-).
    rewrite (ac_outgoing s Hc n N0 e0 HN0). split.
    + intros (E0 & HE0 & Hd0). destruct (decide (e0 = e)) as [->|Hne].
      * exists (with__dependent None E). split.
        -- eapply lookup_put_same; eauto.
        -- simpl. congruence.
      * exists E0. split; [|assumption]. rewrite list_lookup_insert_ne; congruence.
    + intros (E0 & HE0 & Hd0).
      apply list_lookup_insert_Some in HE0 as [(<- & <- & _)|(Hne' & HE0)]; eauto.
  - intros n N e0 HN.
    apply list_lookup_insert_Some in HN as [(<- & <- & _)|(Hne & HN)]; simpl.
    + rewrite (elem_of_app_without _ _ _ _ Hnd), <- Hout.
      rewrite (ac_incoming s Hc h0 H0 e0 HH0).
      split.
      * intros ((E0 & HE0 & Hh0) & Hne). exists E0. split; [|assumption].
        rewrite list_lookup_insert_ne; congruence.
      * intros (E0 & HE0 & Hh0).
        apply list_lookup_insert_Some in HE0 as [(<- & <- & _)|(Hne & HE0)];
          [discriminate|]. split; eauto.
    + rewrite (ac_incoming s Hc n N e0 HN). split.
      * intros (E0 & HE0 & Hh0). exists E0. split; [|assumption].
        rewrite list_lookup_insert_ne; congruence.
      * intros (E0 & HE0 & Hh0).
        apply list_lookup_insert_Some in HE0 as [(<- & <- & _)|(Hne' & HE0)];
          [discriminate|]. eauto.
  - intros n N HN.
    apply list_lookup_insert_Some in HN as [(<- & <- & _)|(Hne & HN)]; simpl;
      eapply ac_nodup_out; eauto.
  - intros n N HN.
    apply list_lookup_insert_Some in HN as [(<- & <- & _)|(Hne & HN)]; simpl.
    + eapply NoDup_app_without; eauto.
    + eapply ac_nodup_in; eauto.
  - intros e0 E0 d HE0 Hd0. apply insert_is_Some.
    apply list_lookup_insert_Some in HE0 as [(<- & <- & _)|(Hne' & HE0)];
      eapply ac_head_valid; eauto.
  - intros e0 E0 h HE0 Hh0. apply insert_is_Some.
    apply list_lookup_insert_Some in HE0 as [(<- & <- & _)|(Hne' & HE0)];
      [discriminate|]. eapply ac_dependent_valid; eauto.
Qed.

(** Putting the edge [e], which has no dependent, at the end of the
    [incoming] list of [h]. *)
Lemma link_dependent_consistent s e E h H :
  adjacency_consistent s ->
  edges s !! e = Some E -> _dependent E = None -> nodes s !! h = Some H ->
  adjacency_consistent
    (put_edge (put_node s h (with_incoming (incoming H ++ [e]) H)) e
       (with__dependent (Some h) E)).
Proof.
  intros Hc HE Hh HH.
  assert (Hfresh : forall n N, nodes s !! n = Some N -> e ∉ incoming N).
  { intros n N HN Hin. apply (ac_incoming s Hc n N e HN) in Hin as (E0 & HE0 & Hh0).
    congruence. }
  split; simpl.
  - intros n N e0 HN.
    assert (HN' : exists N0, nodes s !! n = Some N0 /\ outgoing N0 = outgoing N).
    { apply list_lookup_insert_Some in HN as [(<- & <- & _)|(Hne & HN)]; eauto. }
    destruct HN' as (N0 & HN0 & <-).
    rewrite (ac_outgoing s Hc n N0 e0 HN0). split.
    + intros (E0 & HE0 & Hd0). destruct (decide (e0 = e)) as [->|Hne].
      * eexists. split; [eapply lookup_put_same; eauto|]. simpl. congruence.
      * exists E0. split; [|assumption]. rewrite list_lookup_insert_ne; congruence.
    + intros (E0 & HE0 & Hd0).
      apply list_lookup_insert_Some in HE0 as [(<- & <- & _)|(Hne' & HE0)]; eauto.
  - intros n N e0 HN.
    apply list_lookup_insert_Some in HN as [(<- & <- & _)|(Hne & HN)]; simpl.
    + rewrite elem_of_app, list_elem_of_singleton.
      rewrite (ac_incoming s Hc h H e0 HH). split.
      * intros [(E0 & HE0 & Hh0)| ->].
        -- exists E0. split; [|assumption].
           rewrite list_lookup_insert_ne; congruence.
        -- eexists. split; [eapply lookup_put_same; eauto|reflexivity].
      * intros (E0 & HE0 & Hh0).
        apply list_lookup_insert_Some in HE0 as [(<- & <- & _)|(Hne & HE0)]; eauto.
    + rewrite (ac_incoming s Hc n N e0 HN). split.
      * intros (E0 & HE0 & Hh0). exists E0. split; [|assumption].
        rewrite list_lookup_insert_ne; congruence.
      * intros (E0 & HE0 & Hh0).
        apply list_lookup_insert_Some in HE0 as [(<- & <- & _)|(Hne' & HE0)];
          [simpl in Hh0; congruence|]. eauto.
  - intros n N HN.
    apply list_lookup_insert_Some in HN as [(<- & <- & _)|(Hne & HN)]; simpl;
      eapply ac_nodup_out; eauto.
  - intros n N HN.
    apply list_lookup_insert_Some in HN as [(<- & <- & _)|(Hne & HN)]; simpl.
    + apply NoDup_snoc; [eapply ac_nodup_in; eauto|eauto].
    + eapply ac_nodup_in; eauto.
  - intros e0 E0 d HE0 Hd0. apply insert_is_Some.
    apply list_lookup_insert_Some in HE0 as [(<- & <- & _)|(Hne' & HE0)];
      eapply ac_head_valid; eauto.
  - intros e0 E0 h1 HE0 Hh0. apply insert_is_Some.
    apply list_lookup_insert_Some in HE0 as [(<- & <- & _)|(Hne' & HE0)].
    + simpl in Hh0. injection Hh0 as <-. eauto.
    + eapply ac_dependent_valid; eauto.
Qed.

Lemma with__head_same E : with__head (_head E) E = E.
Proof. now destruct E. Qed.

Lemma with__dependent_same E : with__dependent (_dependent E) E = E.
Proof. now destruct E. Qed.

Lemma put_edge_same s e E : edges s !! e = Some E -> put_edge s e E = s.
Proof.
  intros H. destruct s as [ns es]. unfold put_edge. simpl in *.
  now rewrite list_insert_id.
Qed.

(** The store after the first statement of the head setter, with the head
    of the edge already [None]. *)
Lemma detach_head_consistent s e E s1 :
  adjacency_consistent s -> edges s !! e = Some E ->
  (forall h0 H0, _head E = Some h0 -> nodes s !! h0 = Some H0 ->
     eq_free s e (outgoing H0)) ->
  detach_head e E s = Ok s1 ->
  adjacency_consistent (put_edge s1 e (with__head None E)).
Proof.
  intros Hc HE Hfree Hd. unfold detach_head in Hd.
  destruct (_head E) as [h0|] eqn:Hh.
  - apply bind_Ok in Hd as (H0 & HH0 & Hd). apply get_node_Ok in HH0.
    specialize (Hfree h0 H0 eq_refl HH0).
    rewrite (list_contains_spec _ _ _ Hfree) in Hd. cbn [bind] in Hd.
    assert (Hin : e ∈ outgoing H0).
    { apply (ac_outgoing s Hc h0 H0 e HH0). eauto. }
    rewrite bool_decide_eq_true_2 in Hd by assumption.
    destruct (list_remove_spec _ _ _ Hfree Hin) as (l1 & l2 & Hout & _ & Hrem).
    rewrite Hrem in Hd. cbn [bind] in Hd. injection Hd as <-.
    eapply unlink_head_consistent; eauto.
  - injection Hd as <-. rewrite <- Hh, with__head_same.
    now rewrite put_edge_same.
Qed.

Lemma detach_dependent_consistent s e E s1 :
  adjacency_consistent s -> edges s !! e = Some E ->
  (forall d0 D0, _dependent E = Some d0 -> nodes s !! d0 = Some D0 ->
     eq_free s e (incoming D0)) ->
  detach_dependent e E s = Ok s1 ->
  adjacency_consistent (put_edge s1 e (with__dependent None E)).
Proof.
  intros Hc HE Hfree Hd. unfold detach_dependent in Hd.
  destruct (_dependent E) as [d0|] eqn:Hh.
  - apply bind_Ok in Hd as (D0 & HD0 & Hd). apply get_node_Ok in HD0.
    specialize (Hfree d0 D0 eq_refl HD0).
    assert (Hin : e ∈ incoming D0).
    { apply (ac_incoming s Hc d0 D0 e HD0). eauto. }
    destruct (list_remove_spec _ _ _ Hfree Hin) as (l1 & l2 & Hout & _ & Hrem).
    rewrite Hrem in Hd. cbn [bind] in Hd. injection Hd as <-.
    eapply unlink_dependent_consistent; eauto.
  - injection Hd as <-. rewrite <- Hh, with__dependent_same.
    now rewrite put_edge_same.
Qed.

Lemma set_head_consistent e h s s' :
  adjacency_consistent s ->
  (forall E h0 H0, edges s !! e = Some E -> _head E = Some h0 ->
     nodes s !! h0 = Some H0 -> eq_free s e (outgoing H0)) ->
  set_head e h s = Ok s' -> adjacency_consistent s'.
Proof.
  intros Hc Hfree Hset. unfold set_head in Hset.
  apply bind_Ok in Hset as (E & HE & Hset). apply get_edge_Ok in HE.
  apply bind_Ok in Hset as (s1 & Hs1 & Hset).
  pose proof (detach_head_consistent s e E s1 Hc HE (fun h0 H0 => Hfree E h0 H0 HE) Hs1)
    as HcA.
  pose proof (detach_head_edges _ _ _ _ Hs1) as Hedges.
  destruct h as [h|].
  - apply bind_Ok in Hset as (H & HH & Hset). apply get_node_Ok in HH.
    injection Hset as <-. simpl in HH.
    set (sA := put_edge s1 e (with__head None E)) in *.
    assert (HEA : edges sA !! e = Some (with__head None E)).
    { subst sA. simpl. eapply lookup_put_same. rewrite Hedges. eauto. }
    pose proof (link_head_consistent sA e _ h H (HInt (position H - 1)) HcA HEA
                  eq_refl HH) as Hfin.
    replace (put_edge _ e _) with
      (put_edge (put_node sA h (with_outgoing (outgoing H ++ [e]) H)) e
         (with_head_index (HInt (position H - 1))
            (with__head (Some h) (with__head None E)))); [assumption|].
    subst sA. unfold put_edge, put_node. simpl. f_equal.
    now rewrite !list_insert_insert_eq.
  - injection Hset as <-. assumption.
Qed.

Lemma set_dependent_consistent e d s s' :
  adjacency_consistent s ->
  (forall E d0 D0, edges s !! e = Some E -> _dependent E = Some d0 ->
     nodes s !! d0 = Some D0 -> eq_free s e (incoming D0)) ->
  set_dependent e d s = Ok s' -> adjacency_consistent s'.
Proof.
  intros Hc Hfree Hset. unfold set_dependent in Hset.
  apply bind_Ok in Hset as (E & HE & Hset). apply get_edge_Ok in HE.
  apply bind_Ok in Hset as (s1 & Hs1 & Hset).
  pose proof (detach_dependent_consistent s e E s1 Hc HE
                (fun d0 D0 => Hfree E d0 D0 HE) Hs1) as HcA.
  pose proof (detach_dependent_edges _ _ _ _ Hs1) as Hedges.
  destruct d as [d|].
  - apply bind_Ok in Hset as (D & HD & Hset). apply get_node_Ok in HD.
    injection Hset as <-. simpl in HD.
    set (sA := put_edge s1 e (with__dependent None E)) in *.
    assert (HEA : edges sA !! e = Some (with__dependent None E)).
    { subst sA. simpl. eapply lookup_put_same. rewrite Hedges. eauto. }
    pose proof (link_dependent_consistent sA e _ d D HcA HEA eq_refl HD) as Hfin.
    replace (put_node _ d _) with
      (put_edge (put_node sA d (with_incoming (incoming D ++ [e]) D)) e
         (with__dependent (Some d) (with__dependent None E))); [assumption|].
    subst sA. unfold put_edge, put_node. simpl. f_equal.
    now rewrite !list_insert_insert_eq.
  - injection Hset as <-. assumption.
Qed.

(** *** What the setters leave alone *)

Lemma fmap_insert_same {A B} (f : A -> B) (l : list A) i x y :
  l !! i = Some y -> f x = f y -> f <$> <[i := x]> l = f <$> l.
Proof.
  intros Hl Hf. rewrite list_fmap_insert. apply list_insert_id.
  rewrite list_lookup_fmap, Hl. simpl. congruence.
Qed.

Lemma detach_head_nodes {B} (f : Node -> B) e E s s1 :
  (forall l N, f (with_outgoing l N) = f N) ->
  detach_head e E s = Ok s1 -> f <$> nodes s1 = f <$> nodes s.
Proof.
  intros Hf. unfold detach_head. destruct (_head E) as [h0|]; [|congruence].
  intros H. apply bind_Ok in H as (H0 & HH0 & H). apply get_node_Ok in HH0.
  apply bind_Ok in H as ([] & _ & H).
  - apply bind_Ok in H as (l & _ & H). injection H as <-. simpl.
    eapply fmap_insert_same; eauto.
  - congruence.
Qed.

Lemma detach_dependent_nodes {B} (f : Node -> B) e E s s1 :
  (forall l N, f (with_incoming l N) = f N) ->
  detach_dependent e E s = Ok s1 -> f <$> nodes s1 = f <$> nodes s.
Proof.
  intros Hf. unfold detach_dependent. destruct (_dependent E) as [d0|]; [|congruence].
  intros H. apply bind_Ok in H as (D0 & HD0 & H). apply get_node_Ok in HD0.
  apply bind_Ok in H as (l & _ & H). injection H as <-. simpl.
  eapply fmap_insert_same; eauto.
Qed.

(** [edge.head = None] changes nothing that [__eq__] reads, no [incoming]
    list and no dependent. *)
Lemma set_head_None_frame e s s1 :
  set_head e None s = Ok s1 ->
  eq_view s1 = eq_view s /\
  incoming <$> nodes s1 = incoming <$> nodes s /\
  _dependent <$> edges s1 = _dependent <$> edges s.
Proof.
  unfold set_head. intros H.
  apply bind_Ok in H as (E & HE & H). apply get_edge_Ok in HE.
  apply bind_Ok in H as (s' & Hs' & H). injection H as <-.
  pose proof (detach_head_edges _ _ _ _ Hs') as Hedges.
  unfold eq_view. simpl. rewrite Hedges.
  rewrite (detach_head_nodes (fun N => (position N, span N)) _ _ _ _ (fun _ _ => eq_refl) Hs').
  rewrite (detach_head_nodes incoming _ _ _ _ (fun _ _ => eq_refl) Hs').
  rewrite !(fmap_insert_same _ _ _ _ _ HE) by reflexivity.
  auto.
Qed.

Lemma fmap_lookup_eq {A B} (f : A -> B) (l l' : list A) i x :
  f <$> l' = f <$> l -> l' !! i = Some x -> exists y, l !! i = Some y /\ f y = f x.
Proof.
  intros Heq Hx.
  assert (H : (f <$> l) !! i = Some (f x)).
  { rewrite <- Heq, list_lookup_fmap, Hx. reflexivity. }
  rewrite list_lookup_fmap in H. destruct (l !! i) as [y|]; simpl in H; [|discriminate].
  exists y. split; congruence.
Qed.

Lemma Edge_remove_consistent e s s' :
  adjacency_consistent s ->
  (forall E h0 H0, edges s !! e = Some E -> _head E = Some h0 ->
     nodes s !! h0 = Some H0 -> eq_free s e (outgoing H0)) ->
  (forall E d0 D0, edges s !! e = Some E -> _dependent E = Some d0 ->
     nodes s !! d0 = Some D0 -> eq_free s e (incoming D0)) ->
  Edge_remove e s = Ok s' -> adjacency_consistent s'.
Proof.
  intros Hc Hfh Hfd Hrem. unfold Edge_remove in Hrem.
  apply bind_Ok in Hrem as (s1 & Hs1 & Hrem).
  pose proof (set_head_consistent _ _ _ _ Hc Hfh Hs1) as Hc1.
  destruct (set_head_None_frame _ _ _ Hs1) as (Hview & Hinc & Hdep).
  eapply set_dependent_consistent; [exact Hc1| |exact Hrem].
  intros E1 d0 D1 HE1 Hd1 HD1.
  destruct (fmap_lookup_eq _ _ _ _ _ Hdep HE1) as (E & HE & HdE).
  destruct (fmap_lookup_eq _ _ _ _ _ Hinc HD1) as (D & HD & HiD).
  rewrite <- HiD. apply (eq_free_view s s1); [now symmetry|].
  eapply Hfd; eauto. congruence.
Qed.

(** A new edge with no ends. *)
Lemma alloc_edge_consistent s hi r rem :
  adjacency_consistent s ->
  adjacency_consistent (fst (alloc_edge s (mkEdge hi r rem None None))).
Proof.
  intros Hc. simpl.
  assert (Hlk : forall e0 E0, (edges s ++ [mkEdge hi r rem None None]) !! e0 = Some E0 ->
            edges s !! e0 = Some E0 \/ (_head E0 = None /\ _dependent E0 = None)).
  { intros e0 E0 H. apply lookup_app_Some in H as [H|(_ & H)]; [now left|].
    apply list_lookup_singleton_Some in H as (_ & <-). now right. }
  split; simpl.
  - intros n N e0 HN. rewrite (ac_outgoing s Hc n N e0 HN). split.
    + intros (E0 & HE0 & Hh). exists E0. split; [|assumption].
      apply lookup_app_l_Some. assumption.
    + intros (E0 & HE0 & Hh). apply Hlk in HE0 as [HE0|(Hn & _)]; [eauto|congruence].
  - intros n N e0 HN. rewrite (ac_incoming s Hc n N e0 HN). split.
    + intros (E0 & HE0 & Hh). exists E0. split; [|assumption].
      apply lookup_app_l_Some. assumption.
    + intros (E0 & HE0 & Hh). apply Hlk in HE0 as [HE0|(_ & Hn)]; [eauto|congruence].
  - apply (ac_nodup_out s Hc).
  - apply (ac_nodup_in s Hc).
  - intros e0 E0 h HE0 Hh. apply Hlk in HE0 as [HE0|(Hn & _)]; [|congruence].
    eapply ac_head_valid; eauto.
  - intros e0 E0 d HE0 Hd. apply Hlk in HE0 as [HE0|(_ & Hn)]; [|congruence].
    eapply ac_dependent_valid; eauto.
Qed.

(** *** The checkers are sound *)

Lemma forallb_from_lookup {A} (f : nat -> A -> bool) i (l : list A) j x :
  forallb_from f i l = true -> l !! j = Some x -> f (i + j)%nat x = true.
Proof.
  revert i j. induction l as [|y l IH]; intros i j Hf Hl; [discriminate|].
  simpl in Hf. apply andb_true_iff in Hf as (Hy & Hf).
  destruct j as [|j]; simpl in Hl.
  - injection Hl as <-. now rewrite Nat.add_0_r.
  - replace (i + S j)%nat with (S i + j)%nat by lia. eauto.
Qed.

Lemma adjacency_consistentb_sound s :
  adjacency_consistentb s = true -> adjacency_consistent s.
Proof.
  unfold adjacency_consistentb. intros H. apply andb_true_iff in H as (Hn & He).
  assert (HN : forall n N, nodes s !! n = Some N -> node_lists_ok s n N = true).
  { intros n N Hl. apply (forallb_from_lookup _ 0 _ n N Hn Hl). }
  assert (HE : forall e E, edges s !! e = Some E -> edge_ends_ok s e E = true).
  { intros e E Hl. apply (forallb_from_lookup _ 0 _ e E He Hl). }
  clear Hn He.
  assert (HN' : forall n N, nodes s !! n = Some N ->
     NoDup (outgoing N) /\ NoDup (incoming N) /\
     (forall e, e ∈ outgoing N -> exists E, edges s !! e = Some E /\ _head E = Some n) /\
     (forall e, e ∈ incoming N -> exists E, edges s !! e = Some E /\ _dependent E = Some n)).
  { intros n N Hl. specialize (HN n N Hl). unfold node_lists_ok in HN.
    repeat (apply andb_true_iff in HN as (HN & ?)).
    apply bool_decide_eq_true in HN. split; [assumption|].
    split; [now apply bool_decide_eq_true in H1|]. split.
    - intros e Hin. rewrite forallb_forall in H0.
      apply list_elem_of_In in Hin. specialize (H0 e Hin).
      unfold edge_has_head in H0. destruct (edges s !! e) as [E|]; [|discriminate].
      apply bool_decide_eq_true in H0. eauto.
    - intros e Hin. rewrite forallb_forall in H.
      apply list_elem_of_In in Hin. specialize (H e Hin).
      unfold edge_has_dependent in H. destruct (edges s !! e) as [E|]; [|discriminate].
      apply bool_decide_eq_true in H. eauto. }
  assert (HE' : forall e E, edges s !! e = Some E ->
     (forall h, _head E = Some h -> exists H, nodes s !! h = Some H /\ e ∈ outgoing H) /\
     (forall d, _dependent E = Some d -> exists D, nodes s !! d = Some D /\ e ∈ incoming D)).
  { intros e E Hl. specialize (HE e E Hl). unfold edge_ends_ok in HE.
    apply andb_true_iff in HE as (H1 & H2). split.
    - intros h Hh. rewrite Hh in H1. destruct (nodes s !! h) as [H|]; [|discriminate].
      apply bool_decide_eq_true in H1. eauto.
    - intros d Hd. rewrite Hd in H2. destruct (nodes s !! d) as [D|]; [|discriminate].
      apply bool_decide_eq_true in H2. eauto. }
  split.
  - intros n N e Hl. split; [apply (HN' n N Hl)|].
    intros (E & HlE & Hh). destruct (HE' e E HlE) as (H1 & _).
    destruct (H1 n Hh) as (N' & HN'' & Hin). congruence.
  - intros n N e Hl. split; [apply (HN' n N Hl)|].
    intros (E & HlE & Hh). destruct (HE' e E HlE) as (_ & H1).
    destruct (H1 n Hh) as (N' & HN'' & Hin). congruence.
  - intros n N Hl. apply (HN' n N Hl).
  - intros n N Hl. apply (HN' n N Hl).
  - intros e E h Hl Hh. destruct (HE' e E Hl) as (H1 & _).
    destruct (H1 h Hh) as (N' & -> & _). eauto.
  - intros e E d Hl Hd. destruct (HE' e E Hl) as (_ & H1).
    destruct (H1 d Hd) as (N' & -> & _). eauto.
Qed.

Lemma eq_freeb_sound s e l : eq_freeb s e l = true -> eq_free s e l.
Proof.
  unfold eq_freeb. rewrite forallb_forall. intros H e' Hin Hne.
  apply list_elem_of_In in Hin. specialize (H e' Hin).
  apply orb_true_iff in H as [H|H].
  - apply bool_decide_eq_true in H. contradiction.
  - destruct (edge_same s e' e) as [[]| |]; congruence.
Qed.

Lemma Edge_init_consistent hi r rem s s' e :
  adjacency_consistent s -> Edge_init hi r rem s = Ok (s', e) ->
  adjacency_consistent s'.
Proof.
  intros Hc. unfold Edge_init.
  pose proof (alloc_edge_consistent s hi r rem Hc) as Hc1.
  destruct (alloc_edge s (mkEdge hi r rem None None)) as [s1 e1] eqn:Ha.
  simpl in Hc1. intros H.
  apply bind_Ok in H as (s2 & Hs2 & H). apply bind_Ok in H as (s3 & Hs3 & H).
  injection H as <- <-.
  assert (He1 : edges s1 !! e1 = Some (mkEdge hi r rem None None)).
  { unfold alloc_edge in Ha. injection Ha as <- <-. simpl.
    rewrite lookup_app_r by lia. now rewrite Nat.sub_diag. }
  assert (Hc2 : adjacency_consistent s2).
  { eapply set_head_consistent; [exact Hc1| |exact Hs2].
    intros E h0 H0 HE Hh. rewrite He1 in HE. injection HE as <-. discriminate. }
  destruct (set_head_None_frame _ _ _ Hs2) as (_ & _ & Hdep).
  eapply set_dependent_consistent; [exact Hc2| |exact Hs3].
  intros E d0 D0 HE Hd.
  destruct (fmap_lookup_eq _ _ _ _ _ Hdep HE) as (E1 & HE1 & HdE).
  rewrite He1 in HE1. injection HE1 as <-. simpl in HdE. congruence.
Qed.

(** Writing an edge with the same ends. *)
Lemma put_edge_consistent s e E E' :
  adjacency_consistent s -> edges s !! e = Some E ->
  _head E' = _head E -> _dependent E' = _dependent E ->
  adjacency_consistent (put_edge s e E').
Proof.
  intros Hc HE Hh Hd.
  assert (Hlk : forall e0 E0, <[e := E']> (edges s) !! e0 = Some E0 ->
     exists E1, edges s !! e0 = Some E1 /\ _head E1 = _head E0 /\
                _dependent E1 = _dependent E0).
  { intros e0 E0 H. apply list_lookup_insert_Some in H as [(<- & <- & _)|(_ & H)]; eauto. }
  assert (Hkl : forall e0 E1, edges s !! e0 = Some E1 ->
     exists E0, <[e := E']> (edges s) !! e0 = Some E0 /\ _head E1 = _head E0 /\
                _dependent E1 = _dependent E0).
  { intros e0 E1 H. destruct (decide (e0 = e)) as [->|Hne].
    - exists E'. split; [eapply lookup_put_same; eauto|]. split; congruence.
    - exists E1. rewrite list_lookup_insert_ne by congruence. auto. }
  split; simpl.
  - intros n N e0 HN. rewrite (ac_outgoing s Hc n N e0 HN). split.
    + intros (E1 & HE1 & H1). destruct (Hkl _ _ HE1) as (E0 & ? & ? & ?).
      exists E0. split; congruence.
    + intros (E0 & HE0 & H0). destruct (Hlk _ _ HE0) as (E1 & ? & ? & ?).
      exists E1. split; congruence.
  - intros n N e0 HN. rewrite (ac_incoming s Hc n N e0 HN). split.
    + intros (E1 & HE1 & H1). destruct (Hkl _ _ HE1) as (E0 & ? & ? & ?).
      exists E0. split; congruence.
    + intros (E0 & HE0 & H0). destruct (Hlk _ _ HE0) as (E1 & ? & ? & ?).
      exists E1. split; congruence.
  - apply (ac_nodup_out s Hc).
  - apply (ac_nodup_in s Hc).
  - intros e0 E0 h HE0 H0. destruct (Hlk _ _ HE0) as (E1 & ? & ? & ?).
    eapply (ac_head_valid s Hc e0 E1); congruence.
  - intros e0 E0 d HE0 H0. destruct (Hlk _ _ HE0) as (E1 & ? & ? & ?).
    eapply (ac_dependent_valid s Hc e0 E1); congruence.
Qed.

(** Linking the head of an edge that has none yet. *)
Lemma link_head_initial_consistent py_int e heads copy_of s s' E :
  adjacency_consistent s -> edges s !! e = Some E -> _head E = None ->
  link_head py_int e heads copy_of s = Ok s' -> adjacency_consistent s'.
Proof.
  intros Hc HE Hh. unfold link_head. rewrite (get_edge_Some _ _ _ HE). cbn [bind].
  intros H. apply bind_Ok in H as (s1 & Hs1 & H).
  apply bind_Ok in H as (E1 & HE1 & H). apply get_edge_Ok in HE1.
  assert (adjacency_consistent s1 /\ _head E1 = None) as (Hc1 & Hh1).
  { destruct (head_index E).
    - injection Hs1 as <-. split; [assumption|congruence].
    - apply bind_Ok in Hs1 as (i & _ & Hs1). injection Hs1 as <-. split.
      + eapply put_edge_consistent; eauto.
      + simpl in HE1. rewrite (lookup_put_same _ _ _ _ HE) in HE1.
        injection HE1 as <-. assumption. }
  destruct (head_index E1); [|discriminate].
  apply bind_Ok in H as (h & _ & H).
  eapply set_head_consistent; [exact Hc1| |exact H].
  intros E2 h0 H0 HE2. congruence.
Qed.

(** C1, as amended: each assignment through the setters of [Edge] keeps the
    adjacency lists consistent with the ends of the edges (an edge is in
    [n.outgoing] exactly when its head is [n], in [n.incoming] exactly when
    its dependent is [n]), provided that no other edge of the list the
    edge leaves compares equal to it ([list.remove] takes out the first
    equal item).  This covers the head setter, the dependent setter,
    [Edge.remove], the construction of an edge and the first [link_head];
    [preprocess], which assigns [incoming] directly, is not covered. *)
Theorem setters_keep_adjacency_consistent (s : Store) :
  adjacency_consistent s ->
  (forall e h s',
     (forall E h0 H0, edges s !! e = Some E -> _head E = Some h0 ->
        nodes s !! h0 = Some H0 -> eq_free s e (outgoing H0)) ->
     set_head e h s = Ok s' -> adjacency_consistent s') /\
  (forall e d s',
     (forall E d0 D0, edges s !! e = Some E -> _dependent E = Some d0 ->
        nodes s !! d0 = Some D0 -> eq_free s e (incoming D0)) ->
     set_dependent e d s = Ok s' -> adjacency_consistent s') /\
  (forall e s',
     (forall E h0 H0, edges s !! e = Some E -> _head E = Some h0 ->
        nodes s !! h0 = Some H0 -> eq_free s e (outgoing H0)) ->
     (forall E d0 D0, edges s !! e = Some E -> _dependent E = Some d0 ->
        nodes s !! d0 = Some D0 -> eq_free s e (incoming D0)) ->
     Edge_remove e s = Ok s' -> adjacency_consistent s') /\
  (forall hi r rem s' e,
     Edge_init hi r rem s = Ok (s', e) -> adjacency_consistent s') /\
  (forall py_int e heads copy_of s' E,
     edges s !! e = Some E -> _head E = None ->
     link_head py_int e heads copy_of s = Ok s' -> adjacency_consistent s').
Proof.
  intros Hc. split; [|split; [|split; [|split]]].
  - intros e h s'. apply set_head_consistent; assumption.
  - intros e d s'. apply set_dependent_consistent; assumption.
  - intros e s'. apply Edge_remove_consistent; assumption.
  - intros hi r rem s' e. apply Edge_init_consistent; assumption.
  - intros py_int e heads copy_of s' E. apply link_head_initial_consistent; assumption.
Qed.

(** Instance: in [ex_chain], the edge of "cat" moves from "sleeps" to the
    root through the head setter. *)
Lemma setters_keep_adjacency_consistent_witness :
  exists s', set_head 1 (Some 0%nat) ex_chain = Ok s' /\
             adjacency_consistent ex_chain /\ adjacency_consistent s'.
Proof.
  eexists. split; [vm_compute; reflexivity|].
  assert (Hc : adjacency_consistent ex_chain).
  { apply adjacency_consistentb_sound. vm_compute. reflexivity. }
  split; [exact Hc|].
  apply (proj1 (setters_keep_adjacency_consistent ex_chain Hc) 1%nat (Some 0%nat)).
  - intros E h0 H0 HE Hh HH0.
    vm_compute in HE. injection HE as <-. injection Hh as <-.
    vm_compute in HH0. injection HH0 as <-.
    apply eq_freeb_sound. vm_compute. reflexivity.
  - vm_compute. reflexivity.
Defined.

(** C1, counterexample: [preprocess] in tree mode gives the only token of
    [ex_single] a new [root] edge by assigning [dep_node.incoming]; the edge
    is in the [incoming] list of the node, and its dependent is [None]. *)
Lemma preprocess_breaks_adjacency :
  adjacency_consistent ex_single /\
  exists s' N E,
    preprocess "Terminal" true false [0%nat] true ex_single = Ok s' /\
    nodes s' !! 0%nat = Some N /\ 0%nat ∈ incoming N /\
    edges s' !! 0%nat = Some E /\ _dependent E = None /\
    ~ adjacency_consistent s'.
Proof.
  split.
  { apply adjacency_consistentb_sound. vm_compute. reflexivity. }
  eexists _, _, _. split; [vm_compute; reflexivity|].
  split; [vm_compute; reflexivity|].
  split; [left|].
  split; [vm_compute; reflexivity|].
  split; [reflexivity|].
  intros Hc.
  assert (Hi := ac_incoming _ Hc 0%nat _ 0%nat eq_refl).
  destruct (proj1 Hi) as (E & HE & Hd); [left|].
  vm_compute in HE. injection HE as <-. discriminate.
Qed.

(** ** C10: the head setter keeps [head_index] in step with the head *)

(** The effect of the head setter on the edges and on the positions. *)
Lemma set_head_effect e h s s' :
  set_head e h s = Ok s' ->
  exists E E',
    edges s !! e = Some E /\ edges s' = <[e := E']> (edges s) /\
    _head E' = h /\ _dependent E' = _dependent E /\
    rel E' = rel E /\ remote E' = remote E /\
    position <$> nodes s' = position <$> nodes s /\
    (h = None -> head_index E' = head_index E) /\
    (forall n, h = Some n ->
       exists H, nodes s' !! n = Some H /\ head_index E' = HInt (position H - 1)).
Proof.
  unfold set_head. intros H.
  apply bind_Ok in H as (E & HE & H). apply get_edge_Ok in HE.
  apply bind_Ok in H as (s1 & Hs1 & H).
  pose proof (detach_head_edges _ _ _ _ Hs1) as Hedges.
  pose proof (detach_head_nodes position _ _ _ _ (fun _ _ => eq_refl) Hs1) as Hpos.
  destruct h as [h|].
  - apply bind_Ok in H as (Hn & HHn & H). apply get_node_Ok in HHn.
    injection H as <-. simpl in HHn.
    exists E, (with_head_index (HInt (position Hn - 1)) (with__head (Some h) E)).
    simpl. rewrite list_insert_insert_eq, Hedges.
    repeat split; try assumption.
    + rewrite <- Hpos. eapply fmap_insert_same; eauto.
    + discriminate.
    + intros n [= <-]. eexists. split; [eapply lookup_put_same; eauto|reflexivity].
  - injection H as <-. exists E, (with__head None E). simpl. rewrite Hedges.
    repeat split; try assumption. intros n; discriminate.
Qed.

(** The effect of the dependent setter. *)
Lemma set_dependent_effect e d s s' :
  set_dependent e d s = Ok s' ->
  exists E,
    edges s !! e = Some E /\ edges s' = <[e := with__dependent d E]> (edges s) /\
    position <$> nodes s' = position <$> nodes s.
Proof.
  unfold set_dependent. intros H.
  apply bind_Ok in H as (E & HE & H). apply get_edge_Ok in HE.
  apply bind_Ok in H as (s1 & Hs1 & H).
  pose proof (detach_dependent_edges _ _ _ _ Hs1) as Hedges.
  pose proof (detach_dependent_nodes position _ _ _ _ (fun _ _ => eq_refl) Hs1) as Hpos.
  exists E. destruct d as [d|].
  - apply bind_Ok in H as (D & HD & H). apply get_node_Ok in HD.
    injection H as <-. simpl in *. rewrite Hedges. repeat split; try assumption.
    rewrite <- Hpos. eapply fmap_insert_same; eauto.
  - injection H as <-. simpl. rewrite Hedges. repeat split; assumption.
Qed.

Lemma set_head_Some_synced e h s s' :
  head_index_synced_except s e -> set_head e (Some h) s = Ok s' ->
  head_index_synced s'.
Proof.
  intros Hs Hset.
  destruct (set_head_effect _ _ _ _ Hset)
    as (E & E' & HE & Hedges & Hh & _ & _ & _ & Hpos & _ & Hidx).
  destruct (Hidx h eq_refl) as (Hn & HHn & Hi).
  intros e0 E0 h0 H0 HE0 Hh0 HH0. rewrite Hedges in HE0.
  apply list_lookup_insert_Some in HE0 as [(<- & <- & _)|(Hne & HE0)].
  - rewrite Hh in Hh0. injection Hh0 as <-. congruence.
  - destruct (fmap_lookup_eq _ _ _ _ _ Hpos HH0) as (H1 & HH1 & <-).
    eapply Hs; eauto.
Qed.

Lemma synced_except_of_synced s e : head_index_synced s -> head_index_synced_except s e.
Proof. intros Hs e0 E h H _. apply Hs. Qed.

Lemma set_head_synced e h s s' :
  head_index_synced s -> set_head e h s = Ok s' -> head_index_synced s'.
Proof.
  intros Hs Hset. destruct h as [h|].
  - eapply set_head_Some_synced; eauto using synced_except_of_synced.
  - destruct (set_head_effect _ _ _ _ Hset)
      as (E & E' & HE & Hedges & Hh & _ & _ & _ & Hpos & _ & _).
    intros e0 E0 h0 H0 HE0 Hh0 HH0. rewrite Hedges in HE0.
    apply list_lookup_insert_Some in HE0 as [(<- & <- & _)|(Hne & HE0)]; [congruence|].
    destruct (fmap_lookup_eq _ _ _ _ _ Hpos HH0) as (H1 & HH1 & <-).
    eapply Hs; eauto.
Qed.

Lemma set_dependent_synced e d s s' :
  head_index_synced s -> set_dependent e d s = Ok s' -> head_index_synced s'.
Proof.
  intros Hs Hset.
  destruct (set_dependent_effect _ _ _ _ Hset) as (E & HE & Hedges & Hpos).
  intros e0 E0 h0 H0 HE0 Hh0 HH0. rewrite Hedges in HE0.
  destruct (fmap_lookup_eq _ _ _ _ _ Hpos HH0) as (H1 & HH1 & <-).
  apply list_lookup_insert_Some in HE0 as [(<- & <- & _)|(Hne & HE0)].
  - simpl in *. eapply Hs; eauto.
  - eapply Hs; eauto.
Qed.

Lemma link_head_synced py_int e heads copy_of s s' :
  head_index_synced s -> link_head py_int e heads copy_of s = Ok s' ->
  head_index_synced s'.
Proof.
  intros Hs. unfold link_head. intros H.
  apply bind_Ok in H as (E & HE & H). apply get_edge_Ok in HE.
  apply bind_Ok in H as (s1 & Hs1 & H).
  apply bind_Ok in H as (E1 & HE1 & H).
  assert (Hex : head_index_synced_except s1 e).
  { destruct (head_index E).
    - injection Hs1 as <-. now apply synced_except_of_synced.
    - apply bind_Ok in Hs1 as (i & _ & Hs1). injection Hs1 as <-.
      intros e0 E0 h0 H0 Hne HE0. simpl in HE0.
      rewrite list_lookup_insert_ne in HE0 by congruence. simpl. eapply Hs; eauto. }
  destruct (head_index E1); [|discriminate].
  apply bind_Ok in H as (h & _ & H).
  eapply set_head_Some_synced; eauto.
Qed.

Lemma top_edge_head_index dep_node nodes0 s s' e :
  top_edge dep_node nodes0 s = Ok (s', e) ->
  exists E root R,
    py_index nodes0 0 = Ok root /\ nodes s' !! root = Some R /\
    edges s' !! e = Some E /\ _head E = Some root /\
    head_index E = HInt (position R - 1).
Proof.
  unfold top_edge. intros H.
  apply bind_Ok in H as ([s1 e1] & Hinit & H).
  apply bind_Ok in H as (root & Hroot & H).
  apply bind_Ok in H as (s2 & Hs2 & H).
  apply bind_Ok in H as (s3 & Hs3 & H). injection H as <- <-.
  destruct (set_head_effect _ _ _ _ Hs2)
    as (E & E' & HE & Hedges & Hh & _ & _ & _ & _ & _ & Hidx).
  destruct (Hidx root eq_refl) as (Hn & HHn & Hi).
  destruct (set_dependent_effect _ _ _ _ Hs3) as (E2 & HE2 & Hedges3 & Hpos).
  assert (E2 = E') as ->.
  { rewrite Hedges in HE2. rewrite (lookup_put_same _ _ _ _ HE) in HE2. congruence. }
  destruct (fmap_lookup_eq position (nodes s3) (nodes s2) root Hn (eq_sym Hpos) HHn)
    as (R & HR & HpR).
  exists (with__dependent (Some dep_node) E'), root, R.
  split; [assumption|]. split; [assumption|]. split.
  - rewrite Hedges3. eapply lookup_put_same; eauto.
  - simpl. split; congruence.
Qed.

(** C10: whenever a node is assigned as the head of an edge, [head_index]
    becomes [head.position - 1] in the same step (so [-1] for a head at
    position 0); every edge that has a head carries that index after any
    run of the setters, of [link_head] and of [top_edge], whatever
    [head_index] the edge was made with. *)
Theorem head_setter_syncs_head_index :
  (forall e h s s',
     set_head e (Some h) s = Ok s' ->
     exists E' H',
       edges s' !! e = Some E' /\ nodes s' !! h = Some H' /\
       _head E' = Some h /\ head_index E' = HInt (position H' - 1) /\
       (position H' = 0 -> head_index E' = HInt (-1))) /\
  (forall e h s s',
     head_index_synced s -> set_head e h s = Ok s' -> head_index_synced s') /\
  (forall e d s s',
     head_index_synced s -> set_dependent e d s = Ok s' -> head_index_synced s') /\
  (forall py_int e heads copy_of s s',
     head_index_synced s -> link_head py_int e heads copy_of s = Ok s' ->
     head_index_synced s') /\
  (forall dep_node nodes0 s s' e,
     top_edge dep_node nodes0 s = Ok (s', e) ->
     exists E root R,
       py_index nodes0 0 = Ok root /\ nodes s' !! root = Some R /\
       edges s' !! e = Some E /\ _head E = Some root /\
       head_index E = HInt (position R - 1)).
Proof.
  split; [|split; [|split; [|split]]].
  - intros e h s s' Hset.
    destruct (set_head_Some_post _ _ _ _ Hset) as (E' & H' & HE & HH & Hh & Hi).
    exists E', H'. repeat (split; [assumption|]).
    intros Hp. rewrite Hi, Hp. reflexivity.
  - intros e h s s'. apply set_head_synced.
  - intros e d s s'. apply set_dependent_synced.
  - intros py_int e heads copy_of s s'. apply link_head_synced.
  - intros dep_node nodes0 s s' e. apply top_edge_head_index.
Qed.

(** Instance: a [TOP] edge for "cat" in [ex_chain] is made with
    [head_index] 0 and ends with [-1], the root being at position 0. *)
Lemma head_setter_syncs_head_index_witness :
  exists s' e E,
    top_edge 2 [0; 1; 2]%nat ex_chain = Ok (s', e) /\
    edges s' !! e = Some E /\ _head E = Some 0%nat /\ head_index E = HInt (-1).
Proof.
  destruct (top_edge 2 [0; 1; 2]%nat ex_chain) as [[s' e]| |] eqn:Htop;
    [|vm_compute in Htop; discriminate|vm_compute in Htop; discriminate].
  destruct (proj2 (proj2 (proj2 (proj2 head_setter_syncs_head_index)))
              _ _ _ _ _ Htop) as (E & root & R & Hroot & HR & HE & Hh & Hi).
  exists s', e, E. split; [reflexivity|]. split; [assumption|].
  vm_compute in Hroot. injection Hroot as <-.
  vm_compute in Htop. injection Htop as <- <-.
  vm_compute in HR. injection HR as <-.
  split; [assumption|]. rewrite Hi. reflexivity.
Defined.

(** ** Sets of nodes in a well-formed graph *)

Section NodeSets.

Variable s : Store.
Hypothesis Hdistinct : forall n1 n2 N1 N2, n1 <> n2 ->
  nodes s !! n1 = Some N1 -> nodes s !! n2 = Some N2 -> Node_eq N1 N2 = false.

Lemma node_same_spec x y :
  is_Some (nodes s !! x) -> is_Some (nodes s !! y) ->
  node_same s x y = Ok (bool_decide (x = y)).
Proof.
  intros [X HX] [Y HY]. unfold node_same. case_bool_decide; [reflexivity|].
  rewrite (get_node_Some _ _ _ HX), (get_node_Some _ _ _ HY). cbn [bind].
  f_equal. eapply Hdistinct; eauto.
Qed.

Lemma set_contains_spec x l :
  is_Some (nodes s !! x) -> (forall y, y ∈ l -> is_Some (nodes s !! y)) ->
  set_contains s x l = Ok (bool_decide (x ∈ l)).
Proof.
  intros Hx. induction l as [|y l IH]; intros Hl; cbn [set_contains].
  - reflexivity.
  - rewrite node_same_spec; [|apply Hl; left|assumption]. cbn [bind].
    destruct (decide (y = x)) as [->|Hyx].
    + rewrite bool_decide_eq_true_2 by reflexivity.
      rewrite bool_decide_eq_true_2; [reflexivity|left].
    + rewrite bool_decide_eq_false_2 by assumption.
      rewrite IH by (intros z Hz; apply Hl; now right).
      f_equal. apply bool_decide_ext. rewrite elem_of_cons. intuition congruence.
Qed.

Lemma set_add_spec x l :
  is_Some (nodes s !! x) -> (forall y, y ∈ l -> is_Some (nodes s !! y)) ->
  set_add s x l = Ok (if bool_decide (x ∈ l) then l else l ++ [x]).
Proof.
  intros Hx Hl. unfold set_add. now rewrite set_contains_spec.
Qed.

Lemma set_remove_last x l :
  is_Some (nodes s !! x) -> (forall y, y ∈ l -> is_Some (nodes s !! y)) ->
  x ∉ l -> set_remove s x (l ++ [x]) = Ok l.
Proof.
  intros Hx. induction l as [|y l IH]; intros Hl Hnot; cbn [set_remove app].
  - rewrite node_same_spec by assumption.
    rewrite bool_decide_eq_true_2 by reflexivity. reflexivity.
  - apply not_elem_of_cons in Hnot as (Hne & Hnot).
    rewrite node_same_spec; [|apply Hl; left|assumption]. cbn [bind].
    rewrite bool_decide_eq_false_2 by congruence.
    rewrite IH; [reflexivity| |assumption]. intros z Hz. apply Hl. now right.
Qed.

End NodeSets.

(** ** The traversal of [find_cycle] *)

Section FindCycle.

Variable s : Store.
Hypothesis Hwf : wf_graph s.

Lemma wf_incoming_head n N e :
  nodes s !! n = Some N -> e ∈ incoming N ->
  exists E h, edges s !! e = Some E /\ _dependent E = Some n /\
              _head E = Some h /\ is_Some (nodes s !! h).
Proof.
  intros HN Hin.
  apply (ac_incoming s (wf_adj s Hwf) n N e HN) in Hin as (E & HE & Hd).
  destruct (proj2 (wf_linked s Hwf e E HE)) as (h & Hh); [eauto|].
  exists E, h. repeat split; try assumption.
  eapply ac_head_valid; eauto using wf_adj.
Qed.

Lemma valid_lt x : is_Some (nodes s !! x) <-> (x < length (nodes s))%nat.
Proof. apply lookup_lt_is_Some. Qed.

Lemma valid_nodup_length v :
  NoDup v -> (forall x, x ∈ v -> is_Some (nodes s !! x)) ->
  (length v <= length (nodes s))%nat.
Proof.
  intros Hnd Hv.
  assert (Hsub : v ⊆+ seq 0 (length (nodes s))).
  { apply NoDup_submseteq; [assumption|].
    intros x Hx. apply elem_of_seq. apply Hv, valid_lt in Hx. lia. }
  apply submseteq_length in Hsub. now rewrite length_seq in Hsub.
Qed.

Lemma closed_rtc v p x y :
  dfs_inv s v p -> x ∈ v -> x ∉ p -> rtc (head_rel s) x y -> y ∈ v /\ y ∉ p.
Proof.
  intros Hinv Hx Hp Hr. induction Hr as [|x y z Hxy Hyz IH]; [auto|].
  destruct (inv_closed s v p Hinv x y Hx Hp Hxy). auto.
Qed.

(** Entering a node: it joins both sets. *)
Lemma dfs_inv_enter v p n :
  dfs_inv s v p -> is_Some (nodes s !! n) -> n ∉ v ->
  dfs_inv s (v ++ [n]) (p ++ [n]).
Proof.
  intros Hinv Hn Hnv. split.
  - intros x Hx. apply elem_of_app in Hx as [Hx|Hx].
    + eapply inv_valid; eauto.
    + apply list_elem_of_singleton in Hx. now subst.
  - apply NoDup_snoc; [eapply inv_nodup; eauto|assumption].
  - intros x Hx. rewrite elem_of_app in *. destruct Hx as [Hx|Hx]; [|now right].
    left. eapply inv_path; eauto.
  - intros x h Hx Hxp Hrel. rewrite !elem_of_app, !list_elem_of_singleton in *.
    destruct Hx as [Hx| ->]; [|tauto].
    destruct (inv_closed s v p Hinv x h Hx) as (Hh & Hhp); [tauto|assumption|].
    split; [now left|]. intros [?| ->]; contradiction.
  - intros x Hx Hxp. rewrite !elem_of_app, !list_elem_of_singleton in *.
    destruct Hx as [Hx| ->]; [|tauto].
    apply (inv_acyclic s v p Hinv x Hx). tauto.
Qed.

(** Leaving a node whose heads are all finished: it is finished. *)
Lemma dfs_inv_leave v p n N :
  dfs_inv s v (p ++ [n]) -> nodes s !! n = Some N -> n ∈ v ->
  (forall e E h, e ∈ incoming N -> edges s !! e = Some E -> _head E = Some h ->
     h ∈ v /\ h ∉ p ++ [n]) ->
  dfs_inv s v p.
Proof.
  intros Hinv HN Hnv Hheads.
  assert (Hn_heads : forall h, head_rel s n h -> h ∈ v /\ h ∉ p ++ [n]).
  { intros h (N' & e & E & HN' & Hin & HE & Hh).
    rewrite HN in HN'. injection HN' as <-. eauto. }
  split.
  - eapply inv_valid; eauto.
  - eapply inv_nodup; eauto.
  - intros x Hx. eapply inv_path; eauto. apply elem_of_app. now left.
  - intros x h Hx Hxp Hrel. destruct (decide (x = n)) as [->|Hne].
    + destruct (Hn_heads h Hrel) as (Hh & Hhp). split; [assumption|].
      intros Hin. apply Hhp, elem_of_app. now left.
    + destruct (inv_closed s v _ Hinv x h Hx) as (Hh & Hhp); [|assumption|].
      * rewrite elem_of_app, list_elem_of_singleton. tauto.
      * split; [assumption|]. intros Hin. apply Hhp, elem_of_app. now left.
  - intros x Hx Hxp. destruct (decide (x = n)) as [->|Hne].
    + intros Hc.
      inversion Hc as [? ? Hstep|? h ? Hstep Hrest]; subst.
      * destruct (Hn_heads n Hstep) as (_ & Hnp). apply Hnp, elem_of_app.
        right. apply list_elem_of_singleton. reflexivity.
      * destruct (Hn_heads h Hstep) as (Hh & Hhp).
        destruct (closed_rtc v _ h n Hinv Hh Hhp (tc_rtc _ _ Hrest)) as (_ & Hnp).
        apply Hnp, elem_of_app. right. apply list_elem_of_singleton. reflexivity.
    + apply (inv_acyclic s v _ Hinv x Hx).
      rewrite elem_of_app, list_elem_of_singleton. tauto.
Qed.

Lemma path_valid v p x : dfs_inv s v p -> x ∈ p -> is_Some (nodes s !! x).
Proof. intros Hinv Hx. eapply inv_valid; eauto. eapply inv_path; eauto. Qed.

Section Loop.

Variable fuel' : nat.
Hypothesis IHrec : forall h v p,
  is_Some (nodes s !! h) -> h ∉ p -> dfs_inv s v p ->
  (length (nodes s) - length v < fuel')%nat ->
  exists r, find_cycle fuel' s h v p = Ok r /\ dfs_post s v p r /\
            (fst (fst r) = false -> h ∈ snd (fst r)).

Variables (n : node_id) (N : Node) (p : list node_id).
Hypothesis HN : nodes s !! n = Some N.
Hypothesis Hnp : n ∉ p.

Lemma find_cycle_edges_spec es : forall done v,
  incoming N = done ++ es -> n ∈ v -> dfs_inv s v (p ++ [n]) ->
  (forall e E h, e ∈ done -> edges s !! e = Some E -> _head E = Some h ->
     h ∈ v /\ h ∉ p ++ [n]) ->
  (length (nodes s) - length v < fuel')%nat ->
  exists r, find_cycle_edges (find_cycle fuel' s) s n es v (p ++ [n]) = Ok r /\
            dfs_post s v p r.
Proof.
  induction es as [|e es IH]; intros done v Hinc Hnv Hinv Hdone Hfuel;
    cbn [find_cycle_edges].
  - rewrite app_nil_r in Hinc. subst done.
    rewrite (set_remove_last s (wf_nodes_distinct s Hwf)); [| eauto | |assumption].
    2:{ intros y Hy. eapply path_valid; eauto. apply elem_of_app. now left. }
    cbn [bind]. eexists. split; [reflexivity|]. cbn.
    split; [auto|]. split; [lia|]. split; [eapply inv_nodup; eauto|].
    split; [eapply inv_valid; eauto|]. split; [|discriminate].
    intros _. split; [reflexivity|]. eapply dfs_inv_leave; eauto.
  - assert (Hin : e ∈ incoming N).
    { rewrite Hinc, elem_of_app. right. left. }
    destruct (wf_incoming_head n N e HN Hin) as (E & h & HE & Hd & Hh & Hhv).
    rewrite (get_edge_Some _ _ _ HE). cbn [bind]. rewrite Hh.
    rewrite (set_contains_spec s (wf_nodes_distinct s Hwf)); [|assumption|].
    2:{ intros y Hy. eapply path_valid; eauto. }
    cbn [bind]. case_bool_decide as Hhp.
    + eexists. split; [reflexivity|]. cbn.
      split; [auto|]. split; [lia|]. split; [eapply inv_nodup; eauto|].
      split; [eapply inv_valid; eauto|]. split; [discriminate|].
      intros _. split; [intros y Hy; eapply path_valid; eauto|].
      exists n, N. split; [|split; [assumption|]].
      * apply elem_of_app. right. now apply list_elem_of_singleton.
      * intros Hnil. rewrite Hnil in Hin. now apply elem_of_nil in Hin.
    + destruct (IHrec h v (p ++ [n]) Hhv Hhp Hinv Hfuel)
        as ([[b v'] p'] & Hrec & Hpost & Hhin).
      rewrite Hrec. cbn [bind]. cbn in Hpost, Hhin.
      destruct Hpost as (Hsub & Hlen & Hnd & Hval & Hfalse & Htrue).
      destruct b.
      * eexists. split; [reflexivity|]. cbn.
        split; [assumption|]. split; [assumption|]. split; [assumption|].
        split; [assumption|]. split; [discriminate|]. intros _. now apply Htrue.
      * destruct (Hfalse eq_refl) as (-> & Hinv').
        destruct (IH (done ++ [e]) v') as (r & Hr & Hpost).
        -- rewrite Hinc, <- app_assoc. reflexivity.
        -- auto.
        -- assumption.
        -- intros e0 E0 h0 He0 HE0 Hh0. apply elem_of_app in He0 as [He0|He0].
           ++ destruct (Hdone e0 E0 h0 He0 HE0 Hh0). auto.
           ++ apply list_elem_of_singleton in He0. subst e0.
              rewrite HE in HE0. injection HE0 as <-.
              rewrite Hh in Hh0. injection Hh0 as <-. auto.
        -- lia.
        -- exists r. split; [assumption|].
           destruct r as [[b v''] p'']. cbn in *.
           destruct Hpost as (Hsub' & Hlen' & Hrest).
           split; [auto|]. split; [lia|]. exact Hrest.
Qed.

End Loop.

Lemma find_cycle_spec fuel : forall n v p,
  is_Some (nodes s !! n) -> n ∉ p -> dfs_inv s v p ->
  (length (nodes s) - length v < fuel)%nat ->
  exists r, find_cycle fuel s n v p = Ok r /\ dfs_post s v p r /\
            (fst (fst r) = false -> n ∈ snd (fst r)).
Proof.
  induction fuel as [|fuel' IHf]; intros n v p Hn Hnp Hinv Hfuel; [lia|].
  cbn [find_cycle].
  assert (Hv : forall y, y ∈ v -> is_Some (nodes s !! y)).
  { eapply inv_valid; eauto. }
  assert (Hp : forall y, y ∈ p -> is_Some (nodes s !! y)).
  { intros y Hy. eapply path_valid; eauto. }
  rewrite (set_contains_spec s (wf_nodes_distinct s Hwf)) by assumption.
  cbn [bind]. case_bool_decide as Hnv.
  - eexists. split; [reflexivity|]. cbn. split; [|auto].
    split; [auto|]. split; [lia|]. split; [eapply inv_nodup; eauto|].
    split; [assumption|]. split; [auto|discriminate].
  - rewrite !(set_add_spec s (wf_nodes_distinct s Hwf)) by assumption.
    rewrite !bool_decide_eq_false_2 by assumption. cbn [bind].
    destruct Hn as [N HN]. rewrite (get_node_Some _ _ _ HN). cbn [bind].
    pose proof (dfs_inv_enter v p n Hinv (ex_intro _ N HN) Hnv) as Hinv1.
    pose proof (valid_nodup_length (v ++ [n]) (inv_nodup _ _ _ Hinv1)
                  (inv_valid _ _ _ Hinv1)) as Hlen1.
    rewrite length_app in Hlen1. simpl in Hlen1.
    destruct (find_cycle_edges_spec fuel' IHf n N p HN Hnp (incoming N) [] (v ++ [n]))
      as (r & Hr & Hpost).
    + reflexivity.
    + apply elem_of_app. right. now apply list_elem_of_singleton.
    + assumption.
    + intros e E h He. now apply elem_of_nil in He.
    + rewrite length_app. simpl. lia.
    + exists r. split; [assumption|]. destruct r as [[b v'] p']. cbn in *.
      destruct Hpost as (Hsub & Hlen & Hrest). rewrite length_app in Hlen.
      simpl in Hlen. split.
      * split; [intros x Hx; apply Hsub, elem_of_app; now left|].
        split; [lia|]. exact Hrest.
      * intros _. apply Hsub, elem_of_app. right. now apply list_elem_of_singleton.
Qed.

End FindCycle.

(** ** The cycle breaker *)

Lemma find_cycle_any_spec s fuel :
  wf_graph s -> (length (nodes s) < fuel)%nat ->
  forall ns v,
  (forall n, n ∈ ns -> is_Some (nodes s !! n)) -> dfs_inv s v [] ->
  exists r, find_cycle_any fuel s ns v [] = Ok r /\ dfs_post s v [] r /\
            (fst (fst r) = false -> forall n, n ∈ ns -> n ∈ snd (fst r)).
Proof.
  intros Hwf Hfuel. induction ns as [|n ns IH]; intros v Hns Hinv; cbn [find_cycle_any].
  - eexists. split; [reflexivity|]. cbn. split.
    + split; [auto|]. split; [lia|]. split; [eapply inv_nodup; eauto|].
      split; [eapply inv_valid; eauto|]. split; [auto|discriminate].
    + intros _ n Hn. now apply elem_of_nil in Hn.
  - destruct (find_cycle_spec s Hwf fuel n v []) as ([[b v'] p'] & Hr & Hpost & Hin).
    + apply Hns. left.
    + apply not_elem_of_nil.
    + assumption.
    + lia.
    + rewrite Hr. cbn [bind]. cbn in Hpost, Hin.
      destruct Hpost as (Hsub & Hlen & Hnd & Hval & Hfalse & Htrue).
      destruct b.
      * eexists. split; [reflexivity|]. cbn. split; [|discriminate].
        do 5 (split; [assumption|]). assumption.
      * destruct (Hfalse eq_refl) as (-> & Hinv').
        destruct (IH v') as (r & Hr' & Hpost' & Hall); [|assumption|].
        { intros m Hm. apply Hns. now right. }
        exists r. split; [assumption|]. destruct r as [[b v''] p'']. cbn in *.
        destruct Hpost' as (Hsub' & Hlen' & Hrest). split.
        -- split; [auto|]. split; [lia|]. exact Hrest.
        -- intros Hb m Hm. apply elem_of_cons in Hm as [->|Hm]; auto.
Qed.

Lemma dfs_inv_nil s : dfs_inv s [] [].
Proof.
  split; try (intros x Hx; now apply elem_of_nil in Hx).
  - apply NoDup_nil_2.
  - intros x h Hx. now apply elem_of_nil in Hx.
Qed.

(** When every call of [find_cycle] answers [False], no cycle can be
    reached from the nodes given. *)
Lemma dfs_inv_cycle_free s v ns :
  dfs_inv s v [] -> (forall n, n ∈ ns -> n ∈ v) -> cycle_free_from s ns.
Proof.
  intros Hinv Hns r n Hr Hrtc.
  destruct (closed_rtc s v [] r n Hinv (Hns r Hr) (not_elem_of_nil _) Hrtc) as (Hn & _).
  apply (inv_acyclic s v [] Hinv n Hn), not_elem_of_nil.
Qed.

(** *** Removing an attached edge of a well-formed graph *)

Lemma wf_eq_free s e E l :
  wf_graph s -> edges s !! e = Some E -> is_Some (_dependent E) ->
  (forall e', e' ∈ l -> exists E', edges s !! e' = Some E' /\ is_Some (_dependent E')) ->
  eq_free s e l.
Proof.
  intros Hwf HE Hd Hl e' Hin Hne. destruct (Hl e' Hin) as (E' & HE' & Hd').
  unfold edge_same. rewrite bool_decide_eq_false_2 by assumption.
  rewrite (get_edge_Some _ _ _ HE'), (get_edge_Some _ _ _ HE). cbn [bind].
  eapply wf_edges_distinct; eauto.
Qed.

Lemma wf_outgoing_linked s h H e :
  wf_graph s -> nodes s !! h = Some H -> e ∈ outgoing H ->
  exists E, edges s !! e = Some E /\ is_Some (_dependent E).
Proof.
  intros Hwf HH Hin.
  apply (ac_outgoing s (wf_adj s Hwf) h H e HH) in Hin as (E & HE & Hh).
  exists E. split; [assumption|]. apply (wf_linked s Hwf e E HE). eauto.
Qed.

Lemma wf_incoming_linked s d D e :
  wf_graph s -> nodes s !! d = Some D -> e ∈ incoming D ->
  exists E, edges s !! e = Some E /\ is_Some (_dependent E).
Proof.
  intros Hwf HD Hin.
  apply (ac_incoming s (wf_adj s Hwf) d D e HD) in Hin as (E & HE & Hd).
  exists E. split; [assumption|]. eauto.
Qed.

Lemma detach_head_ok s e E h H :
  adjacency_consistent s -> edges s !! e = Some E -> _head E = Some h ->
  nodes s !! h = Some H -> eq_free s e (outgoing H) ->
  exists l1 l2, outgoing H = l1 ++ e :: l2 /\
    detach_head e E s = Ok (put_node s h (with_outgoing (l1 ++ l2) H)).
Proof.
  intros Hc HE Hh HH Hfree. unfold detach_head. rewrite Hh.
  rewrite (get_node_Some _ _ _ HH). cbn [bind].
  assert (Hin : e ∈ outgoing H) by (apply (ac_outgoing s Hc h H e HH); eauto).
  rewrite (list_contains_spec _ _ _ Hfree), bool_decide_eq_true_2 by assumption.
  cbn [bind].
  destruct (list_remove_spec _ _ _ Hfree Hin) as (l1 & l2 & Hl & _ & Hrem).
  exists l1, l2. rewrite Hrem. auto.
Qed.

Lemma detach_dependent_ok s e E d D :
  adjacency_consistent s -> edges s !! e = Some E -> _dependent E = Some d ->
  nodes s !! d = Some D -> eq_free s e (incoming D) ->
  exists l1 l2, incoming D = l1 ++ e :: l2 /\
    detach_dependent e E s = Ok (put_node s d (with_incoming (l1 ++ l2) D)).
Proof.
  intros Hc HE Hd HD Hfree. unfold detach_dependent. rewrite Hd.
  rewrite (get_node_Some _ _ _ HD). cbn [bind].
  assert (Hin : e ∈ incoming D) by (apply (ac_incoming s Hc d D e HD); eauto).
  destruct (list_remove_spec _ _ _ Hfree Hin) as (l1 & l2 & Hl & _ & Hrem).
  exists l1, l2. rewrite Hrem. auto.
Qed.

Lemma node_ref_eq_nodes s s' a b :
  (fun N => (position N, span N)) <$> nodes s = (fun N => (position N, span N)) <$> nodes s' ->
  node_ref_eq s a b = node_ref_eq s' a b.
Proof.
  intros H. destruct a as [x|], b as [y|]; simpl; try reflexivity.
  assert (Hl : forall i, ((fun N => (position N, span N)) <$> (nodes s !! i)) =
                         ((fun N => (position N, span N)) <$> (nodes s' !! i))).
  { intros i. rewrite <- !list_lookup_fmap. now rewrite H. }
  pose proof (Hl x) as Hx. pose proof (Hl y) as Hy.
  unfold get_node. revert Hx Hy.
  destruct (nodes s !! x) as [X|], (nodes s' !! x) as [X'|]; cbn; try congruence;
  destruct (nodes s !! y) as [Y|], (nodes s' !! y) as [Y'|]; cbn; try congruence.
  unfold Node_eq. intros [= Hx1 Hx2] [= Hy1 Hy2].
  now rewrite Hx1, Hx2, Hy1, Hy2.
Qed.

Lemma Edge_eq_nodes s s' E1 E2 :
  (fun N => (position N, span N)) <$> nodes s = (fun N => (position N, span N)) <$> nodes s' ->
  Edge_eq s E1 E2 = Edge_eq s' E1 E2.
Proof.
  intros H. unfold Edge_eq. now rewrite (node_ref_eq_nodes s s' _ _ H).
Qed.

Lemma set_head_None_edges e s s1 :
  set_head e None s = Ok s1 ->
  exists E, edges s !! e = Some E /\ edges s1 = <[e := with__head None E]> (edges s).
Proof.
  unfold set_head. intros H.
  apply bind_Ok in H as (E & HE & H). apply get_edge_Ok in HE.
  apply bind_Ok in H as (s' & Hs' & H). injection H as <-.
  exists E. split; [assumption|]. simpl. now rewrite (detach_head_edges _ _ _ _ Hs').
Qed.

Lemma set_dependent_nodes {B} (f : Node -> B) e d s s' :
  (forall l N, f (with_incoming l N) = f N) ->
  set_dependent e d s = Ok s' -> f <$> nodes s' = f <$> nodes s.
Proof.
  intros Hf. unfold set_dependent. intros H.
  apply bind_Ok in H as (E & HE & H).
  apply bind_Ok in H as (s1 & Hs1 & H).
  pose proof (detach_dependent_nodes f _ _ _ _ Hf Hs1) as Hn.
  destruct d as [d|].
  - apply bind_Ok in H as (D & HD & H). apply get_node_Ok in HD.
    injection H as <-. simpl in *. rewrite <- Hn. eapply fmap_insert_same; eauto.
  - injection H as <-. assumption.
Qed.

Lemma sum_list_insert {A} (f : A -> nat) (l : list A) i x y :
  l !! i = Some x ->
  (sum_list (f <$> <[i := y]> l) + f x = sum_list (f <$> l) + f y)%nat.
Proof.
  revert i. induction l as [|z l IH]; intros i Hl; [discriminate|].
  destruct i as [|i].
  - injection Hl as ->. cbn. lia.
  - specialize (IH i Hl). change (<[S i := y]> (z :: l)) with (z :: <[i := y]> l).
    rewrite !fmap_cons. cbn [sum_list foldr]. unfold sum_list in *.
    rewrite <- !Nat.add_assoc. f_equal. exact IH.
Qed.

(** [set_dependent e None] with the list it shortens. *)
Lemma set_dependent_None_ok s e E d D :
  adjacency_consistent s -> edges s !! e = Some E -> _dependent E = Some d ->
  nodes s !! d = Some D -> eq_free s e (incoming D) ->
  exists l1 l2, incoming D = l1 ++ e :: l2 /\
    set_dependent e None s =
      Ok (put_edge (put_node s d (with_incoming (l1 ++ l2) D)) e (with__dependent None E)).
Proof.
  intros Hc HE Hd HD Hfree.
  destruct (detach_dependent_ok s e E d D Hc HE Hd HD Hfree) as (l1 & l2 & Hl & Hdet).
  exists l1, l2. split; [assumption|].
  unfold set_dependent. rewrite (get_edge_Some _ _ _ HE). cbn [bind].
  rewrite Hdet. reflexivity.
Qed.

Lemma set_head_None_ok s e E h H :
  adjacency_consistent s -> edges s !! e = Some E -> _head E = Some h ->
  nodes s !! h = Some H -> eq_free s e (outgoing H) ->
  exists s1, set_head e None s = Ok s1.
Proof.
  intros Hc HE Hh HH Hfree.
  destruct (detach_head_ok s e E h H Hc HE Hh HH Hfree) as (l1 & l2 & Hl & Hdet).
  unfold set_head. rewrite (get_edge_Some _ _ _ HE). cbn [bind].
  rewrite Hdet. cbn [bind]. eauto.
Qed.

(** Removing an attached edge: [Edge.remove] succeeds, the graph stays
    well formed and has one attached edge less. *)
Lemma Edge_remove_wf s e E d :
  wf_graph s -> edges s !! e = Some E -> _dependent E = Some d ->
  exists s', Edge_remove e s = Ok s' /\ wf_graph s' /\
             (edge_count s' + 1 = edge_count s)%nat /\
             length (nodes s') = length (nodes s) /\
             edges s' = <[e := with__dependent None (with__head None E)]> (edges s).
Proof.
  intros Hwf HE Hd. pose proof (wf_adj s Hwf) as Hc.
  destruct (proj2 (wf_linked s Hwf e E HE)) as (h & Hh); [eauto|].
  destruct (ac_head_valid s Hc e E h HE Hh) as (H & HH).
  destruct (ac_dependent_valid s Hc e E d HE Hd) as (D & HD).
  assert (Hfh : forall E0 h0 H0, edges s !! e = Some E0 -> _head E0 = Some h0 ->
            nodes s !! h0 = Some H0 -> eq_free s e (outgoing H0)).
  { intros E0 h0 H0 HE0 Hh0 HH0. eapply wf_eq_free; eauto.
    - rewrite HE in HE0. injection HE0 as <-. eauto.
    - intros e' He'. eapply wf_outgoing_linked; eauto. }
  assert (Hfd : forall E0 d0 D0, edges s !! e = Some E0 -> _dependent E0 = Some d0 ->
            nodes s !! d0 = Some D0 -> eq_free s e (incoming D0)).
  { intros E0 d0 D0 HE0 Hd0 HD0. eapply wf_eq_free; eauto.
    intros e' He'. eapply wf_incoming_linked; eauto. }
  destruct (set_head_None_ok s e E h H Hc HE Hh HH (Hfh E h H HE Hh HH)) as (s1 & Hs1).
  pose proof (set_head_consistent _ _ _ _ Hc Hfh Hs1) as Hc1.
  destruct (set_head_None_frame _ _ _ Hs1) as (Hview & Hinc & Hdep).
  destruct (set_head_None_edges _ _ _ Hs1) as (E0 & HE0 & Hedges1).
  rewrite HE in HE0. injection HE0 as <-.
  assert (HE1 : edges s1 !! e = Some (with__head None E)).
  { rewrite Hedges1. eapply lookup_put_same; eauto. }
  assert (HD1 : exists D1, nodes s1 !! d = Some D1 /\ incoming D1 = incoming D).
  { assert (Hx : (incoming <$> nodes s1) !! d = Some (incoming D)).
    { rewrite Hinc, list_lookup_fmap, HD. reflexivity. }
    rewrite list_lookup_fmap in Hx.
    destruct (nodes s1 !! d) as [D1|]; [|discriminate]. injection Hx as Hx. eauto. }
  destruct HD1 as (D1 & HD1 & HiD1).
  assert (Hfree1 : eq_free s1 e (incoming D1)).
  { rewrite HiD1. apply (eq_free_view s s1); [now symmetry|]. eapply Hfd; eauto. }
  destruct (set_dependent_None_ok s1 e _ d D1 Hc1 HE1 Hd HD1 Hfree1)
    as (l1 & l2 & Hl & Hs').
  eexists. split.
  { unfold Edge_remove. rewrite Hs1. cbn [bind]. exact Hs'. }
  assert (Hnv : (fun N => (position N, span N)) <$> nodes s =
                (fun N => (position N, span N)) <$>
                  <[d := with_incoming (l1 ++ l2) D1]> (nodes s1)).
  { erewrite fmap_insert_same; [|exact HD1|reflexivity].
    unfold eq_view in Hview. now injection Hview as _ ->. }
  assert (Hfinal : <[e := with__dependent None (with__head None E)]> (edges s1)
                   = <[e := with__dependent None (with__head None E)]> (edges s)).
  { rewrite Hedges1. apply list_insert_insert_eq. }
  split; [|split; [|split]].
  - split.
    + eapply Edge_remove_consistent; [exact Hc|exact Hfh|exact Hfd|].
      unfold Edge_remove. rewrite Hs1. cbn [bind]. exact Hs'.
    + intros e0 E0 HE0. simpl in HE0. rewrite Hfinal in HE0.
      apply list_lookup_insert_Some in HE0 as [(<- & <- & _)|(Hne & HE0)].
      * simpl. split; intros [? ?]; discriminate.
      * eapply wf_linked; eauto.
    + intros e1 e2 E1 E2 Hne HE1' HE2' Hd1 Hd2. simpl in HE1', HE2'.
      rewrite Hfinal in HE1', HE2'.
      apply list_lookup_insert_Some in HE1' as [(<- & <- & _)|(Hne1 & HE1')];
        [destruct Hd1; discriminate|].
      apply list_lookup_insert_Some in HE2' as [(<- & <- & _)|(Hne2 & HE2')];
        [destruct Hd2; discriminate|].
      rewrite <- (Edge_eq_nodes s _ E1 E2); [|exact Hnv].
      exact (wf_edges_distinct s Hwf e1 e2 E1 E2 Hne HE1' HE2' Hd1 Hd2).
    + intros n1 n2 N1 N2 Hne HN1 HN2. simpl in HN1, HN2.
      destruct (fmap_lookup_eq _ _ _ _ _ (eq_sym Hnv) HN1) as (M1 & HM1 & Hf1).
      destruct (fmap_lookup_eq _ _ _ _ _ (eq_sym Hnv) HN2) as (M2 & HM2 & Hf2).
      injection Hf1 as Hp1 Hs1'. injection Hf2 as Hp2 Hs2'.
      unfold Node_eq. rewrite <- Hp1, <- Hs1', <- Hp2, <- Hs2'.
      apply (wf_nodes_distinct s Hwf n1 n2 M1 M2 Hne HM1 HM2).
  - unfold edge_count. simpl.
    pose proof (sum_list_insert (fun N => length (incoming N)) (nodes s1) d D1
                  (with_incoming (l1 ++ l2) D1) HD1) as Hsum.
    simpl in Hsum. rewrite Hl in Hsum. rewrite !length_app in Hsum. simpl in Hsum.
    assert (Hcount : sum_list ((fun N => length (incoming N)) <$> nodes s1) =
                     sum_list ((fun N => length (incoming N)) <$> nodes s)).
    { assert (Hx : (fun N => length (incoming N)) <$> nodes s1 =
                   length <$> (incoming <$> nodes s1)).
      { now rewrite <- list_fmap_compose. }
      rewrite Hx, Hinc, <- list_fmap_compose. reflexivity. }
    lia.
  - simpl. rewrite length_insert.
    assert (Hlen : length (incoming <$> nodes s1) = length (incoming <$> nodes s)).
    { now rewrite Hinc. }
    now rewrite !length_fmap in Hlen.
  - simpl. exact Hfinal.
Qed.

(** *** The edge to remove *)

Lemma key_lt_irrefl a : key_lt a a = false.
Proof. destruct a as [[] []]; reflexivity. Qed.

Lemma key_lt_trans a b c : key_lt a b = true -> key_lt b c = true -> key_lt a c = true.
Proof. destruct a as [[] []], b as [[] []], c as [[] []]; simpl; congruence. Qed.

Lemma key_lt_neg_trans a b c :
  key_lt a b = false -> key_lt b c = false -> key_lt a c = false.
Proof. destruct a as [[] []], b as [[] []], c as [[] []]; simpl; congruence. Qed.

Lemma py_min_from_spec {A} (key : A -> bool * bool) (l : list A) : forall best,
  py_min_from key best l ∈ best :: l /\
  forall x, x ∈ best :: l -> key_lt (key x) (key (py_min_from key best l)) = false.
Proof.
  induction l as [|y l IH]; intros best; cbn [py_min_from].
  - split; [left|]. intros x Hx. apply list_elem_of_singleton in Hx as ->.
    apply key_lt_irrefl.
  - destruct (IH (if key_lt (key y) (key best) then y else best)) as (Hin & Hmin).
    split.
    + apply elem_of_cons in Hin as [Hin|Hin].
      * rewrite Hin. destruct (key_lt (key y) (key best)); [right; left|left].
      * right. now right.
    + intros x Hx. apply elem_of_cons in Hx as [->|Hx].
      * destruct (key_lt (key y) (key best)) eqn:Hlt.
        -- destruct (key_lt (key best) (key (py_min_from key y l))) eqn:Hb; [|reflexivity].
           pose proof (key_lt_trans _ _ _ Hlt Hb) as Ht.
           rewrite (Hmin y) in Ht; [discriminate|left].
        -- apply Hmin. left.
      * apply elem_of_cons in Hx as [->|Hx].
        -- destruct (key_lt (key y) (key best)) eqn:Hlt.
           ++ apply Hmin. left.
           ++ eapply key_lt_neg_trans; [exact Hlt|]. apply Hmin. left.
        -- apply Hmin. now right.
Qed.

Lemma key_lt_le_trans a b c :
  key_lt a b = true -> key_lt c b = false -> key_lt a c = true.
Proof. destruct a as [[] []], b as [[] []], c as [[] []]; simpl; congruence. Qed.

(** [min] takes the first of the least items: every item before it has a
    greater key, no item has a smaller one. *)
Lemma py_min_from_first {A} (key : A -> bool * bool) : forall l pre best mid,
  (forall y, y ∈ pre -> key_lt (key best) (key y) = true) ->
  (forall y, y ∈ mid -> key_lt (key y) (key best) = false) ->
  exists pre' post',
    pre ++ best :: mid ++ l = pre' ++ py_min_from key best l :: post' /\
    (forall y, y ∈ pre' -> key_lt (key (py_min_from key best l)) (key y) = true) /\
    (forall y, y ∈ post' -> key_lt (key y) (key (py_min_from key best l)) = false).
Proof.
  induction l as [|x l IH]; intros pre best mid Hpre Hmid; cbn [py_min_from].
  - exists pre, mid. rewrite app_nil_r. auto.
  - destruct (key_lt (key x) (key best)) eqn:Hlt.
    + destruct (IH (pre ++ best :: mid) x []) as (pre' & post' & Heq & Hp & Hq).
      * intros y Hy. apply elem_of_app in Hy as [Hy|Hy].
        -- eapply key_lt_trans; eauto.
        -- apply elem_of_cons in Hy as [->|Hy]; [assumption|].
           eapply key_lt_le_trans; eauto.
      * intros y Hy. now apply elem_of_nil in Hy.
      * exists pre', post'. split; [|auto]. rewrite <- Heq. cbn [app].
        rewrite <- app_assoc. reflexivity.
    + destruct (IH pre best (mid ++ [x])) as (pre' & post' & Heq & Hp & Hq).
      * assumption.
      * intros y Hy. apply elem_of_app in Hy as [Hy|Hy]; [auto|].
        apply list_elem_of_singleton in Hy as ->. assumption.
      * exists pre', post'. split; [|auto]. rewrite <- Heq.
        rewrite <- (app_assoc mid). reflexivity.
Qed.

Lemma path_edges_ok s path :
  (forall x, x ∈ path -> is_Some (nodes s !! x)) ->
  exists es, path_edges s path = Ok es /\
    forall e, e ∈ es <-> exists n N, n ∈ path /\ nodes s !! n = Some N /\ e ∈ incoming N.
Proof.
  induction path as [|n path IH]; intros Hv; cbn [path_edges].
  - exists []. split; [reflexivity|]. intros e. split.
    + intros H. now apply elem_of_nil in H.
    + intros (n & N & H & _). now apply elem_of_nil in H.
  - destruct (Hv n) as (N & HN); [left|].
    rewrite (get_node_Some _ _ _ HN). cbn [bind].
    destruct IH as (es & -> & Hes); [intros x Hx; apply Hv; now right|].
    cbn [bind]. eexists. split; [reflexivity|]. intros e.
    rewrite elem_of_app, Hes. split.
    + intros [He|(m & M & Hm & HM & He)].
      * exists n, N. split; [left|]. auto.
      * exists m, M. split; [now right|]. auto.
    + intros (m & M & Hm & HM & He). apply elem_of_cons in Hm as [->|Hm].
      * left. congruence.
      * right. eauto.
Qed.

(** The edges that [path_edges] yields are the [incoming] lists of the
    nodes, one list after the other. *)
Lemma path_edges_incoming_of s : forall path es,
  path_edges s path = Ok es -> es = incoming_of s path.
Proof.
  induction path as [|n path IH]; intros es Hrun; cbn [path_edges] in Hrun.
  - now injection Hrun as <-.
  - unfold get_node in Hrun. destruct (nodes s !! n) as [N|] eqn:HN; [|discriminate].
    cbn [of_option bind] in Hrun.
    destruct (path_edges s path) as [r| |]; [|discriminate..]. cbn [bind] in Hrun.
    injection Hrun as <-. rewrite (IH r eq_refl).
    unfold incoming_of. cbn [mbind list_bind]. now rewrite HN.
Qed.

Lemma get_edges_ok s es :
  (forall e, e ∈ es -> is_Some (edges s !! e)) ->
  exists Es, get_edges s es = Ok Es /\ fst <$> Es = es /\
    forall x, x ∈ Es -> edges s !! (fst x) = Some (snd x).
Proof.
  induction es as [|e es IH]; intros Hv; cbn [get_edges].
  - exists []. split; [reflexivity|]. split; [reflexivity|].
    intros x Hx. now apply elem_of_nil in Hx.
  - destruct (Hv e) as (E & HE); [left|].
    rewrite (get_edge_Some _ _ _ HE). cbn [bind].
    destruct IH as (Es & -> & Hfst & HEs); [intros x Hx; apply Hv; now right|].
    cbn [bind]. eexists. split; [reflexivity|]. split.
    + cbn. now rewrite Hfst.
    + intros x Hx. apply elem_of_cons in Hx as [->|Hx]; [assumption|]. auto.
Qed.

Section BreakCycles.

Variable Linker : string.
Variable set_iter : Store -> list node_id -> list node_id.
Variable dep_nodes : list node_id.

(** A turn of the loop that finds no cycle leaves the loop; the order of
    the set plays no part in it. *)
Lemma break_cycles_step_none s v path :
  find_cycle_any (S (length (nodes s))) s dep_nodes [] [] = Ok (false, v, path) ->
  break_cycles_step Linker set_iter dep_nodes s = Ok None.
Proof. intros Hany. unfold break_cycles_step. now rewrite Hany. Qed.

Hypothesis Hiter : yields_members set_iter.

(** One turn of the loop of [break_cycles] on a well-formed graph. *)
Lemma break_cycles_step_spec s :
  wf_graph s -> (forall n, n ∈ dep_nodes -> is_Some (nodes s !! n)) ->
  exists b v path,
    find_cycle_any (S (length (nodes s))) s dep_nodes [] [] = Ok (b, v, path) /\
    (b = false ->
       break_cycles_step Linker set_iter dep_nodes s = Ok None /\
       cycle_free_from s dep_nodes) /\
    (b = true ->
       exists es pre e post E s',
         path_edges s (set_iter s path) = Ok es /\
         (forall e', e' ∈ es <->
            exists n N, n ∈ path /\ nodes s !! n = Some N /\ e' ∈ incoming N) /\
         es = pre ++ e :: post /\ edges s !! e = Some E /\
         (forall e' E', e' ∈ es -> edges s !! e' = Some E' ->
            key_lt (cycle_key Linker E') (cycle_key Linker E) = false) /\
         (forall e' E', e' ∈ pre -> edges s !! e' = Some E' ->
            key_lt (cycle_key Linker E) (cycle_key Linker E') = true) /\
         break_cycles_step Linker set_iter dep_nodes s = Ok (Some (e, s')) /\
         Edge_remove e s = Ok s' /\ wf_graph s' /\
         (edge_count s' + 1 = edge_count s)%nat /\
         length (nodes s') = length (nodes s)).
Proof.
  intros Hwf Hns.
  destruct (find_cycle_any_spec s (S (length (nodes s))) Hwf ltac:(lia) dep_nodes []
              Hns (dfs_inv_nil s)) as ([[b v] path] & Hany & Hpost & Hall).
  cbn in Hpost, Hall.
  destruct Hpost as (_ & _ & _ & _ & Hfalse & Htrue).
  exists b, v, path. split; [assumption|]. split.
  - intros ->. split; [eapply break_cycles_step_none; eauto|].
    destruct (Hfalse eq_refl) as (_ & Hinv).
    eapply dfs_inv_cycle_free; eauto.
  - intros ->. destruct (Htrue eq_refl) as (Hpv & m & M & Hm & HM & HMin).
    assert (Hmem : forall x, x ∈ set_iter s path <-> x ∈ path).
    { intros x. now rewrite (Hiter s path). }
    destruct (path_edges_ok s (set_iter s path)) as (es & Hes & Hes_iff0).
    { intros x Hx. apply Hpv. now apply Hmem. }
    assert (Hes_iff : forall e, e ∈ es <->
              exists n N, n ∈ path /\ nodes s !! n = Some N /\ e ∈ incoming N).
    { intros e. rewrite Hes_iff0. split; intros (n & N & Hn & Hrest); exists n, N;
        (split; [now apply Hmem|exact Hrest]). }
    assert (Hes_linked : forall e, e ∈ es ->
              exists E n, edges s !! e = Some E /\ _dependent E = Some n).
    { intros e He. apply Hes_iff in He as (n & N & _ & HN & He).
      apply (ac_incoming s (wf_adj s Hwf) n N e HN) in He as (E & HE & Hd). eauto. }
    destruct (get_edges_ok s es) as (Es & HEs & Hfst & HEs_lk).
    { intros e He. destruct (Hes_linked e He) as (E & n & HE & _). eauto. }
    destruct Es as [|x Es'].
    { exfalso. cbn in Hfst. subst es. destruct (incoming M) as [|e0 l] eqn:HiM; [congruence|].
      assert (He0 : e0 ∈ []).
      { apply Hes_iff. exists m, M. rewrite HiM. split; [assumption|]. split; [assumption|left]. }
      now apply elem_of_nil in He0. }
    destruct (py_min_from_spec (fun x => cycle_key Linker (snd x)) Es' x)
      as (Hmin_in & Hmin).
    destruct (py_min_from_first (fun x => cycle_key Linker (snd x)) Es' [] x [])
      as (pre' & post' & Hsplit & Hfirst & _).
    { intros y Hy. now apply elem_of_nil in Hy. }
    { intros y Hy. now apply elem_of_nil in Hy. }
    cbn [app] in Hsplit.
    set (r := py_min_from (fun x => cycle_key Linker (snd x)) x Es') in *.
    assert (Hr_es : fst r ∈ es).
    { rewrite <- Hfst. apply list_elem_of_fmap. eauto. }
    assert (Hr_lk : edges s !! fst r = Some (snd r)) by auto.
    destruct (Hes_linked _ Hr_es) as (E & n & HE & Hd).
    rewrite Hr_lk in HE. injection HE as <-.
    destruct (Edge_remove_wf s (fst r) (snd r) n Hwf Hr_lk Hd)
      as (s' & Hrem & Hwf' & Hcount & Hlen & _).
    exists es, (fst <$> pre'), (fst r), (fst <$> post'), (snd r), s'.
    split; [assumption|]. split; [assumption|]. split.
    { rewrite <- Hfst, Hsplit. now rewrite fmap_app, fmap_cons. }
    split; [assumption|]. split.
    { intros e' E' He' HE'. rewrite <- Hfst in He'.
      apply list_elem_of_fmap in He' as (y & -> & Hy).
      specialize (HEs_lk y Hy). rewrite HEs_lk in HE'. injection HE' as <-.
      apply (Hmin y Hy). }
    split.
    { intros e' E' He' HE'. apply list_elem_of_fmap in He' as (y & -> & Hy).
      assert (Hy' : y ∈ x :: Es').
      { rewrite Hsplit. apply elem_of_app. now left. }
      specialize (HEs_lk y Hy'). rewrite HEs_lk in HE'. injection HE' as <-.
      apply (Hfirst y Hy). }
    split; [|auto].
    unfold break_cycles_step. rewrite Hany. cbn [bind negb].
    rewrite Hes. cbn [bind]. rewrite HEs. cbn [bind py_min].
    fold r. rewrite Hrem. reflexivity.
Qed.

Lemma break_cycles_spec : forall c s,
  edge_count s = c -> wf_graph s ->
  (forall n, n ∈ dep_nodes -> is_Some (nodes s !! n)) ->
  exists k s',
    (k <= c)%nat /\ break_cycles Linker set_iter (S k) dep_nodes s = Ok s' /\
    (forall f, (f <= k)%nat -> break_cycles Linker set_iter f dep_nodes s = OutOfFuel) /\
    (edge_count s' + k = c)%nat /\ wf_graph s' /\ cycle_free_from s' dep_nodes.
Proof.
  induction c as [|c IH]; intros s Hc Hwf Hns;
    destruct (break_cycles_step_spec s Hwf Hns)
      as (b & v & path & _ & Hfalse & Htrue); destruct b.
  - destruct (Htrue eq_refl)
      as (es & pre & e & post & E & s' & _ & _ & _ & _ & _ & _ & _ & _ & _ & Hcount & _).
    lia.
  - destruct (Hfalse eq_refl) as (Hstep & Hfree).
    exists 0%nat, s. split; [lia|].
    split; [cbn [break_cycles]; rewrite Hstep; reflexivity|].
    split; [intros f Hf; assert (f = 0%nat) as -> by lia; reflexivity|].
    split; [lia|]. split; assumption.
  - destruct (Htrue eq_refl)
      as (es & pre & e & post & E & s1 & _ & _ & _ & _ & _ & _ & Hstep & _ & Hwf1 & Hcount & Hlen).
    destruct (IH s1) as (k & s' & Hk & Hrun & Hout & Hcnt & Hwf' & Hfree);
      [lia|assumption| |].
    { intros n Hn. apply lookup_lt_is_Some. rewrite Hlen.
      apply lookup_lt_is_Some. auto. }
    exists (S k), s'. split; [lia|]. split.
    { cbn [break_cycles]. rewrite Hstep. cbn [bind]. exact Hrun. }
    split; [|split; [lia|auto]].
    intros f Hf. destruct f as [|f]; [reflexivity|].
    cbn [break_cycles]. rewrite Hstep. cbn [bind]. apply Hout. lia.
  - destruct (Hfalse eq_refl) as (Hstep & Hfree).
    exists 0%nat, s. split; [lia|].
    split; [cbn [break_cycles]; rewrite Hstep; reflexivity|].
    split; [intros f Hf; assert (f = 0%nat) as -> by lia; reflexivity|].
    split; [lia|]. split; assumption.
Qed.

End BreakCycles.

Lemma break_cycles_fuel_mono Linker set_iter dep_nodes : forall f f' s s',
  break_cycles Linker set_iter f dep_nodes s = Ok s' -> (f <= f')%nat ->
  break_cycles Linker set_iter f' dep_nodes s = Ok s'.
Proof.
  induction f as [|f IH]; intros f' s s' Hrun Hle; [discriminate|].
  destruct f' as [|f']; [lia|]. cbn [break_cycles] in *.
  destruct (break_cycles_step Linker set_iter dep_nodes s) as [[[e s1]|]| |]; cbn [bind] in *;
    try discriminate; [|assumption].
  apply IH; [assumption|lia].
Qed.


(** C3: on a well-formed graph [break_cycles] returns, in whatever order
    the set [path] is iterated, and in the graph it returns no cycle of the
    head relation can be reached from the nodes given: no node reaches
    itself by following incoming edges to their heads. *)
Theorem break_cycles_cycle_free Linker set_iter dep_nodes s :
  yields_members set_iter ->
  wf_graph s -> (forall n, n ∈ dep_nodes -> is_Some (nodes s !! n)) ->
  (exists fuel s', break_cycles Linker set_iter fuel dep_nodes s = Ok s') /\
  (forall fuel s', break_cycles Linker set_iter fuel dep_nodes s = Ok s' ->
     cycle_free_from s' dep_nodes).
Proof.
  intros Hiter Hwf Hns.
  destruct (break_cycles_spec Linker set_iter dep_nodes Hiter (edge_count s) s eq_refl Hwf Hns)
    as (k & s' & Hk & Hrun & Hout & Hcnt & _ & Hfree).
  split; [eauto|]. intros fuel s'' Hrun'.
  destruct (le_lt_dec fuel k) as [Hle|Hlt].
  - rewrite (Hout fuel Hle) in Hrun'. discriminate.
  - rewrite (break_cycles_fuel_mono Linker set_iter dep_nodes _ _ _ _ Hrun Hlt) in Hrun'.
    injection Hrun' as <-. assumption.
Qed.

(** *** The checker of well-formed graphs is sound *)

Lemma wf_graphb_sound s : wf_graphb s = true -> wf_graph s.
Proof.
  unfold wf_graphb. intros H.
  apply andb_true_iff in H as (H & Hn). apply andb_true_iff in H as (H & He).
  apply andb_true_iff in H as (Ha & Hl). split.
  - now apply adjacency_consistentb_sound.
  - intros e E HE. rewrite forallb_forall in Hl.
    assert (Hin : In E (edges s)).
    { apply list_elem_of_In, list_elem_of_lookup. eauto. }
    specialize (Hl E Hin). unfold edge_linkedb in Hl.
    destruct (_head E), (_dependent E); try discriminate;
      split; intros [? ?]; try discriminate; eauto.
  - intros e1 e2 E1 E2 Hne HE1 HE2 [d1 Hd1] [d2 Hd2].
    pose proof (forallb_from_lookup _ 0 _ e1 E1 He HE1) as H1. cbn beta in H1.
    pose proof (forallb_from_lookup _ 0 _ e2 E2 H1 HE2) as H2. cbn beta in H2.
    simpl in H2. rewrite bool_decide_eq_false_2 in H2 by assumption.
    rewrite Hd1, Hd2 in H2. simpl in H2.
    destruct (Edge_eq s E1 E2) as [[]| |]; congruence.
  - intros n1 n2 N1 N2 Hne HN1 HN2.
    pose proof (forallb_from_lookup _ 0 _ n1 N1 Hn HN1) as H1. cbn beta in H1.
    pose proof (forallb_from_lookup _ 0 _ n2 N2 H1 HN2) as H2. cbn beta in H2.
    simpl in H2. rewrite bool_decide_eq_false_2 in H2 by assumption.
    simpl in H2. now apply negb_true_iff in H2.
Qed.

Lemma ex_cycle_wf : wf_graph ex_cycle.
Proof. apply wf_graphb_sound. vm_compute. reflexivity. Qed.

Lemma ex_cycle_nodes_valid :
  forall n, n ∈ [0; 1; 2]%nat -> is_Some (nodes ex_cycle !! n).
Proof.
  intros n Hn. repeat (apply elem_of_cons in Hn as [->|Hn]; [eexists; reflexivity|]).
  now apply elem_of_nil in Hn.
Qed.

(** Two orders of iteration: that of insertion, and its reverse. *)
Lemma insertion_order_yields : yields_members (fun _ l => l).
Proof. intros s l. reflexivity. Qed.

Lemma reverse_order_yields : yields_members (fun _ l => rev l).
Proof. intros s l. symmetry. apply Permutation_rev. Qed.


(** Instance: the two-node cycle of [ex_cycle] is gone after two turns. *)
Lemma break_cycles_cycle_free_witness :
  exists s', break_cycles "L" (fun _ l => l) 2 [0; 1; 2]%nat ex_cycle = Ok s' /\
             cycle_free_from s' [0; 1; 2]%nat.
Proof.
  eexists. split; [vm_compute; reflexivity|].
  apply (proj2 (break_cycles_cycle_free "L" (fun _ l => l) [0; 1; 2]%nat ex_cycle
                  insertion_order_yields ex_cycle_wf ex_cycle_nodes_valid) 2%nat).
  vm_compute. reflexivity.
Defined.

(** C4, as amended: in a turn of [break_cycles] that finds a cycle, the
    edge removed is one of the edges [es] whose dependent is in the set
    [path], and it is least for the key [(not e.remote, e.rel != Linker)]:
    it is remote if one of these edges is, and among edges of its kind it
    is a Linker edge if there is one.  Remote edges go first, and
    Linker-labelled edges go first, not last.  The least edge need not be
    the only one: the edge removed is the first of the least in [es],
    every edge before it has a greater key; and [es] lists the [incoming]
    lists, each from its start, of the nodes of [path] in the order in
    which the set is iterated, whatever that order is. *)
Theorem break_cycles_removes_least_key Linker set_iter dep_nodes s e s' :
  yields_members set_iter ->
  wf_graph s -> (forall n, n ∈ dep_nodes -> is_Some (nodes s !! n)) ->
  break_cycles_step Linker set_iter dep_nodes s = Ok (Some (e, s')) ->
  exists v path es pre post E,
    find_cycle_any (S (length (nodes s))) s dep_nodes [] [] = Ok (true, v, path) /\
    path_edges s (set_iter s path) = Ok es /\
    es = incoming_of s (set_iter s path) /\
    (forall e', e' ∈ es <->
       exists E' n, edges s !! e' = Some E' /\ _dependent E' = Some n /\ n ∈ path) /\
    es = pre ++ e :: post /\ edges s !! e = Some E /\ Edge_remove e s = Ok s' /\
    (forall e' E', e' ∈ es -> edges s !! e' = Some E' ->
       key_lt (cycle_key Linker E') (cycle_key Linker E) = false /\
       (remote E' = true -> remote E = true) /\
       (remote E' = remote E -> rel E' = Linker -> rel E = Linker)) /\
    (forall e' E', e' ∈ pre -> edges s !! e' = Some E' ->
       key_lt (cycle_key Linker E) (cycle_key Linker E') = true).
Proof.
  intros Hiter Hwf Hns Hstep.
  destruct (break_cycles_step_spec Linker set_iter dep_nodes Hiter s Hwf Hns)
    as (b & v & path & Hany & Hfalse & Htrue); destruct b.
  2:{ destruct (Hfalse eq_refl) as (Hstep' & _). congruence. }
  destruct (Htrue eq_refl)
    as (es & pre & e0 & post & E & s0 & Hes & Hiff & Hsplit & HE & Hmin & Hfirst & Hstep' & Hrem & _).
  rewrite Hstep in Hstep'. injection Hstep' as <- <-.
  exists v, path, es, pre, post, E. split; [assumption|]. split; [assumption|].
  split; [now apply path_edges_incoming_of|]. split.
  { intros e'. rewrite Hiff. split.
    - intros (n & N & Hn & HN & He').
      apply (ac_incoming s (wf_adj s Hwf) n N e' HN) in He' as (E' & HE' & Hd). eauto.
    - intros (E' & n & HE' & Hd & Hn).
      destruct (ac_dependent_valid s (wf_adj s Hwf) e' E' n HE' Hd) as (N & HN).
      exists n, N. split; [assumption|]. split; [assumption|].
      apply (ac_incoming s (wf_adj s Hwf) n N e' HN). eauto. }
  split; [assumption|]. split; [assumption|]. split; [assumption|].
  split; [|exact Hfirst].
  intros e' E' He' HE'. specialize (Hmin e' E' He' HE'). split; [exact Hmin|].
  unfold cycle_key, key_lt in Hmin. split.
  - intros Hr. rewrite Hr in Hmin. simpl in Hmin.
    destruct (remote E); [reflexivity|]. simpl in Hmin. discriminate.
  - intros Hr Hl. rewrite Hr, Hl in Hmin.
    rewrite (bool_decide_eq_true_2 (Linker = Linker)) in Hmin by reflexivity.
    destruct (remote E); simpl in Hmin;
      destruct (bool_decide (rel E = Linker)) eqn:Hb; simpl in Hmin; try discriminate;
      now apply bool_decide_eq_true in Hb.
Qed.

(** Instance: the turn of [break_cycles] on [ex_cycle], the set iterated
    in the order of insertion. *)
Lemma break_cycles_removes_least_key_witness :
  exists s' E, break_cycles_step "L" (fun _ l => l) [0; 1; 2]%nat ex_cycle
                 = Ok (Some (0%nat, s')) /\
               edges ex_cycle !! 0%nat = Some E /\ Edge_remove 0 ex_cycle = Ok s'.
Proof.
  destruct (break_cycles_step "L" (fun _ l => l) [0; 1; 2]%nat ex_cycle)
    as [[[e s']|]| |] eqn:Hstep;
    try (vm_compute in Hstep; discriminate).
  assert (e = 0%nat) as ->.
  { vm_compute in Hstep. now injection Hstep as <- _. }
  destruct (break_cycles_removes_least_key "L" (fun _ l => l) [0; 1; 2]%nat ex_cycle 0%nat s'
              insertion_order_yields ex_cycle_wf ex_cycle_nodes_valid Hstep)
    as (v & path & es & pre & post & E & _ & _ & _ & _ & _ & HE & Hrem & _).
  exists s', E. auto.
Defined.

(** C4, counterexamples.  On the cycle of [ex_cycle], made of the primary
    edge 0 labelled "L" (the Linker label) and the primary edge 1 labelled
    "A", the turn removes edge 0 in either order of the set: the Linker
    edge goes first, and the other edge stays attached.  On the cycle of
    [ex_cycle_tie], whose two primary edges are both labelled "A", there
    are two least edges, and which one goes depends on the order of the
    set: edge 1 in the order of insertion, edge 0 in the reverse order. *)
Lemma break_cycles_removes_linker_first :
  (exists s' E0 E1 E1',
    break_cycles_step "L" (fun _ l => l) [0; 1; 2]%nat ex_cycle = Ok (Some (0%nat, s')) /\
    break_cycles_step "L" (fun _ l => rev l) [0; 1; 2]%nat ex_cycle = Ok (Some (0%nat, s')) /\
    edges ex_cycle !! 0%nat = Some E0 /\ rel E0 = "L"%string /\ remote E0 = false /\
    edges ex_cycle !! 1%nat = Some E1 /\ rel E1 = "A"%string /\ remote E1 = false /\
    path_edges ex_cycle [1; 2]%nat = Ok [1; 0]%nat /\
    edges s' !! 1%nat = Some E1' /\ _head E1' = Some 2%nat /\ _dependent E1' = Some 1%nat) /\
  (exists v s1 s0 E0 E1,
    wf_graph ex_cycle_tie /\
    find_cycle_any 4 ex_cycle_tie [0; 1; 2]%nat [] [] = Ok (true, v, [1; 2]%nat) /\
    edges ex_cycle_tie !! 0%nat = Some E0 /\ edges ex_cycle_tie !! 1%nat = Some E1 /\
    cycle_key "L" E0 = cycle_key "L" E1 /\
    break_cycles_step "L" (fun _ l => l) [0; 1; 2]%nat ex_cycle_tie = Ok (Some (1%nat, s1)) /\
    break_cycles_step "L" (fun _ l => rev l) [0; 1; 2]%nat ex_cycle_tie
      = Ok (Some (0%nat, s0))).
Proof.
  split.
  - eexists _, _, _, _. repeat (split; [vm_compute; reflexivity|]). reflexivity.
  - eexists _, _, _, _, _. split; [apply wf_graphb_sound; vm_compute; reflexivity|].
    repeat (split; [vm_compute; reflexivity|]). vm_compute. reflexivity.
Qed.

(** ** The preprocessor *)

(** *** No step outside the loops uses fuel *)

Lemma bind_fuel {A B} (m : result A) (k : A -> result B) :
  m <> OutOfFuel -> (forall a, m = Ok a -> k a <> OutOfFuel) -> bind m k <> OutOfFuel.
Proof. destruct m; simpl; intros Hm Hk; auto; discriminate. Qed.

Lemma get_node_fuel s n : get_node s n <> OutOfFuel.
Proof. unfold get_node. destruct (nodes s !! n); discriminate. Qed.

Lemma get_edge_fuel s e : get_edge s e <> OutOfFuel.
Proof. unfold get_edge. destruct (edges s !! e); discriminate. Qed.

Create HintDb fuel.
#[export] Hint Resolve get_node_fuel get_edge_fuel : fuel.

Ltac fuel_step :=
  match goal with
  | |- bind _ _ <> OutOfFuel => apply bind_fuel; [|intros ? _]
  | |- Ok _ <> OutOfFuel => discriminate
  | |- Raise _ <> OutOfFuel => discriminate
  | |- (if ?b then _ else _) <> OutOfFuel => destruct b
  | |- (match ?x with _ => _ end) <> OutOfFuel => destruct x
  end.
Ltac fuel := repeat fuel_step; auto with fuel.

Lemma node_ref_eq_fuel s a b : node_ref_eq s a b <> OutOfFuel.
Proof. unfold node_ref_eq. fuel. Qed.
#[export] Hint Resolve node_ref_eq_fuel : fuel.

Lemma Edge_eq_fuel s a b : Edge_eq s a b <> OutOfFuel.
Proof. unfold Edge_eq. fuel. Qed.
#[export] Hint Resolve Edge_eq_fuel : fuel.

Lemma edge_same_fuel s x y : edge_same s x y <> OutOfFuel.
Proof. unfold edge_same. fuel. Qed.
#[export] Hint Resolve edge_same_fuel : fuel.

Lemma list_contains_fuel s x l : list_contains s x l <> OutOfFuel.
Proof. induction l; cbn [list_contains]; fuel. Qed.
#[export] Hint Resolve list_contains_fuel : fuel.

Lemma list_remove_fuel s x l : list_remove s x l <> OutOfFuel.
Proof. induction l; cbn [list_remove]; fuel. Qed.
#[export] Hint Resolve list_remove_fuel : fuel.

Lemma set_head_fuel e h s : set_head e h s <> OutOfFuel.
Proof. unfold set_head, detach_head. fuel. Qed.
#[export] Hint Resolve set_head_fuel : fuel.

Lemma set_dependent_fuel e d s : set_dependent e d s <> OutOfFuel.
Proof. unfold set_dependent, detach_dependent. fuel. Qed.
#[export] Hint Resolve set_dependent_fuel : fuel.

Lemma Edge_remove_fuel e s : Edge_remove e s <> OutOfFuel.
Proof. unfold Edge_remove. fuel. Qed.
#[export] Hint Resolve Edge_remove_fuel : fuel.

Lemma Edge_init_fuel hi r rem s : Edge_init hi r rem s <> OutOfFuel.
Proof. unfold Edge_init, alloc_edge. fuel. Qed.
#[export] Hint Resolve Edge_init_fuel : fuel.

Lemma any_root_rel_fuel s es : any_root_rel s es <> OutOfFuel.
Proof. induction es; cbn [any_root_rel]; fuel. Qed.
#[export] Hint Resolve any_root_rel_fuel : fuel.

Lemma roots_fuel s ns : roots s ns <> OutOfFuel.
Proof. induction ns; cbn [roots]; fuel. Qed.
#[export] Hint Resolve roots_fuel : fuel.

Lemma demoted_incoming_fuel s es : demoted_incoming s es <> OutOfFuel.
Proof. induction es; cbn [demoted_incoming]; unfold head_index_nonneg; fuel. Qed.
#[export] Hint Resolve demoted_incoming_fuel : fuel.

Lemma demote_roots_fuel rs : forall s, demote_roots rs s <> OutOfFuel.
Proof. induction rs; intros s; cbn [demote_roots]; fuel. Qed.
#[export] Hint Resolve demote_roots_fuel : fuel.

(** *** What [Edge.remove] changes *)



(** *** The [incoming] lists during the pass *)






(** *** The scan of one [incoming] list *)




Section Scan.

Variables (Terminal : string) (is_ucca : bool).



End Scan.

(** *** The new edge of a parentless node *)

Lemma Edge_init_result hi r rem s s' e :
  Edge_init hi r rem s = Ok (s', e) ->
  e = length (edges s) /\
  s' = mkStore (nodes s) (edges s ++ [mkEdge hi r rem None None]).
Proof.
  unfold Edge_init, alloc_edge. set (E := mkEdge hi r rem None None).
  set (s1 := mkStore (nodes s) (edges s ++ [E])).
  assert (HE : edges s1 !! length (edges s) = Some E).
  { subst s1. cbn [edges]. rewrite lookup_app_r by lia. now rewrite Nat.sub_diag. }
  assert (H1 : set_head (length (edges s)) None s1 = Ok s1).
  { unfold set_head. rewrite (get_edge_Some _ _ _ HE). cbn. f_equal. now apply put_edge_same. }
  assert (H2 : set_dependent (length (edges s)) None s1 = Ok s1).
  { unfold set_dependent. rewrite (get_edge_Some _ _ _ HE). cbn. f_equal.
    now apply put_edge_same. }
  rewrite H1. cbn [bind]. rewrite H2. cbn [bind]. intros [= <- <-]. auto.
Qed.


(** *** The roots *)





(** *** One turn of the loop *)










Section Loop.

Variables (Terminal : string) (is_ucca : bool) (D : list node_id).




End Loop.

(** *** The demotion of the other roots *)








(** ** The backward converter emits no self-loop *)

Section BackwardProofs.

Variables (tag_priority : list (option string)) (is_ucca : bool) (Terminal : string).
Variables (omit_edge : UEdge -> bool -> bool) (unit_eq : unit_id -> unit_id -> bool).

Lemma not_self_loop_alloc p terminal s E e :
  not_self_loop p terminal s e ->
  not_self_loop p terminal (mkStore (nodes s) (edges s ++ [E])) e.
Proof.
  intros (E0 & T & pos & HE0 & HT & Hpos & Hne). exists E0, T, pos.
  split; [|auto]. cbn [edges]. rewrite lookup_app_l; [assumption|].
  eapply lookup_lt_Some; eauto.
Qed.

Lemma incoming_edge_set_spec p terminal tree : forall zs acc s s' es,
  incoming_edge_set omit_edge p terminal tree zs acc s = Ok (s', es) ->
  (forall e, e ∈ acc -> not_self_loop p terminal s e) ->
  forall e, e ∈ es -> not_self_loop p terminal s' e.
Proof.
  induction zs as [|[u hi] zs IH]; intros acc s s' es Hrun Hacc.
  - cbn [incoming_edge_set] in Hrun. injection Hrun as <- <-. assumption.
  - cbn [incoming_edge_set] in Hrun.
    apply bind_Ok in Hrun as (T & HT & Hrun). apply of_option_Ok in HT.
    apply bind_Ok in Hrun as (pos & Hpos & Hrun). apply of_option_Ok in Hpos.
    apply bind_Ok in Hrun as (E & HE & Hrun).
    destruct (bool_decide (hi <> pos - 1)) eqn:Hhi; cbn [andb] in Hrun.
    2:{ eapply IH; eauto. }
    destruct (negb (omit_edge E tree)); [|eapply IH; eauto].
    apply bool_decide_eq_true in Hhi.
    apply bind_Ok in Hrun as ([s1 d] & Hinit & Hrun).
    apply Edge_init_result in Hinit as (-> & ->).
    apply bind_Ok in Hrun as (acc' & Hadd & Hrun).
    eapply IH; [exact Hrun|]. intros e He.
    unfold edge_set_add in Hadd. apply bind_Ok in Hadd as (b & _ & Hadd).
    injection Hadd as <-.
    assert (Hin : e ∈ acc \/ e = length (edges s)).
    { destruct b; [now left|]. apply elem_of_app in He as [He|He]; [now left|].
      apply list_elem_of_singleton in He. now right. }
    destruct Hin as [Hin| ->]; [apply not_self_loop_alloc; auto|].
    eexists _, T, pos. cbn [edges]. split.
    { rewrite lookup_app_r by lia. rewrite Nat.sub_diag. reflexivity. }
    split; [assumption|]. split; [assumption|]. cbn. congruence.
Qed.

(** C7: every edge of the set that [incoming_edges] computes for a
    terminal has a head index other than the terminal's own index,
    [terminal.position - 1]. *)
Theorem incoming_edges_no_self_loop fuel p terminal test tree s s' es :
  incoming_edges tag_priority is_ucca Terminal omit_edge unit_eq
    fuel p terminal test tree s = Ok (s', es) ->
  forall e, e ∈ es -> not_self_loop p terminal s' e.
Proof.
  unfold incoming_edges. destruct test.
  - intros [= <- <-] e He. now apply elem_of_nil in He.
  - intros Hrun. apply bind_Ok in Hrun as (ues & _ & Hrun).
    apply bind_Ok in Hrun as (his & _ & Hrun).
    eapply incoming_edge_set_spec; [exact Hrun|].
    intros e He. now apply elem_of_nil in He.
Qed.

End BackwardProofs.

(** Instance: the second terminal of [ex_passage] gets one edge, from the
    first terminal (head index 0), labelled [A]. *)
Lemma incoming_edges_no_self_loop_witness :
  exists s',
    incoming_edges ex_tag_priority false "Terminal" (fun _ _ => false) Nat.eqb
      5 ex_passage 1%nat false true (mkStore [] []) = Ok (s', [0%nat]) /\
    not_self_loop ex_passage 1%nat s' 0%nat.
Proof.
  eexists. split; [vm_compute; reflexivity|].
  apply (incoming_edges_no_self_loop ex_tag_priority false "Terminal" (fun _ _ => false)
           Nat.eqb 5 ex_passage 1%nat false true (mkStore [] []) _ [0%nat]).
  - vm_compute. reflexivity.
  - left.
Defined.

(** ** The reader and a head index out of range *)

Section ReaderProofs.

Variable py_int : string -> result Z.
Variable strip : string -> string.
Variable match_sentence_id : string -> option string.
Variable match_format : string -> option string.
Variable read_line :
  string -> option node_id -> list (string * string) -> Store ->
  result (Store * option node_id * list (string * string)).

(** C6: a sentence whose linking raises is skipped and reported with its
    identifier, and the reading goes on, when a blank line ends the
    sentence in split mode; when the input ends with the sentence, or
    outside split mode, the exception leaves [generate_graphs]: nothing is
    reported and no later graph is produced. *)
Theorem final_graph_is_unguarded split st s out e :
  _graph py_int st s = Raise e ->
  (forall line0 rest, strip line0 = EmptyString -> split && truthy (dep_nodes st) = true ->
     read_lines py_int strip match_sentence_id match_format read_line
       (line0 :: rest) split st s out =
     read_lines py_int strip match_sentence_id match_format read_line
       rest split (next_sentence st) s (out ++ [Skipped (sentence_id st) e])) /\
  (negb split || truthy (dep_nodes st) = true ->
     read_lines py_int strip match_sentence_id match_format read_line
       [] split st s out = (out, Raise e)).
Proof.
  intros Hg. split.
  - intros line0 rest Hline Hsplit. cbn [read_lines]. rewrite Hline, Hsplit, Hg. reflexivity.
  - intros Hlast. cbn [read_lines]. rewrite Hlast, Hg. reflexivity.
Qed.

End ReaderProofs.

(** Instance: two token lines, the second with the head position 7; the
    same lines are skipped and reported when a blank line follows, and a
    sentence after them is read. *)
Lemma final_graph_is_unguarded_witness :
  exists st s e,
    _graph (fun _ => Raise ValueError) st s = Raise e /\
    e = IndexError /\
    read_lines (fun _ => Raise ValueError) id (fun _ => None) (fun _ => None)
      (ex_read_line ex_head_of) [] true st s [] = ([], Raise IndexError) /\
    fst (generate_graphs (fun _ => Raise ValueError) id (fun _ => None) (fun _ => None)
           (ex_read_line ex_head_of) ["0"; "7"]%string true (mkStore [] [])) = [] /\
    fst (generate_graphs (fun _ => Raise ValueError) id (fun _ => None) (fun _ => None)
           (ex_read_line ex_head_of) ["0"; "7"; ""; "0"]%string true (mkStore [] []))
    = [Skipped None IndexError; Yielded [3; 4]%nat None None].
Proof.
  pose (st := mkReader None (Some [0; 1; 2]%nat) (Some []) (Some 2%nat) None [] 1 []).
  pose (s := mkStore
               [ex_node 0 [] []; ex_node 1 [0%nat] []; ex_node 2 [1%nat] []]
               [mkEdge (HInt 0) "dep" false None (Some 1%nat);
                mkEdge (HInt 7) "dep" false None (Some 2%nat)]).
  assert (Hg : _graph (fun _ => Raise ValueError) st s = Raise IndexError)
    by (vm_compute; reflexivity).
  exists st, s, IndexError. split; [exact Hg|]. split; [reflexivity|]. split.
  - apply (proj2 (final_graph_is_unguarded (fun _ => Raise ValueError) id (fun _ => None)
                    (fun _ => None) (ex_read_line ex_head_of) true st s [] IndexError Hg)).
    vm_compute. reflexivity.
  - split; vm_compute; reflexivity.
Defined.

(** ** Attaching the remote edges *)

(** *** The graph kept as a list of edges *)

Lemma hg_child_rel g p c :
  child_rel Hierarchy hg_children g p c <-> edge_rel (h_edges g) p c.
Proof.
  unfold child_rel, hg_children, edges_from, edge_rel.
  rewrite list_elem_of_fmap. split.
  - intros (E & -> & HE). apply list_elem_of_filter in HE as (Hp & HE). eauto.
  - intros (E & HE & Hp & Hc). exists E. split; [congruence|].
    apply list_elem_of_filter. auto.
Qed.

Lemma edge_rel_filter es c a b :
  edge_rel (filter (fun E => h_parent E <> c) es) a b <-> edge_rel es a b /\ a <> c.
Proof.
  unfold edge_rel. split.
  - intros (E & HE & Hp & Hc). apply list_elem_of_filter in HE as (Hne & HE).
    split; [eauto|congruence].
  - intros ((E & HE & Hp & Hc) & Hne). exists E. split; [|auto].
    apply list_elem_of_filter. split; [congruence|assumption].
Qed.

Lemma filter_length_lt (es : list HEdge) c E :
  E ∈ es -> h_parent E = c ->
  (length (filter (fun E => h_parent E <> c) es) < length es)%nat.
Proof.
  induction es as [|E0 es IH]; intros HE Hp; [now apply elem_of_nil in HE|].
  rewrite filter_cons. apply elem_of_cons in HE as [<-|HE].
  - destruct (decide (h_parent E <> c)); [contradiction|].
    pose proof (length_filter (fun E => h_parent E <> c) es). cbn [length]. lia.
  - specialize (IH HE Hp). destruct (decide (h_parent E0 <> c)); cbn [length]; lia.
Qed.

Lemma rtc_last_exit (R : unit_id -> unit_id -> Prop) c x :
  rtc R c x -> x = c \/ exists d, R c d /\ rtc (fun a b => R a b /\ a <> c) d x.
Proof.
  intros H. revert x H. apply rtc_ind_r; [now left|].
  intros y z Hcy Hyz IH. right. destruct (decide (y = c)) as [->|Hne].
  - exists z. split; [assumption|reflexivity].
  - destruct IH as [->|(d & Hcd & Hdy)]; [contradiction|].
    exists d. split; [assumption|]. eapply rtc_r; eauto.
Qed.

Lemma descend_sound : forall fuel es c x,
  x ∈ descend fuel es c -> rtc (edge_rel es) c x.
Proof.
  induction fuel as [|fuel IH]; intros es c x Hx; cbn [descend] in Hx.
  - apply list_elem_of_singleton in Hx. subst. reflexivity.
  - apply elem_of_cons in Hx as [->|Hx]; [reflexivity|].
    apply list_elem_of_bind in Hx as (d & Hx & Hd).
    apply list_elem_of_fmap in Hd as (E & -> & HE).
    apply list_elem_of_filter in HE as (Hp & HE).
    eapply rtc_l; [exists E; eauto|].
    eapply rtc_subrel; [|exact (IH _ _ _ Hx)].
    intros a b Hab. now apply edge_rel_filter in Hab.
Qed.

Lemma descend_complete : forall fuel es c x,
  (length es <= fuel)%nat -> rtc (edge_rel es) c x -> x ∈ descend fuel es c.
Proof.
  induction fuel as [|fuel IH]; intros es c x Hlen Hrtc;
    apply rtc_last_exit in Hrtc as [->|(d & (E & HE & Hp & Hc) & Hrtc)].
  - left.
  - destruct es; [now apply elem_of_nil in HE|cbn [length] in Hlen; lia].
  - left.
  - cbn [descend]. right. apply list_elem_of_bind. exists d. split.
    + apply IH.
      * pose proof (filter_length_lt es c E HE Hp). lia.
      * eapply rtc_subrel; [|exact Hrtc]. intros a b Hab. now apply edge_rel_filter.
    + apply list_elem_of_fmap. exists E. split; [congruence|].
      apply list_elem_of_filter. auto.
Qed.

(** [node.iter()] yields the units that can be reached over the edges. *)
Lemma hg_iter_spec g c x :
  x ∈ hg_iter g c <-> rtc (child_rel Hierarchy hg_children g) c x.
Proof.
  unfold hg_iter. split.
  - intros H. apply descend_sound in H. eapply rtc_subrel; [|exact H].
    intros a b. apply hg_child_rel.
  - intros H. apply descend_complete; [lia|]. eapply rtc_subrel; [|exact H].
    intros a b. apply hg_child_rel.
Qed.

Lemma hg_add_remote_children g p t c q :
  hg_children (hg_add_remote g p t c) q =
  if decide (q = p) then hg_children g p ++ [c] else hg_children g q.
Proof.
  unfold hg_children, hg_add_remote, edges_from. cbn [h_edges].
  rewrite filter_app, fmap_app, filter_cons, filter_nil. cbn [h_parent].
  destruct (decide (q = p)) as [->|Hne].
  - destruct (decide (p = p)); [reflexivity|contradiction].
  - destruct (decide (p = q)); [congruence|]. cbn. now rewrite app_nil_r.
Qed.

(** *** The loop over the queued edges *)

Section ForwardProofs.

Variable HGraph : Type.
Variable children : HGraph -> unit_id -> list unit_id.
Variable iter : HGraph -> unit_id -> list unit_id.
Variable add_remote : HGraph -> unit_id -> string -> unit_id -> HGraph.
Variable heads : HGraph -> list unit_id.

(** What the converter expects of the [ucca] package: [node.iter()] yields
    the unit and all the units under it, and [add_remote] makes [child] one
    more child of [parent]. *)
Hypothesis iter_reaches : forall g c x,
  x ∈ iter g c <-> rtc (child_rel HGraph children g) c x.
Hypothesis add_remote_children : forall g p t c q,
  children (add_remote g p t c) q =
  if decide (q = p) then children g p ++ [c] else children g q.

Lemma child_rel_add_remote g p t c a b :
  child_rel HGraph children (add_remote g p t c) a b <->
  child_rel HGraph children g a b \/ (a = p /\ b = c).
Proof.
  unfold child_rel. rewrite add_remote_children. destruct (decide (a = p)) as [->|Hne].
  - rewrite elem_of_app, list_elem_of_singleton. intuition.
  - intuition.
Qed.

Lemma tc_add_remote g p t c x y :
  tc (child_rel HGraph children (add_remote g p t c)) x y ->
  tc (child_rel HGraph children g) x y \/
  (rtc (child_rel HGraph children g) x p /\ rtc (child_rel HGraph children g) c y).
Proof.
  induction 1 as [x y Hxy|x y z Hxy Hyz IH].
  - apply child_rel_add_remote in Hxy as [Hxy|(-> & ->)].
    + left. now apply tc_once.
    + right. split; reflexivity.
  - apply child_rel_add_remote in Hxy as [Hxy|(-> & ->)].
    + destruct IH as [IH|(IH1 & IH2)].
      * left. eapply tc_l; eauto.
      * right. split; [eapply rtc_l; eauto|assumption].
    + right. split; [reflexivity|]. destruct IH as [IH|(_ & IH2)]; [|assumption].
      now apply tc_rtc.
Qed.

Lemma add_remote_acyclic g p t c :
  acyclic children g -> ~ rtc (child_rel HGraph children g) c p ->
  acyclic children (add_remote g p t c).
Proof.
  intros Hac Hnot x Hx. apply tc_add_remote in Hx as [Hx|(H1 & H2)].
  - exact (Hac x Hx).
  - apply Hnot. etransitivity; eauto.
Qed.

Lemma may_attach_spec g parent child :
  may_attach HGraph children iter g parent child = true <->
  (child ∉ children g parent) /\ ~ rtc (child_rel HGraph children g) child parent.
Proof.
  unfold may_attach. rewrite andb_true_iff, !negb_true_iff, !bool_decide_eq_false.
  now rewrite iter_reaches.
Qed.

(** C8, as amended: a queued edge is attached as a remote edge of the
    hierarchical graph unless the child already is a child of the parent,
    over a primary or over a remote edge, or the parent is the child
    itself or a unit under it; so the attachments keep the graph free of
    cycles and give no unit the same child twice. *)
Theorem attach_remotes_acyclic s es g g' :
  acyclic children g -> (forall p, NoDup (children g p)) ->
  attach_remotes HGraph children iter add_remote heads s es g = Ok g' ->
  acyclic children g' /\ (forall p, NoDup (children g' p)) /\
  (forall p c, c ∈ children g p -> c ∈ children g' p) /\
  (forall e es', es = e :: es' ->
     exists parent r child,
       remote_ends HGraph heads s g e = Ok (parent, r, child) /\
       (((child ∉ children g parent) /\
         ~ rtc (child_rel HGraph children g) child parent /\
         attach_remotes HGraph children iter add_remote heads s es'
           (add_remote g parent r child) = Ok g') \/
        ((child ∈ children g parent \/
          rtc (child_rel HGraph children g) child parent) /\
         attach_remotes HGraph children iter add_remote heads s es' g = Ok g'))).
Proof.
  revert g. induction es as [|e es IH]; intros g Hac Hnd Hrun.
  - cbn [attach_remotes] in Hrun. injection Hrun as <-.
    split; [assumption|]. split; [assumption|]. split; [auto|]. discriminate.
  - cbn [attach_remotes] in Hrun.
    apply bind_Ok in Hrun as ([[parent r] child] & Hends & Hrun).
    destruct (may_attach HGraph children iter g parent child) eqn:Hmay.
    + apply may_attach_spec in Hmay as (Hnew & Hnot).
      destruct (IH (add_remote g parent r child)) as (Hac' & Hnd' & Hkeep & _);
        [now apply add_remote_acyclic| |assumption|].
      { intros p. rewrite add_remote_children. destruct (decide (p = parent)) as [->|_]; [|auto].
        apply NoDup_app. split; [auto|]. split; [|apply NoDup_singleton].
        intros x Hx Hx'. apply list_elem_of_singleton in Hx'. congruence. }
      split; [assumption|]. split; [assumption|]. split.
      { intros p c Hc. apply Hkeep. rewrite add_remote_children.
        destruct (decide (p = parent)) as [->|_]; [|assumption].
        apply elem_of_app. now left. }
      intros e0 es0 [= <- <-]. exists parent, r, child. split; [assumption|]. left. auto.
    + destruct (IH g Hac Hnd Hrun) as (Hac' & Hnd' & Hkeep & _).
      split; [assumption|]. split; [assumption|]. split; [assumption|].
      intros e0 es0 [= <- <-]. exists parent, r, child. split; [assumption|]. right.
      split; [|assumption].
      destruct (decide (child ∈ children g parent)) as [Hin|Hnin]; [now left|]. right.
      destruct (decide (parent ∈ iter g child)) as [Hit|Hnit]; [now apply iter_reaches|].
      exfalso. assert (may_attach HGraph children iter g parent child = true); [|congruence].
      apply may_attach_spec. split; [assumption|]. now rewrite <- iter_reaches.
Qed.

End ForwardProofs.

Lemma acyclicb_sound g : acyclicb g = true -> acyclic hg_children g.
Proof.
  unfold acyclicb. rewrite forallb_forall. intros Hall x Hx.
  assert (exists d, child_rel Hierarchy hg_children g x d /\
                    rtc (child_rel Hierarchy hg_children g) d x) as (d & Hxd & Hdx).
  { inversion Hx as [? ? H|? y ? H Hyx]; subst.
    - exists x. split; [assumption|reflexivity].
    - exists y. split; [assumption|now apply tc_rtc]. }
  apply hg_child_rel in Hxd as (E & HE & <- & <-).
  apply list_elem_of_In in HE. specialize (Hall E HE).
  apply negb_true_iff, bool_decide_eq_false in Hall. apply Hall.
  now apply hg_iter_spec.
Qed.

Lemma ex_hierarchy_children_nodup p : NoDup (hg_children ex_hierarchy p).
Proof.
  destruct p as [|p]; vm_compute.
  - apply NoDup_cons. split; [|apply NoDup_singleton].
    intros H. apply list_elem_of_singleton in H. discriminate.
  - apply NoDup_nil_2.
Qed.

(** Instance: the two remote edges of [ex_remotes] on [ex_hierarchy]. *)
Lemma attach_remotes_acyclic_witness :
  exists g',
    attach_remotes Hierarchy hg_children hg_iter hg_add_remote h_heads
      ex_remotes [0; 1]%nat ex_hierarchy = Ok g' /\
    acyclic hg_children g' /\ (forall p, NoDup (hg_children g' p)).
Proof.
  eexists. split; [vm_compute; reflexivity|].
  destruct (attach_remotes_acyclic Hierarchy hg_children hg_iter hg_add_remote h_heads
              hg_iter_spec hg_add_remote_children ex_remotes [0; 1]%nat ex_hierarchy
              _ (acyclicb_sound ex_hierarchy eq_refl) ex_hierarchy_children_nodup
              eq_refl) as (Hac & Hnd & _).
  split; assumption.
Defined.

(** C8, counterexample: of the two queued edges from unit 1 to unit 2,
    labelled [A] and [B], the second is not attached, though unit 2 is no
    primary child of unit 1 and unit 1 cannot be reached from unit 2: the
    remote edge attached just before already makes unit 2 a child. *)
Lemma attach_remotes_skips_second_remote :
  exists g1,
    attach_remotes Hierarchy hg_children hg_iter hg_add_remote h_heads
      ex_remotes [0%nat] ex_hierarchy = Ok g1 /\
    h_edges g1 = h_edges ex_hierarchy ++ [mkHEdge 1 "A" 2 true] /\
    attach_remotes Hierarchy hg_children hg_iter hg_add_remote h_heads
      ex_remotes [1%nat] g1 = Ok g1 /\
    bool_decide (2%nat ∈ primary_children g1 1) = false /\
    bool_decide (1%nat ∈ hg_iter g1 2) = false.
Proof.
  eexists. split; [vm_compute; reflexivity|].
  split; [reflexivity|]. split; [vm_compute; reflexivity|].
  split; vm_compute; reflexivity.
Qed.

(** * Further properties *)

(** ** [find_cycle] answers True only on a cycle *)

Section FindCycleTrue.

Variable s : Store.
Hypothesis Hwf : wf_graph s.

Lemma find_cycle_edges_true fuel' n N p
    (IHrec : forall h v p r,
       is_Some (nodes s !! h) -> h ∉ p -> dfs_inv s v p ->
       (length (nodes s) - length v < fuel')%nat ->
       (forall x, x ∈ p -> tc (head_rel s) x h) ->
       find_cycle fuel' s h v p = Ok r -> fst (fst r) = true ->
       exists x, tc (head_rel s) x x) :
  nodes s !! n = Some N -> n ∉ p ->
  (forall x, x ∈ p -> tc (head_rel s) x n) ->
  forall es v r,
  (forall e, e ∈ es -> e ∈ incoming N) -> dfs_inv s v (p ++ [n]) ->
  (length (nodes s) - length v < fuel')%nat ->
  find_cycle_edges (find_cycle fuel' s) s n es v (p ++ [n]) = Ok r ->
  fst (fst r) = true -> exists x, tc (head_rel s) x x.
Proof.
  intros HN Hnp Hchain. induction es as [|e es IH]; intros v r Hes Hinv Hfuel Hrun Htrue;
    cbn [find_cycle_edges] in Hrun.
  - apply bind_Ok in Hrun as (p' & _ & Hrun). injection Hrun as <-. discriminate.
  - destruct (wf_incoming_head s Hwf n N e HN) as (E & h & HE & Hd & Hh & Hhv);
      [apply Hes; left|].
    assert (Hrel : head_rel s n h) by (exists N, e, E; split; [assumption|]; split;
      [apply Hes; left|auto]).
    rewrite (get_edge_Some _ _ _ HE) in Hrun. cbn [bind] in Hrun. rewrite Hh in Hrun.
    rewrite (set_contains_spec s (wf_nodes_distinct s Hwf)) in Hrun; [|assumption|].
    2:{ intros y Hy. eapply path_valid; eauto. }
    cbn [bind] in Hrun. case_bool_decide as Hhp.
    + apply elem_of_app in Hhp as [Hhp|Hhp].
      * exists h. eapply tc_r; [exact (Hchain h Hhp)|exact Hrel].
      * apply list_elem_of_singleton in Hhp. subst h. exists n. now apply tc_once.
    + destruct (find_cycle_spec s Hwf fuel' h v (p ++ [n]) Hhv Hhp Hinv Hfuel)
        as ([[b v'] p'] & Hrec & Hpost & _).
      rewrite Hrec in Hrun. cbn [bind] in Hrun. cbn in Hpost.
      destruct Hpost as (_ & Hlen & _ & _ & Hfalse & _). destruct b.
      * apply (IHrec h v (p ++ [n]) (true, v', p') Hhv Hhp Hinv Hfuel);
          [|exact Hrec|reflexivity].
        intros x Hx. apply elem_of_app in Hx as [Hx|Hx].
        -- eapply tc_r; [exact (Hchain x Hx)|exact Hrel].
        -- apply list_elem_of_singleton in Hx. subst x. now apply tc_once.
      * destruct (Hfalse eq_refl) as (-> & Hinv').
        apply (IH v' r); try assumption; [|lia].
        intros e0 He0. apply Hes. now right.
Qed.

Lemma find_cycle_true fuel : forall n v p r,
  is_Some (nodes s !! n) -> n ∉ p -> dfs_inv s v p ->
  (length (nodes s) - length v < fuel)%nat ->
  (forall x, x ∈ p -> tc (head_rel s) x n) ->
  find_cycle fuel s n v p = Ok r -> fst (fst r) = true ->
  exists x, tc (head_rel s) x x.
Proof.
  induction fuel as [|fuel' IHf]; intros n v p r Hn Hnp Hinv Hfuel Hchain Hrun Htrue;
    [discriminate|].
  cbn [find_cycle] in Hrun.
  assert (Hv : forall y, y ∈ v -> is_Some (nodes s !! y)) by (eapply inv_valid; eauto).
  assert (Hp : forall y, y ∈ p -> is_Some (nodes s !! y)).
  { intros y Hy. eapply path_valid; eauto. }
  rewrite (set_contains_spec s (wf_nodes_distinct s Hwf)) in Hrun by assumption.
  cbn [bind] in Hrun. case_bool_decide as Hnv.
  { injection Hrun as <-. discriminate. }
  rewrite !(set_add_spec s (wf_nodes_distinct s Hwf)) in Hrun by assumption.
  rewrite !bool_decide_eq_false_2 in Hrun by assumption. cbn [bind] in Hrun.
  destruct Hn as [N HN]. rewrite (get_node_Some _ _ _ HN) in Hrun. cbn [bind] in Hrun.
  pose proof (dfs_inv_enter s v p n Hinv (ex_intro _ N HN) Hnv) as Hinv1.
  pose proof (valid_nodup_length s (v ++ [n]) (inv_nodup _ _ _ Hinv1)
                (inv_valid _ _ _ Hinv1)) as Hlen1.
  rewrite length_app in Hlen1. cbn [length] in Hlen1.
  eapply (find_cycle_edges_true fuel' n N p IHf HN Hnp Hchain (incoming N) (v ++ [n]) r);
    try assumption; [auto|].
  rewrite length_app. cbn [length]. lia.
Qed.

Lemma find_cycle_any_true fuel :
  (length (nodes s) < fuel)%nat ->
  forall ns v r,
  (forall n, n ∈ ns -> is_Some (nodes s !! n)) -> dfs_inv s v [] ->
  find_cycle_any fuel s ns v [] = Ok r -> fst (fst r) = true ->
  exists x, tc (head_rel s) x x.
Proof.
  intros Hfuel. induction ns as [|n ns IH]; intros v r Hns Hinv Hrun Htrue;
    cbn [find_cycle_any] in Hrun.
  - injection Hrun as <-. discriminate.
  - destruct (find_cycle_spec s Hwf fuel n v []) as ([[b v'] p'] & Hr & Hpost & _);
      [apply Hns; left|apply not_elem_of_nil|assumption|lia|].
    rewrite Hr in Hrun. cbn [bind] in Hrun. cbn in Hpost.
    destruct Hpost as (_ & _ & _ & _ & Hfalse & _). destruct b.
    + apply (find_cycle_true fuel n v [] (true, v', p')); try exact Hr; try reflexivity;
        [apply Hns; left|apply not_elem_of_nil|assumption|lia|].
      intros x Hx. now apply elem_of_nil in Hx.
    + destruct (Hfalse eq_refl) as (-> & Hinv').
      apply (IH v' r); try assumption. intros m Hm. apply Hns. now right.
Qed.

End FindCycleTrue.

(** The search for a cycle, as [break_cycles] starts it with two empty
    sets, returns on every well-formed graph; it answers False only when
    no cycle of the head relation can be reached from the nodes given, and
    True only when the graph has a cycle. *)
Theorem find_cycle_any_decides s dep_nodes :
  wf_graph s -> (forall n, n ∈ dep_nodes -> is_Some (nodes s !! n)) ->
  exists b v path,
    find_cycle_any (S (length (nodes s))) s dep_nodes [] [] = Ok (b, v, path) /\
    (b = false -> cycle_free_from s dep_nodes) /\
    (b = true -> exists x, tc (head_rel s) x x).
Proof.
  intros Hwf Hns.
  destruct (find_cycle_any_spec s (S (length (nodes s))) Hwf ltac:(lia) dep_nodes []
              Hns (dfs_inv_nil s)) as ([[b v] path] & Hany & Hpost & Hall).
  exists b, v, path. split; [assumption|]. cbn in Hpost, Hall. split.
  - intros ->. destruct Hpost as (_ & _ & _ & _ & Hfalse & _).
    destruct (Hfalse eq_refl) as (_ & Hinv).
    eapply dfs_inv_cycle_free; eauto.
  - intros ->.
    exact (find_cycle_any_true s Hwf (S (length (nodes s))) ltac:(lia) dep_nodes []
             (true, v, path) Hns (dfs_inv_nil s) Hany eq_refl).
Qed.

(** Instance: the search finds the cycle of [ex_cycle]. *)
Lemma find_cycle_any_decides_witness :
  exists v path,
    find_cycle_any 4 ex_cycle [0; 1; 2]%nat [] [] = Ok (true, v, path) /\
    exists x, tc (head_rel ex_cycle) x x.
Proof.
  destruct (find_cycle_any_decides ex_cycle [0; 1; 2]%nat ex_cycle_wf ex_cycle_nodes_valid)
    as (b & v & path & Hrun & _ & Htrue).
  assert (b = true) as ->.
  { vm_compute in Hrun. now injection Hrun as <- _ _. }
  exists v, path. split; [exact Hrun|]. now apply Htrue.
Defined.

(** [break_cycles] removes nothing from a graph without a cycle: the first
    turn of its loop finds no cycle and returns the graph as it is. *)
Theorem break_cycles_acyclic_unchanged Linker set_iter dep_nodes s :
  wf_graph s -> (forall n, n ∈ dep_nodes -> is_Some (nodes s !! n)) ->
  (forall x, ~ tc (head_rel s) x x) ->
  break_cycles Linker set_iter 1 dep_nodes s = Ok s.
Proof.
  intros Hwf Hns Hac.
  destruct (find_cycle_any_spec s (S (length (nodes s))) Hwf ltac:(lia) dep_nodes []
              Hns (dfs_inv_nil s)) as ([[b v] path] & Hany & _).
  destruct b.
  - destruct (find_cycle_any_true s Hwf (S (length (nodes s))) ltac:(lia) dep_nodes []
                (true, v, path) Hns (dfs_inv_nil s) Hany eq_refl) as (x & Hx).
    destruct (Hac x Hx).
  - cbn [break_cycles].
    rewrite (break_cycles_step_none Linker set_iter dep_nodes s v path Hany). reflexivity.
Qed.

(** A graph on which the search from all its nodes answers False has no
    cycle at all. *)
Lemma acyclic_by_search s v p :
  wf_graph s ->
  find_cycle_any (S (length (nodes s))) s (seq 0 (length (nodes s))) [] [] = Ok (false, v, p) ->
  forall x, ~ tc (head_rel s) x x.
Proof.
  intros Hwf Hrun x Hx.
  assert (Hns : forall n, n ∈ seq 0 (length (nodes s)) -> is_Some (nodes s !! n)).
  { intros n Hn. apply elem_of_seq in Hn. apply lookup_lt_is_Some. lia. }
  destruct (find_cycle_any_spec s (S (length (nodes s))) Hwf ltac:(lia) _ []
              Hns (dfs_inv_nil s)) as ([[b v'] p'] & Hany & Hpost & _).
  rewrite Hrun in Hany. injection Hany as <- <- <-. cbn in Hpost.
  destruct Hpost as (_ & _ & _ & _ & Hfalse & _). destruct (Hfalse eq_refl) as (_ & Hinv).
  assert (Hfree : cycle_free_from s (seq 0 (length (nodes s)))).
  { eapply dfs_inv_cycle_free; eauto.
    destruct (find_cycle_any_spec s (S (length (nodes s))) Hwf ltac:(lia) _ []
                Hns (dfs_inv_nil s)) as (r & Hany & _ & Hall).
    rewrite Hrun in Hany. injection Hany as <-. exact (Hall eq_refl). }
  apply (Hfree x x); [|reflexivity|assumption].
  assert (Hv : is_Some (nodes s !! x)).
  { inversion Hx as [? ? (N & e & E & HN & _)|? y ? (N & e & E & HN & _) _]; subst; eauto. }
  apply elem_of_seq. apply lookup_lt_is_Some in Hv. lia.
Qed.

Lemma ex_chain_wf : wf_graph ex_chain.
Proof. apply wf_graphb_sound. vm_compute. reflexivity. Qed.

Lemma ex_chain_acyclic x : ~ tc (head_rel ex_chain) x x.
Proof.
  revert x. eapply acyclic_by_search; [exact ex_chain_wf|]. vm_compute. reflexivity.
Qed.

Lemma ex_chain_nodes_valid :
  forall n, n ∈ [0; 1; 2]%nat -> is_Some (nodes ex_chain !! n).
Proof.
  intros n Hn. repeat (apply elem_of_cons in Hn as [->|Hn]; [eexists; reflexivity|]).
  now apply elem_of_nil in Hn.
Qed.

(** Instance: the chain of [ex_chain]. *)
Lemma break_cycles_acyclic_unchanged_witness :
  break_cycles "L" (fun _ l => l) 1 [0; 1; 2]%nat ex_chain = Ok ex_chain.
Proof.
  exact (break_cycles_acyclic_unchanged "L" (fun _ l => l) [0; 1; 2]%nat ex_chain ex_chain_wf
           ex_chain_nodes_valid ex_chain_acyclic).
Defined.

(** ** [Edge.remove] *)

(** Removing an attached edge of a well-formed graph succeeds; afterwards
    the edge has neither head nor dependent and is in no adjacency list,
    every other edge is as before, and the graph is well formed again,
    with one attached edge less. *)
Theorem Edge_remove_detaches s e E d :
  wf_graph s -> edges s !! e = Some E -> _dependent E = Some d ->
  exists s' E',
    Edge_remove e s = Ok s' /\ wf_graph s' /\
    edges s' !! e = Some E' /\ _head E' = None /\ _dependent E' = None /\
    rel E' = rel E /\ remote E' = remote E /\ head_index E' = head_index E /\
    (forall n N, nodes s' !! n = Some N -> (e ∉ incoming N) /\ (e ∉ outgoing N)) /\
    (forall e0, e0 <> e -> (edges s' !! e0) = (edges s !! e0)) /\
    (edge_count s' + 1 = edge_count s)%nat.
Proof.
  intros Hwf HE Hd.
  destruct (Edge_remove_wf s e E d Hwf HE Hd) as (s' & Hrem & Hwf' & Hcount & _ & Hedges).
  assert (HE' : edges s' !! e = Some (with__dependent None (with__head None E))).
  { rewrite Hedges. eapply lookup_put_same; eauto. }
  exists s', (with__dependent None (with__head None E)).
  split; [assumption|]. split; [assumption|]. split; [assumption|].
  do 5 (split; [reflexivity|]). split; [|split; [|assumption]].
  - intros n N HN. split; intros Hin.
    + apply (ac_incoming s' (wf_adj s' Hwf') n N e HN) in Hin as (E0 & HE0 & Hd0).
      rewrite HE' in HE0. injection HE0 as <-. discriminate.
    + apply (ac_outgoing s' (wf_adj s' Hwf') n N e HN) in Hin as (E0 & HE0 & Hh0).
      rewrite HE' in HE0. injection HE0 as <-. discriminate.
  - intros e0 Hne. rewrite Hedges. apply list_lookup_insert_ne. congruence.
Qed.

(** Instance: the edge from "sleeps" to "cat" in [ex_chain]. *)
Lemma Edge_remove_detaches_witness :
  exists s' E',
    Edge_remove 1 ex_chain = Ok s' /\ wf_graph s' /\
    edges s' !! 1%nat = Some E' /\ _head E' = None /\ _dependent E' = None.
Proof.
  destruct (Edge_remove_detaches ex_chain 1%nat
              (mkEdge (HInt 0) "nsubj" false (Some 1%nat) (Some 2%nat)) 2%nat
              ex_chain_wf eq_refl eq_refl)
    as (s' & E' & Hrem & Hwf & HE' & Hh & Hd & _).
  exists s', E'. auto.
Defined.

(** ** [Edge.link_head] and the bounds of the head index *)

(** An edge that has no head yet and holds an integer head index [i]:
    linking it against the list [heads] raises [IndexError] exactly when
    [i] is outside [-len(heads), len(heads))]; otherwise the head becomes
    [heads[i]], counted from the end for a negative [i], the edge is
    appended to the [outgoing] list of that node, and [head_index] becomes
    its position less one. *)
Theorem link_head_bounds py_int e heads copy_of s E i :
  edges s !! e = Some E -> head_index E = HInt i -> _head E = None ->
  (forall h, h ∈ heads -> is_Some (nodes s !! h)) ->
  let n := Z.of_nat (length heads) in
  (~ (- n <= i < n) -> link_head py_int e heads copy_of s = Raise IndexError) /\
  (- n <= i < n ->
   exists h H s' E',
     heads !! Z.to_nat (if bool_decide (i < 0) then i + n else i) = Some h /\
     nodes s !! h = Some H /\
     link_head py_int e heads copy_of s = Ok s' /\
     edges s' !! e = Some E' /\ _head E' = Some h /\
     head_index E' = HInt (position H - 1) /\
     rel E' = rel E /\ remote E' = remote E /\ _dependent E' = _dependent E /\
     nodes s' !! h = Some (with_outgoing (outgoing H ++ [e]) H)).
Proof.
  intros HE Hi Hh Hheads n. unfold link_head.
  rewrite (get_edge_Some _ _ _ HE). cbn [bind]. rewrite Hi. cbn [bind].
  rewrite (get_edge_Some _ _ _ HE). cbn [bind]. rewrite Hi.
  unfold py_index. fold n.
  assert (Hn0 : 0 <= n) by (unfold n; lia). split.
  - intros Hout. rewrite bool_decide_eq_false_2; [reflexivity|].
    case_bool_decide; lia.
  - intros Hin. set (j := if bool_decide (i < 0) then i + n else i).
    assert (Hj : 0 <= j < n) by (subst j; case_bool_decide; lia).
    rewrite bool_decide_eq_true_2 by exact Hj.
    destruct (lookup_lt_is_Some_2 heads (Z.to_nat j)) as (h & Hlk); [unfold n in Hj; lia|].
    rewrite Hlk. cbn [of_option bind].
    destruct (Hheads h) as (H & HH); [apply list_elem_of_lookup; eauto|].
    unfold set_head. rewrite (get_edge_Some _ _ _ HE). cbn [bind].
    unfold detach_head. rewrite Hh. cbn [bind].
    unfold get_node. cbn [put_edge nodes]. rewrite HH. cbn [of_option bind].
    eexists h, H, _, _. split; [reflexivity|]. split; [assumption|].
    split; [reflexivity|]. cbn [put_edge put_node edges nodes]. split.
    { rewrite list_insert_insert_eq. eapply lookup_put_same; eauto. }
    split; [reflexivity|]. split; [reflexivity|]. split; [reflexivity|].
    split; [reflexivity|]. split; [reflexivity|].
    eapply lookup_put_same; eauto.
Qed.

(** Instance: an edge with the head index -1 against three heads gets the
    last of them. *)
Lemma link_head_bounds_witness :
  exists s' E',
    link_head (fun _ => Raise ValueError) 0 [0; 1; 2]%nat []
      (mkStore (nodes ex_chain) [mkEdge (HInt (-1)) "dep" false None None]) = Ok s' /\
    edges s' !! 0%nat = Some E' /\ _head E' = Some 2%nat /\ head_index E' = HInt 1.
Proof.
  destruct (link_head_bounds (fun _ => Raise ValueError) 0 [0; 1; 2]%nat []
              (mkStore (nodes ex_chain) [mkEdge (HInt (-1)) "dep" false None None])
              _ (-1) eq_refl eq_refl eq_refl) as (_ & Hin).
  { intros h Hh. repeat (apply elem_of_cons in Hh as [->|Hh]; [eexists; reflexivity|]).
    now apply elem_of_nil in Hh. }
  destruct Hin as (h & H & s' & E' & Hlk & HH & Hrun & HE' & Hhead & Hidx & _);
    [cbn; lia|].
  cbn in Hlk. injection Hlk as <-. cbn in HH. injection HH as <-.
  exists s', E'. auto.
Defined.

(** ** [generate_graphs] on lines without a token *)

Section ReaderNoTokens.

Variable py_int : string -> result Z.
Variable strip : string -> string.
Variable match_sentence_id : string -> option string.
Variable match_format : string -> option string.
Variable read_line :
  string -> option node_id -> list (string * string) -> Store ->
  result (Store * option node_id * list (string * string)).

Lemma read_comment_dep_nodes line st :
  dep_nodes (read_comment match_sentence_id match_format line st) = dep_nodes st.
Proof.
  unfold read_comment. destruct (match_sentence_id line); [reflexivity|].
  destruct (match_format line); reflexivity.
Qed.

Lemma read_lines_no_tokens split s : forall lines st out,
  (forall l, l ∈ lines ->
     strip l = EmptyString \/ exists r, strip l = String "#" r) ->
  dep_nodes st = None ->
  read_lines py_int strip match_sentence_id match_format read_line lines split st s out =
  (out, if split then Ok s else Raise TypeError).
Proof.
  induction lines as [|l lines IH]; intros st out Hlines Hnone; cbn [read_lines].
  - rewrite Hnone. cbn [truthy]. rewrite orb_false_r. destruct split; cbn [negb].
    + reflexivity.
    + unfold _graph. rewrite Hnone. reflexivity.
  - assert (Hrest : forall l0, l0 ∈ lines ->
              strip l0 = EmptyString \/ exists r, strip l0 = String "#" r).
    { intros l0 Hl0. apply Hlines. now right. }
    destruct (Hlines l) as [Hl|(r & Hl)]; [left| |]; rewrite Hl.
    + rewrite Hnone. cbn [truthy]. rewrite andb_false_r. now apply IH.
    + apply IH; [assumption|]. now rewrite read_comment_dep_nodes.
Qed.

(** Lines that are all blank or comments hold no sentence: in split mode
    [generate_graphs] hands out nothing and ends; without split it still
    builds one graph at the end, from [dep_nodes] that is [None], and
    raises [TypeError]. *)
Theorem generate_graphs_no_tokens lines s :
  (forall l, l ∈ lines ->
     strip l = EmptyString \/ exists r, strip l = String "#" r) ->
  generate_graphs py_int strip match_sentence_id match_format read_line lines true s
    = ([], Ok s) /\
  generate_graphs py_int strip match_sentence_id match_format read_line lines false s
    = ([], Raise TypeError).
Proof.
  intros Hlines. unfold generate_graphs. split.
  - now rewrite (read_lines_no_tokens true s lines initial_reader [] Hlines).
  - now rewrite (read_lines_no_tokens false s lines initial_reader [] Hlines).
Qed.

End ReaderNoTokens.

(** Instance: a comment and a blank line. *)
Lemma generate_graphs_no_tokens_witness :
  generate_graphs (fun _ => Raise ValueError) id (fun _ => None) (fun _ => None)
    (ex_read_line ex_head_of) ["# text"; ""]%string false (mkStore [] [])
  = ([], Raise TypeError).
Proof.
  refine (proj2 (generate_graphs_no_tokens (fun _ => Raise ValueError) id (fun _ => None)
                   (fun _ => None) (ex_read_line ex_head_of) ["# text"; ""]%string
                   (mkStore [] []) _)).
  intros l Hl. apply elem_of_cons in Hl as [->|Hl]; [right; eexists; reflexivity|].
  apply list_elem_of_singleton in Hl. subst l. now left.
Defined.

(** ** [Edge.create] and the star of a remote edge *)

Lemma rstrip_star_snoc r : rstrip_star (r ++ "*") = rstrip_star r.
Proof.
  induction r as [|c r IH]; [reflexivity|].
  simpl. rewrite IH. reflexivity.
Qed.

Lemma endswith_star_snoc r : endswith_star (r ++ "*") = true.
Proof.
  induction r as [|c r IH]; [reflexivity|].
  simpl. rewrite IH.
  destruct (r ++ "*")%string eqn:Hr; [|reflexivity].
  destruct r; discriminate.
Qed.

Lemma rstrip_star_id r : endswith_star r = false -> rstrip_star r = r.
Proof.
  induction r as [|c r IH]; [reflexivity|]. cbn [endswith_star rstrip_star].
  destruct r as [|c' r].
  - cbn. intros ->. reflexivity.
  - intros H. rewrite (IH H). reflexivity.
Qed.

Lemma endswith_star_rstrip r : endswith_star (rstrip_star r) = false.
Proof.
  induction r as [|c r IH]; [reflexivity|]. cbn [rstrip_star].
  destruct (rstrip_star r) as [|c' r'] eqn:Hr.
  - case_bool_decide; [reflexivity|]. cbn. now apply bool_decide_eq_false_2.
  - cbn [endswith_star] in *. exact IH.
Qed.

(** The label that [Edge.__repr__] writes is read back by [Edge.create]
    into the same label and the same remote flag, for every edge whose
    label does not itself end in a star; and whatever the text, the label
    of a created edge never ends in a star. *)
Theorem Edge_create_reads_label py_int head_position i s :
  py_int head_position = Ok i ->
  (forall E, endswith_star (rel E) = false ->
     Edge_create py_int head_position (Edge_label_repr E) s =
     Ok (mkStore (nodes s) (edges s ++ [mkEdge (HInt i) (rel E) (remote E) None None]),
         length (edges s))) /\
  (forall text s' e, Edge_create py_int head_position text s = Ok (s', e) ->
     exists E', edges s' !! e = Some E' /\ endswith_star (rel E') = false /\
                remote E' = endswith_star text /\ head_index E' = HInt i).
Proof.
  intros Hint. split.
  - intros E Hrel. unfold Edge_create, Edge_label_repr. rewrite Hint. cbn [bind].
    assert (Hlabel : rstrip_star (rel E ++ (if remote E then "*" else "")) = rel E /\
                     endswith_star (rel E ++ (if remote E then "*" else "")) = remote E).
    { destruct (remote E); cbv iota.
      - rewrite rstrip_star_snoc, endswith_star_snoc, rstrip_star_id by assumption. auto.
      - assert (Hnil : forall r : string, (r ++ "")%string = r).
        { induction r as [|c r IH]; [reflexivity|].
          change (String c r +:+ "") with (String c (r +:+ "")). now rewrite IH. }
        rewrite Hnil, rstrip_star_id by assumption. auto. }
    destruct Hlabel as (-> & ->).
    destruct (Edge_init (HInt i) (rel E) (remote E) s) as [[s' e]| |] eqn:Hinit.
    + apply Edge_init_result in Hinit as (-> & ->). reflexivity.
    + exfalso. revert Hinit. unfold Edge_init, alloc_edge, set_head, set_dependent, get_edge.
      cbn [edges]. rewrite lookup_app_r by lia. rewrite Nat.sub_diag. cbn.
      rewrite list_insert_id. 
      * rewrite lookup_app_r by lia. rewrite Nat.sub_diag. cbn. discriminate.
      * rewrite lookup_app_r by lia. now rewrite Nat.sub_diag.
    + exfalso. exact (Edge_init_fuel _ _ _ _ Hinit).
  - intros text s' e Hrun. unfold Edge_create in Hrun. rewrite Hint in Hrun.
    cbn [bind] in Hrun. apply Edge_init_result in Hrun as (-> & ->).
    eexists. cbn [edges]. split.
    { rewrite lookup_app_r by lia. rewrite Nat.sub_diag. reflexivity. }
    cbn. split; [apply endswith_star_rstrip|auto].
Qed.

(** Instance: a remote edge labelled [A] is written [A*] and read back. *)
Lemma Edge_create_reads_label_witness :
  Edge_create (fun _ => Ok 3) "3" (Edge_label_repr (mkEdge (HInt 3) "A" true None None))
    (mkStore [] []) =
  Ok (mkStore [] [mkEdge (HInt 3) "A" true None None], 0%nat).
Proof.
  exact (proj1 (Edge_create_reads_label (fun _ => Ok 3) "3" 3 (mkStore [] []) eq_refl)
           (mkEdge (HInt 3) "A" true None None) eq_refl).
Defined.

(** ** [Node.add_edges]: primary edges first *)

Lemma set_dependent_fresh e n s E N :
  edges s !! e = Some E -> _dependent E = None -> nodes s !! n = Some N ->
  set_dependent e (Some n) s =
  Ok (put_node (put_edge s e (with__dependent (Some n) E)) n
        (with_incoming (incoming N ++ [e]) N)).
Proof.
  intros HE Hd HN. unfold set_dependent. rewrite (get_edge_Some _ _ _ HE). cbn [bind].
  unfold detach_dependent. rewrite Hd. cbn [bind].
  unfold get_node. cbn [put_edge nodes]. rewrite HN. reflexivity.
Qed.

Lemma with_incoming_twice l1 l2 N :
  with_incoming l2 (with_incoming l1 N) = with_incoming l2 N.
Proof. reflexivity. Qed.

Lemma add_edges_pass_spec n rem : forall es s N,
  nodes s !! n = Some N -> NoDup es ->
  (forall e, e ∈ es -> exists E, edges s !! e = Some E /\
                                 (remote E = rem -> _dependent E = None)) ->
  exists s',
    add_edges_pass n rem es s = Ok s' /\
    nodes s' = <[n := with_incoming
                        (incoming N ++ filter (fun e => edge_is_remote s e = rem) es) N]>
                 (nodes s) /\
    (forall e E, edges s !! e = Some E ->
       exists E', edges s' !! e = Some E' /\ remote E' = remote E /\
         rel E' = rel E /\ head_index E' = head_index E /\ _head E' = _head E /\
         ((e ∈ es) /\ remote E = rem -> _dependent E' = Some n) /\
         (~ ((e ∈ es) /\ remote E = rem) -> E' = E)).
Proof.
  induction es as [|e es IH]; intros s N HN Hnd Hes; cbn [add_edges_pass].
  - exists s. split; [reflexivity|]. split.
    + rewrite filter_nil, app_nil_r. symmetry. apply list_insert_id.
      rewrite HN. f_equal. now destruct N.
    + intros e E HE. exists E. split; [assumption|]. do 4 (split; [reflexivity|]).
      split; [|auto]. intros (Hin & _). now apply elem_of_nil in Hin.
  - apply NoDup_cons in Hnd as (Hnotin & Hnd).
    destruct (Hes e) as (E & HE & Hfresh); [left|].
    rewrite (get_edge_Some _ _ _ HE). cbn [bind].
    assert (Hflag : edge_is_remote s e = remote E) by (unfold edge_is_remote; now rewrite HE).
    case_bool_decide as Hrem.
    + rewrite (set_dependent_fresh e n s E N HE (Hfresh Hrem) HN). cbn [bind].
      set (E1 := with__dependent (Some n) E).
      set (N1 := with_incoming (incoming N ++ [e]) N).
      set (s1 := put_node (put_edge s e E1) n N1).
      assert (HN1 : nodes s1 !! n = Some N1).
      { subst s1. cbn [put_node put_edge nodes]. eapply lookup_put_same; eauto. }
      assert (Hedges1 : forall e0, e0 <> e -> edges s1 !! e0 = edges s !! e0).
      { intros e0 Hne. subst s1. cbn [put_node put_edge edges].
        apply list_lookup_insert_ne. congruence. }
      assert (Hflag1 : forall e0, edge_is_remote s1 e0 = edge_is_remote s e0).
      { intros e0. unfold edge_is_remote. destruct (decide (e0 = e)) as [->|Hne].
        - subst s1. cbn [put_node put_edge edges].
          rewrite (lookup_put_same _ _ _ _ HE), HE. reflexivity.
        - now rewrite Hedges1. }
      destruct (IH s1 N1 HN1 Hnd) as (s' & Hrun & Hnodes & Hedges).
      { intros e0 He0. destruct (Hes e0) as (E0 & HE0 & Hf0); [now right|].
        exists E0. split; [|assumption]. rewrite Hedges1; [assumption|].
        intros ->. contradiction. }
      exists s'. split; [assumption|]. split.
      * rewrite Hnodes. subst s1. cbn [put_node put_edge nodes].
        rewrite list_insert_insert_eq. f_equal. subst N1.
        rewrite with_incoming_twice. f_equal. cbn [with_incoming incoming].
        rewrite filter_cons. rewrite decide_True by congruence.
        rewrite <- app_assoc. cbn [app]. do 2 f_equal.
        apply list_filter_iff. intros e0. now rewrite Hflag1.
      * intros e0 E0 HE0. destruct (decide (e0 = e)) as [->|Hne].
        -- assert (E0 = E) as -> by congruence.
           destruct (Hedges e E1) as (E' & HE' & Hr & Hl & Hi & Hh & _ & Hsame).
           { subst s1. cbn [put_node put_edge edges]. eapply lookup_put_same; eauto. }
           exists E'. split; [assumption|]. rewrite Hr, Hl, Hi, Hh.
           do 4 (split; [reflexivity|]). split.
           ++ intros _. rewrite Hsame; [reflexivity|]. intros (Hin & _). contradiction.
           ++ intros Hnot. destruct Hnot. split; [left|assumption].
        -- destruct (Hedges e0 E0) as (E' & HE' & Hr & Hl & Hi & Hh & Hdep & Hsame).
           { now rewrite Hedges1. }
           exists E'. split; [assumption|]. do 4 (split; [assumption|]). split.
           ++ intros (Hin & Hrem0). apply Hdep. split; [|assumption].
              apply elem_of_cons in Hin as [->|Hin]; [contradiction|assumption].
           ++ intros Hnot. apply Hsame. intros (Hin & Hrem0). apply Hnot.
              split; [now right|assumption].
    + destruct (IH s N HN Hnd) as (s' & Hrun & Hnodes & Hedges).
      { intros e0 He0. apply Hes. now right. }
      exists s'. split; [assumption|]. split.
      * rewrite Hnodes. do 3 f_equal. rewrite filter_cons.
        rewrite decide_False by congruence. reflexivity.
      * intros e0 E0 HE0.
        destruct (Hedges e0 E0 HE0) as (E' & HE' & Hr & Hl & Hi & Hh & Hdep & Hsame).
        exists E'. split; [assumption|]. do 4 (split; [assumption|]). split.
        -- intros (Hin & Hrem0). apply Hdep. split; [|assumption].
           apply elem_of_cons in Hin as [->|Hin]; [|assumption]. congruence.
        -- intros Hnot. apply Hsame. intros (Hin & Hrem0). apply Hnot.
           split; [now right|assumption].
Qed.

Lemma filter_ext_in {A} (P1 P2 : A -> Prop)
    `{!forall x, Decision (P1 x), !forall x, Decision (P2 x)} (l : list A) :
  (forall x, x ∈ l -> P1 x <-> P2 x) -> filter P1 l = filter P2 l.
Proof.
  induction l as [|a l IH]; intros Hiff; [reflexivity|].
  rewrite !filter_cons. rewrite IH by (intros x Hx; apply Hiff; now right).
  destruct (decide (P1 a)) as [H1|H1].
  - rewrite decide_True; [reflexivity|]. apply Hiff; [left|assumption].
  - rewrite decide_False; [reflexivity|]. intros H2. apply H1. apply Hiff; [left|assumption].
Qed.

(** A node that is given edges without a dependent takes the primary ones
    first and the remote ones after them, each group in the order given:
    [n.incoming] grows by the primary edges, then by the remote edges,
    and every edge given gets [n] as its dependent. *)
Theorem add_edges_primary_first n N es s :
  nodes s !! n = Some N -> NoDup es ->
  (forall e, e ∈ es -> exists E, edges s !! e = Some E /\ _dependent E = None) ->
  exists s' N',
    add_edges n es s = Ok s' /\ nodes s' !! n = Some N' /\
    incoming N' = incoming N ++ filter (fun e => edge_is_remote s e = false) es
                             ++ filter (fun e => edge_is_remote s e = true) es /\
    (forall e, e ∈ es -> exists E', edges s' !! e = Some E' /\ _dependent E' = Some n).
Proof.
  intros HN Hnd Hes. unfold add_edges.
  destruct (add_edges_pass_spec n false es s N HN Hnd) as (s1 & Hrun1 & Hnodes1 & Hedges1).
  { intros e He. destruct (Hes e He) as (E & HE & Hd). eauto. }
  rewrite Hrun1. cbn [bind].
  set (N1 := with_incoming (incoming N ++ filter (fun e => edge_is_remote s e = false) es) N)
    in *.
  assert (HN1 : nodes s1 !! n = Some N1).
  { rewrite Hnodes1. eapply lookup_put_same; eauto. }
  assert (Hflag : forall e, e ∈ es -> edge_is_remote s1 e = edge_is_remote s e).
  { intros e He. destruct (Hes e He) as (E & HE & _).
    destruct (Hedges1 e E HE) as (E' & HE' & Hr & _).
    unfold edge_is_remote. now rewrite HE, HE'. }
  destruct (add_edges_pass_spec n true es s1 N1 HN1 Hnd) as (s2 & Hrun2 & Hnodes2 & Hedges2).
  { intros e He. destruct (Hes e He) as (E & HE & Hd).
    destruct (Hedges1 e E HE) as (E' & HE' & Hr & _ & _ & _ & _ & Hsame).
    exists E'. split; [assumption|]. intros Hrem. rewrite Hsame; [assumption|].
    intros (_ & Hf). congruence. }
  exists s2. eexists. split; [exact Hrun2|]. split.
  { rewrite Hnodes2. eapply lookup_put_same; eauto. }
  split.
  { cbn [with_incoming incoming N1]. rewrite <- app_assoc. do 2 f_equal.
    apply filter_ext_in. intros e He. now rewrite Hflag. }
  intros e He. destruct (Hes e He) as (E & HE & Hd).
  destruct (Hedges1 e E HE) as (E1 & HE1 & Hr1 & _ & _ & _ & Hdep1 & Hsame1).
  destruct (Hedges2 e E1 HE1) as (E2 & HE2 & Hr2 & _ & _ & _ & Hdep2 & Hsame2).
  exists E2. split; [assumption|]. destruct (remote E) eqn:Hrem.
  - apply Hdep2. split; [assumption|congruence].
  - rewrite Hsame2; [apply Hdep1; auto|]. intros (_ & Hf). congruence.
Qed.

Lemma ex_fresh_edges_valid :
  forall e, e ∈ [0; 1; 2]%nat ->
    exists E, edges ex_fresh_edges !! e = Some E /\ _dependent E = None.
Proof.
  intros e He.
  repeat (apply elem_of_cons in He as [->|He]; [eexists; split; reflexivity|]).
  now apply elem_of_nil in He.
Qed.

Lemma NoDup_012 : NoDup [0; 1; 2]%nat.
Proof.
  repeat (apply NoDup_cons; split; [rewrite ?elem_of_cons, ?elem_of_nil; lia|]).
  apply NoDup_nil_2.
Qed.

(** Instance: a remote edge, a primary edge and another remote edge; the
    primary one comes first. *)
Lemma add_edges_primary_first_witness :
  exists s' N',
    add_edges 0 [0; 1; 2]%nat ex_fresh_edges = Ok s' /\
    nodes s' !! 0%nat = Some N' /\ incoming N' = [1; 0; 2]%nat.
Proof.
  destruct (add_edges_primary_first 0 (ex_node 1 [] []) [0; 1; 2]%nat ex_fresh_edges
              eq_refl NoDup_012 ex_fresh_edges_valid)
    as (s' & N' & Hrun & HN' & Hinc & _).
  exists s', N'. split; [exact Hrun|]. split; [exact HN'|]. exact Hinc.
Defined.

(** ** The head child and the head terminal of a unit *)

Section HeadChild.

Variable tag_priority : list (option string).

Lemma primary_edges_spec p tag : forall es l,
  primary_edges p es tag = Ok l ->
  forall E, E ∈ l ->
    exists e C, e ∈ es /\ uedges p !! e = Some E /\ ue_remote E = false /\
                units p !! ue_child E = Some C /\ u_implicit C = false /\
                match tag with None => True | Some t => ue_tag E = t end.
Proof.
  induction es as [|e es IH]; intros l Hrun E HE; cbn [primary_edges] in Hrun.
  - injection Hrun as <-. now apply elem_of_nil in HE.
  - apply bind_Ok in Hrun as (E0 & HE0 & Hrun). apply of_option_Ok in HE0.
    apply bind_Ok in Hrun as (keep & Hkeep & Hrun).
    apply bind_Ok in Hrun as (r & Hr & Hrun). injection Hrun as <-.
    assert (Hrest : E ∈ r ->
              exists e' C, e' ∈ e :: es /\ uedges p !! e' = Some E /\ ue_remote E = false /\
                units p !! ue_child E = Some C /\ u_implicit C = false /\
                match tag with None => True | Some t => ue_tag E = t end).
    { intros Hin. destruct (IH r Hr E Hin) as (e' & C & He' & Hrest).
      exists e', C. split; [now right|assumption]. }
    destruct keep; [|auto]. apply elem_of_cons in HE as [->|HE]; [|auto].
    destruct (ue_remote E0) eqn:Hrem; [discriminate|].
    apply bind_Ok in Hkeep as (C & HC & Hkeep). apply of_option_Ok in HC.
    destruct (u_implicit C) eqn:Himp; [discriminate|].
    exists e, C. split; [left|]. do 4 (split; [first [assumption|reflexivity]|]).
    destruct tag as [t|]; [|exact I]. injection Hkeep as Hk.
    now apply bool_decide_eq_true in Hk.
Qed.

(** The head child that [find_head_child] finds is the child of an
    outgoing edge of the unit that is not remote, and is not implicit; the
    tag of the edge is one of the priority list, where [None] stands for
    any tag.  A unit without outgoing edges has no head child:
    [RuntimeError]. *)
Theorem find_head_child_primary p u :
  (forall c, find_head_child tag_priority p u = Ok c ->
     exists U e E C,
       units p !! u = Some U /\ e ∈ u_outgoing U /\ uedges p !! e = Some E /\
       ue_child E = c /\ ue_remote E = false /\
       units p !! c = Some C /\ u_implicit C = false /\
       exists tag, tag ∈ tag_priority /\
                   match tag with None => True | Some t => ue_tag E = t end) /\
  (forall U, units p !! u = Some U -> u_outgoing U = [] ->
     find_head_child tag_priority p u = Raise RuntimeError).
Proof.
  split.
  - intros c Hrun. unfold find_head_child in Hrun.
    apply bind_Ok in Hrun as (U & HU & Hrun). apply of_option_Ok in HU.
    revert Hrun. generalize tag_priority as tags.
    induction tags as [|tag tags IH]; intros Hrun; cbn [find_head_child_from] in Hrun;
      [discriminate|].
    apply bind_Ok in Hrun as (es & Hes & Hrun). destruct es as [|E es].
    + destruct (IH Hrun) as (U' & e & E & C & HU' & He & HE & Hc & Hr & HC & Hi & t & Ht & Hm).
      exists U', e, E, C. do 7 (split; [assumption|]). exists t. split; [now right|assumption].
    + injection Hrun as <-.
      destruct (primary_edges_spec p tag _ _ Hes E) as (e & C & He & HE & Hr & HC & Hi & Hm);
        [left|].
      exists U, e, E, C. do 3 (split; [assumption|]). split; [reflexivity|].
      do 3 (split; [assumption|]). exists tag. split; [left|assumption].
  - intros U HU Hout. unfold find_head_child, get_unit. rewrite HU. cbn [of_option bind].
    generalize tag_priority as tags.
    induction tags as [|tag tags IH]; cbn [find_head_child_from]; [reflexivity|].
    rewrite Hout. cbn [primary_edges bind]. exact IH.
Qed.

(** What [find_head_terminal] returns is a terminal: a unit of layer 0
    without outgoing edges.  A unit without outgoing edges outside layer 0
    (an implicit unit) gives [ValueError]. *)
Theorem find_head_terminal_is_terminal p :
  (forall fuel u t, find_head_terminal tag_priority fuel p u = Ok t ->
     exists T, units p !! t = Some T /\ u_outgoing T = [] /\ u_layer0 T = true) /\
  (forall fuel u U, units p !! u = Some U -> u_outgoing U = [] -> u_layer0 U = false ->
     find_head_terminal tag_priority (S fuel) p u = Raise ValueError).
Proof.
  split.
  - induction fuel as [|fuel IH]; intros u t Hrun; [discriminate|].
    cbn [find_head_terminal] in Hrun.
    apply bind_Ok in Hrun as (U & HU & Hrun). apply of_option_Ok in HU.
    destruct (u_outgoing U) eqn:Hout.
    + destruct (u_layer0 U) eqn:Hl; [|discriminate]. injection Hrun as <-. eauto.
    + apply bind_Ok in Hrun as (c & _ & Hrun). eauto.
  - intros fuel u U HU Hout Hl. cbn [find_head_terminal]. unfold get_unit.
    rewrite HU. cbn [of_option bind]. rewrite Hout, Hl. reflexivity.
Qed.

End HeadChild.

(** Instance: the head child of the top unit of [ex_passage] is unit 2,
    over the edge tagged [head]. *)
Lemma find_head_child_primary_witness :
  exists U e E C,
    units ex_passage !! 4%nat = Some U /\ e ∈ u_outgoing U /\
    uedges ex_passage !! e = Some E /\ ue_child E = 2%nat /\ ue_remote E = false /\
    units ex_passage !! 2%nat = Some C /\ u_implicit C = false.
Proof.
  destruct (proj1 (find_head_child_primary ex_tag_priority ex_passage 4%nat) 2%nat eq_refl)
    as (U & e & E & C & HU & He & HE & Hc & Hr & HC & Hi & _).
  exists U, e, E, C. auto 10.
Defined.

(** Instance: the head terminal of the top unit of [ex_passage] is the
    first terminal. *)
Lemma find_head_terminal_is_terminal_witness :
  exists T, units ex_passage !! 0%nat = Some T /\ u_outgoing T = [] /\ u_layer0 T = true.
Proof.
  exact (proj1 (find_head_terminal_is_terminal ex_tag_priority ex_passage)
           5%nat 4%nat 0%nat eq_refl).
Defined.

(** ** The topological sorter *)

(** *** [sorted] *)

Lemma insert_by_perm {A} (key : A -> Z) x l : insert_by key x l ≡ₚ x :: l.
Proof.
  induction l as [|y l IH]; cbn [insert_by]; [reflexivity|].
  case_bool_decide; [reflexivity|]. rewrite IH. apply Permutation_swap.
Qed.

Lemma insert_by_sorted {A} (key : A -> Z) x l :
  StronglySorted (fun a b => key a <= key b) l ->
  StronglySorted (fun a b => key a <= key b) (insert_by key x l).
Proof.
  induction 1 as [|y l Hs IH Hall]; cbn [insert_by].
  - repeat constructor.
  - case_bool_decide as Hlt.
    + constructor; [constructor; assumption|]. constructor; [lia|].
      eapply Forall_impl; [exact Hall|]. cbn. intros z Hz. lia.
    + constructor; [assumption|].
      rewrite (insert_by_perm key x l). constructor; [lia|assumption].
Qed.

Lemma sorted_by_spec {A} (key : A -> Z) (l : list A) :
  sorted_by key l ≡ₚ l /\ StronglySorted (fun a b => key a <= key b) (sorted_by key l).
Proof.
  unfold sorted_by.
  assert (H : forall acc, StronglySorted (fun a b => key a <= key b) acc ->
            fold_left (fun acc x => insert_by key x acc) l acc ≡ₚ l ++ acc /\
            StronglySorted (fun a b => key a <= key b)
              (fold_left (fun acc x => insert_by key x acc) l acc)).
  { induction l as [|x l IH]; intros acc Hacc; cbn [fold_left].
    - split; [reflexivity|assumption].
    - destruct (IH (insert_by key x acc) (insert_by_sorted key x acc Hacc)) as (Hp & Hs).
      split; [|assumption]. rewrite Hp, insert_by_perm. cbn [app].
      symmetry. apply Permutation_middle. }
  destruct (H [] ltac:(constructor)) as (Hp & Hs). rewrite app_nil_r in Hp. auto.
Qed.

(** *** [max] and the sets *)

Lemma py_max_spec x l :
  exists m, py_max (x :: l) = Ok m /\ m ∈ x :: l /\ forall y, y ∈ x :: l -> y <= m.
Proof.
  unfold py_max. eexists. split; [reflexivity|]. revert x.
  induction l as [|z l IH]; intros x; cbn [fold_left].
  - split; [left|]. intros y Hy. apply list_elem_of_singleton in Hy. lia.
  - destruct (IH (Z.max x z)) as (Hin & Hmax). split.
    + apply elem_of_cons in Hin as [Hin|Hin]; [|right; now right].
      rewrite Hin. destruct (Z.max_spec x z) as [(_ & ->)|(_ & ->)]; [right; left|left].
    + intros y Hy. apply elem_of_cons in Hy as [->|Hy].
      * pose proof (Hmax (Z.max x z) ltac:(left)). lia.
      * apply elem_of_cons in Hy as [->|Hy].
        -- pose proof (Hmax (Z.max x z) ltac:(left)). lia.
        -- apply Hmax. now right.
Qed.

Section TopoSets.

Variable s : Store.
Hypothesis Hdistinct : forall n1 n2 N1 N2, n1 <> n2 ->
  nodes s !! n1 = Some N1 -> nodes s !! n2 = Some N2 -> Node_eq N1 N2 = false.

Lemma set_update_spec : forall xs l,
  (forall x, x ∈ xs -> is_Some (nodes s !! x)) ->
  (forall y, y ∈ l -> is_Some (nodes s !! y)) ->
  exists l', set_update s xs l = Ok l' /\ forall x, x ∈ l' <-> x ∈ l \/ x ∈ xs.
Proof.
  induction xs as [|x xs IH]; intros l Hxs Hl; cbn [set_update].
  - exists l. split; [reflexivity|]. intros x. rewrite elem_of_nil. tauto.
  - rewrite (set_add_spec s Hdistinct) by (auto; apply Hxs; left). cbn [bind].
    destruct (IH (if bool_decide (x ∈ l) then l else l ++ [x])) as (l' & Hrun & Hl').
    + intros y Hy. apply Hxs. now right.
    + intros y Hy. case_bool_decide; [auto|].
      apply elem_of_app in Hy as [Hy|Hy]; [auto|].
      apply list_elem_of_singleton in Hy. subst y. apply Hxs. left.
    + exists l'. split; [assumption|]. intros y. rewrite Hl', elem_of_cons.
      case_bool_decide as Hin.
      * split; [tauto|]. intros [?|[->|?]]; auto.
      * rewrite elem_of_app, list_elem_of_singleton. tauto.
Qed.

End TopoSets.

Lemma omap_cons_Some {A B} (f : A -> option B) x y l :
  f x = Some y -> omap f (x :: l) = y :: omap f l.
Proof. intros H. simpl. now rewrite H. Qed.

Lemma omap_cons_None {A B} (f : A -> option B) x l :
  f x = None -> omap f (x :: l) = omap f l.
Proof. intros H. simpl. now rewrite H. Qed.

(** *** What the sorter reads *)

Section TopoStatic.

Variables (s0 : Store).
Hypothesis Hwf0 : wf_graph s0.

Variable s : Store.
Hypothesis Hst : static_view s = static_view s0.

Lemma static_edges : edges s = edges s0.
Proof. unfold static_view in Hst. congruence. Qed.

Lemma static_nodes : static <$> nodes s = static <$> nodes s0.
Proof. unfold static_view in Hst. congruence. Qed.

Lemma static_lookup n N :
  nodes s !! n = Some N ->
  exists N0, nodes s0 !! n = Some N0 /\ position N0 = position N /\ span N0 = span N /\
             incoming N0 = incoming N /\ outgoing N0 = outgoing N /\
             terminal N0 = terminal N.
Proof.
  intros HN. destruct (fmap_lookup_eq static (nodes s0) (nodes s) n N static_nodes HN)
    as (N0 & HN0 & Heq).
  exists N0. split; [assumption|].
  pose proof (f_equal position Heq) as Hp. pose proof (f_equal span Heq) as Hs.
  pose proof (f_equal incoming Heq) as Hi. pose proof (f_equal outgoing Heq) as Ho.
  pose proof (f_equal terminal Heq) as Ht. cbn in Hp, Hs, Hi, Ho, Ht. auto.
Qed.

Lemma static_lookup_back n N0 :
  nodes s0 !! n = Some N0 ->
  exists N, nodes s !! n = Some N /\ position N0 = position N /\ span N0 = span N /\
            incoming N0 = incoming N /\ outgoing N0 = outgoing N /\
            terminal N0 = terminal N.
Proof.
  intros HN0.
  destruct (fmap_lookup_eq static (nodes s) (nodes s0) n N0 (eq_sym static_nodes) HN0)
    as (N & HN & Heq).
  exists N. split; [assumption|].
  pose proof (f_equal position Heq) as Hp. pose proof (f_equal span Heq) as Hs.
  pose proof (f_equal incoming Heq) as Hi. pose proof (f_equal outgoing Heq) as Ho.
  pose proof (f_equal terminal Heq) as Ht. cbn in Hp, Hs, Hi, Ho, Ht. auto.
Qed.

Lemma static_valid n : is_Some (nodes s !! n) <-> is_Some (nodes s0 !! n).
Proof.
  split; intros (N & HN).
  - destruct (static_lookup n N HN) as (N0 & HN0 & _). eauto.
  - destruct (static_lookup_back n N HN) as (N' & HN' & _). eauto.
Qed.

Lemma static_distinct n1 n2 N1 N2 :
  n1 <> n2 -> nodes s !! n1 = Some N1 -> nodes s !! n2 = Some N2 -> Node_eq N1 N2 = false.
Proof.
  intros Hne H1 H2.
  destruct (static_lookup n1 N1 H1) as (M1 & HM1 & Hp1 & Hs1 & _).
  destruct (static_lookup n2 N2 H2) as (M2 & HM2 & Hp2 & Hs2 & _).
  pose proof (wf_nodes_distinct s0 Hwf0 n1 n2 M1 M2 Hne HM1 HM2) as Hd.
  unfold Node_eq in *. now rewrite <- Hp1, <- Hp2, <- Hs1, <- Hs2.
Qed.

Lemma static_head_rel n h : head_rel s n h <-> head_rel s0 n h.
Proof.
  unfold head_rel. split.
  - intros (N & e & E & HN & He & HE & Hh).
    destruct (static_lookup n N HN) as (N0 & HN0 & _ & _ & Hi & _).
    exists N0, e, E. rewrite Hi, <- static_edges. auto.
  - intros (N0 & e & E & HN0 & He & HE & Hh).
    destruct (static_lookup_back n N0 HN0) as (N & HN & _ & _ & Hi & _).
    exists N, e, E. rewrite <- Hi, static_edges. auto.
Qed.

(** An incoming edge has a head, which is a node. *)
Lemma static_incoming_head n N e :
  nodes s !! n = Some N -> e ∈ incoming N ->
  exists E h H, edges s !! e = Some E /\ _head E = Some h /\ nodes s !! h = Some H /\
                edge_head s e = Some h /\ head_rel s0 n h.
Proof.
  intros HN He. destruct (static_lookup n N HN) as (N0 & HN0 & _ & _ & Hi & _).
  rewrite <- Hi in He.
  destruct (wf_incoming_head s0 Hwf0 n N0 e HN0 He) as (E & h & HE & _ & Hh & Hv).
  apply static_valid in Hv as (H & HH).
  exists E, h, H. rewrite static_edges. split; [assumption|]. split; [assumption|].
  split; [assumption|]. split.
  - unfold edge_head. rewrite static_edges, HE. exact Hh.
  - exists N0, e, E. auto.
Qed.

Lemma head_rel_edge n N h :
  nodes s !! n = Some N -> head_rel s0 n h ->
  exists e, e ∈ incoming N /\ edge_head s e = Some h.
Proof.
  intros HN (N0 & e & E & HN0 & He & HE & Hh).
  destruct (static_lookup n N HN) as (N0' & HN0' & _ & _ & Hi & _).
  assert (N0' = N0) as -> by congruence.
  exists e. split; [congruence|]. unfold edge_head. now rewrite static_edges, HE.
Qed.

Lemma unvisited_heads_spec n N :
  nodes s !! n = Some N ->
  (forall g, g ∈ heads_visited N -> is_Some (nodes s !! g)) ->
  forall es, (forall e, e ∈ es -> e ∈ incoming N) ->
  unvisited_heads s (heads_visited N) es = Ok (next_heads s N es).
Proof.
  intros HN Hhv. induction es as [|e es IH]; intros Hes; cbn [unvisited_heads].
  - reflexivity.
  - destruct (static_incoming_head n N e HN) as (E & h & H & HE & Hh & HH & Heh & _);
      [apply Hes; left|].
    rewrite (get_edge_Some _ _ _ HE). cbn [bind]. rewrite Hh. cbn [of_option bind].
    rewrite (get_node_Some _ _ _ HH). cbn [bind].
    rewrite IH by (intros e0 He0; apply Hes; now right).
    assert (Hfresh : fresh_head s N e =
              match level H with
              | Some _ => false
              | None => negb (bool_decide (h ∈ heads_visited N))
              end).
    { unfold fresh_head, node_level. rewrite Heh, HH. reflexivity. }
    unfold next_heads. rewrite filter_cons.
    destruct (level H) as [l|].
    + cbn [bind]. rewrite decide_False by (rewrite Hfresh; discriminate). reflexivity.
    + rewrite (set_contains_spec s static_distinct) by eauto. cbn [bind].
      case_bool_decide as Hin; cbn [negb] in *.
      * rewrite decide_False by (rewrite Hfresh; discriminate). reflexivity.
      * rewrite decide_True by assumption. now rewrite (omap_cons_Some _ _ _ _ Heh).
Qed.

Lemma head_levels_spec n N :
  nodes s !! n = Some N ->
  forall es, (forall e, e ∈ es -> e ∈ incoming N) ->
  head_levels s es = Ok (levels_of_heads s es).
Proof.
  intros HN. induction es as [|e es IH]; intros Hes; cbn [head_levels].
  - reflexivity.
  - destruct (static_incoming_head n N e HN) as (E & h & H & HE & Hh & HH & Heh & _);
      [apply Hes; left|].
    rewrite (get_edge_Some _ _ _ HE). cbn [bind]. rewrite Hh. cbn [of_option bind].
    rewrite (get_node_Some _ _ _ HH). cbn [bind].
    rewrite IH by (intros e0 He0; apply Hes; now right). cbn [bind].
    unfold levels_of_heads. rewrite fmap_cons. do 2 f_equal.
    rewrite Heh. cbn [mbind option_bind]. unfold node_level. now rewrite HH.
Qed.

End TopoStatic.

(** *** The dictionary of the levels *)

Section LevelsAdd.

Variable s : Store.
Hypothesis Hdistinct : forall n1 n2 N1 N2, n1 <> n2 ->
  nodes s !! n1 = Some N1 -> nodes s !! n2 = Some N2 -> Node_eq N1 N2 = false.

Lemma levels_add_spec l n :
  is_Some (nodes s !! n) ->
  forall levels,
  (forall l' x, in_level levels l' x -> is_Some (nodes s !! x) /\ x <> n) ->
  NoDup levels.*1 -> (forall l' ns, (l', ns) ∈ levels -> NoDup ns) ->
  exists levels',
    levels_add s l n levels = Ok levels' /\ NoDup levels'.*1 /\
    (forall l' ns, (l', ns) ∈ levels' -> NoDup ns) /\
    (forall k, k ∈ levels'.*1 <-> k ∈ levels.*1 \/ k = l) /\
    (forall l' x, in_level levels' l' x <-> in_level levels l' x \/ (l' = l /\ x = n)).
Proof.
  intros Hn. induction levels as [|[k ns] r IH]; intros Hmem Hkeys Hsets;
    cbn [levels_add].
  - eexists. split; [reflexivity|]. split; [apply NoDup_singleton|]. split; [|split].
    + intros l' ns Hin. apply list_elem_of_singleton in Hin. injection Hin as -> ->.
      apply NoDup_singleton.
    + intros k. cbn. rewrite list_elem_of_singleton, elem_of_nil. tauto.
    + intros l' x. unfold in_level. split.
      * intros (ns & Hin & Hx). apply list_elem_of_singleton in Hin. injection Hin as -> ->.
        apply list_elem_of_singleton in Hx. auto.
      * intros [(ns & Hin & _)|(-> & ->)]; [now apply elem_of_nil in Hin|].
        exists [n]. split; apply list_elem_of_singleton; reflexivity.
  - cbn [fmap list_fmap fst] in Hkeys. apply NoDup_cons in Hkeys as (Hk & Hkeys).
    case_bool_decide as Hkl.
    + subst k.
      assert (Hns : forall y, y ∈ ns -> is_Some (nodes s !! y) /\ y <> n).
      { intros y Hy. apply (Hmem l y). exists ns. split; [left|assumption]. }
      rewrite (set_add_spec s Hdistinct) by (auto; intros y Hy; now apply Hns).
      rewrite bool_decide_eq_false_2 by (intros Hin; now destruct (Hns n Hin)).
      cbn [bind]. eexists. split; [reflexivity|]. split; [|split; [|split]].
      * cbn. apply NoDup_cons. auto.
      * intros l' ns' Hin. apply elem_of_cons in Hin as [Hin|Hin].
        -- injection Hin as -> ->. apply NoDup_snoc; [apply (Hsets l ns); left|].
           intros Hin. now destruct (Hns n Hin).
        -- apply (Hsets l' ns'). now right.
      * intros k. cbn. rewrite !elem_of_cons. tauto.
      * intros l' x. unfold in_level. split.
        -- intros (ns' & Hin & Hx). apply elem_of_cons in Hin as [Hin|Hin].
           ++ injection Hin as -> ->. apply elem_of_app in Hx as [Hx|Hx].
              ** left. exists ns. split; [left|assumption].
              ** apply list_elem_of_singleton in Hx. auto.
           ++ left. exists ns'. split; [now right|assumption].
        -- intros [(ns' & Hin & Hx)|(-> & ->)].
           ++ apply elem_of_cons in Hin as [Hin|Hin].
              ** injection Hin as -> ->. exists (ns ++ [n]). split; [left|].
                 apply elem_of_app. now left.
              ** exists ns'. split; [now right|assumption].
           ++ exists (ns ++ [n]). split; [left|]. apply elem_of_app. right.
              now apply list_elem_of_singleton.
    + destruct IH as (r' & Hrun & Hkeys' & Hsets' & Hk' & Hin').
      * intros l' x (ns' & Hin & Hx). apply (Hmem l' x). exists ns'. split; [now right|assumption].
      * assumption.
      * intros l' ns' Hin. apply (Hsets l' ns'). now right.
      * rewrite Hrun. cbn [bind]. eexists. split; [reflexivity|]. split; [|split; [|split]].
        -- cbn. apply NoDup_cons. split; [|assumption].
           intros Hin. apply Hk' in Hin as [Hin|Hin]; [contradiction|congruence].
        -- intros l' ns' Hin. apply elem_of_cons in Hin as [Hin|Hin].
           ++ injection Hin as -> ->. apply (Hsets k ns). left.
           ++ now apply (Hsets' l' ns').
        -- intros k0. cbn. rewrite !elem_of_cons, Hk'. tauto.
        -- intros l' x. unfold in_level in *. split.
           ++ intros (ns' & Hin & Hx). apply elem_of_cons in Hin as [Hin|Hin].
              ** injection Hin as -> ->. left. exists ns. split; [left|assumption].
              ** destruct (proj1 (Hin' l' x)) as [(ns0 & Hin0 & Hx0)|Hnew]; [eauto| |auto].
                 left. exists ns0. split; [now right|assumption].
           ++ intros [(ns' & Hin & Hx)|Hnew].
              ** apply elem_of_cons in Hin as [Hin|Hin].
                 --- injection Hin as -> ->. exists ns. split; [left|assumption].
                 --- destruct (proj2 (Hin' l' x)) as (ns0 & Hin0 & Hx0); [left; eauto|].
                     exists ns0. split; [now right|assumption].
              ** destruct (proj2 (Hin' l' x)) as (ns0 & Hin0 & Hx0); [now right|].
                 exists ns0. split; [now right|assumption].
Qed.

End LevelsAdd.

(** *** Writing a level or a set of visited heads *)

Lemma lookup_put_node s n N N' m M :
  nodes s !! n = Some N -> nodes (put_node s n N') !! m = Some M ->
  (m = n /\ M = N') \/ (m <> n /\ nodes s !! m = Some M).
Proof.
  intros HN HM. cbn [put_node nodes] in HM.
  apply list_lookup_insert_Some in HM as [(-> & <- & _)|(Hne & HM)]; auto.
Qed.

Lemma static_put_node s n N N' :
  nodes s !! n = Some N -> static N' = static N ->
  static_view (put_node s n N') = static_view s.
Proof.
  intros HN Hs. unfold static_view. cbn [put_node nodes edges]. f_equal.
  eapply fmap_insert_same; eauto.
Qed.

Lemma node_level_put_level s n N l x :
  nodes s !! n = Some N ->
  node_level (put_node s n (with_level (Some l) N)) x =
  if decide (x = n) then Some l else node_level s x.
Proof.
  intros HN. unfold node_level. cbn [put_node nodes]. destruct (decide (x = n)) as [->|Hne].
  - now rewrite (lookup_put_same _ _ _ _ HN).
  - now rewrite list_lookup_insert_ne by congruence.
Qed.

Lemma node_level_put_visited s n N hv x :
  nodes s !! n = Some N ->
  node_level (put_node s n (with_heads_visited hv N)) x = node_level s x.
Proof.
  intros HN. unfold node_level. cbn [put_node nodes]. destruct (decide (x = n)) as [->|Hne].
  - now rewrite (lookup_put_same _ _ _ _ HN), HN.
  - now rewrite list_lookup_insert_ne by congruence.
Qed.

Lemma node_level_Some s x l :
  node_level s x = Some l <-> exists X, nodes s !! x = Some X /\ level X = Some l.
Proof.
  unfold node_level. destruct (nodes s !! x) as [X|]; cbn.
  - split; [eauto|]. intros (X' & [= <-] & Hl). assumption.
  - split; [discriminate|]. intros (X' & HX & _). discriminate.
Qed.

Lemma level_ok_mono s s' x X X' l :
  (forall h lh, node_level s h = Some lh -> node_level s' h = Some lh) ->
  (forall h, head_rel s' x h <-> head_rel s x h) ->
  incoming X' = incoming X ->
  level_ok s x X l -> level_ok s' x X' l.
Proof.
  intros Hlvl Hrel Hinc. unfold level_ok. rewrite Hinc.
  destruct (incoming X); [auto|]. intros (Hall & h & lh & Hh & Hlh & Hl). split.
  - intros h' Hh'. apply Hrel in Hh'. destruct (Hall h' Hh') as (lh' & Hlh' & Hle). eauto.
  - exists h, lh. split; [now apply Hrel|]. auto.
Qed.

Lemma unconsumed_put_node s n N N' :
  nodes s !! n = Some N ->
  (sum_list (unconsumed (put_node s n N') <$> nodes (put_node s n N')) + unconsumed s N =
   sum_list (unconsumed s <$> nodes s) + unconsumed s N')%nat.
Proof.
  intros HN. change (unconsumed (put_node s n N')) with (unconsumed s).
  cbn [put_node nodes]. now apply sum_list_insert.
Qed.

Section TopoSteps.

Variables (s0 : Store) (nodes0 : list node_id).
Hypothesis Hwf0 : wf_graph s0.
Hypothesis Hacyc : forall x, ~ tc (head_rel s0) x x.

Lemma pending_pop n rest m g :
  (exists pre post, n :: rest = pre ++ m :: post /\ g ∈ pre /\
                    forall x, x ∈ pre -> tc (head_rel s0) m x) ->
  g <> n ->
  exists pre post, rest = pre ++ m :: post /\ g ∈ pre /\
                   forall x, x ∈ pre -> tc (head_rel s0) m x.
Proof.
  intros (pre & post & Heq & Hg & Hanc) Hne. destruct pre as [|y pre].
  - now apply elem_of_nil in Hg.
  - cbn [app] in Heq. injection Heq as <- ->. exists pre, post. split; [reflexivity|].
    split.
    + apply elem_of_cons in Hg as [Hg|Hg]; [contradiction|assumption].
    + intros x Hx. apply Hanc. now right.
Qed.

(** A head in [heads_visited] that has no level would sit above its
    dependent on the stack; for the node on top that is impossible. *)
Lemma pending_top n rest levels s N g :
  topo_inv s0 nodes0 (n :: rest) levels s ->
  nodes s !! n = Some N -> g ∈ heads_visited N -> is_Some (node_level s g).
Proof.
  intros Hinv HN Hg. destruct (node_level s g) as [l|] eqn:Hl; [eauto|]. exfalso.
  destruct (ti_pending _ _ _ _ _ Hinv n N g HN Hg Hl) as (pre & post & Heq & Hin & Hanc).
  destruct pre as [|y pre]; [now apply elem_of_nil in Hin|].
  cbn [app] in Heq. injection Heq as <- _. apply (Hacyc n). apply Hanc. left.
Qed.

Lemma inv_skip n N rest levels s lx :
  topo_inv s0 nodes0 (n :: rest) levels s ->
  nodes s !! n = Some N -> level N = Some lx ->
  topo_inv s0 nodes0 rest levels s.
Proof.
  intros Hinv HN Hl. split.
  - exact (ti_static _ _ _ _ _ Hinv).
  - intros x Hx. apply (ti_stack _ _ _ _ _ Hinv). now right.
  - exact (ti_visited _ _ _ _ _ Hinv).
  - intros m M g HM Hg Hnone. apply (pending_pop n).
    + exact (ti_pending _ _ _ _ _ Hinv m M g HM Hg Hnone).
    + intros ->. unfold node_level in Hnone. rewrite HN in Hnone. cbn in Hnone. congruence.
  - exact (ti_level _ _ _ _ _ Hinv).
  - exact (ti_keys _ _ _ _ _ Hinv).
  - exact (ti_sets _ _ _ _ _ Hinv).
  - exact (ti_levels _ _ _ _ _ Hinv).
  - intros x Hx Hleaf. destruct (ti_leaves _ _ _ _ _ Hinv x Hx Hleaf) as [Hin|Hsome]; [|auto].
    apply elem_of_cons in Hin as [->|Hin]; [|auto].
    right. unfold node_level. rewrite HN. cbn. eauto.
Qed.

Lemma inv_set_level n N rest levels s l :
  topo_inv s0 nodes0 (n :: rest) levels s ->
  nodes s !! n = Some N -> level N = None -> 0 <= l -> level_ok s n N l ->
  exists levels',
    levels_add (put_node s n (with_level (Some l) N)) l n levels = Ok levels' /\
    topo_inv s0 nodes0 rest levels' (put_node s n (with_level (Some l) N)) /\
    (topo_measure rest (put_node s n (with_level (Some l) N))
     < topo_measure (n :: rest) s)%nat.
Proof.
  intros Hinv HN Hnolevel Hl0 Hok.
  set (N' := with_level (Some l) N). set (s' := put_node s n N').
  pose proof (ti_static _ _ _ _ _ Hinv) as Hst.
  assert (Hst' : static_view s' = static_view s0).
  { rewrite <- Hst. now apply (static_put_node s n N N'). }
  assert (Hlvl : forall x, node_level s' x = if decide (x = n) then Some l else node_level s x).
  { intros x. now apply node_level_put_level. }
  assert (Hnone : node_level s n = None).
  { unfold node_level. now rewrite HN. }
  assert (Hkeep : forall h lh, node_level s h = Some lh -> node_level s' h = Some lh).
  { intros h lh Hh. rewrite Hlvl. destruct (decide (h = n)) as [->|_]; [congruence|assumption]. }
  assert (Hrel : forall x h, head_rel s' x h <-> head_rel s x h).
  { intros x h. now rewrite (static_head_rel s0 s' Hst'), (static_head_rel s0 s Hst). }
  assert (HN' : nodes s' !! n = Some N').
  { subst s'. cbn [put_node nodes]. eapply lookup_put_same; eauto. }
  destruct (levels_add_spec s' (static_distinct s0 Hwf0 s' Hst') l n (ex_intro _ N' HN') levels)
    as (levels' & Hrun & Hkeys' & Hsets' & _ & Hin').
  { intros l' x (ns & Hin & Hx).
    destruct (ti_sets _ _ _ _ _ Hinv l' ns Hin) as (_ & Hmem). specialize (Hmem x Hx).
    split; [|intros ->; congruence].
    apply node_level_Some in Hmem as (X & HX & _).
    apply (static_valid s0 s' Hst'). apply (static_valid s0 s Hst). eauto. }
  { exact (ti_keys _ _ _ _ _ Hinv). }
  { intros l' ns Hin. now destruct (ti_sets _ _ _ _ _ Hinv l' ns Hin). }
  exists levels'. split; [exact Hrun|]. split; [split|].
  - exact Hst'.
  - intros x Hx. apply (ti_stack _ _ _ _ _ Hinv). now right.
  - intros m M g HM Hg. destruct (lookup_put_node s n N N' m M HN HM) as [(-> & ->)|(Hne & HM')].
    + exact (ti_visited _ _ _ _ _ Hinv n N g HN Hg).
    + exact (ti_visited _ _ _ _ _ Hinv m M g HM' Hg).
  - intros m M g HM Hg Hgnone. rewrite Hlvl in Hgnone.
    destruct (decide (g = n)) as [->|Hgn]; [discriminate|].
    apply (pending_pop n); [|assumption].
    destruct (lookup_put_node s n N N' m M HN HM) as [(-> & ->)|(Hne & HM')].
    + exact (ti_pending _ _ _ _ _ Hinv n N g HN Hg Hgnone).
    + exact (ti_pending _ _ _ _ _ Hinv m M g HM' Hg Hgnone).
  - intros x X lx HX HlX.
    destruct (lookup_put_node s n N N' x X HN HX) as [(-> & ->)|(Hne & HX')].
    + cbn in HlX. injection HlX as <-. split; [assumption|]. split.
      * apply (level_ok_mono s s' n N N' l Hkeep (Hrel n) eq_refl Hok).
      * apply (ti_stack _ _ _ _ _ Hinv). left.
    + destruct (ti_level _ _ _ _ _ Hinv x X lx HX' HlX) as (H0 & Hokx & Hreach).
      split; [assumption|]. split; [|assumption].
      apply (level_ok_mono s s' x X X lx Hkeep (Hrel x) eq_refl Hokx).
  - exact Hkeys'.
  - intros l' ns Hin. split; [exact (Hsets' l' ns Hin)|]. intros x Hx.
    destruct (proj1 (Hin' l' x)) as [(ns0 & Hin0 & Hx0)|(-> & ->)]; [exists ns; auto| |].
    + apply Hkeep. destruct (ti_sets _ _ _ _ _ Hinv l' ns0 Hin0) as (_ & Hmem). auto.
    + rewrite Hlvl. now rewrite decide_True.
  - intros x lx Hx. apply Hin'. rewrite Hlvl in Hx.
    destruct (decide (x = n)) as [->|Hne]; [right; split; congruence|].
    left. exact (ti_levels _ _ _ _ _ Hinv x lx Hx).
  - intros x Hx Hleaf. destruct (ti_leaves _ _ _ _ _ Hinv x Hx Hleaf) as [Hin|Hsome].
    + apply elem_of_cons in Hin as [->|Hin]; [|auto]. right. rewrite Hlvl.
      rewrite decide_True by reflexivity. eauto.
    + right. destruct Hsome as (lx & Hlx). rewrite (Hkeep x lx Hlx). eauto.
  - unfold topo_measure. pose proof (unconsumed_put_node s n N N' HN) as Hsum.
    change (unconsumed s N') with (unconsumed s N) in Hsum. fold s' in Hsum.
    cbn [length]. lia.
Qed.

End TopoSteps.

(** *** Pushing the heads, and the level of a node whose heads are done *)

Lemma elem_of_rev {A} (x : A) (l : list A) : x ∈ rev l <-> x ∈ l.
Proof. rewrite !list_elem_of_In. symmetry. apply in_rev. Qed.

Lemma next_heads_elem s N es h :
  h ∈ next_heads s N es <->
  exists e, e ∈ es /\ fresh_head s N e = true /\ edge_head s e = Some h.
Proof.
  unfold next_heads. rewrite list_elem_of_omap. split.
  - intros (e & He & Hh). apply list_elem_of_filter in He as (Hf & He). eauto.
  - intros (e & He & Hf & Hh). exists e. split; [|assumption].
    apply list_elem_of_filter. auto.
Qed.

Lemma fresh_head_true s N e :
  fresh_head s N e = true ->
  exists h, edge_head s e = Some h /\ node_level s h = None /\ h ∉ heads_visited N.
Proof.
  unfold fresh_head. destruct (edge_head s e) as [h|]; [|discriminate].
  destruct (node_level s h) eqn:Hl; [discriminate|]. intros Hf. exists h.
  split; [reflexivity|]. split; [assumption|].
  apply negb_true_iff, bool_decide_eq_false in Hf. assumption.
Qed.

(** Every head that is pushed uses up an edge of the node. *)
Lemma push_consumes s N N' :
  incoming N' = incoming N ->
  (forall x, x ∈ heads_visited N' <-> x ∈ heads_visited N \/ x ∈ next_heads s N (incoming N)) ->
  forall es, (forall e, e ∈ es -> e ∈ incoming N) ->
  (length (filter (fun e => consumed s N' e = false) es) + length (next_heads s N es)
   <= length (filter (fun e => consumed s N e = false) es))%nat.
Proof.
  intros Hinc Hhv. induction es as [|e es IH]; intros Hes; [cbn; lia|].
  assert (IH' := IH (fun e0 He0 => Hes e0 (list_elem_of_further _ _ _ He0))).
  unfold next_heads in *. rewrite !filter_cons.
  destruct (fresh_head s N e) eqn:Hf.
  - destruct (fresh_head_true s N e Hf) as (h & Hh & _ & Hnot).
    rewrite (decide_True (P := true = true)) by reflexivity.
    rewrite (omap_cons_Some _ _ _ _ Hh).
    assert (Hc : consumed s N e = false).
    { unfold consumed. rewrite Hh. now apply bool_decide_eq_false. }
    assert (Hc' : consumed s N' e = true).
    { unfold consumed. rewrite Hh. apply bool_decide_eq_true. apply Hhv. right.
      apply next_heads_elem. exists e. split; [apply Hes; left|]. auto. }
    rewrite (decide_True (P := consumed s N e = false)) by assumption.
    rewrite (decide_False (P := consumed s N' e = false)) by congruence.
    cbn [length]. lia.
  - rewrite (decide_False (P := false = true)) by discriminate.
    destruct (consumed s N' e) eqn:Hc'.
    + rewrite (decide_False (P := true = false)) by discriminate.
      destruct (decide (consumed s N e = false)); cbn [length]; lia.
    + rewrite (decide_True (P := false = false)) by reflexivity.
      assert (Hc : consumed s N e = false).
      { unfold consumed in *. destruct (edge_head s e) as [h|]; [|reflexivity].
        apply bool_decide_eq_false. apply bool_decide_eq_false in Hc'.
        intros Hin. apply Hc'. apply Hhv. now left. }
      rewrite (decide_True (P := consumed s N e = false)) by assumption.
      cbn [length]. lia.
Qed.

Section TopoPush.

Variables (s0 : Store) (nodes0 : list node_id).
Hypothesis Hwf0 : wf_graph s0.
Hypothesis Hacyc : forall x, ~ tc (head_rel s0) x x.

Lemma head_rel_valid n h : head_rel s0 n h -> is_Some (nodes s0 !! h).
Proof.
  intros (N & e & E & HN & He & HE & Hh).
  destruct (wf_incoming_head s0 Hwf0 n N e HN He) as (E' & h' & HE' & _ & Hh' & Hv).
  congruence.
Qed.

Lemma reached_valid n : reached s0 nodes0 n -> is_Some (nodes s0 !! n).
Proof.
  intros (l & _ & (L & HL & _) & Hrtc). apply rtc_inv_r in Hrtc as [<-|(m & _ & Hm)].
  - eauto.
  - eapply head_rel_valid; eauto.
Qed.

Lemma reached_head n h : reached s0 nodes0 n -> head_rel s0 n h -> reached s0 nodes0 h.
Proof.
  intros (l & Hl & Hleaf & Hrtc) Hh. exists l. split; [assumption|]. split; [assumption|].
  eapply rtc_r; eauto.
Qed.

Lemma inv_push n N rest levels s hv :
  topo_inv s0 nodes0 (n :: rest) levels s ->
  nodes s !! n = Some N -> level N = None ->
  next_heads s N (incoming N) <> [] ->
  (forall x, x ∈ hv <-> x ∈ heads_visited N \/ x ∈ next_heads s N (incoming N)) ->
  topo_inv s0 nodes0 (rev (next_heads s N (incoming N)) ++ n :: rest) levels
    (put_node s n (with_heads_visited hv N)) /\
  (topo_measure (rev (next_heads s N (incoming N)) ++ n :: rest)
     (put_node s n (with_heads_visited hv N))
   < topo_measure (n :: rest) s)%nat.
Proof.
  intros Hinv HN Hnolevel Hne Hhv.
  set (heads := next_heads s N (incoming N)) in *.
  set (N' := with_heads_visited hv N). set (s' := put_node s n N').
  pose proof (ti_static _ _ _ _ _ Hinv) as Hst.
  assert (Hst' : static_view s' = static_view s0).
  { rewrite <- Hst. now apply (static_put_node s n N N'). }
  assert (Hlvl : forall x, node_level s' x = node_level s x).
  { intros x. now apply node_level_put_visited. }
  assert (Hrel : forall x h, head_rel s' x h <-> head_rel s x h).
  { intros x h. now rewrite (static_head_rel s0 s' Hst'), (static_head_rel s0 s Hst). }
  assert (Hheads : forall h, h ∈ heads -> head_rel s0 n h /\ node_level s h = None).
  { intros h Hh. apply next_heads_elem in Hh as (e & He & Hf & Hh).
    destruct (fresh_head_true s N e Hf) as (h' & Hh' & Hnone & _).
    assert (h' = h) as -> by congruence. split; [|assumption].
    destruct (static_incoming_head s0 Hwf0 s Hst n N e HN He) as (E & h2 & H2 & _ & _ & _ & Heh & Hr).
    congruence. }
  assert (Hreach_n : reached s0 nodes0 n).
  { apply (ti_stack _ _ _ _ _ Hinv). left. }
  split; [split|].
  - exact Hst'.
  - intros x Hx. apply elem_of_app in Hx as [Hx|Hx].
    + rewrite elem_of_rev in Hx. apply (reached_head n); [assumption|]. now apply Hheads.
    + now apply (ti_stack _ _ _ _ _ Hinv).
  - intros m M g HM Hg. destruct (lookup_put_node s n N N' m M HN HM) as [(-> & ->)|(Hnm & HM')].
    + cbn in Hg. apply Hhv in Hg as [Hg|Hg].
      * exact (ti_visited _ _ _ _ _ Hinv n N g HN Hg).
      * now apply Hheads.
    + exact (ti_visited _ _ _ _ _ Hinv m M g HM' Hg).
  - intros m M g HM Hg Hgnone. rewrite Hlvl in Hgnone.
    destruct (lookup_put_node s n N N' m M HN HM) as [(-> & ->)|(Hnm & HM')].
    + cbn in Hg. apply Hhv in Hg as [Hg|Hg].
      * destruct (pending_top s0 nodes0 Hacyc n rest levels s N g Hinv HN Hg) as (l & Hl).
        congruence.
      * exists (rev heads), rest. split; [reflexivity|]. split; [now rewrite elem_of_rev|].
        intros x Hx. rewrite elem_of_rev in Hx. apply tc_once. now apply Hheads.
    + destruct (ti_pending _ _ _ _ _ Hinv m M g HM' Hg Hgnone) as (pre & post & Heq & Hin & Hanc).
      exists (rev heads ++ pre), post. split; [rewrite Heq; now rewrite app_assoc|].
      split; [apply elem_of_app; now right|].
      intros x Hx. apply elem_of_app in Hx as [Hx|Hx]; [|auto].
      rewrite elem_of_rev in Hx. destruct pre as [|y pre]; [now apply elem_of_nil in Hin|].
      cbn [app] in Heq. injection Heq as <- _.
      eapply tc_r; [apply Hanc; left|]. now apply Hheads.
  - intros x X lx HX HlX.
    destruct (lookup_put_node s n N N' x X HN HX) as [(-> & ->)|(Hnx & HX')].
    + cbn in HlX. congruence.
    + destruct (ti_level _ _ _ _ _ Hinv x X lx HX' HlX) as (H0 & Hokx & Hreach).
      split; [assumption|]. split; [|assumption].
      apply (level_ok_mono s s' x X X lx); auto.
      intros h lh. now rewrite Hlvl.
  - exact (ti_keys _ _ _ _ _ Hinv).
  - intros l ns Hin. destruct (ti_sets _ _ _ _ _ Hinv l ns Hin) as (Hnd & Hmem).
    split; [assumption|]. intros x Hx. rewrite Hlvl. auto.
  - intros x lx Hx. rewrite Hlvl in Hx. exact (ti_levels _ _ _ _ _ Hinv x lx Hx).
  - intros x Hx Hleaf. destruct (ti_leaves _ _ _ _ _ Hinv x Hx Hleaf) as [Hin|Hsome].
    + left. apply elem_of_app. now right.
    + right. now rewrite Hlvl.
  - unfold topo_measure. pose proof (unconsumed_put_node s n N N' HN) as Hsum.
    fold s' in Hsum.
    pose proof (push_consumes s N N' eq_refl Hhv (incoming N) (fun e He => He)) as Hpush.
    fold heads in Hpush.
    change (length (filter (fun e => consumed s N' e = false) (incoming N)))
      with (unconsumed s N') in Hpush.
    change (length (filter (fun e => consumed s N e = false) (incoming N)))
      with (unconsumed s N) in Hpush.
    assert (Hpos : (0 < length heads)%nat).
    { destruct heads; [congruence|cbn; lia]. }
    rewrite length_app, length_rev. cbn [length]. lia.
Qed.

(** With no head left to push, every head of the node on top has its
    level, and the node gets one more than the greatest of them. *)
Lemma heads_all_leveled n N rest levels s :
  topo_inv s0 nodes0 (n :: rest) levels s ->
  nodes s !! n = Some N -> next_heads s N (incoming N) = [] ->
  forall h, head_rel s0 n h -> exists lh, node_level s h = Some lh /\ 0 <= lh.
Proof.
  intros Hinv HN Hnil h Hh.
  pose proof (ti_static _ _ _ _ _ Hinv) as Hst.
  destruct (head_rel_edge s0 s Hst n N h HN Hh) as (e & He & Heh).
  assert (Hsome : is_Some (node_level s h)).
  { destruct (fresh_head s N e) eqn:Hf.
    - assert (Hin : h ∈ next_heads s N (incoming N)).
      { apply next_heads_elem. eauto. }
      rewrite Hnil in Hin. now apply elem_of_nil in Hin.
    - unfold fresh_head in Hf. rewrite Heh in Hf.
      destruct (node_level s h) as [lh|] eqn:Hl; [eauto|].
      apply negb_false_iff, bool_decide_eq_true in Hf.
      rewrite <- Hl. exact (pending_top s0 nodes0 Hacyc n rest levels s N h Hinv HN Hf). }
  destruct Hsome as (lh & Hlh). exists lh. split; [assumption|].
  apply node_level_Some in Hlh as (H & HH & HlH).
  now destruct (ti_level _ _ _ _ _ Hinv h H lh HH HlH).
Qed.

Lemma max_level_ok n N rest levels s m :
  topo_inv s0 nodes0 (n :: rest) levels s ->
  nodes s !! n = Some N -> incoming N <> [] ->
  next_heads s N (incoming N) = [] ->
  m ∈ levels_of_heads s (incoming N) ->
  (forall y, y ∈ levels_of_heads s (incoming N) -> y <= m) ->
  0 <= 1 + m /\ level_ok s n N (1 + m).
Proof.
  intros Hinv HN Hinc Hnil Hm Hmax.
  pose proof (ti_static _ _ _ _ _ Hinv) as Hst.
  pose proof (heads_all_leveled n N rest levels s Hinv HN Hnil) as Hall.
  unfold levels_of_heads in Hm, Hmax.
  apply list_elem_of_fmap in Hm as (e & Hm & He).
  destruct (static_incoming_head s0 Hwf0 s Hst n N e HN He)
    as (E & h & H & _ & _ & _ & Heh & Hr).
  destruct (Hall h Hr) as (lh & Hlh & Hlh0).
  rewrite Heh in Hm. cbn in Hm. rewrite Hlh in Hm. cbn in Hm. subst m.
  split; [lia|]. unfold level_ok. destruct (incoming N) as [|e0 es] eqn:Hi; [congruence|].
  split.
  - intros h' Hh'. apply (static_head_rel s0 s Hst) in Hh'.
    destruct (Hall h' Hh') as (l' & Hl' & _). exists l'. split; [assumption|].
    destruct (head_rel_edge s0 s Hst n N h' HN Hh') as (e' & He' & Heh').
    rewrite Hi in He'.
    assert (Hle : l' <= lh).
    { apply Hmax. apply list_elem_of_fmap. exists e'. split; [|assumption].
      rewrite Heh'. cbn. rewrite Hl'. reflexivity. }
    lia.
  - exists h, lh. split; [now apply (static_head_rel s0 s Hst)|]. auto.
Qed.

End TopoPush.

(** *** The loop *)

Lemma sum_list_fmap_le {A} (f g : A -> nat) (l : list A) :
  (forall x, x ∈ l -> (f x <= g x)%nat) ->
  (sum_list (f <$> l) <= sum_list (g <$> l))%nat.
Proof.
  induction l as [|a l IH]; intros H; [cbn; lia|].
  rewrite !fmap_cons. cbn [sum_list foldr].
  pose proof (H a ltac:(left)). pose proof (IH (fun x Hx => H x (list_elem_of_further _ _ _ Hx))).
  change (id (f a)) with (f a). change (id (g a)) with (g a). lia.
Qed.

Lemma leaves_spec s ns :
  (forall n, n ∈ ns -> is_Some (nodes s !! n)) ->
  exists ls, leaves s ns = Ok ls /\ (forall x, x ∈ ls <-> x ∈ ns /\ is_leaf s x) /\
             (length ls <= length ns)%nat.
Proof.
  induction ns as [|n ns IH]; intros Hv; cbn [leaves].
  - exists []. split; [reflexivity|]. split; [|cbn; lia]. intros x. rewrite elem_of_nil. tauto.
  - destruct (Hv n ltac:(left)) as (N & HN). rewrite (get_node_Some _ _ _ HN). cbn [bind].
    destruct (IH (fun x Hx => Hv x (list_elem_of_further _ _ _ Hx))) as (ls & -> & Hls & Hlen).
    cbn [bind]. eexists. split; [reflexivity|].
    destruct (outgoing N) as [|o os] eqn:Ho.
    + split; [|cbn [length]; lia]. intros x. rewrite !elem_of_cons, Hls. split.
      * intros [->|(Hx & Hl)]; [|auto]. split; [now left|]. exists N. auto.
      * intros ([->|Hx] & Hl); auto.
    + split; [|cbn [length]; lia]. intros x. rewrite elem_of_cons, Hls. split.
      * intros (Hx & Hl). auto.
      * intros ([->|Hx] & Hl); [|auto]. destruct Hl as (N' & HN' & Ho'). congruence.
Qed.

Lemma topo_measure_fresh s stack :
  (topo_measure stack s <= length stack + 2 * edge_count s)%nat.
Proof.
  unfold topo_measure, edge_count.
  pose proof (sum_list_fmap_le (unconsumed s) (fun N => length (incoming N)) (nodes s)) as H.
  assert (sum_list (unconsumed s <$> nodes s)
          <= sum_list ((fun N => length (incoming N)) <$> nodes s))%nat; [|lia].
  apply H. intros N _. unfold unconsumed. apply length_filter.
Qed.

Section TopoLoop.

Variables (s0 : Store) (nodes0 : list node_id).
Hypothesis Hwf0 : wf_graph s0.
Hypothesis Hacyc : forall x, ~ tc (head_rel s0) x x.

Lemma topo_loop_spec : forall fuel stack levels s,
  topo_inv s0 nodes0 stack levels s ->
  (topo_measure stack s < fuel)%nat ->
  exists levels' s', topo_loop fuel stack levels s = Ok (levels', s') /\
                     topo_inv s0 nodes0 [] levels' s'.
Proof.
  induction fuel as [|fuel IH]; intros stack levels s Hinv Hfuel; [lia|].
  cbn [topo_loop]. destruct stack as [|n rest]; [eauto|].
  pose proof (ti_static _ _ _ _ _ Hinv) as Hst.
  assert (Hn : is_Some (nodes s !! n)).
  { apply (static_valid s0 s Hst). apply (reached_valid s0 nodes0 Hwf0).
    apply (ti_stack _ _ _ _ _ Hinv). left. }
  destruct Hn as (N & HN). rewrite (get_node_Some _ _ _ HN). cbn [bind].
  destruct (level N) as [lx|] eqn:Hl.
  - apply IH; [eapply inv_skip; eauto|]. unfold topo_measure in *. cbn [length] in Hfuel. lia.
  - destruct (incoming N) as [|e es] eqn:Hi.
    + destruct (inv_set_level s0 nodes0 Hwf0 n N rest levels s 0 Hinv HN Hl ltac:(lia))
        as (levels' & Hrun & Hinv' & Hlt).
      { unfold level_ok. now rewrite Hi. }
      rewrite Hrun. cbn [bind]. apply IH; [assumption|lia].
    + rewrite <- Hi.
      assert (Hhv : forall g, g ∈ heads_visited N -> is_Some (nodes s !! g)).
      { intros g Hg. apply (static_valid s0 s Hst).
        apply (head_rel_valid s0 Hwf0 n). exact (ti_visited _ _ _ _ _ Hinv n N g HN Hg). }
      rewrite (unvisited_heads_spec s0 Hwf0 s Hst n N HN Hhv (incoming N) (fun e0 He0 => He0)).
      cbn [bind]. destruct (next_heads s N (incoming N)) as [|h hs] eqn:Hnh.
      * rewrite (head_levels_spec s0 Hwf0 s Hst n N HN (incoming N) (fun e0 He0 => He0)).
        cbn [bind]. destruct (levels_of_heads s (incoming N)) as [|x l] eqn:Hlh.
        { unfold levels_of_heads in Hlh. rewrite Hi in Hlh. discriminate. }
        destruct (py_max_spec x l) as (m & -> & Hm & Hmax). cbn [bind].
        rewrite <- Hlh in Hm, Hmax.
        destruct (max_level_ok s0 nodes0 Hwf0 Hacyc n N rest levels s m Hinv HN
                    ltac:(congruence) Hnh Hm Hmax) as (Hm0 & Hok).
        destruct (inv_set_level s0 nodes0 Hwf0 n N rest levels s (1 + m) Hinv HN Hl Hm0 Hok)
          as (levels' & Hrun & Hinv' & Hlt).
        rewrite Hrun. cbn [bind]. apply IH; [assumption|lia].
      * rewrite <- Hnh.
        destruct (set_update_spec s (static_distinct s0 Hwf0 s Hst)
                    (next_heads s N (incoming N)) (heads_visited N)) as (hv & -> & Hhv').
        { intros g Hg. apply next_heads_elem in Hg as (e0 & He0 & _ & Hg).
          destruct (static_incoming_head s0 Hwf0 s Hst n N e0 HN He0)
            as (E & h2 & H2 & _ & _ & HH2 & Heh & _).
          assert (h2 = g) as <- by congruence. eauto. }
        { exact Hhv. }
        cbn [bind].
        destruct (inv_push s0 nodes0 Hwf0 Hacyc n N rest levels s hv Hinv HN Hl
                    ltac:(congruence) Hhv') as (Hinv' & Hlt).
        apply IH; [assumption|lia].
Qed.

Lemma topo_inv_init ls :
  fresh_nodes s0 ->
  (forall x, x ∈ ls <-> x ∈ nodes0 /\ is_leaf s0 x) ->
  topo_inv s0 nodes0 (rev ls) [] s0.
Proof.
  intros Hfresh Hls. split.
  - reflexivity.
  - intros x Hx. rewrite elem_of_rev in Hx. apply Hls in Hx as (Hx & Hleaf).
    exists x. split; [assumption|]. split; [assumption|]. apply rtc_refl.
  - intros m M g HM Hg. destruct (Hfresh m M HM) as (_ & Hhv). rewrite Hhv in Hg.
    now apply elem_of_nil in Hg.
  - intros m M g HM Hg. destruct (Hfresh m M HM) as (_ & Hhv). rewrite Hhv in Hg.
    now apply elem_of_nil in Hg.
  - intros n N l HN Hl. destruct (Hfresh n N HN) as (Hnone & _). congruence.
  - apply NoDup_nil_2.
  - intros l ns Hin. now apply elem_of_nil in Hin.
  - intros n l Hl. apply node_level_Some in Hl as (N & HN & Hl).
    destruct (Hfresh n N HN) as (Hnone & _). congruence.
  - intros x Hx Hleaf. left. rewrite elem_of_rev. apply Hls. auto.
Qed.

(** When the loop ends, the nodes with a level are those that the search
    reaches from the leaves. *)
Lemma topo_final_levels levels s :
  topo_inv s0 nodes0 [] levels s ->
  forall n, reached s0 nodes0 n <-> is_Some (node_level s n).
Proof.
  intros Hinv n. pose proof (ti_static _ _ _ _ _ Hinv) as Hst. split.
  - intros (l & Hl & Hleaf & Hrtc).
    assert (Hstart : is_Some (node_level s l)).
    { destruct (ti_leaves _ _ _ _ _ Hinv l Hl Hleaf) as [Hin|Hs]; [|assumption].
      now apply elem_of_nil in Hin. }
    clear Hl Hleaf. induction Hrtc as [x|x y z Hxy _ IH]; [assumption|]. apply IH.
    destruct Hstart as (lx & Hlx). apply node_level_Some in Hlx as (X & HX & HlX).
    destruct (ti_level _ _ _ _ _ Hinv x X lx HX HlX) as (_ & Hok & _).
    apply (static_head_rel s0 s Hst) in Hxy. unfold level_ok in Hok.
    destruct (incoming X) as [|e es] eqn:Hi.
    + destruct Hxy as (X' & e & E & HX' & He & _). assert (X' = X) as -> by congruence.
      rewrite Hi in He. now apply elem_of_nil in He.
    + destruct Hok as (Hall & _). destruct (Hall y Hxy) as (ly & Hly & _). eauto.
  - intros (l & Hl). apply node_level_Some in Hl as (N & HN & Hl).
    now destruct (ti_level _ _ _ _ _ Hinv n N l HN Hl).
Qed.

End TopoLoop.

(** *** The result *)

Lemma StronglySorted_app_intro {A} (R : A -> A -> Prop) (l1 l2 : list A) :
  StronglySorted R l1 -> StronglySorted R l2 ->
  (forall a b, a ∈ l1 -> b ∈ l2 -> R a b) ->
  StronglySorted R (l1 ++ l2).
Proof.
  intros H1 H2 H12. induction H1 as [|a l1 Hs IH Hall]; [assumption|].
  cbn [app]. constructor.
  - apply IH. intros x y Hx Hy. apply H12; [now right|assumption].
  - apply Forall_app. split; [assumption|]. apply Forall_forall. intros b Hb.
    apply H12; [left|assumption].
Qed.

Lemma StronglySorted_map_in {A B} (R : A -> A -> Prop) (R' : B -> B -> Prop)
    (f : A -> B) (l : list A) :
  StronglySorted R l ->
  (forall a b, a ∈ l -> b ∈ l -> R a b -> R' (f a) (f b)) ->
  StronglySorted R' (map f l).
Proof.
  induction 1 as [|a l Hs IH Hall]; intros HR; cbn [map]; constructor.
  - apply IH. intros x y Hx Hy. apply HR; now right.
  - apply Forall_forall. intros b Hb. apply list_elem_of_In, in_map_iff in Hb as (x & <- & Hx).
    apply list_elem_of_In in Hx. apply HR; [left|now right|].
    rewrite Forall_forall in Hall. auto.
Qed.

Lemma StronglySorted_lookup_lt {A} (R : A -> A -> Prop) (l : list A) i j a b :
  StronglySorted R l -> (i < j)%nat -> l !! i = Some a -> l !! j = Some b -> R a b.
Proof.
  intros Hs. revert i j. induction Hs as [|x l Hs IH Hall]; intros i j Hij Hi Hj;
    [discriminate|].
  destruct j as [|j]; [lia|]. cbn in Hj. destruct i as [|i].
  - cbn in Hi. injection Hi as ->. rewrite Forall_forall in Hall. apply Hall.
    eapply list_elem_of_lookup_2; eauto.
  - cbn in Hi. apply (IH i j); [lia|assumption|assumption].
Qed.

Lemma sorted_keys_strict {A} (l : list (Z * A)) :
  StronglySorted (fun a b => fst a <= fst b) l -> NoDup l.*1 ->
  StronglySorted (fun a b => fst a < fst b) l.
Proof.
  induction 1 as [|a l Hs IH Hall]; intros Hnd; constructor.
  - apply IH. rewrite fmap_cons in Hnd. now apply NoDup_cons in Hnd.
  - rewrite fmap_cons in Hnd. apply NoDup_cons in Hnd as (Hnot & _).
    rewrite Forall_forall in Hall |- *. intros b Hb. specialize (Hall b Hb).
    assert (fst a <> fst b); [|lia].
    intros Heq. apply Hnot. rewrite Heq. now apply list_elem_of_fmap_2.
Qed.

Lemma terminal_keys_spec s ns :
  (forall n, n ∈ ns -> exists N t, nodes s !! n = Some N /\ terminal N = Some t) ->
  exists ks, terminal_keys s ns = Ok ks /\ map snd ks = ns /\
             forall k n, (k, n) ∈ ks ->
               exists N, nodes s !! n = Some N /\ terminal N = Some k.
Proof.
  induction ns as [|n ns IH]; intros Hv; cbn [terminal_keys].
  - exists []. split; [reflexivity|]. split; [reflexivity|]. intros k n H.
    now apply elem_of_nil in H.
  - destruct (Hv n ltac:(left)) as (N & t & HN & Ht).
    rewrite (get_node_Some _ _ _ HN). cbn [bind]. rewrite Ht. cbn [of_option bind].
    destruct (IH (fun x Hx => Hv x (list_elem_of_further _ _ _ Hx))) as (ks & -> & Hks & Hmem).
    cbn [bind]. eexists. split; [reflexivity|]. split; [cbn [map snd]; now rewrite Hks|].
    intros k x Hin. apply elem_of_cons in Hin as [[= -> ->]|Hin]; eauto.
Qed.

Lemma level_output_spec s :
  (forall n l, node_level s n = Some l -> 0 < l ->
     exists N t, nodes s !! n = Some N /\ terminal N = Some t) ->
  forall sl,
  (forall l ns, (l, ns) ∈ sl -> NoDup ns /\ forall n, n ∈ ns -> node_level s n = Some l) ->
  StronglySorted (fun a b => fst a < fst b) sl ->
  exists out, level_output s sl = Ok out /\
    (forall x, x ∈ out <-> exists l, 0 < l /\ in_level sl l x) /\
    NoDup out /\ StronglySorted (out_le s) out.
Proof.
  intros Hterm. induction sl as [|[l ns] r IH]; intros Hsets Hsorted; cbn [level_output].
  - exists []. split; [reflexivity|]. split; [|split; [apply NoDup_nil_2|constructor]].
    intros x. split; [intros H; now apply elem_of_nil in H|].
    intros (l & _ & ns & Hin & _). now apply elem_of_nil in Hin.
  - apply StronglySorted_inv in Hsorted as (Hsr & Hall). rewrite Forall_forall in Hall.
    destruct (IH (fun l' ns' Hin => Hsets l' ns' (list_elem_of_further _ _ _ Hin)) Hsr)
      as (rest & Hrest & Hmem & Hnd & Hso).
    destruct (Hsets l ns ltac:(left)) as (Hndns & Hlns).
    assert (Hr_level : forall x, x ∈ rest ->
              exists l', l < l' /\ 0 < l' /\ node_level s x = Some l').
    { intros x Hx. apply Hmem in Hx as (l' & Hl' & ns' & Hin & Hx). exists l'.
      split; [exact (Hall (l', ns') Hin)|]. split; [assumption|].
      destruct (Hsets l' ns' (list_elem_of_further _ _ _ Hin)) as (_ & Hm). auto. }
    case_bool_decide as Hpos.
    + destruct (terminal_keys_spec s ns) as (ks & -> & Hks & Hkmem).
      { intros n Hn. apply (Hterm n l); auto. }
      cbn [bind]. rewrite Hrest. cbn [bind]. eexists. split; [reflexivity|].
      destruct (sorted_by_spec fst ks) as (Hperm & Hsk).
      assert (Hhere : map snd (sorted_by fst ks) ≡ₚ ns).
      { rewrite <- Hks. now apply Permutation_map. }
      split; [|split].
      * intros x. rewrite elem_of_app, Hhere, Hmem. split.
        -- intros [Hx|(l' & Hl' & ns' & Hin & Hx)].
           ++ exists l. split; [assumption|]. exists ns. split; [left|assumption].
           ++ exists l'. split; [assumption|]. exists ns'. split; [now right|assumption].
        -- intros (l' & Hl' & ns' & Hin & Hx). apply elem_of_cons in Hin as [[= -> ->]|Hin].
           ++ now left.
           ++ right. exists l'. split; [assumption|]. exists ns'. auto.
      * apply NoDup_app. split; [now rewrite Hhere|]. split; [|assumption].
        intros x Hx Hx'. rewrite Hhere in Hx. apply Hlns in Hx.
        destruct (Hr_level x Hx') as (l' & Hlt & _ & Hl'). rewrite Hx in Hl'.
        injection Hl' as <-. lia.
      * apply StronglySorted_app_intro; [|assumption|].
        -- apply (StronglySorted_map_in _ _ _ _ Hsk). intros [ka a] [kb b] Ha Hb Hle.
           cbn [fst snd] in *. rewrite Hperm in Ha, Hb.
           destruct (Hkmem ka a Ha) as (A & HA & HtA).
           destruct (Hkmem kb b Hb) as (B & HB & HtB).
           assert (Hla : node_level s a = Some l).
           { apply Hlns. rewrite <- Hks. apply list_elem_of_In, in_map_iff.
             exists (ka, a). split; [reflexivity|]. now apply list_elem_of_In. }
           assert (Hlb : node_level s b = Some l).
           { apply Hlns. rewrite <- Hks. apply list_elem_of_In, in_map_iff.
             exists (kb, b). split; [reflexivity|]. now apply list_elem_of_In. }
           unfold node_level in Hla, Hlb. rewrite HA in Hla. rewrite HB in Hlb.
           exists A, B, l, l, ka, kb. repeat (split; [assumption|]). right. auto.
        -- intros a b Ha Hb. rewrite Hhere in Ha. pose proof (Hlns a Ha) as Hla.
           destruct (Hr_level b Hb) as (lb & Hlt & Hlb0 & Hlb).
           destruct (Hterm a l Hla Hpos) as (A & ta & HA & HtA).
           destruct (Hterm b lb Hlb Hlb0) as (B & tb & HB & HtB).
           unfold node_level in Hla, Hlb. rewrite HA in Hla. rewrite HB in Hlb.
           exists A, B, l, lb, ta, tb. repeat (split; [assumption|]). left. assumption.
    + cbn [bind]. rewrite Hrest. cbn [bind app]. exists rest. split; [reflexivity|].
      split; [|auto]. intros x. rewrite Hmem. split.
      * intros (l' & Hl' & ns' & Hin & Hx). exists l'. split; [assumption|].
        exists ns'. split; [now right|assumption].
      * intros (l' & Hl' & ns' & Hin & Hx). apply elem_of_cons in Hin as [[= -> ->]|Hin].
        -- contradiction.
        -- exists l'. split; [assumption|]. exists ns'. auto.
Qed.

(** *** [_topological_sort] on a graph without cycles *)

Lemma in_level_perm levels levels' l x :
  levels ≡ₚ levels' -> in_level levels l x <-> in_level levels' l x.
Proof.
  intros Hp. unfold in_level. split; intros (ns & Hin & Hx); exists ns; split; try assumption.
  - now rewrite <- Hp.
  - now rewrite Hp.
Qed.

Lemma level_positive s0 nodes0 levels s n N l :
  wf_graph s0 -> topo_inv s0 nodes0 [] levels s ->
  nodes s !! n = Some N -> level N = Some l ->
  (0 < l <-> incoming N <> []).
Proof.
  intros Hwf0 Hinv HN Hl. pose proof (ti_static _ _ _ _ _ Hinv) as Hst.
  destruct (ti_level _ _ _ _ _ Hinv n N l HN Hl) as (H0 & Hok & _).
  unfold level_ok in Hok. destruct (incoming N) as [|e es] eqn:Hi.
  - split; [lia|congruence].
  - split; [discriminate|]. intros _. destruct Hok as (_ & h & lh & Hh & Hlh & ->).
    apply node_level_Some in Hlh as (H & HH & HlH).
    destruct (ti_level _ _ _ _ _ Hinv h H lh HH HlH) as (Hlh0 & _). lia.
Qed.

Lemma topological_sort_run s0 nodes0 fuel :
  wf_graph s0 -> (forall x, ~ tc (head_rel s0) x x) -> fresh_nodes s0 ->
  (forall n, n ∈ nodes0 -> is_Some (nodes s0 !! n)) ->
  (forall n N, nodes s0 !! n = Some N -> incoming N <> [] -> is_Some (terminal N)) ->
  (length nodes0 + 2 * edge_count s0 < fuel)%nat ->
  exists out levels s',
    _topological_sort fuel nodes0 s0 = Ok (out, s') /\
    topo_inv s0 nodes0 [] levels s' /\
    (forall x, x ∈ out <-> exists l, 0 < l /\ node_level s' x = Some l) /\
    NoDup out /\ StronglySorted (out_le s') out.
Proof.
  intros Hwf0 Hacyc Hfresh Hvalid Hterm Hfuel. unfold _topological_sort.
  destruct (leaves_spec s0 nodes0 Hvalid) as (ls & -> & Hls & Hlen). cbn [bind].
  pose proof (topo_inv_init s0 nodes0 ls Hfresh Hls) as Hinit.
  destruct (topo_loop_spec s0 nodes0 Hwf0 Hacyc fuel (rev ls) [] s0 Hinit)
    as (levels & s' & -> & Hinv).
  { pose proof (topo_measure_fresh s0 (rev ls)) as Hm. rewrite length_rev in Hm. lia. }
  cbn [bind]. pose proof (ti_static _ _ _ _ _ Hinv) as Hst.
  destruct (sorted_by_spec fst levels) as (Hperm & Hsorted).
  destruct (level_output_spec s') with (sl := sorted_by fst levels)
    as (out & -> & Hmem & Hnd & Hso).
  - intros n l Hl Hpos. apply node_level_Some in Hl as (N & HN & Hl).
    apply (level_positive s0 nodes0 levels s' n N l Hwf0 Hinv HN Hl) in Hpos.
    destruct (static_lookup s0 s' Hst n N HN) as (N0 & HN0 & _ & _ & Hi & _ & Ht).
    rewrite <- Hi in Hpos. destruct (Hterm n N0 HN0 Hpos) as (t & Ht0).
    exists N, t. split; [assumption|]. congruence.
  - intros l ns Hin. rewrite Hperm in Hin. exact (ti_sets _ _ _ _ _ Hinv l ns Hin).
  - apply sorted_keys_strict; [assumption|]. rewrite Hperm. exact (ti_keys _ _ _ _ _ Hinv).
  - cbn [bind]. exists out, levels, s'. split; [reflexivity|]. split; [assumption|].
    split; [|auto]. intros x. rewrite Hmem. split.
    + intros (l & Hl & Hin). exists l. split; [assumption|].
      apply (in_level_perm _ _ l x Hperm) in Hin as (ns & Hin & Hx).
      destruct (ti_sets _ _ _ _ _ Hinv l ns Hin) as (_ & Hm). auto.
    + intros (l & Hl & Hlx). exists l. split; [assumption|].
      apply (in_level_perm _ _ l x Hperm). exact (ti_levels _ _ _ _ _ Hinv x l Hlx).
Qed.

Lemma ex_chain_fresh : fresh_nodes ex_chain.
Proof.
  intros n N HN. destruct n as [|[|[|n]]]; cbn in HN; try discriminate;
    injection HN as <-; split; reflexivity.
Qed.

Lemma ex_chain_terminals n N :
  nodes ex_chain !! n = Some N -> incoming N <> [] -> is_Some (terminal N).
Proof.
  intros HN _. destruct n as [|[|[|n]]]; cbn in HN; try discriminate;
    injection HN as <-; eexists; reflexivity.
Qed.

(** On a well-formed graph without cycles whose nodes are as
    [Node.__init__] leaves them, [_topological_sort] returns.  It writes
    nothing but [level] and [heads_visited]: the edges, and the nodes with
    these two fields blanked, are as before.  A node gets a level exactly
    when it is a leaf of the given list or can be reached from one along
    the heads; and the level is 0 for a node without incoming edges, else
    one more than the greatest level of its heads. *)
Theorem topological_sort_levels s0 nodes0 fuel :
  wf_graph s0 -> (forall x, ~ tc (head_rel s0) x x) -> fresh_nodes s0 ->
  (forall n, n ∈ nodes0 -> is_Some (nodes s0 !! n)) ->
  (forall n N, nodes s0 !! n = Some N -> incoming N <> [] -> is_Some (terminal N)) ->
  (length nodes0 + 2 * edge_count s0 < fuel)%nat ->
  exists out s',
    _topological_sort fuel nodes0 s0 = Ok (out, s') /\
    static_view s' = static_view s0 /\
    (forall n, is_Some (node_level s' n) <-> reached s0 nodes0 n) /\
    (forall n N l, nodes s' !! n = Some N -> level N = Some l -> level_ok s' n N l).
Proof.
  intros Hwf0 Hacyc Hfresh Hvalid Hterm Hfuel.
  destruct (topological_sort_run s0 nodes0 fuel Hwf0 Hacyc Hfresh Hvalid Hterm Hfuel)
    as (out & levels & s' & Hrun & Hinv & _).
  exists out, s'. split; [assumption|]. split; [exact (ti_static _ _ _ _ _ Hinv)|]. split.
  - intros n. symmetry. exact (topo_final_levels s0 nodes0 levels s' Hinv n).
  - intros n N l HN Hl. now destruct (ti_level _ _ _ _ _ Hinv n N l HN Hl) as (_ & Hok & _).
Qed.

(** Instance: the chain root, "sleeps", "cat". *)
Lemma topological_sort_levels_witness :
  exists out s',
    _topological_sort 8 [0; 1; 2]%nat ex_chain = Ok (out, s') /\
    static_view s' = static_view ex_chain /\
    (forall n, is_Some (node_level s' n) <-> reached ex_chain [0; 1; 2]%nat n) /\
    (forall n N l, nodes s' !! n = Some N -> level N = Some l -> level_ok s' n N l).
Proof.
  apply (topological_sort_levels ex_chain [0; 1; 2]%nat 8 ex_chain_wf ex_chain_acyclic
           ex_chain_fresh ex_chain_nodes_valid ex_chain_terminals).
  vm_compute. lia.
Defined.

(** Under the same conditions the list that
    [_topological_sort] returns holds, once each, the nodes reached from
    the leaves that have an incoming edge (the nodes of level 0 are left
    out); it is ordered by level and, inside a level, by the position of
    the terminal; and a head in the list comes before each of its
    dependents. *)
Theorem topological_sort_output s0 nodes0 fuel :
  wf_graph s0 -> (forall x, ~ tc (head_rel s0) x x) -> fresh_nodes s0 ->
  (forall n, n ∈ nodes0 -> is_Some (nodes s0 !! n)) ->
  (forall n N, nodes s0 !! n = Some N -> incoming N <> [] -> is_Some (terminal N)) ->
  (length nodes0 + 2 * edge_count s0 < fuel)%nat ->
  exists out s',
    _topological_sort fuel nodes0 s0 = Ok (out, s') /\
    NoDup out /\
    (forall x, x ∈ out <->
       reached s0 nodes0 x /\ exists N, nodes s0 !! x = Some N /\ incoming N <> []) /\
    StronglySorted (out_le s') out /\
    (forall i j x h, out !! i = Some h -> out !! j = Some x -> head_rel s0 x h ->
       (i < j)%nat).
Proof.
  intros Hwf0 Hacyc Hfresh Hvalid Hterm Hfuel.
  destruct (topological_sort_run s0 nodes0 fuel Hwf0 Hacyc Hfresh Hvalid Hterm Hfuel)
    as (out & levels & s' & Hrun & Hinv & Hmem & Hnd & Hso).
  pose proof (ti_static _ _ _ _ _ Hinv) as Hst.
  exists out, s'. split; [assumption|]. split; [assumption|]. split; [|split; [assumption|]].
  - intros x. rewrite Hmem. split.
    + intros (l & Hl & Hlx). split.
      * apply (topo_final_levels s0 nodes0 levels s' Hinv). eauto.
      * apply node_level_Some in Hlx as (N & HN & HlN).
        apply (level_positive s0 nodes0 levels s' x N l Hwf0 Hinv HN HlN) in Hl.
        destruct (static_lookup s0 s' Hst x N HN) as (N0 & HN0 & _ & _ & Hi & _).
        exists N0. split; [assumption|]. congruence.
    + intros (Hreach & N0 & HN0 & Hi).
      apply (topo_final_levels s0 nodes0 levels s' Hinv) in Hreach as (l & Hl).
      exists l. split; [|assumption].
      apply node_level_Some in Hl as (N & HN & HlN).
      apply (level_positive s0 nodes0 levels s' x N l Hwf0 Hinv HN HlN).
      destruct (static_lookup s0 s' Hst x N HN) as (N0' & HN0' & _ & _ & Hi' & _).
      congruence.
  - intros i j x h Hi Hj Hrel.
    assert (Hlt : forall X H lx lh, nodes s' !! x = Some X -> nodes s' !! h = Some H ->
              level X = Some lx -> level H = Some lh -> lh < lx).
    { intros X H lx lh HX HH HlX HlH.
      destruct (ti_level _ _ _ _ _ Hinv x X lx HX HlX) as (_ & Hok & _).
      apply (static_head_rel s0 s' Hst) in Hrel. unfold level_ok in Hok.
      destruct (incoming X) as [|e es] eqn:HiX.
      - destruct Hrel as (X' & e & E & HX' & He & _). assert (X' = X) as -> by congruence.
        rewrite HiX in He. now apply elem_of_nil in He.
      - destruct Hok as (Hall & _). destruct (Hall h Hrel) as (lh' & Hlh' & Hle).
        unfold node_level in Hlh'. rewrite HH in Hlh'. cbn in Hlh'. 
        assert (lh' = lh) as -> by congruence. lia. }
    destruct (Nat.lt_trichotomy i j) as [Hij|[->|Hji]]; [assumption| |]; exfalso.
    + assert (x = h) as -> by congruence.
      destruct (proj1 (Hmem h) (list_elem_of_lookup_2 _ _ _ Hi)) as (l & _ & Hl).
      apply node_level_Some in Hl as (H & HH & HlH).
      pose proof (Hlt H H l l HH HH HlH HlH). lia.
    + destruct (StronglySorted_lookup_lt _ out j i x h Hso Hji Hj Hi)
        as (X & H & lx & lh & tx & th & HX & HH & HlX & HlH & _ & _ & Hle).
      pose proof (Hlt X H lx lh HX HH HlX HlH). lia.
Qed.

(** Instance: the chain root, "sleeps", "cat". *)
Lemma topological_sort_output_witness :
  exists out s',
    _topological_sort 8 [0; 1; 2]%nat ex_chain = Ok (out, s') /\
    NoDup out /\
    (forall x, x ∈ out <->
       reached ex_chain [0; 1; 2]%nat x /\
       exists N, nodes ex_chain !! x = Some N /\ incoming N <> []) /\
    StronglySorted (out_le s') out /\
    (forall i j x h, out !! i = Some h -> out !! j = Some x -> head_rel ex_chain x h ->
       (i < j)%nat).
Proof.
  apply (topological_sort_output ex_chain [0; 1; 2]%nat 8 ex_chain_wf ex_chain_acyclic
           ex_chain_fresh ex_chain_nodes_valid ex_chain_terminals).
  vm_compute. lia.
Defined.

(** *** [_topological_sort] on a graph that may have cycles *)

Section TopoWeak.

Variable s0 : Store.
Hypothesis Hwf0 : wf_graph s0.

Lemma weak_skip n N rest levels s lx :
  topo_weak s0 (n :: rest) levels s ->
  nodes s !! n = Some N -> level N = Some lx ->
  topo_weak s0 rest levels s.
Proof.
  intros Hinv HN Hl. split.
  - exact (tw_static _ _ _ _ Hinv).
  - intros x Hx. apply (tw_stack _ _ _ _ Hinv). now right.
  - exact (tw_visited _ _ _ _ Hinv).
  - exact (tw_keys _ _ _ _ Hinv).
  - exact (tw_sets _ _ _ _ Hinv).
  - exact (tw_levels _ _ _ _ Hinv).
Qed.

Lemma weak_set_level n N rest levels s l :
  topo_weak s0 (n :: rest) levels s ->
  nodes s !! n = Some N -> level N = None -> (0 < l -> incoming N <> []) ->
  exists levels',
    levels_add (put_node s n (with_level (Some l) N)) l n levels = Ok levels' /\
    topo_weak s0 rest levels' (put_node s n (with_level (Some l) N)) /\
    (topo_measure rest (put_node s n (with_level (Some l) N))
     < topo_measure (n :: rest) s)%nat.
Proof.
  intros Hinv HN Hnolevel Hpos.
  set (N' := with_level (Some l) N). set (s' := put_node s n N').
  pose proof (tw_static _ _ _ _ Hinv) as Hst.
  assert (Hst' : static_view s' = static_view s0).
  { rewrite <- Hst. now apply (static_put_node s n N N'). }
  assert (Hlvl : forall x, node_level s' x = if decide (x = n) then Some l else node_level s x).
  { intros x. now apply node_level_put_level. }
  assert (Hnone : node_level s n = None).
  { unfold node_level. now rewrite HN. }
  assert (Hkeep : forall h lh, node_level s h = Some lh -> node_level s' h = Some lh).
  { intros h lh Hh. rewrite Hlvl. destruct (decide (h = n)) as [->|_]; [congruence|assumption]. }
  assert (HN' : nodes s' !! n = Some N').
  { subst s'. cbn [put_node nodes]. eapply lookup_put_same; eauto. }
  assert (Hinc : forall x X, nodes s !! x = Some X -> incoming X <> [] ->
            exists X', nodes s' !! x = Some X' /\ incoming X' <> []).
  { intros x X HX Hi. destruct (decide (x = n)) as [->|Hne].
    - exists N'. split; [assumption|]. assert (X = N) as -> by congruence. exact Hi.
    - exists X. split; [|assumption]. subst s'. cbn [put_node nodes].
      now rewrite list_lookup_insert_ne by congruence. }
  destruct (levels_add_spec s' (static_distinct s0 Hwf0 s' Hst') l n (ex_intro _ N' HN') levels)
    as (levels' & Hrun & Hkeys' & Hsets' & _ & Hin').
  { intros l' x (ns & Hin & Hx).
    destruct (tw_sets _ _ _ _ Hinv l' ns Hin) as (_ & Hmem).
    destruct (Hmem x Hx) as (Hlx & _).
    split; [|intros ->; congruence].
    apply node_level_Some in Hlx as (X & HX & _).
    apply (static_valid s0 s' Hst'). apply (static_valid s0 s Hst). eauto. }
  { exact (tw_keys _ _ _ _ Hinv). }
  { intros l' ns Hin. now destruct (tw_sets _ _ _ _ Hinv l' ns Hin). }
  exists levels'. split; [exact Hrun|]. split; [split|].
  - exact Hst'.
  - intros x Hx. apply (tw_stack _ _ _ _ Hinv). now right.
  - intros m M g HM Hg. destruct (lookup_put_node s n N N' m M HN HM) as [(-> & ->)|(Hne & HM')].
    + exact (tw_visited _ _ _ _ Hinv n N g HN Hg).
    + exact (tw_visited _ _ _ _ Hinv m M g HM' Hg).
  - exact Hkeys'.
  - intros l' ns Hin. split; [exact (Hsets' l' ns Hin)|]. intros x Hx.
    destruct (proj1 (Hin' l' x)) as [(ns0 & Hin0 & Hx0)|(-> & ->)]; [exists ns; auto| |].
    + destruct (tw_sets _ _ _ _ Hinv l' ns0 Hin0) as (_ & Hmem).
      destruct (Hmem x Hx0) as (Hlx & Hix). split; [now apply Hkeep|].
      intros Hl'. destruct (Hix Hl') as (X & HX & Hi). eauto.
    + split; [rewrite Hlvl; now rewrite decide_True|].
      intros Hl. exists N'. split; [assumption|]. exact (Hpos Hl).
  - intros x lx Hx. apply Hin'. rewrite Hlvl in Hx.
    destruct (decide (x = n)) as [->|Hne]; [right; split; congruence|].
    left. exact (tw_levels _ _ _ _ Hinv x lx Hx).
  - unfold topo_measure. pose proof (unconsumed_put_node s n N N' HN) as Hsum.
    change (unconsumed s N') with (unconsumed s N) in Hsum. fold s' in Hsum.
    cbn [length]. lia.
Qed.

Lemma weak_push n N rest levels s hv :
  topo_weak s0 (n :: rest) levels s ->
  nodes s !! n = Some N -> level N = None ->
  next_heads s N (incoming N) <> [] ->
  (forall x, x ∈ hv <-> x ∈ heads_visited N \/ x ∈ next_heads s N (incoming N)) ->
  topo_weak s0 (rev (next_heads s N (incoming N)) ++ n :: rest) levels
    (put_node s n (with_heads_visited hv N)) /\
  (topo_measure (rev (next_heads s N (incoming N)) ++ n :: rest)
     (put_node s n (with_heads_visited hv N))
   < topo_measure (n :: rest) s)%nat.
Proof.
  intros Hinv HN Hnolevel Hne Hhv.
  set (heads := next_heads s N (incoming N)) in *.
  set (N' := with_heads_visited hv N). set (s' := put_node s n N').
  pose proof (tw_static _ _ _ _ Hinv) as Hst.
  assert (Hst' : static_view s' = static_view s0).
  { rewrite <- Hst. now apply (static_put_node s n N N'). }
  assert (Hlvl : forall x, node_level s' x = node_level s x).
  { intros x. now apply node_level_put_visited. }
  assert (Hheads : forall h, h ∈ heads -> is_Some (nodes s0 !! h)).
  { intros h Hh. apply next_heads_elem in Hh as (e & He & _ & Hh).
    destruct (static_incoming_head s0 Hwf0 s Hst n N e HN He)
      as (E & h2 & H2 & _ & _ & HH2 & Heh & _).
    assert (h2 = h) as -> by congruence. apply (static_valid s0 s Hst). eauto. }
  split; [split|].
  - exact Hst'.
  - intros x Hx. apply elem_of_app in Hx as [Hx|Hx].
    + rewrite elem_of_rev in Hx. auto.
    + now apply (tw_stack _ _ _ _ Hinv).
  - intros m M g HM Hg. destruct (lookup_put_node s n N N' m M HN HM) as [(-> & ->)|(Hnm & HM')].
    + cbn in Hg. apply Hhv in Hg as [Hg|Hg]; [|auto].
      exact (tw_visited _ _ _ _ Hinv n N g HN Hg).
    + exact (tw_visited _ _ _ _ Hinv m M g HM' Hg).
  - exact (tw_keys _ _ _ _ Hinv).
  - intros l ns Hin. destruct (tw_sets _ _ _ _ Hinv l ns Hin) as (Hnd & Hmem).
    split; [assumption|]. intros x Hx. destruct (Hmem x Hx) as (Hlx & Hix).
    split; [now rewrite Hlvl|]. intros Hl. destruct (Hix Hl) as (X & HX & Hi).
    destruct (decide (x = n)) as [->|Hxn].
    + exists N'. split; [subst s'; cbn [put_node nodes]; eapply lookup_put_same; eauto|].
      assert (X = N) as -> by congruence. exact Hi.
    + exists X. split; [|assumption]. subst s'. cbn [put_node nodes].
      now rewrite list_lookup_insert_ne by congruence.
  - intros x lx Hx. rewrite Hlvl in Hx. exact (tw_levels _ _ _ _ Hinv x lx Hx).
  - unfold topo_measure. pose proof (unconsumed_put_node s n N N' HN) as Hsum.
    fold s' in Hsum.
    pose proof (push_consumes s N N' eq_refl Hhv (incoming N) (fun e He => He)) as Hpush.
    fold heads in Hpush.
    change (length (filter (fun e => consumed s N' e = false) (incoming N)))
      with (unconsumed s N') in Hpush.
    change (length (filter (fun e => consumed s N e = false) (incoming N)))
      with (unconsumed s N) in Hpush.
    assert (Hpos : (0 < length heads)%nat).
    { destruct heads; [congruence|cbn; lia]. }
    rewrite length_app, length_rev. cbn [length]. lia.
Qed.

Lemma topo_loop_halts : forall fuel stack levels s,
  topo_weak s0 stack levels s ->
  (topo_measure stack s < fuel)%nat ->
  exists levels' s', topo_loop fuel stack levels s = Ok (levels', s') /\
                     topo_weak s0 [] levels' s'.
Proof.
  induction fuel as [|fuel IH]; intros stack levels s Hinv Hfuel; [lia|].
  cbn [topo_loop]. destruct stack as [|n rest]; [eauto|].
  pose proof (tw_static _ _ _ _ Hinv) as Hst.
  assert (Hn : is_Some (nodes s !! n)).
  { apply (static_valid s0 s Hst). apply (tw_stack _ _ _ _ Hinv). left. }
  destruct Hn as (N & HN). rewrite (get_node_Some _ _ _ HN). cbn [bind].
  destruct (level N) as [lx|] eqn:Hl.
  - apply IH; [eapply weak_skip; eauto|]. unfold topo_measure in *. cbn [length] in Hfuel. lia.
  - destruct (incoming N) as [|e es] eqn:Hi.
    + destruct (weak_set_level n N rest levels s 0 Hinv HN Hl ltac:(lia))
        as (levels' & Hrun & Hinv' & Hlt).
      rewrite Hrun. cbn [bind]. apply IH; [assumption|lia].
    + rewrite <- Hi.
      assert (Hhv : forall g, g ∈ heads_visited N -> is_Some (nodes s !! g)).
      { intros g Hg. apply (static_valid s0 s Hst).
        exact (tw_visited _ _ _ _ Hinv n N g HN Hg). }
      rewrite (unvisited_heads_spec s0 Hwf0 s Hst n N HN Hhv (incoming N) (fun e0 He0 => He0)).
      cbn [bind]. destruct (next_heads s N (incoming N)) as [|h hs] eqn:Hnh.
      * rewrite (head_levels_spec s0 Hwf0 s Hst n N HN (incoming N) (fun e0 He0 => He0)).
        cbn [bind]. destruct (levels_of_heads s (incoming N)) as [|x l] eqn:Hlh.
        { unfold levels_of_heads in Hlh. rewrite Hi in Hlh. discriminate. }
        destruct (py_max_spec x l) as (m & -> & _). cbn [bind].
        destruct (weak_set_level n N rest levels s (1 + m) Hinv HN Hl)
          as (levels' & Hrun & Hinv' & Hlt); [intros _; congruence|].
        rewrite Hrun. cbn [bind]. apply IH; [assumption|lia].
      * rewrite <- Hnh.
        destruct (set_update_spec s (static_distinct s0 Hwf0 s Hst)
                    (next_heads s N (incoming N)) (heads_visited N)) as (hv & -> & Hhv').
        { intros g Hg. apply next_heads_elem in Hg as (e0 & He0 & _ & Hg).
          destruct (static_incoming_head s0 Hwf0 s Hst n N e0 HN He0)
            as (E & h2 & H2 & _ & _ & HH2 & Heh & _).
          assert (h2 = g) as <- by congruence. eauto. }
        { exact Hhv. }
        cbn [bind].
        destruct (weak_push n N rest levels s hv Hinv HN Hl ltac:(congruence) Hhv')
          as (Hinv' & Hlt).
        apply IH; [assumption|lia].
Qed.

End TopoWeak.

Lemma ex_cycle_leaf_wf : wf_graph ex_cycle_leaf.
Proof. apply wf_graphb_sound. vm_compute. reflexivity. Qed.

Lemma ex_cycle_leaf_fresh : fresh_nodes ex_cycle_leaf.
Proof.
  intros n N HN. destruct n as [|[|[|n]]]; cbn in HN; try discriminate;
    injection HN as <-; split; reflexivity.
Qed.

Lemma ex_cycle_leaf_nodes_valid :
  forall n, n ∈ [0; 1; 2]%nat -> is_Some (nodes ex_cycle_leaf !! n).
Proof.
  intros n Hn. repeat (apply elem_of_cons in Hn as [->|Hn]; [eexists; reflexivity|]).
  now apply elem_of_nil in Hn.
Qed.

Lemma ex_cycle_leaf_terminals n N :
  nodes ex_cycle_leaf !! n = Some N -> incoming N <> [] -> is_Some (terminal N).
Proof.
  intros HN _. destruct n as [|[|[|n]]]; cbn in HN; try discriminate;
    injection HN as <-; eexists; reflexivity.
Qed.

(** [heads_visited] makes [_topological_sort] halt on every well-formed
    graph, with or without cycles: on fresh nodes, of which those with an
    incoming edge have a terminal, it returns without an exception.  It
    changes nothing but [level] and [heads_visited]: the edges, and the
    nodes with these two fields blanked, are as before.  The list it returns
    holds, once each, the nodes that got a level above 0, ordered by level
    and then by the position of the terminal. *)
Theorem topological_sort_halts_on_cycles s0 nodes0 fuel :
  wf_graph s0 -> fresh_nodes s0 ->
  (forall n, n ∈ nodes0 -> is_Some (nodes s0 !! n)) ->
  (forall n N, nodes s0 !! n = Some N -> incoming N <> [] -> is_Some (terminal N)) ->
  (length nodes0 + 2 * edge_count s0 < fuel)%nat ->
  exists out s',
    _topological_sort fuel nodes0 s0 = Ok (out, s') /\
    static_view s' = static_view s0 /\
    NoDup out /\
    (forall x, x ∈ out <-> exists l, 0 < l /\ node_level s' x = Some l) /\
    StronglySorted (out_le s') out.
Proof.
  intros Hwf0 Hfresh Hvalid Hterm Hfuel. unfold _topological_sort.
  destruct (leaves_spec s0 nodes0 Hvalid) as (ls & -> & Hls & Hlen). cbn [bind].
  assert (Hinit : topo_weak s0 (rev ls) [] s0).
  { split.
    - reflexivity.
    - intros x Hx. rewrite elem_of_rev in Hx. apply Hls in Hx as (Hx & _). auto.
    - intros m M g HM Hg. destruct (Hfresh m M HM) as (_ & Hhv). rewrite Hhv in Hg.
      now apply elem_of_nil in Hg.
    - apply NoDup_nil_2.
    - intros l ns Hin. now apply elem_of_nil in Hin.
    - intros n l Hl. apply node_level_Some in Hl as (N & HN & Hl).
      destruct (Hfresh n N HN) as (Hnone & _). congruence. }
  destruct (topo_loop_halts s0 Hwf0 fuel (rev ls) [] s0 Hinit) as (levels & s' & -> & Hinv).
  { pose proof (topo_measure_fresh s0 (rev ls)) as Hm. rewrite length_rev in Hm. lia. }
  cbn [bind]. pose proof (tw_static _ _ _ _ Hinv) as Hst.
  destruct (sorted_by_spec fst levels) as (Hperm & Hsorted).
  destruct (level_output_spec s') with (sl := sorted_by fst levels)
    as (out & -> & Hmem & Hnd & Hso).
  - intros n l Hl Hpos. destruct (tw_levels _ _ _ _ Hinv n l Hl) as (ns & Hin & Hn).
    destruct (tw_sets _ _ _ _ Hinv l ns Hin) as (_ & Hm).
    destruct (Hm n Hn) as (_ & Hi). destruct (Hi Hpos) as (N & HN & HiN).
    destruct (static_lookup s0 s' Hst n N HN) as (N0 & HN0 & _ & _ & Hi0 & _ & Ht).
    rewrite <- Hi0 in HiN. destruct (Hterm n N0 HN0 HiN) as (t & Ht0).
    exists N, t. split; [assumption|]. congruence.
  - intros l ns Hin. rewrite Hperm in Hin.
    destruct (tw_sets _ _ _ _ Hinv l ns Hin) as (Hndns & Hm). split; [assumption|].
    intros n Hn. now destruct (Hm n Hn).
  - apply sorted_keys_strict; [assumption|]. rewrite Hperm. exact (tw_keys _ _ _ _ Hinv).
  - cbn [bind]. exists out, s'. split; [reflexivity|]. split; [assumption|].
    split; [assumption|]. split; [|assumption]. intros x. rewrite Hmem. split.
    + intros (l & Hl & Hin). exists l. split; [assumption|].
      apply (in_level_perm _ _ l x Hperm) in Hin as (ns & Hin & Hx).
      destruct (tw_sets _ _ _ _ Hinv l ns Hin) as (_ & Hm). now destruct (Hm x Hx).
    + intros (l & Hl & Hlx). exists l. split; [assumption|].
      apply (in_level_perm _ _ l x Hperm). exact (tw_levels _ _ _ _ Hinv x l Hlx).
Qed.

(** Instance: a leaf under two tokens that are each other's head. *)
Lemma topological_sort_halts_on_cycles_witness :
  exists out s',
    _topological_sort 10 [0; 1; 2]%nat ex_cycle_leaf = Ok (out, s') /\
    static_view s' = static_view ex_cycle_leaf /\
    NoDup out /\
    (forall x, x ∈ out <-> exists l, 0 < l /\ node_level s' x = Some l) /\
    StronglySorted (out_le s') out.
Proof.
  apply (topological_sort_halts_on_cycles ex_cycle_leaf [0; 1; 2]%nat 10 ex_cycle_leaf_wf
           ex_cycle_leaf_fresh ex_cycle_leaf_nodes_valid ex_cycle_leaf_terminals).
  vm_compute. lia.
Defined.

(** ** The span of a multi-word token *)

Lemma py_index_nat {A} (l : list A) (i : Z) x :
  0 <= i -> l !! Z.to_nat i = Some x -> py_index l i = Ok x.
Proof.
  intros Hi Hx. unfold py_index. rewrite (bool_decide_eq_false_2 (i < 0)) by lia.
  pose proof (lookup_lt_Some _ _ _ Hx). rewrite bool_decide_eq_true_2 by lia.
  now rewrite Hx.
Qed.

Lemma py_index_beyond {A} (l : list A) (i : Z) :
  Z.of_nat (length l) <= i -> py_index l i = Raise IndexError.
Proof.
  intros Hi. unfold py_index. rewrite (bool_decide_eq_false_2 (i < 0)) by lia.
  now rewrite bool_decide_eq_false_2 by lia.
Qed.

Lemma with_parent_multi_word_twice m N :
  with_parent_multi_word m (with_parent_multi_word m N) = with_parent_multi_word m N.
Proof. reflexivity. Qed.

Lemma set_parent_multi_word_spec dep_nodes m : forall count start s,
  0 <= start -> start + Z.of_nat count <= Z.of_nat (length dep_nodes) ->
  (forall n, n ∈ dep_nodes -> is_Some (nodes s !! n)) ->
  exists s',
    set_parent_multi_word dep_nodes m start count s = Ok s' /\
    edges s' = edges s /\
    forall n, nodes s' !! n =
      if bool_decide (n ∈ take count (drop (Z.to_nat start) dep_nodes))
      then with_parent_multi_word (Some m) <$> nodes s !! n
      else nodes s !! n.
Proof.
  induction count as [|count IH]; intros start s Hstart Hlen Hvalid;
    cbn [set_parent_multi_word].
  - exists s. split; [reflexivity|]. split; [reflexivity|]. intros n.
    rewrite take_0. now rewrite bool_decide_eq_false_2 by apply not_elem_of_nil.
  - destruct (lookup_lt_is_Some_2 dep_nodes (Z.to_nat start)) as (n0 & Hn0); [lia|].
    rewrite (py_index_nat _ _ _ Hstart Hn0). cbn [bind].
    destruct (Hvalid n0) as (N0 & HN0); [eapply list_elem_of_lookup_2; eauto|].
    rewrite (get_node_Some _ _ _ HN0). cbn [bind].
    set (s1 := put_node s n0 (with_parent_multi_word (Some m) N0)).
    destruct (IH (start + 1) s1) as (s' & Hrun & Hedges & Hnodes); [lia|lia| |].
    { intros n Hn. subst s1. cbn [put_node nodes]. apply insert_is_Some. auto. }
    exists s'. split; [exact Hrun|]. split; [rewrite Hedges; reflexivity|].
    intros n. rewrite Hnodes.
    replace (Z.to_nat (start + 1)) with (S (Z.to_nat start)) by lia.
    rewrite (drop_S _ _ _ Hn0). cbn [take]. subst s1. cbn [put_node nodes].
    destruct (decide (n = n0)) as [->|Hne].
    + rewrite (lookup_put_same _ _ _ _ HN0), HN0.
      rewrite (bool_decide_eq_true_2 (n0 ∈ n0 :: _)) by left.
      case_bool_decide; reflexivity.
    + rewrite list_lookup_insert_ne by congruence.
      case_bool_decide as Hin.
      * rewrite bool_decide_eq_true_2 by (now right). reflexivity.
      * rewrite bool_decide_eq_false_2; [reflexivity|].
        intros Hc. apply elem_of_cons in Hc as [Hc|Hc]; auto.
Qed.

Lemma set_parent_multi_word_beyond dep_nodes m : forall count start s,
  0 <= start -> (0 < count)%nat ->
  Z.of_nat (length dep_nodes) < start + Z.of_nat count ->
  (forall n, n ∈ dep_nodes -> is_Some (nodes s !! n)) ->
  set_parent_multi_word dep_nodes m start count s = Raise IndexError.
Proof.
  induction count as [|count IH]; intros start s Hstart Hpos Hlen Hvalid; [lia|].
  cbn [set_parent_multi_word].
  destruct (decide (Z.of_nat (length dep_nodes) <= start)) as [Hout|Hin].
  - now rewrite py_index_beyond.
  - destruct (lookup_lt_is_Some_2 dep_nodes (Z.to_nat start)) as (n0 & Hn0); [lia|].
    rewrite (py_index_nat _ _ _ Hstart Hn0). cbn [bind].
    destruct (Hvalid n0) as (N0 & HN0); [eapply list_elem_of_lookup_2; eauto|].
    rewrite (get_node_Some _ _ _ HN0). cbn [bind].
    apply IH; [lia|lia|lia|].
    intros n Hn. cbn [put_node nodes]. apply insert_is_Some. auto.
Qed.

(** The second loop of [_link_heads] alone, for one multi-word node [m]
    with the span [(a, b)], [0 <= a]. *)
Lemma link_multi_words_spec dep_nodes m M a b s :
  nodes s !! m = Some M -> span M = Some [a; b] -> 0 <= a ->
  (forall n, n ∈ dep_nodes -> is_Some (nodes s !! n)) ->
  (a <= b -> Z.of_nat (length dep_nodes) <= b ->
   link_multi_words dep_nodes [m] s = Raise IndexError) /\
  (b < Z.of_nat (length dep_nodes) ->
   exists s',
     link_multi_words dep_nodes [m] s = Ok s' /\ edges s' = edges s /\
     forall n, nodes s' !! n =
       if bool_decide (n ∈ span_nodes dep_nodes a b)
       then with_parent_multi_word (Some m) <$> nodes s !! n
       else nodes s !! n).
Proof.
  intros HM Hspan Ha Hvalid. cbn [link_multi_words].
  rewrite (get_node_Some _ _ _ HM). cbn [bind]. rewrite Hspan. split.
  - intros Hab Hlen.
    rewrite (set_parent_multi_word_beyond dep_nodes m _ a s Ha); [reflexivity|lia|lia|assumption].
  - intros Hlen. unfold span_nodes.
    destruct (decide (b + 1 - a <= 0)) as [Hempty|Hsome].
    + replace (Z.to_nat (b + 1 - a)) with 0%nat by lia. cbn [set_parent_multi_word bind].
      exists s. split; [reflexivity|]. split; [reflexivity|]. intros n.
      rewrite take_0. now rewrite bool_decide_eq_false_2 by apply not_elem_of_nil.
    + destruct (set_parent_multi_word_spec dep_nodes m (Z.to_nat (b + 1 - a)) a s Ha)
        as (s' & -> & Hedges & Hnodes); [lia|assumption|].
      cbn [bind]. exists s'. split; [reflexivity|]. split; [assumption|]. exact Hnodes.
Qed.

(** ** [top_edge] *)

Lemma Edge_init_Ok hi r rem s :
  Edge_init hi r rem s =
  Ok (mkStore (nodes s) (edges s ++ [mkEdge hi r rem None None]), length (edges s)).
Proof.
  unfold Edge_init, alloc_edge. set (E := mkEdge hi r rem None None).
  set (s1 := mkStore (nodes s) (edges s ++ [E])).
  assert (HE : edges s1 !! length (edges s) = Some E).
  { subst s1. cbn [edges]. rewrite lookup_app_r by lia. now rewrite Nat.sub_diag. }
  assert (H1 : set_head (length (edges s)) None s1 = Ok s1).
  { unfold set_head. rewrite (get_edge_Some _ _ _ HE). cbn. f_equal. now apply put_edge_same. }
  assert (H2 : set_dependent (length (edges s)) None s1 = Ok s1).
  { unfold set_dependent. rewrite (get_edge_Some _ _ _ HE). cbn. f_equal.
    now apply put_edge_same. }
  rewrite H1. cbn [bind]. rewrite H2. reflexivity.
Qed.

Lemma insert_snoc {A} (l : list A) x y : <[length l := y]> (l ++ [x]) = l ++ [y].
Proof. rewrite insert_app_r_alt by lia. now rewrite Nat.sub_diag. Qed.

Lemma lookup_snoc {A} (l : list A) x : (l ++ [x]) !! length l = Some x.
Proof. rewrite lookup_app_r by lia. now rewrite Nat.sub_diag. Qed.

(** [top_edge] makes a new edge labelled TOP, not remote, from
    [graph.nodes[0]] to the node given: the edge is appended to the
    [outgoing] list of the first and to the [incoming] list of the second,
    its head index is the position of [graph.nodes[0]] less one, not the 0
    it was made with, and nothing else changes.  On a graph without nodes
    it raises [IndexError]. *)
Theorem top_edge_attaches dep_node root rest R D s :
  nodes s !! root = Some R -> nodes s !! dep_node = Some D ->
  let e := length (edges s) in
  let R' := with_outgoing (outgoing R ++ [e]) R in
  let D' := if decide (dep_node = root) then R' else D in
  top_edge dep_node [] s = Raise IndexError /\
  top_edge dep_node (root :: rest) s =
    Ok (mkStore
          (<[dep_node := with_incoming (incoming D' ++ [e]) D']> (<[root := R']> (nodes s)))
          (edges s ++ [mkEdge (HInt (position R - 1)) TOP false (Some root) (Some dep_node)]),
        e).
Proof.
  intros HR HD e R' D'. subst e. unfold top_edge. rewrite Edge_init_Ok. cbn [bind]. split.
  - reflexivity.
  - rewrite (py_index_nat (root :: rest) 0 root) by (try lia; reflexivity). cbn [bind].
    set (E0 := mkEdge (HInt 0) TOP false None None).
    set (s1 := mkStore (nodes s) (edges s ++ [E0])).
    assert (Hs2 : set_head (length (edges s)) (Some root) s1 =
              Ok (mkStore (<[root := R']> (nodes s))
                    (edges s ++ [mkEdge (HInt (position R - 1)) TOP false (Some root) None]))).
    { unfold set_head, get_edge. subst s1. cbn [edges]. rewrite lookup_snoc.
      cbn [of_option bind detach_head _head E0]. unfold get_node. cbn [put_edge nodes].
      rewrite HR. cbn [of_option bind]. unfold put_edge, put_node. cbn [nodes edges].
      do 2 f_equal. rewrite !list_insert_insert_eq. apply insert_snoc. }
    rewrite Hs2. cbn [bind].
    rewrite (set_dependent_fresh (length (edges s)) dep_node _
               (mkEdge (HInt (position R - 1)) TOP false (Some root) None) D').
    + unfold put_edge, put_node. cbn [nodes edges bind]. do 3 f_equal. apply insert_snoc.
    + cbn [edges]. apply lookup_snoc.
    + reflexivity.
    + cbn [nodes]. subst D'. destruct (decide (dep_node = root)) as [->|Hne].
      * eapply lookup_put_same; eauto.
      * rewrite list_lookup_insert_ne by congruence. assumption.
Qed.

(** Instance: a top edge for the token "cat" of [ex_chain]. *)
Lemma top_edge_attaches_witness :
  exists s',
    top_edge 2%nat [0; 1; 2]%nat ex_chain = Ok (s', 2%nat) /\
    edges s' !! 2%nat = Some (mkEdge (HInt (-1)) TOP false (Some 0%nat) (Some 2%nat)).
Proof.
  destruct (top_edge_attaches 2%nat 0%nat [1; 2]%nat _ _ ex_chain eq_refl eq_refl)
    as (_ & Hrun).
  eexists. split; [exact Hrun|]. reflexivity.
Defined.

(** ** [preprocess] outside the tree mode *)

Lemma with_remote_same E : with_remote (remote E) E = E.
Proof. now destruct E. Qed.

Lemma incoming_of_cons s n N ns :
  nodes s !! n = Some N -> incoming_of s (n :: ns) = incoming N ++ incoming_of s ns.
Proof. intros HN. unfold incoming_of. cbn. now rewrite HN. Qed.

Lemma incoming_of_nodes s s' ns : nodes s' = nodes s -> incoming_of s' ns = incoming_of s ns.
Proof. intros H. unfold incoming_of. now rewrite H. Qed.

Lemma any_root_rel_total s es :
  (forall e, e ∈ es -> is_Some (edges s !! e)) -> exists b, any_root_rel s es = Ok b.
Proof.
  induction es as [|e es IH]; intros Hv; cbn [any_root_rel]; [eauto|].
  destruct (Hv e ltac:(left)) as (E & HE). rewrite (get_edge_Some _ _ _ HE). cbn [bind].
  case_bool_decide; [eauto|]. apply IH. intros e' He'. apply Hv. now right.
Qed.

Lemma roots_total s ns :
  (forall n, n ∈ ns -> is_Some (nodes s !! n)) ->
  (forall e, e ∈ incoming_of s ns -> is_Some (edges s !! e)) ->
  exists r, roots s ns = Ok r.
Proof.
  induction ns as [|n ns IH]; intros Hn He; cbn [roots]; [eauto|].
  destruct (Hn n ltac:(left)) as (N & HN). rewrite (get_node_Some _ _ _ HN). cbn [bind].
  rewrite (incoming_of_cons s n N ns HN) in He.
  destruct (any_root_rel_total s (incoming N)) as (b & ->).
  { intros e Hin. apply He. apply elem_of_app. now left. }
  cbn [bind]. destruct IH as (r & ->).
  { intros m Hm. apply Hn. now right. }
  { intros e Hin. apply He. apply elem_of_app. now right. }
  cbn [bind]. eauto.
Qed.

Section Plain.

Variables (Terminal : string) (is_ucca : bool).

Lemma cleared_rel es e E : rel (cleared is_ucca es e E) = rel E.
Proof. unfold cleared. now destruct (negb is_ucca && bool_decide (e ∈ es)). Qed.

Lemma cleared_remote es e E : remote (cleared is_ucca es e E) = true -> remote E = true.
Proof.
  unfold cleared. destruct (negb is_ucca && bool_decide (e ∈ es)); [discriminate|auto].
Qed.

Lemma scan_plain n N : forall fuel i b s,
  nodes s !! n = Some N -> plain Terminal s (drop i (incoming N)) ->
  (length (incoming N) - i < fuel)%nat ->
  exists b' s',
    scan_incoming Terminal is_ucca fuel n i b s = Ok (b', s') /\
    nodes s' = nodes s /\ length (edges s') = length (edges s) /\
    forall e E, edges s !! e = Some E ->
      edges s' !! e = Some (cleared is_ucca (drop i (incoming N)) e E).
Proof.
  induction fuel as [|fuel IH]; intros i b s HN Hplain Hfuel; [lia|].
  cbn [scan_incoming]. rewrite (get_node_Some _ _ _ HN). cbn [bind].
  destruct (incoming N !! i) as [e0|] eqn:Hi.
  - rewrite (drop_S _ _ _ Hi) in Hplain |- *.
    destruct (Hplain e0 ltac:(left)) as (E0 & HE0 & Hnot).
    rewrite (get_edge_Some _ _ _ HE0). cbn [bind].
    assert (Hrest : plain Terminal s (drop (S i) (incoming N))).
    { intros e He. apply Hplain. now right. }
    pose proof (lookup_lt_Some _ _ _ Hi) as Hlt.
    destruct (remote E0) eqn:Hrem.
    + unfold is_flat. rewrite bool_decide_eq_false_2 by tauto.
      destruct (negb is_ucca) eqn:Hu.
      * set (s1 := put_edge s e0 (with_remote false E0)).
        destruct (IH (S i) b s1) as (b' & s' & Hrun & Hn & Hl & He); [exact HN| |lia|].
        { intros e Hin. destruct (Hrest e Hin) as (E & HE & HnE).
          destruct (decide (e = e0)) as [->|Hne].
          - exists (with_remote false E0). split.
            + subst s1. cbn [put_edge edges]. eapply lookup_put_same; eauto.
            + cbn. intros (Hc & _). discriminate.
          - exists E. split; [|assumption]. subst s1. cbn [put_edge edges].
            now rewrite list_lookup_insert_ne by congruence. }
        exists b', s'. split; [exact Hrun|]. split; [assumption|].
        split; [rewrite Hl; subst s1; cbn [put_edge edges]; apply length_insert|].
        intros e E HE. unfold cleared in *. rewrite Hu in *. cbn [andb] in *.
        destruct (decide (e = e0)) as [->|Hne].
        -- assert (E = E0) as -> by congruence.
           rewrite (He e0 (with_remote false E0))
             by (subst s1; cbn [put_edge edges]; eapply lookup_put_same; eauto).
           rewrite (bool_decide_eq_true_2 (e0 ∈ e0 :: _)) by left.
           case_bool_decide; reflexivity.
        -- rewrite (He e E)
             by (subst s1; cbn [put_edge edges]; now rewrite list_lookup_insert_ne by congruence).
           case_bool_decide as Hin.
           ++ rewrite bool_decide_eq_true_2 by (now right). reflexivity.
           ++ rewrite bool_decide_eq_false_2; [reflexivity|].
              intros Hc. apply elem_of_cons in Hc as [Hc|Hc]; auto.
      * destruct (IH (S i) b s HN Hrest ltac:(lia)) as (b' & s' & Hrun & Hn & Hl & He).
        exists b', s'. split; [exact Hrun|]. split; [assumption|]. split; [assumption|].
        intros e E HE. rewrite (He e E HE). unfold cleared. rewrite Hu. reflexivity.
    + destruct (IH (S i) false s HN Hrest ltac:(lia)) as (b' & s' & Hrun & Hn & Hl & He).
      exists b', s'. split; [exact Hrun|]. split; [assumption|]. split; [assumption|].
      intros e E HE. rewrite (He e E HE). unfold cleared.
      destruct (negb is_ucca); cbn [andb]; [|reflexivity].
      destruct (decide (e = e0)) as [->|Hne].
      * assert (E = E0) as -> by congruence.
        rewrite (bool_decide_eq_true_2 (e0 ∈ e0 :: _)) by left.
        rewrite <- Hrem at 1 2. rewrite with_remote_same. case_bool_decide; reflexivity.
      * case_bool_decide as Hin.
        -- rewrite bool_decide_eq_true_2 by (now right). reflexivity.
        -- rewrite bool_decide_eq_false_2; [reflexivity|].
           intros Hc. apply elem_of_cons in Hc as [Hc|Hc]; auto.
  - exists b, s. split; [reflexivity|]. split; [reflexivity|]. split; [reflexivity|].
    intros e E HE. rewrite HE. unfold cleared.
    rewrite drop_ge by (apply lookup_ge_None; assumption).
    rewrite bool_decide_eq_false_2 by apply not_elem_of_nil. now rewrite andb_false_r.
Qed.

Lemma preprocess_nodes_plain : forall ns roots0 s,
  (forall n, n ∈ ns -> is_Some (nodes s !! n)) ->
  plain Terminal s (incoming_of s ns) ->
  exists s',
    preprocess_nodes Terminal false is_ucca ns roots0 s = Ok s' /\
    nodes s' = nodes s /\ length (edges s') = length (edges s) /\
    forall e E, edges s !! e = Some E ->
      edges s' !! e = Some (cleared is_ucca (incoming_of s ns) e E).
Proof.
  induction ns as [|n ns IH]; intros roots0 s Hvalid Hplain; cbn [preprocess_nodes].
  - exists s. split; [reflexivity|]. split; [reflexivity|]. split; [reflexivity|].
    intros e E HE. rewrite HE. unfold cleared, incoming_of. cbn.
    rewrite bool_decide_eq_false_2 by apply not_elem_of_nil. now rewrite andb_false_r.
  - destruct (Hvalid n ltac:(left)) as (N & HN). rewrite (get_node_Some _ _ _ HN).
    cbn [bind]. rewrite (incoming_of_cons s n N ns HN) in Hplain |- *.
    destruct (scan_plain n N (S (length (incoming N))) 0 true s HN)
      as (b' & s1 & -> & Hn1 & Hl1 & He1); [|lia|].
    { rewrite drop_0. intros e He. apply Hplain. apply elem_of_app. now left. }
    cbn [bind]. rewrite andb_false_r. rewrite drop_0 in He1.
    destruct (IH roots0 s1) as (s' & Hrun & Hn' & Hl' & He').
    { intros m Hm. rewrite Hn1. apply Hvalid. now right. }
    { rewrite (incoming_of_nodes s s1 ns Hn1). intros e He.
      destruct (Hplain e) as (E & HE & HnE); [apply elem_of_app; now right|].
      exists (cleared is_ucca (incoming N) e E). split; [auto|].
      rewrite cleared_rel. intros (Hr & Hf). apply cleared_remote in Hr. tauto. }
    rewrite (incoming_of_nodes s s1 ns Hn1) in He'.
    exists s'. split; [exact Hrun|]. split; [congruence|]. split; [congruence|].
    intros e E HE. rewrite (He' _ _ (He1 e E HE)). f_equal. unfold cleared.
    destruct (negb is_ucca); cbn [andb]; [|reflexivity].
    destruct (decide (e ∈ incoming N)) as [H1|H1];
      destruct (decide (e ∈ incoming_of s ns)) as [H2|H2].
    + rewrite !bool_decide_eq_true_2; [reflexivity|apply elem_of_app; auto|auto|auto].
    + rewrite (bool_decide_eq_true_2 _ H1), (bool_decide_eq_false_2 _ H2).
      rewrite bool_decide_eq_true_2; [reflexivity|apply elem_of_app; auto].
    + rewrite (bool_decide_eq_false_2 _ H1), (bool_decide_eq_true_2 _ H2).
      rewrite bool_decide_eq_true_2; [reflexivity|apply elem_of_app; auto].
    + rewrite (bool_decide_eq_false_2 _ H1), (bool_decide_eq_false_2 _ H2).
      rewrite bool_decide_eq_false_2; [reflexivity|].
      intros Hc. apply elem_of_app in Hc. tauto.
Qed.

End Plain.

(** Outside the tree mode, on nodes of which no incoming edge is both
    remote and flat, [preprocess] returns and changes the remote flags
    only: with [is_ucca] off, every edge in the [incoming] list of one of
    the nodes becomes primary; with [is_ucca] on nothing changes at all.
    No edge is removed or added and no node changes. *)
Theorem preprocess_without_tree Terminal is_ucca dep_nodes to_dep s :
  (forall n, n ∈ dep_nodes -> is_Some (nodes s !! n)) ->
  (forall e, e ∈ incoming_of s dep_nodes ->
     exists E, edges s !! e = Some E /\ ~ (remote E = true /\ rel E = Terminal)) ->
  exists s',
    preprocess Terminal false is_ucca dep_nodes to_dep s = Ok s' /\
    nodes s' = nodes s /\ length (edges s') = length (edges s) /\
    forall e E, edges s !! e = Some E ->
      edges s' !! e =
      Some (if negb is_ucca && bool_decide (e ∈ incoming_of s dep_nodes)
            then with_remote false E else E).
Proof.
  intros Hvalid Hplain. unfold preprocess.
  destruct (roots_total s dep_nodes Hvalid) as (r & ->).
  { intros e He. destruct (Hplain e He) as (E & HE & _). eauto. }
  cbn [bind]. rewrite andb_false_r. cbn [andb bind].
  exact (preprocess_nodes_plain Terminal is_ucca dep_nodes r s Hvalid Hplain).
Qed.

(** Instance: the remote edge of [ex_remote] becomes primary. *)
Lemma preprocess_without_tree_witness :
  exists s',
    preprocess "Terminal" false false [0; 1; 2]%nat true ex_remote = Ok s' /\
    nodes s' = nodes ex_remote /\
    edges s' !! 2%nat = Some (mkEdge (HInt (-1)) "xcomp" false (Some 0%nat) (Some 2%nat)).
Proof.
  destruct (preprocess_without_tree "Terminal" false [0; 1; 2]%nat true ex_remote)
    as (s' & Hrun & Hn & _ & He).
  - intros n Hn. repeat (apply elem_of_cons in Hn as [->|Hn]; [eexists; reflexivity|]).
    now apply elem_of_nil in Hn.
  - intros e He. vm_compute in He.
    repeat (apply elem_of_cons in He as [->|He];
            [eexists; split; [reflexivity|]; cbn; intros (_ & Hc); discriminate|]).
    now apply elem_of_nil in He.
  - exists s'. split; [exact Hrun|]. split; [exact Hn|].
    rewrite (He 2%nat _ eq_refl). reflexivity.
Defined.

(** ** The set that [incoming_edges] returns *)

Lemma head_ref_eq_refl a : head_ref_eq a a = true.
Proof. destruct a; cbn; now apply bool_decide_eq_true. Qed.

Lemma list_contains_false s x l :
  list_contains s x l = Ok false -> forall y, y ∈ l -> edge_same s y x = Ok false.
Proof.
  induction l as [|z l IH]; intros H y Hy; [now apply elem_of_nil in Hy|].
  cbn [list_contains] in H. apply bind_Ok in H as (b & Hb & H).
  destruct b; [discriminate|]. apply elem_of_cons in Hy as [->|Hy]; auto.
Qed.

Lemma edge_same_false_key s y x Y X :
  edge_same s y x = Ok false -> edges s !! y = Some Y -> edges s !! x = Some X ->
  _dependent Y = None -> _dependent X = None -> edge_key Y <> edge_key X.
Proof.
  unfold edge_same. case_bool_decide as Hyx; [discriminate|].
  intros Hs HY HX HdY HdX Hkey.
  rewrite (get_edge_Some _ _ _ HY), (get_edge_Some _ _ _ HX) in Hs. cbn [bind] in Hs.
  unfold edge_key in Hkey. injection Hkey as Hi Hr Hm.
  unfold Edge_eq in Hs. rewrite Hi, head_ref_eq_refl, HdY, HdX in Hs. cbn in Hs.
  rewrite Hr, Hm in Hs. rewrite !bool_decide_eq_true_2 in Hs by reflexivity. discriminate.
Qed.

Section IncomingSet.

Variables (tag_priority : list (option string)) (is_ucca : bool) (Terminal : string).
Variables (omit_edge : UEdge -> bool -> bool) (unit_eq : unit_id -> unit_id -> bool).

Lemma incoming_edge_set_fresh p terminal tree s0 : forall zs acc s s' es,
  incoming_edge_set omit_edge p terminal tree zs acc s = Ok (s', es) ->
  fresh_set s0 s acc -> nodes s = nodes s0 -> (exists old, edges s = edges s0 ++ old) ->
  fresh_set s0 s' es /\ nodes s' = nodes s0 /\ exists new, edges s' = edges s0 ++ new.
Proof.
  induction zs as [|[u hi] zs IH]; intros acc s s' es Hrun Hacc Hn Hold.
  - cbn [incoming_edge_set] in Hrun. injection Hrun as <- <-. auto.
  - cbn [incoming_edge_set] in Hrun.
    apply bind_Ok in Hrun as (T & _ & Hrun). apply bind_Ok in Hrun as (pos & _ & Hrun).
    apply bind_Ok in Hrun as (E & _ & Hrun).
    destruct (bool_decide (hi <> pos - 1) && negb (omit_edge E tree)); [|eapply IH; eauto].
    apply bind_Ok in Hrun as ([s1 d] & Hinit & Hrun).
    apply Edge_init_result in Hinit as (-> & ->).
    apply bind_Ok in Hrun as (acc' & Hadd & Hrun).
    set (D := mkEdge (HInt hi) (ue_tag E) (ue_remote E) None None) in *.
    set (s1 := mkStore (nodes s) (edges s ++ [D])) in *.
    destruct Hacc as (Hnd & Hmem & Hkeys). destruct Hold as (old & Hold).
    assert (Hkeep : forall e X, edges s !! e = Some X -> edges s1 !! e = Some X).
    { intros e X HX. subst s1. cbn [edges]. rewrite lookup_app_l; [assumption|].
      eapply lookup_lt_Some; eauto. }
    assert (Hback : forall e X, e ∈ acc -> edges s1 !! e = Some X -> edges s !! e = Some X).
    { intros e X He HX. destruct (Hmem e He) as (X' & HX' & _).
      rewrite (Hkeep e X' HX') in HX. congruence. }
    assert (HD : edges s1 !! length (edges s) = Some D).
    { subst s1. cbn [edges]. apply lookup_snoc. }
    assert (Hnew : length (edges s) ∉ acc).
    { intros Hin. destruct (Hmem _ Hin) as (X & HX & _).
      apply lookup_lt_Some in HX. lia. }
    eapply IH; [exact Hrun| |exact Hn|].
    2:{ exists (old ++ [D]). subst s1. cbn [edges]. rewrite Hold. now rewrite app_assoc. }
    unfold edge_set_add in Hadd. apply bind_Ok in Hadd as (b & Hb & Hadd).
    injection Hadd as <-. destruct b.
    + split; [assumption|]. split.
      * intros e He. destruct (Hmem e He) as (X & HX & Hrest). exists X. auto.
      * intros e1 e2 E1 E2 H1 H2 Hne HE1 HE2. apply (Hkeys e1 e2); auto.
    + split; [apply NoDup_snoc; assumption|]. split.
      * intros e He. apply elem_of_app in He as [He|He].
        -- destruct (Hmem e He) as (X & HX & Hrest). exists X. auto.
        -- apply list_elem_of_singleton in He. subst e. exists D.
           split; [assumption|]. split; [reflexivity|]. split; [reflexivity|].
           rewrite Hold, length_app. lia.
      * assert (Hd : forall y Y, y ∈ acc -> edges s1 !! y = Some Y ->
                  edge_key Y <> edge_key D).
        { intros y Y Hy HY. destruct (Hmem y Hy) as (Y' & HY' & _ & HdY & _).
          assert (Y' = Y) as -> by (rewrite (Hkeep y Y' HY') in HY; congruence).
          exact (edge_same_false_key s1 y _ Y D (list_contains_false _ _ _ Hb y Hy)
                   HY HD HdY eq_refl). }
        intros e1 e2 E1 E2 H1 H2 Hne HE1 HE2.
        apply elem_of_app in H1 as [H1|H1]; apply elem_of_app in H2 as [H2|H2].
        -- apply (Hkeys e1 e2); auto.
        -- apply list_elem_of_singleton in H2. subst e2.
           assert (E2 = D) as -> by congruence. exact (Hd e1 E1 H1 HE1).
        -- apply list_elem_of_singleton in H1. subst e1.
           assert (E1 = D) as -> by congruence. intros Hk. symmetry in Hk.
           exact (Hd e2 E2 H2 HE2 Hk).
        -- apply list_elem_of_singleton in H1. apply list_elem_of_singleton in H2.
           congruence.
Qed.

(** The edges that [incoming_edges] returns are new objects attached to
    nothing: they have neither head nor dependent, and the nodes and the
    edges that were there are untouched.  As members of a set no two of
    them agree on head index, relation and remote flag. *)
Theorem incoming_edges_fresh_set fuel p terminal test tree s s' es :
  incoming_edges tag_priority is_ucca Terminal omit_edge unit_eq
    fuel p terminal test tree s = Ok (s', es) ->
  fresh_set s s' es /\ nodes s' = nodes s /\ exists new, edges s' = edges s ++ new.
Proof.
  assert (Hempty : fresh_set s s []).
  { split; [apply NoDup_nil_2|]. split.
    - intros e He. now apply elem_of_nil in He.
    - intros e1 e2 E1 E2 H1. now apply elem_of_nil in H1. }
  unfold incoming_edges. destruct test.
  - intros [= <- <-]. split; [assumption|]. split; [reflexivity|].
    exists []. now rewrite app_nil_r.
  - intros Hrun. apply bind_Ok in Hrun as (ues & _ & Hrun).
    apply bind_Ok in Hrun as (his & _ & Hrun).
    eapply incoming_edge_set_fresh; [exact Hrun|assumption|reflexivity|].
    exists []. now rewrite app_nil_r.
Qed.

End IncomingSet.

(** Instance: the edge made for the second terminal of [ex_passage]. *)
Lemma incoming_edges_fresh_set_witness :
  exists s',
    incoming_edges ex_tag_priority false "Terminal" (fun _ _ => false) Nat.eqb
      5 ex_passage 1%nat false true (mkStore [] []) = Ok (s', [0%nat]) /\
    fresh_set (mkStore [] []) s' [0%nat].
Proof.
  eexists. split; [vm_compute; reflexivity|].
  apply (incoming_edges_fresh_set ex_tag_priority false "Terminal" (fun _ _ => false)
           Nat.eqb 5 ex_passage 1%nat false true (mkStore [] []) _ [0%nat]).
  vm_compute. reflexivity.
Defined.

(** ** [_link_heads] on a sentence whose head indices are in range *)

Lemma py_index_in_range {A} (l : list A) (i : Z) :
  - Z.of_nat (length l) <= i < Z.of_nat (length l) ->
  exists x, py_index l i = Ok x /\ x ∈ l.
Proof.
  intros Hi. unfold py_index.
  set (j := if bool_decide (i < 0) then i + Z.of_nat (length l) else i).
  assert (Hj : 0 <= j < Z.of_nat (length l)) by (subst j; case_bool_decide; lia).
  rewrite bool_decide_eq_true_2 by exact Hj.
  destruct (lookup_lt_is_Some_2 l (Z.to_nat j)) as (x & Hx); [lia|].
  exists x. rewrite Hx. split; [reflexivity|]. eapply list_elem_of_lookup_2; eauto.
Qed.

Lemma link_head_fresh py_int e heads copy_of s E i h H :
  edges s !! e = Some E -> head_index E = HInt i -> _head E = None ->
  py_index heads i = Ok h -> nodes s !! h = Some H ->
  link_head py_int e heads copy_of s =
  Ok (mkStore (<[h := with_outgoing (outgoing H ++ [e]) H]> (nodes s))
        (<[e := mkEdge (HInt (position H - 1)) (rel E) (remote E) (Some h)
                  (_dependent E)]> (edges s))).
Proof.
  intros HE Hi Hh Hpy HH. unfold link_head.
  rewrite (get_edge_Some _ _ _ HE). cbn [bind]. rewrite Hi. cbn [bind].
  rewrite (get_edge_Some _ _ _ HE). cbn [bind]. rewrite Hi, Hpy. cbn [bind].
  unfold set_head. rewrite (get_edge_Some _ _ _ HE). cbn [bind].
  unfold detach_head. rewrite Hh. cbn [bind].
  unfold get_node. cbn [put_edge nodes]. rewrite HH. cbn [of_option bind].
  unfold put_edge, put_node. cbn [nodes edges]. do 2 f_equal.
  now rewrite list_insert_insert_eq.
Qed.

Section LinkHeads.

Variable py_int : string -> result Z.
Variables (heads : list node_id) (copy_of : list (string * string)).

Lemma node_kept_refl s : node_kept s s.
Proof. intros n N HN. exists N. auto. Qed.

Lemma node_kept_trans s1 s2 s3 : node_kept s1 s2 -> node_kept s2 s3 -> node_kept s1 s3.
Proof.
  intros H12 H23 n N HN. destruct (H12 n N HN) as (N2 & HN2 & Hs2 & Ho2).
  destruct (H23 n N2 HN2) as (N3 & HN3 & Hs3 & Ho3). exists N3.
  split; [assumption|]. split; [congruence|auto].
Qed.

Lemma link_head_all_spec : forall es s,
  NoDup es -> (forall h, h ∈ heads -> is_Some (nodes s !! h)) ->
  (forall e, e ∈ es -> pending heads s e) ->
  exists s',
    link_head_all py_int es heads copy_of s = Ok s' /\
    node_kept s s' /\
    (forall e E, edges s !! e = Some E -> e ∉ es -> edges s' !! e = Some E) /\
    (forall e, e ∈ es -> linked heads s s' e).
Proof.
  induction es as [|e es IH]; intros s Hnd Hheads Hpend; cbn [link_head_all].
  - exists s. split; [reflexivity|]. split; [apply node_kept_refl|]. split; [auto|].
    intros e He. now apply elem_of_nil in He.
  - apply NoDup_cons in Hnd as (Hnot & Hnd).
    destruct (Hpend e ltac:(left)) as (E & i & HE & Hi & Hh & Hrange).
    destruct (py_index_in_range heads i Hrange) as (h & Hpy & Hin).
    destruct (Hheads h Hin) as (H & HH).
    rewrite (link_head_fresh py_int e heads copy_of s E i h H HE Hi Hh Hpy HH). cbn [bind].
    set (H1 := with_outgoing (outgoing H ++ [e]) H).
    set (E1 := mkEdge (HInt (position H - 1)) (rel E) (remote E) (Some h) (_dependent E)).
    set (s1 := mkStore (<[h := H1]> (nodes s)) (<[e := E1]> (edges s))).
    assert (Hk1 : node_kept s s1).
    { intros n N HN. subst s1. cbn [nodes]. destruct (decide (n = h)) as [->|Hne].
      - exists H1. split; [eapply lookup_put_same; eauto|].
        assert (N = H) as -> by congruence. split; [reflexivity|].
        intros x Hx. cbn. apply elem_of_app. now left.
      - exists N. split; [now rewrite list_lookup_insert_ne by congruence|]. auto. }
    destruct (IH s1) as (s' & Hrun & Hk & Hother & Hlinked); [assumption| | |].
    { intros h' Hh'. subst s1. cbn [nodes]. apply insert_is_Some. auto. }
    { intros e' He'. destruct (Hpend e' ltac:(now right)) as (E' & i' & HE' & Hrest).
      exists E', i'. split; [|exact Hrest]. subst s1. cbn [edges].
      rewrite list_lookup_insert_ne; [assumption|]. intros ->. contradiction. }
    exists s'. split; [exact Hrun|]. split; [eapply node_kept_trans; eauto|]. split.
    + intros e' E' HE' Hnot'. apply Hother.
      * subst s1. cbn [edges]. rewrite list_lookup_insert_ne; [assumption|].
        intros ->. apply Hnot'. left.
      * intros Hc. apply Hnot'. now right.
    + intros e' He'. apply elem_of_cons in He' as [->|He'].
      * assert (HH1 : nodes s1 !! h = Some H1).
        { subst s1. cbn [nodes]. eapply lookup_put_same; eauto. }
        destruct (Hk h H1 HH1) as (H' & HH' & Hst & Hout).
        exists E, i, h, H'. split; [assumption|]. split; [assumption|].
        split; [assumption|]. split; [assumption|]. split.
        -- apply Hout. cbn. apply elem_of_app. right. left.
        -- rewrite (Hother e E1); [| |assumption].
           ++ subst E1. do 3 f_equal.
              assert (Hp : position (with_outgoing [] H') = position (with_outgoing [] H1))
                by now rewrite Hst.
              cbn in Hp. lia.
           ++ subst s1. cbn [edges]. eapply lookup_put_same; eauto.
      * destruct (Hlinked e' He') as (E' & i' & h' & H' & HE' & Hrest).
        exists E', i', h', H'. split; [|exact Hrest].
        subst s1. cbn [edges] in HE'. rewrite list_lookup_insert_ne in HE'; [assumption|].
        intros ->. contradiction.
Qed.

Lemma node_kept_incoming s s' n N N' :
  node_kept s s' -> nodes s !! n = Some N -> nodes s' !! n = Some N' ->
  incoming N' = incoming N /\ position N' = position N /\ is_head N' = is_head N.
Proof.
  intros Hk HN HN'. destruct (Hk n N HN) as (N2 & HN2 & Hst & _).
  assert (N2 = N') as -> by congruence.
  split; [|split].
  - change (incoming (with_outgoing [] N') = incoming (with_outgoing [] N)). now rewrite Hst.
  - change (position (with_outgoing [] N') = position (with_outgoing [] N)). now rewrite Hst.
  - change (is_head (with_outgoing [] N') = is_head (with_outgoing [] N)). now rewrite Hst.
Qed.

Lemma incoming_of_kept s s' ns :
  node_kept s s' -> (forall n, n ∈ ns -> is_Some (nodes s !! n)) ->
  incoming_of s' ns = incoming_of s ns.
Proof.
  intros Hk. induction ns as [|n ns IH]; intros Hv; [reflexivity|].
  destruct (Hv n ltac:(left)) as (N & HN). destruct (Hk n N HN) as (N' & HN' & _).
  rewrite (incoming_of_cons s n N ns HN), (incoming_of_cons s' n N' ns HN').
  destruct (node_kept_incoming s s' n N N' Hk HN HN') as (-> & _).
  rewrite IH; [reflexivity|]. intros m Hm. apply Hv. now right.
Qed.

Lemma link_heads_nodes_spec : forall ns s,
  NoDup (incoming_of s ns) -> (forall n, n ∈ ns -> is_Some (nodes s !! n)) ->
  (forall h, h ∈ heads -> is_Some (nodes s !! h)) ->
  (forall e, e ∈ incoming_of s ns -> pending heads s e) ->
  exists s',
    link_heads_nodes py_int ns heads copy_of s = Ok s' /\
    node_kept s s' /\
    (forall e E, edges s !! e = Some E -> e ∉ incoming_of s ns -> edges s' !! e = Some E) /\
    (forall e, e ∈ incoming_of s ns -> linked heads s s' e).
Proof.
  induction ns as [|n ns IH]; intros s Hnd Hvalid Hheads Hpend; cbn [link_heads_nodes].
  - exists s. split; [reflexivity|]. split; [apply node_kept_refl|]. split; [auto|].
    intros e He. now apply elem_of_nil in He.
  - destruct (Hvalid n ltac:(left)) as (N & HN). rewrite (get_node_Some _ _ _ HN).
    cbn [bind]. rewrite (incoming_of_cons s n N ns HN) in Hnd, Hpend |- *.
    apply NoDup_app in Hnd as (Hnd1 & Hdisj & Hnd2).
    destruct (link_head_all_spec (incoming N) s Hnd1 Hheads) as (s1 & -> & Hk1 & Ho1 & Hl1).
    { intros e He. apply Hpend. apply elem_of_app. now left. }
    cbn [bind].
    assert (Hv1 : forall m, m ∈ ns -> is_Some (nodes s !! m)).
    { intros m Hm. apply Hvalid. now right. }
    pose proof (incoming_of_kept s s1 ns Hk1 Hv1) as Hinc.
    destruct (IH s1) as (s' & Hrun & Hk & Hother & Hlinked).
    { now rewrite Hinc. }
    { intros m Hm. destruct (Hv1 m Hm) as (M & HM).
      destruct (Hk1 m M HM) as (M' & HM' & _). eauto. }
    { intros h Hh. destruct (Hheads h Hh) as (H & HH).
      destruct (Hk1 h H HH) as (H' & HH' & _). eauto. }
    { intros e He. rewrite Hinc in He.
      destruct (Hpend e) as (E & i & HE & Hrest); [apply elem_of_app; now right|].
      exists E, i. split; [|exact Hrest]. apply Ho1; [assumption|].
      intros Hc. exact (Hdisj e Hc He). }
    rewrite Hinc in Hother, Hlinked.
    exists s'. split; [exact Hrun|]. split; [eapply node_kept_trans; eauto|]. split.
    + intros e E HE Hnot. apply Hother.
      * apply Ho1; [assumption|]. intros Hc. apply Hnot. apply elem_of_app. now left.
      * intros Hc. apply Hnot. apply elem_of_app. now right.
    + intros e He. apply elem_of_app in He as [He|He].
      * destruct (Hl1 e He) as (E & i & h & H1 & HE & Hi & Hpy & HH1 & Hout & HE1).
        destruct (Hk h H1 HH1) as (H' & HH' & Hst & Hout').
        exists E, i, h, H'. split; [assumption|]. split; [assumption|].
        split; [assumption|]. split; [assumption|]. split; [auto|].
        rewrite (Hother e _ HE1) by (intros Hc; exact (Hdisj e He Hc)).
        do 3 f_equal.
        assert (Hp : position (with_outgoing [] H') = position (with_outgoing [] H1))
          by now rewrite Hst.
        cbn in Hp. lia.
      * destruct (Hlinked e He) as (E & i & h & H' & HE & Hrest).
        destruct (Hpend e) as (E0 & i0 & HE0 & _); [apply elem_of_app; now right|].
        pose proof (Ho1 e E0 HE0 ltac:(intros Hc; exact (Hdisj e Hc He))) as HE1.
        assert (E = E0) as -> by congruence.
        exists E0, i, h, H'. split; [assumption|]. exact Hrest.
Qed.

End LinkHeads.

(** When the edges in the [incoming] lists of the nodes are there once
    each, have no head yet and hold integer head indices inside the bounds
    of [heads = [n for n in dep_nodes if n.is_head]], [_link_heads]
    returns: each of these edges gets the head [heads[head_index]], is
    appended to the [outgoing] list of that head, takes the head index
    [head.position - 1], and keeps relation, remote flag and dependent.
    Every other edge is unchanged, and of the nodes only the [outgoing]
    lists change. *)
Theorem link_heads_links_all py_int dep_nodes copy_of s :
  (forall n, n ∈ dep_nodes -> is_Some (nodes s !! n)) ->
  NoDup (incoming_of s dep_nodes) ->
  (forall e, e ∈ incoming_of s dep_nodes -> pending (heads_of s dep_nodes) s e) ->
  exists s',
    _link_heads py_int dep_nodes [] copy_of s = Ok s' /\
    node_kept s s' /\
    (forall e E, edges s !! e = Some E -> e ∉ incoming_of s dep_nodes ->
                 edges s' !! e = Some E) /\
    (forall e, e ∈ incoming_of s dep_nodes -> linked (heads_of s dep_nodes) s s' e).
Proof.
  intros Hvalid Hnd Hpend. unfold _link_heads.
  match goal with
  | |- context [bind (?f dep_nodes) _] =>
      assert (Hkeep : forall ns, (forall n, n ∈ ns -> is_Some (nodes s !! n)) ->
                f ns = Ok (heads_of s ns))
  end.
  { induction ns as [|n ns IH]; intros Hv; [reflexivity|].
    destruct (Hv n ltac:(left)) as (N & HN). rewrite (get_node_Some _ _ _ HN). cbn [bind].
    rewrite IH by (intros m Hm; apply Hv; now right). cbn [bind].
    unfold heads_of. rewrite filter_cons. rewrite HN. cbn [fmap option_fmap option_map].
    destruct (is_head N).
    - now rewrite decide_True by reflexivity.
    - now rewrite decide_False by discriminate. }
  rewrite (Hkeep dep_nodes Hvalid). cbn [bind].
  destruct (link_heads_nodes_spec py_int (heads_of s dep_nodes) copy_of dep_nodes s Hnd Hvalid)
    as (s' & -> & Hk & Hother & Hlinked).
  - intros h Hh. apply list_elem_of_filter in Hh as (_ & Hh). auto.
  - assumption.
  - cbn [bind link_multi_words]. exists s'. auto.
Qed.

Lemma ex_unlinked_valid :
  forall n, n ∈ [0; 1; 2]%nat -> is_Some (nodes ex_unlinked !! n).
Proof.
  intros n Hn. repeat (apply elem_of_cons in Hn as [->|Hn]; [eexists; reflexivity|]).
  now apply elem_of_nil in Hn.
Qed.

Lemma ex_unlinked_incoming : incoming_of ex_unlinked [0; 1; 2]%nat = [0; 1]%nat.
Proof. reflexivity. Qed.

Lemma ex_unlinked_heads : heads_of ex_unlinked [0; 1; 2]%nat = [0; 1; 2]%nat.
Proof. reflexivity. Qed.

Lemma ex_unlinked_nodup : NoDup (incoming_of ex_unlinked [0; 1; 2]%nat).
Proof.
  rewrite ex_unlinked_incoming. apply NoDup_cons. split; [|apply NoDup_singleton].
  intros Hin. apply list_elem_of_singleton in Hin. discriminate.
Qed.

Lemma ex_unlinked_pending e :
  e ∈ incoming_of ex_unlinked [0; 1; 2]%nat ->
  pending (heads_of ex_unlinked [0; 1; 2]%nat) ex_unlinked e.
Proof.
  rewrite ex_unlinked_incoming, ex_unlinked_heads. intros He.
  apply elem_of_cons in He as [->|He].
  - exists (mkEdge (HInt 0) "root" false None (Some 1%nat)), 0.
    repeat (split; [reflexivity|]). cbn [length]. lia.
  - apply list_elem_of_singleton in He. subst e.
    exists (mkEdge (HInt 1) "nsubj" false None (Some 2%nat)), 1.
    repeat (split; [reflexivity|]). cbn [length]. lia.
Qed.

(** Instance: the two edges of [ex_unlinked] get the root and "sleeps" as
    heads. *)
Lemma link_heads_links_all_witness :
  exists s',
    _link_heads (fun _ => Raise ValueError) [0; 1; 2]%nat [] [] ex_unlinked = Ok s' /\
    linked [0; 1; 2]%nat ex_unlinked s' 0%nat /\
    linked [0; 1; 2]%nat ex_unlinked s' 1%nat.
Proof.
  destruct (link_heads_links_all (fun _ => Raise ValueError) [0; 1; 2]%nat [] ex_unlinked
              ex_unlinked_valid ex_unlinked_nodup ex_unlinked_pending)
    as (s' & Hrun & _ & _ & Hlinked).
  rewrite ex_unlinked_incoming, ex_unlinked_heads in Hlinked.
  exists s'. split; [exact Hrun|]. split; apply Hlinked; [left|right; left].
Defined.

(** ** [parent_multi_word] over successive terminals *)

(** The first terminal that carries a multi-word text [t] gets a new node
    with the span [[p1, p1]].  For the terminal after it: the same text
    gives the same node again, with its span stretched to [[p1, p2]] and
    no new node; another text gives a second node with the span
    [[p2, p2]] and leaves the first as it is; no text empties the cell and
    changes nothing. *)
Theorem parent_multi_word_run p1 p2 t s :
  exists s1,
    let m := length (nodes s) in
    parent_multi_word_of p1 (Some t) None s = Ok (s1, Some m) /\
    edges s1 = edges s /\
    (exists M, nodes s1 = nodes s ++ [M] /\ span M = Some [p1; p1] /\
               (text <$> token M) = Some t /\
     parent_multi_word_of p2 (Some t) (Some m) s1 =
       Ok (mkStore (nodes s ++ [with_span (Some [p1; p2]) M]) (edges s), Some m) /\
     (forall t', t' <> t ->
        exists M', parent_multi_word_of p2 (Some t') (Some m) s1 =
                     Ok (mkStore (nodes s ++ [M; M']) (edges s), Some (S m)) /\
                   span M' = Some [p2; p2] /\ (text <$> token M') = Some t')) /\
    parent_multi_word_of p2 None (Some m) s1 = Ok (s1, None).
Proof.
  eexists. cbn zeta. split; [cbn; reflexivity|]. split; [reflexivity|]. split; [|reflexivity].
  eexists. split; [reflexivity|]. split; [reflexivity|]. split; [reflexivity|]. split.
  - unfold parent_multi_word_of. cbn [bind]. unfold get_node. cbn [nodes].
    rewrite lookup_snoc. cbn [of_option bind token text Token_init].
    rewrite bool_decide_eq_true_2 by reflexivity. cbn [negb of_option bind].
    rewrite lookup_snoc. cbn [of_option bind span set_last length Nat.pred].
    unfold put_node. cbn [nodes edges]. rewrite insert_snoc. reflexivity.
  - intros t' Hne. eexists. split.
    + unfold parent_multi_word_of. cbn [bind]. unfold get_node. cbn [nodes].
      rewrite lookup_snoc. cbn [of_option bind token text Token_init].
      rewrite bool_decide_eq_false_2 by assumption. cbn [negb].
      unfold Node_init, alloc_node. cbn [bind nodes edges].
      rewrite length_app. cbn [length]. rewrite Nat.add_1_r.
      rewrite <- app_assoc. reflexivity.
    + split; reflexivity.
Qed.

(** Instance: the two parts of "zum" at the positions 1 and 2. *)
Lemma parent_multi_word_run_witness :
  exists s1 s2,
    parent_multi_word_of 1 (Some "zum"%string) None (mkStore [] []) = Ok (s1, Some 0%nat) /\
    parent_multi_word_of 2 (Some "zum"%string) (Some 0%nat) s1 = Ok (s2, Some 0%nat) /\
    (span <$> nodes s2 !! 0%nat) = Some (Some [1; 2]).
Proof.
  destruct (parent_multi_word_run 1 2 "zum"%string (mkStore [] []))
    as (s1 & H1 & _ & (M & HM & Hsp & _ & H2 & _) & _).
  exists s1. eexists. split; [exact H1|]. split; [exact H2|].
  reflexivity.
Defined.

(** ** [generate_graphs] without [split] *)

Section ReaderSingle.

Variable py_int : string -> result Z.
Variable strip : string -> string.
Variable match_sentence_id : string -> option string.
Variable match_format : string -> option string.
Variable read_line :
  string -> option node_id -> list (string * string) -> Store ->
  result (Store * option node_id * list (string * string)).

Lemma read_lines_single : forall lines st s out0 out r,
  read_lines py_int strip match_sentence_id match_format read_line lines false st s out0
    = (out, r) ->
  (out = out0 /\ forall s', r <> Ok s') \/
  (exists ns id fmt s', out = out0 ++ [Yielded ns id fmt] /\ r = Ok s').
Proof.
  induction lines as [|l lines IH]; intros st s out0 out r Hrun; cbn [read_lines] in Hrun.
  - cbn [negb orb] in Hrun. destruct (_graph py_int st s) as [[s1 g]|e|] eqn:Hg.
    + injection Hrun as <- <-. right. unfold _graph in Hg.
      apply bind_Ok in Hg as (ns & _ & Hg). apply bind_Ok in Hg as (ms & _ & Hg).
      apply bind_Ok in Hg as (s2 & _ & Hg). injection Hg as <- <-. eauto 6.
    + injection Hrun as <- <-. left. split; [reflexivity|discriminate].
    + injection Hrun as <- <-. left. split; [reflexivity|discriminate].
  - destruct (strip l) as [|c rest].
    + cbn [andb] in Hrun. eapply IH; eauto.
    + destruct (Ascii.ascii_dec c "#") as [->|Hc].
      * eapply IH; eauto.
      * assert (Htok : match read_token read_line (String c rest) st s with
                       | Ok (st1, s1) =>
                           read_lines py_int strip match_sentence_id match_format read_line
                             lines false st1 s1 out0
                       | Raise e => (out0, Raise e)
                       | OutOfFuel => (out0, OutOfFuel)
                       end = (out, r)).
        { rewrite <- Hrun. destruct c as [[] [] [] [] [] [] [] []]; try reflexivity.
          contradiction. }
        destruct (read_token read_line (String c rest) st s) as [[st1 s1]|e|].
        -- eapply IH; eauto.
        -- injection Htok as <- <-. left. split; [reflexivity|discriminate].
        -- injection Htok as <- <-. left. split; [reflexivity|discriminate].
Qed.

(** Without [split] the whole input is one sentence: [generate_graphs]
    hands out nothing before the last line, prints no "Skipped passage"
    message, and hands out exactly one graph when it ends normally; when
    reading or linking raises, the exception comes out and there is no
    graph at all. *)
Theorem generate_graphs_single lines s out r :
  generate_graphs py_int strip match_sentence_id match_format read_line lines false s
    = (out, r) ->
  (out = [] /\ forall s', r <> Ok s') \/
  (exists ns id fmt s', out = [Yielded ns id fmt] /\ r = Ok s').
Proof.
  unfold generate_graphs. intros Hrun.
  exact (read_lines_single lines initial_reader s [] out r Hrun).
Qed.

End ReaderSingle.

(** Instance: two tokens with a blank line between them come out as one
    graph of the root and both tokens. *)
Lemma generate_graphs_single_witness :
  exists s',
    generate_graphs (fun _ => Raise ValueError) id (fun _ => None) (fun _ => None)
      (ex_read_line ex_head_of) ["0"; ""; "1"]%string false (mkStore [] [])
    = ([Yielded [0; 1; 2]%nat None None], Ok s').
Proof.
  destruct (generate_graphs_single (fun _ => Raise ValueError) id (fun _ => None)
              (fun _ => None) (ex_read_line ex_head_of) ["0"; ""; "1"]%string
              (mkStore [] []) _ _ eq_refl) as [(Hout & _)|(ns & i & f & s' & Hout & Hr)].
  - vm_compute in Hout. discriminate.
  - exists s'. vm_compute in Hout. injection Hout as <- <- <-.
    rewrite <- Hr. vm_compute. reflexivity.
Defined.

(** ** [_link_heads] with a multi-word token *)

Lemma link_heads_unfold py_int dep_nodes multi_word_nodes copy_of s :
  (forall n, n ∈ dep_nodes -> is_Some (nodes s !! n)) ->
  _link_heads py_int dep_nodes multi_word_nodes copy_of s =
  let* s1 := link_heads_nodes py_int dep_nodes (heads_of s dep_nodes) copy_of s in
  link_multi_words dep_nodes multi_word_nodes s1.
Proof.
  intros Hvalid. unfold _link_heads.
  match goal with
  | |- context [bind (?f dep_nodes) _] =>
      assert (Hkeep : forall ns, (forall n, n ∈ ns -> is_Some (nodes s !! n)) ->
                f ns = Ok (heads_of s ns))
  end.
  { induction ns as [|n ns IH]; intros Hv; [reflexivity|].
    destruct (Hv n ltac:(left)) as (N & HN). rewrite (get_node_Some _ _ _ HN). cbn [bind].
    rewrite IH by (intros m Hm; apply Hv; now right). cbn [bind].
    unfold heads_of. rewrite filter_cons. rewrite HN. cbn [fmap option_fmap option_map].
    destruct (is_head N).
    - now rewrite decide_True by reflexivity.
    - now rewrite decide_False by discriminate. }
  now rewrite (Hkeep dep_nodes Hvalid).
Qed.

(** [_link_heads] with one multi-word node [m] of the span [(a, b)],
    [0 <= a], on a sentence whose incoming edges are there once each, have
    no head yet and hold integer head indices inside the bounds of
    [heads]: the first loop links the edges as it does without multi-word
    nodes (the store [s1]: heads set, [outgoing] lists grown, head indices
    rewritten, all else kept).  Then a span that ends beyond the list makes
    the call raise [IndexError]; a span inside the list makes it return
    [s1] with [m] as the [parent_multi_word] of [dep_nodes[a]], ...,
    [dep_nodes[b]] and no other difference. *)
Theorem link_heads_multi_word_span py_int dep_nodes copy_of m M a b s :
  (forall n, n ∈ dep_nodes -> is_Some (nodes s !! n)) ->
  NoDup (incoming_of s dep_nodes) ->
  (forall e, e ∈ incoming_of s dep_nodes -> pending (heads_of s dep_nodes) s e) ->
  nodes s !! m = Some M -> span M = Some [a; b] -> 0 <= a ->
  exists s1,
    _link_heads py_int dep_nodes [] copy_of s = Ok s1 /\
    node_kept s s1 /\
    (forall e E, edges s !! e = Some E -> e ∉ incoming_of s dep_nodes ->
                 edges s1 !! e = Some E) /\
    (forall e, e ∈ incoming_of s dep_nodes -> linked (heads_of s dep_nodes) s s1 e) /\
    (a <= b -> Z.of_nat (length dep_nodes) <= b ->
     _link_heads py_int dep_nodes [m] copy_of s = Raise IndexError) /\
    (b < Z.of_nat (length dep_nodes) ->
     exists s',
       _link_heads py_int dep_nodes [m] copy_of s = Ok s' /\ edges s' = edges s1 /\
       forall n, nodes s' !! n =
         if bool_decide (n ∈ span_nodes dep_nodes a b)
         then with_parent_multi_word (Some m) <$> nodes s1 !! n
         else nodes s1 !! n).
Proof.
  intros Hvalid Hnd Hpend HM Hspan Ha.
  rewrite !(link_heads_unfold py_int dep_nodes _ copy_of s Hvalid).
  destruct (link_heads_nodes_spec py_int (heads_of s dep_nodes) copy_of dep_nodes s Hnd Hvalid)
    as (s1 & -> & Hk & Hother & Hlinked).
  { intros h Hh. apply list_elem_of_filter in Hh as (_ & Hh). auto. }
  { assumption. }
  cbn [bind]. exists s1. split; [reflexivity|]. split; [assumption|].
  split; [assumption|]. split; [assumption|].
  destruct (Hk m M HM) as (M1 & HM1 & Hst & _).
  assert (Hspan1 : span M1 = Some [a; b]).
  { change (span (with_outgoing [] M1) = Some [a; b]). now rewrite Hst. }
  assert (Hvalid1 : forall n, n ∈ dep_nodes -> is_Some (nodes s1 !! n)).
  { intros n Hn. destruct (Hvalid n Hn) as (N & HN).
    destruct (Hk n N HN) as (N' & HN' & _). eauto. }
  exact (link_multi_words_spec dep_nodes m M1 a b s1 HM1 Hspan1 Ha Hvalid1).
Qed.

Lemma ex_unlinked_multi_word_valid :
  forall n, n ∈ [0; 1; 2]%nat -> is_Some (nodes ex_unlinked_multi_word !! n).
Proof.
  intros n Hn. repeat (apply elem_of_cons in Hn as [->|Hn]; [eexists; reflexivity|]).
  now apply elem_of_nil in Hn.
Qed.

Lemma ex_unlinked_multi_word_incoming :
  incoming_of ex_unlinked_multi_word [0; 1; 2]%nat = [0; 1]%nat.
Proof. reflexivity. Qed.

Lemma ex_unlinked_multi_word_heads :
  heads_of ex_unlinked_multi_word [0; 1; 2]%nat = [0; 1; 2]%nat.
Proof. reflexivity. Qed.

Lemma ex_unlinked_multi_word_nodup :
  NoDup (incoming_of ex_unlinked_multi_word [0; 1; 2]%nat).
Proof.
  rewrite ex_unlinked_multi_word_incoming. apply NoDup_cons. split; [|apply NoDup_singleton].
  intros Hin. apply list_elem_of_singleton in Hin. discriminate.
Qed.

Lemma ex_unlinked_multi_word_pending e :
  e ∈ incoming_of ex_unlinked_multi_word [0; 1; 2]%nat ->
  pending (heads_of ex_unlinked_multi_word [0; 1; 2]%nat) ex_unlinked_multi_word e.
Proof.
  rewrite ex_unlinked_multi_word_incoming, ex_unlinked_multi_word_heads. intros He.
  apply elem_of_cons in He as [->|He].
  - exists (mkEdge (HInt 0) "root" false None (Some 1%nat)), 0.
    repeat (split; [reflexivity|]). cbn [length]. lia.
  - apply list_elem_of_singleton in He. subst e.
    exists (mkEdge (HInt 1) "nsubj" false None (Some 2%nat)), 1.
    repeat (split; [reflexivity|]). cbn [length]. lia.
Qed.

(** Instance: in the sentence root, "sleeps", "cat" with a multi-word
    token over both words, the two edges are linked and the token becomes
    the parent of both words and not of the root. *)
Lemma link_heads_multi_word_span_witness :
  exists s',
    _link_heads (fun _ => Raise ValueError) [0; 1; 2]%nat [3%nat] [] ex_unlinked_multi_word
      = Ok s' /\
    (_head <$> edges s' !! 0%nat) = Some (Some 0%nat) /\
    (_head <$> edges s' !! 1%nat) = Some (Some 1%nat) /\
    (parent_multi_word <$> nodes s' !! 0%nat) = Some None /\
    (parent_multi_word <$> nodes s' !! 1%nat) = Some (Some 3%nat) /\
    (parent_multi_word <$> nodes s' !! 2%nat) = Some (Some 3%nat).
Proof.
  destruct (link_heads_multi_word_span (fun _ => Raise ValueError) [0; 1; 2]%nat []
              3%nat _ 1 2 ex_unlinked_multi_word ex_unlinked_multi_word_valid
              ex_unlinked_multi_word_nodup ex_unlinked_multi_word_pending
              eq_refl eq_refl ltac:(lia))
    as (s1 & Hrun1 & _ & _ & _ & _ & Hok).
  destruct (Hok ltac:(vm_compute; reflexivity)) as (s' & Hrun & _ & _).
  exists s'. split; [exact Hrun|].
  vm_compute in Hrun. injection Hrun as <-. vm_compute. auto 6.
Defined.

(** ** Which node [preprocess] makes the root *)

Section Root.

Variables (Terminal : string) (is_ucca : bool).





Variable D : list node_id.




End Root.




